(** * AutoIt-VSCode: Map tracking, include closure and workspace symbols

    A shallow embedding of
      - [src/parsers/MapParser.js]            (module [MapParser]),
      - [src/services/MapTrackingService.js]  (module [MapTrackingService]),
      - [src/ai_workspaceSymbols.js]          (module [WorkspaceSymbols]),
      - the include resolver used by the service (module [IncludeResolver]),
    followed by the properties of these functions.

    Conventions.  A JavaScript string is a [string]; its characters are the
    code units 0..255.  Line numbers are [Z]; the one non-integer number the
    code computes with, [Infinity], is the constructor [Infinity] of [num].
    A regular expression literal is a term of type [regex], run by the
    backtracking matcher [rmatch], which follows the order in which a
    JavaScript engine explores alternatives and repetitions. *)

From Stdlib Require Import String Ascii List ZArith Lia Bool Sorted.
From stdpp Require Import gmap strings list sorting.
Import ListNotations.

Set Warnings "-register-all".

Open Scope string_scope.
Open Scope list_scope.
Open Scope Z_scope.

(** ** Characters *)

Module Char.

Definition code (c : ascii) : nat := nat_of_ascii c.

Definition between (lo hi : nat) (c : ascii) : bool :=
  (lo <=? code c)%nat && (code c <=? hi)%nat.

Definition isChar (d c : ascii) : bool := Ascii.eqb c d.

Definition LF : ascii := "010"%char.
Definition CR : ascii := "013"%char.
Definition dquote : ascii := "034"%char.
Definition squote : ascii := "039"%char.

(** [\s], and the characters [String.prototype.trim] strips: TAB, LF, VT,
    FF, CR, SP and NBSP. *)
Definition isWhiteSpace (c : ascii) : bool :=
  between 9 13 c || isChar " " c || (code c =? 160)%nat.

Definition isUpper (c : ascii) : bool := between 65 90 c.
Definition isLower (c : ascii) : bool := between 97 122 c.
Definition isDigit (c : ascii) : bool := between 48 57 c.

(** [[a-zA-Z_]] *)
Definition isIdentStart (c : ascii) : bool :=
  isLower c || isUpper c || isChar "_" c.

(** [\w] *)
Definition isWord (c : ascii) : bool :=
  isLower c || isUpper c || isDigit c || isChar "_" c.

(** [.] without the [s] flag: anything but a line terminator. *)
Definition isDot (c : ascii) : bool := negb (isChar LF c || isChar CR c).

(** The negated class of the two quote characters: any character that
    is neither a double nor a single quote. *)
Definition isKeyChar (c : ascii) : bool := negb (isChar dquote c || isChar squote c).

(** [toLowerCase] on one code unit: A-Z and the Latin-1 capitals
    (U+00C0..U+00DE without the multiplication sign) move up by 32. *)
Definition toLowerCase (c : ascii) : ascii :=
  if isUpper c || (between 192 222 c && negb (code c =? 215)%nat)
  then ascii_of_nat (code c + 32)
  else c.

(** Comparison of a pattern character with an input character under the
    [i] flag.  In the range 0..255 two code units have the same canonical
    (upper-case) form exactly when they have the same lower-case form. *)
Definition eqIgnoreCase (d c : ascii) : bool :=
  Ascii.eqb (toLowerCase c) (toLowerCase d).

(** Characters that are syntax in the source of a regular expression
    (besides [$], which the parser escapes). *)
Definition isPatternSyntax (c : ascii) : bool :=
  existsb (fun d => isChar d c)
    ["^"; "\"; "."; "*"; "+"; "?"; "("; ")"; "["; "]"; "{"; "}"; "|"]%char.

End Char.

(** ** Strings *)

Module Str.

Fixpoint map (f : ascii -> ascii) (s : string) : string :=
  match s with
  | EmptyString => EmptyString
  | String c s' => String (f c) (map f s')
  end.

Fixpoint forallb (p : ascii -> bool) (s : string) : bool :=
  match s with
  | EmptyString => true
  | String c s' => p c && forallb p s'
  end.

Definition toLowerCase (s : string) : string := map Char.toLowerCase s.

Fixpoint trimStart (s : string) : string :=
  match s with
  | EmptyString => EmptyString
  | String c s' => if Char.isWhiteSpace c then trimStart s' else s
  end.

Fixpoint trimEnd (s : string) : string :=
  match s with
  | EmptyString => EmptyString
  | String c s' =>
      match trimEnd s' with
      | EmptyString => if Char.isWhiteSpace c then EmptyString else String c EmptyString
      | t => String c t
      end
  end.

Definition trim (s : string) : string := trimEnd (trimStart s).

Definition startsWith (pre s : string) : bool := String.prefix pre s.

(** [s.split(sep)] for a one-character separator. *)
Fixpoint split (sep : ascii) (s : string) : list string :=
  match s with
  | EmptyString => [EmptyString]
  | String c s' =>
      if Ascii.eqb c sep then EmptyString :: split sep s'
      else match split sep s' with
           | h :: t => String c h :: t
           | [] => [String c EmptyString]
           end
  end.

(** [parts.join(sep)] *)
Fixpoint join (sep : string) (parts : list string) : string :=
  match parts with
  | [] => EmptyString
  | [p] => p
  | p :: rest => p +:+ sep +:+ join sep rest
  end.

(** A string literal between double quotes, as it appears in AutoIt
    source text. *)
Definition quoted (s : string) : string :=
  String Char.dquote (s +:+ String Char.dquote EmptyString).

Definition unlines (ls : list string) : string :=
  join (String Char.LF EmptyString) ls.

End Str.

(** ** Numbers: integers and [Infinity] *)

Inductive num : Type :=
| Fin (z : Z)
| Infinity.

Module Num.

Definition leb (a b : num) : bool :=
  match a, b with
  | Fin x, Fin y => x <=? y
  | Fin _, Infinity => true
  | Infinity, Fin _ => false
  | Infinity, Infinity => true
  end.

Definition ltb (a b : num) : bool := negb (leb b a).

(** [a - b] for an integer [b]. *)
Definition sub (a : num) (b : Z) : num :=
  match a with
  | Fin x => Fin (x - b)
  | Infinity => Infinity
  end.

End Num.

(** ** The insertion-ordered [Set] of strings *)

Module JSSet.

Definition t := list string.

Definition empty : t := [].

Definition has (x : string) (s : t) : bool := existsb (String.eqb x) s.

(** [s.add(x)]: a new value goes to the end of the iteration order, a
    value already present leaves the set as it is. *)
Definition add (x : string) (s : t) : t :=
  if has x s then s else s ++ [x].

(** [new Set(xs)] *)
Definition ofList (xs : list string) : t :=
  fold_left (fun s x => add x s) xs empty.

(** [Array.from(s)] *)
Definition toList (s : t) : list string := s.

End JSSet.

(** ** Regular expressions *)

Inductive regex : Type :=
| Eps
| Chars (p : ascii -> bool)
| Cat (r1 r2 : regex)
| Alt (r1 r2 : regex)
| Rep (greedy : bool) (r : regex)
| Group (i : nat) (r : regex).

Module RegExp.

(** The capture groups of a match in progress: group number and text. *)
Definition captures := list (nat * string).

Definition setGroup (i : nat) (v : string) (caps : captures) : captures :=
  (i, v) :: List.filter (fun e => negb (fst e =? i)%nat) caps.

Definition clearGroups (gs : list nat) (caps : captures) : captures :=
  List.filter (fun e => negb (existsb (Nat.eqb (fst e)) gs)) caps.

Fixpoint getGroup (i : nat) (caps : captures) : option string :=
  match caps with
  | [] => None
  | (j, v) :: rest => if (j =? i)%nat then Some v else getGroup i rest
  end.

Fixpoint groupsOf (r : regex) : list nat :=
  match r with
  | Eps | Chars _ => []
  | Cat r1 r2 | Alt r1 r2 => groupsOf r1 ++ groupsOf r2
  | Rep _ r1 => groupsOf r1
  | Group i r1 => i :: groupsOf r1
  end.

(** The text consumed between the input [s] and its suffix [rest]. *)
Definition consumed (s rest : string) : string :=
  substring 0 (String.length s - String.length rest)%nat s.

Section Matcher.
Context {A : Type}.

(** The rounds of a repetition.  [body] matches the repeated pattern
    once; [n] bounds the number of rounds.  A greedy repetition tries
    another round first and its continuation [k] when that fails, a lazy
    one the other way round; a round that consumes nothing is
    rejected. *)
Fixpoint rounds
         (body : string -> captures -> (string -> captures -> option A) -> option A)
         (greedy : bool) (k : string -> captures -> option A)
         (n : nat) (s : string) (caps : captures) {struct n} : option A :=
  match n with
  | O => k s caps
  | S n' =>
      let again (_ : unit) :=
        body s caps
          (fun s1 c1 =>
             if (String.length s1 <? String.length s)%nat
             then rounds body greedy k n' s1 c1 else None) in
      if greedy then
        match again tt with
        | Some a => Some a
        | None => k s caps
        end
      else
        match k s caps with
        | Some a => Some a
        | None => again tt
        end
  end.

(** [rmatch r s caps k] matches [r] at the front of [s] and hands the
    rest of the input to the continuation [k]; when [k] fails the
    matcher backtracks into [r].  The groups of the body of a repetition
    are cleared before each round.  One round consumes at least one
    character, so [String.length s] rounds are all a repetition can
    ever make. *)
Fixpoint rmatch (r : regex) (s : string) (caps : captures)
         (k : string -> captures -> option A) {struct r} : option A :=
  match r with
  | Eps => k s caps
  | Chars p =>
      match s with
      | String c s' => if p c then k s' caps else None
      | EmptyString => None
      end
  | Cat r1 r2 => rmatch r1 s caps (fun s1 c1 => rmatch r2 s1 c1 k)
  | Alt r1 r2 =>
      match rmatch r1 s caps k with
      | Some a => Some a
      | None => rmatch r2 s caps k
      end
  | Rep greedy r1 =>
      rounds (fun s0 c0 k0 => rmatch r1 s0 (clearGroups (groupsOf r1) c0) k0)
             greedy k (String.length s) s caps
  | Group i r1 =>
      rmatch r1 s caps (fun s1 c1 => k s1 (setGroup i (consumed s s1) c1))
  end.

End Matcher.

(** The result of a successful match: the captures and the input left
    after the match. *)
Record matched : Type := { groups : captures; rest : string }.

(** [line.match(re)] for a pattern that starts with [^] (no [m] flag): the
    match is tried at the start of the input only. *)
Definition exec (r : regex) (s : string) : option matched :=
  rmatch r s [] (fun s' caps => Some {| groups := caps; rest := s' |}).

(** [m[i]] *)
Definition group (i : nat) (m : matched) : string :=
  match getGroup i (groups m) with
  | Some v => v
  | None => EmptyString
  end.

(** [re.exec(s)] for a pattern without anchor: the leftmost match. *)
Fixpoint search (r : regex) (s : string) : option matched :=
  match exec r s with
  | Some m => Some m
  | None =>
      match s with
      | EmptyString => None
      | String _ s' => search r s'
      end
  end.

(** The loop [while ((m = re.exec(s)) !== null) { ... }] of a pattern with
    the [g] flag: the successive matches, each search resuming where the
    previous match ended.  The patterns used here never match the empty
    string; the loop of the embedding stops at a match that consumes
    nothing. *)
Fixpoint execAll (fuel : nat) (r : regex) (s : string) : list matched :=
  match fuel with
  | O => []
  | S fuel' =>
      match search r s with
      | Some m =>
          if (String.length (rest m) <? String.length s)%nat
          then m :: execAll fuel' r (rest m)
          else [m]
      | None => []
      end
  end.

(** *** Building patterns *)

Fixpoint seq (rs : list regex) : regex :=
  match rs with
  | [] => Eps
  | [r] => r
  | r :: rs' => Cat r (seq rs')
  end.

Definition star (r : regex) : regex := Rep true r.
Definition lazyStar (r : regex) : regex := Rep false r.
Definition plus (r : regex) : regex := Cat r (Rep true r).

(** One literal character. *)
Definition chr (c : ascii) : regex := Chars (Char.isChar c).

(** A literal text under the [i] flag. *)
Fixpoint textIgnoreCase (s : string) : regex :=
  match s with
  | EmptyString => Eps
  | String c s' => Cat (Chars (Char.eqIgnoreCase c)) (textIgnoreCase s')
  end.

Definition ws : regex := Chars Char.isWhiteSpace.
Definition word : regex := Chars Char.isWord.

End RegExp.

(** ** Arrays *)

Module Arr.

(** The pairs [(index, element)] that [forEach((element, index) => ...)]
    visits, in order. *)
Fixpoint entriesFrom {A : Type} (i : Z) (l : list A) : list (Z * A) :=
  match l with
  | [] => []
  | x :: l' => (i, x) :: entriesFrom (i + 1) l'
  end.

Definition entries {A : Type} (l : list A) : list (Z * A) := entriesFrom 0 l.

(** [l.indexOf(x)], [-1] when [x] does not occur. *)
Fixpoint indexOfFrom (i : Z) (x : string) (l : list string) : Z :=
  match l with
  | [] => -1
  | y :: l' => if String.eqb y x then i else indexOfFrom (i + 1) x l'
  end.

Definition indexOf (x : string) (l : list string) : Z := indexOfFrom 0 x l.

Definition includes (x : string) (l : list string) : bool :=
  existsb (String.eqb x) l.

Definition length {A : Type} (l : list A) : Z := Z.of_nat (List.length l).

End Arr.

(** ** src/parsers/MapParser.js *)

Inductive notationKind : Type := dot | bracket.

Module Declaration.
Record t : Type := { name : string; scope : string; line : Z }.
End Declaration.

Module KeyAssignment.
Record t : Type :=
  { key : string;
    line : Z;
    notation : notationKind;
    nested : list string;
    isDynamic : bool }.
End KeyAssignment.

Module FunctionBoundary.
Record t : Type :=
  { name : string;
    startLine : Z;
    endLine : Z;
    parameters : list string }.

Definition withEndLine (f : t) (e : Z) : t :=
  {| name := name f; startLine := startLine f; endLine := e;
     parameters := parameters f |}.
End FunctionBoundary.

Module ParameterKey.
Record t : Type := { key : string; line : Z; addedInFunction : bool }.
End ParameterKey.

Module FunctionKey.
Record t : Type := { key : string; addedInFunction : bool }.
End FunctionKey.

Module Keys.
(** The object [{ directKeys, functionKeys }]. *)
Record t : Type :=
  { directKeys : list string;
    functionKeys : list FunctionKey.t }.

Definition none : t := {| directKeys := []; functionKeys := [] |}.
End Keys.

(** A node of the tree of nested keys.  [children] is a plain object used
    as a map from key to node; it is kept as the list of its own properties
    in the order in which they were created. *)
Inductive NestedKeyNode : Type :=
  Node (key : string) (line : Z) (notation : notationKind)
       (children : list (string * NestedKeyNode))
       (isLeaf isDynamic : bool).

Module NestedKeyNode.
Definition t := NestedKeyNode.
Definition object : Type := list (string * NestedKeyNode).

Definition key (n : t) : string := let 'Node k _ _ _ _ _ := n in k.
Definition line (n : t) : Z := let 'Node _ l _ _ _ _ := n in l.
Definition notation (n : t) : notationKind := let 'Node _ _ x _ _ _ := n in x.
Definition children (n : t) : object := let 'Node _ _ _ c _ _ := n in c.
Definition isLeaf (n : t) : bool := let 'Node _ _ _ _ b _ := n in b.
Definition isDynamic (n : t) : bool := let 'Node _ _ _ _ _ b := n in b.

Definition withChildren (n : t) (c : object) : t :=
  let 'Node k l x _ lf dy := n in Node k l x c lf dy.
End NestedKeyNode.

(** How a call ends: it returns a value or throws. *)
Inductive exn : Type := TypeError.

Inductive completion (A : Type) : Type :=
| Normal (a : A)
| Throw (e : exn).
Arguments Normal {A} a.
Arguments Throw {A} e.

(** Plain objects created by an object literal inherit from
    [Object.prototype]; a property read looks there when the object has no
    own property of that name. *)
Module Obj.
Import NestedKeyNode.

(** The property names of [Object.prototype]. *)
Definition prototypeKeys : list string :=
  [ "constructor"; "__defineGetter__"; "__defineSetter__"; "hasOwnProperty";
    "__lookupGetter__"; "__lookupSetter__"; "isPrototypeOf";
    "propertyIsEnumerable"; "toString"; "valueOf"; "__proto__";
    "toLocaleString" ].

(** The value of [o[key]]: an own property (a node), a value inherited
    from [Object.prototype] (truthy, and without a property [children]),
    or [undefined]. *)
Inductive property : Type :=
| Own (n : NestedKeyNode)
| Inherited
| Undefined.

Fixpoint own (o : object) (key : string) : option NestedKeyNode :=
  match o with
  | [] => None
  | (k, n) :: o' => if String.eqb k key then Some n else own o' key
  end.

Definition get (o : object) (key : string) : property :=
  match own o key with
  | Some n => Own n
  | None => if Arr.includes key prototypeKeys then Inherited else Undefined
  end.

(** [o[key] = n] for a key that is not an own property yet. *)
Definition define (o : object) (key : string) (n : NestedKeyNode) : object :=
  o ++ [(key, n)].

(** The object [o] after the node under its own property [key] has been
    changed to [n]. *)
Fixpoint update (o : object) (key : string) (n : NestedKeyNode) : object :=
  match o with
  | [] => []
  | (k, m) :: o' =>
      if String.eqb k key then (k, n) :: o' else (k, m) :: update o' key n
  end.
End Obj.

Module MapParser.
Import RegExp.

(** The parser object.  Its third field, [functions], is a memo of
    [parseFunctionBoundaries], refilled whenever it is found empty; the
    embedding recomputes the boundaries instead. *)
Record t : Type := { source : string; lines : list string }.

Definition constructor (source : string) : t :=
  {| source := source; lines := Str.split Char.LF source |}.

Definition quote : regex :=
  Chars (fun c => Char.isChar Char.dquote c || Char.isChar Char.squote c).

Definition isComment (line : string) : bool :=
  Str.startsWith ";" (Str.trim line).

(** The pattern of a Map declaration: optional blanks, one of the four
    scope keywords, blanks, a variable name, and an empty pair of square
    brackets; flag [i]. *)
Definition mapDeclPattern : regex :=
  seq [ star ws;
        Group 1 (Alt (textIgnoreCase "Local")
                (Alt (textIgnoreCase "Global")
                (Alt (textIgnoreCase "Dim") (textIgnoreCase "Static"))));
        plus ws;
        Group 2 (seq [chr "$"; Chars Char.isIdentStart; star word]);
        star ws; chr "["; star ws; chr "]" ].

Definition parseMapDeclarations (p : t) : list Declaration.t :=
  flat_map
    (fun '(index, line) =>
       if isComment line then []
       else match exec mapDeclPattern line with
            | Some m =>
                [ {| Declaration.name := group 2 m;
                     Declaration.scope := group 1 m;
                     Declaration.line := index |} ]
            | None => []
            end)
    (Arr.entries (lines p)).

(** [escapedName]: the Map name with every [$] escaped, spliced into the
    source of a pattern with flag [i].  When the name holds no other
    character of pattern syntax, the spliced text matches the name itself,
    letter case ignored. *)
Definition escapedName (mapName : string) : regex := textIgnoreCase mapName.

(** The names for which [escapedName] is what [new RegExp] builds.  For
    any other name the constructor throws a SyntaxError or builds another
    pattern; the embedding does not follow the code there (see
    [parseKeyAssignments]). *)
Definition literalName (mapName : string) : bool :=
  Str.forallb (fun c => negb (Char.isPatternSyntax c)) mapName.

Definition dotPattern (mapName : string) : regex :=
  seq [ star ws; escapedName mapName; chr "."; Group 1 (plus word);
        star ws; chr "=" ].

Definition bracketPattern (mapName : string) : regex :=
  seq [ star ws; escapedName mapName; chr "["; quote;
        Group 1 (plus (Chars Char.isKeyChar)); quote; chr "]";
        star ws; chr "=" ].

Definition nestedPattern (mapName : string) : regex :=
  seq [ star ws; escapedName mapName;
        Group 1 (plus (seq [ chr "["; quote;
                             Group 2 (plus (Chars Char.isKeyChar));
                             quote; chr "]" ]));
        star ws; chr "=" ].

(** One bracketed, quoted key; flag [g]. *)
Definition keyPattern : regex :=
  seq [ chr "["; quote; Group 1 (plus (Chars Char.isKeyChar)); quote; chr "]" ].

Definition parseNestedKeyStructure (line mapName : string) : list string :=
  match exec (nestedPattern mapName) line with
  | None => []
  | Some m =>
      let keyChain := group 1 m in
      let keys :=
        List.map (group 1)
          (execAll (S (String.length keyChain)) keyPattern keyChain) in
      if 1 <? Arr.length keys then keys else []
  end.

Definition dynamicPattern (mapName : string) : regex :=
  seq [ star ws; escapedName mapName; chr "[";
        Group 1 (seq [chr "$"; Chars Char.isIdentStart; star word]);
        chr "]"; star ws; chr "=" ].

Definition parseDynamicKeysFromLine (line mapName : string) : list string :=
  match exec (dynamicPattern mapName) line with
  | Some m => [group 1 m]
  | None => []
  end.

(** The body of the [forEach] of [parseKeyAssignments]: what one line adds
    to [assignments]. *)
Definition lineAssignments (mapName : string) (index : Z) (line : string)
  : list KeyAssignment.t :=
  if isComment line then []
  else
    let nestedKeys := parseNestedKeyStructure line mapName in
    if 0 <? Arr.length nestedKeys then
      [ {| KeyAssignment.key := hd EmptyString nestedKeys;
           KeyAssignment.line := index;
           KeyAssignment.notation := bracket;
           KeyAssignment.nested := nestedKeys;
           KeyAssignment.isDynamic := false |} ]
    else
      let dynamicKeys := parseDynamicKeysFromLine line mapName in
      if 0 <? Arr.length dynamicKeys then
        List.map
          (fun dynKey =>
             {| KeyAssignment.key := dynKey;
                KeyAssignment.line := index;
                KeyAssignment.notation := bracket;
                KeyAssignment.nested := [];
                KeyAssignment.isDynamic := true |})
          dynamicKeys
      else
        match exec (dotPattern mapName) line with
        | Some dotMatch =>
            [ {| KeyAssignment.key := group 1 dotMatch;
                 KeyAssignment.line := index;
                 KeyAssignment.notation := dot;
                 KeyAssignment.nested := [];
                 KeyAssignment.isDynamic := false |} ]
        | None =>
            match exec (bracketPattern mapName) line with
            | Some bracketMatch =>
                [ {| KeyAssignment.key := group 1 bracketMatch;
                     KeyAssignment.line := index;
                     KeyAssignment.notation := bracket;
                     KeyAssignment.nested := [];
                     KeyAssignment.isDynamic := false |} ]
            | None => []
            end
        end.

(** [parseKeyAssignments(mapName)].  [None] stands for a call whose name
    is not a [literalName]: the patterns the code builds for it are not
    the ones of the embedding, and the construction may throw. *)
Definition parseKeyAssignments (p : t) (mapName : string)
  : option (list KeyAssignment.t) :=
  if literalName mapName then
    Some (flat_map (fun '(index, line) => lineAssignments mapName index line)
                   (Arr.entries (lines p)))
  else None.

(** [Func name(params)], flag [i]; the parameter text is matched lazily up
    to the first closing parenthesis. *)
Definition funcStartPattern : regex :=
  seq [ star ws; textIgnoreCase "Func"; plus ws; Group 1 (plus word);
        star ws; chr "("; Group 2 (lazyStar (Chars Char.isDot)); chr ")" ].

Definition funcEndPattern : regex :=
  seq [ star ws; textIgnoreCase "EndFunc" ].

Definition parseParameters (paramsStr : string) : list string :=
  match paramsStr with
  | EmptyString => []
  | _ =>
      List.map
        (fun p => Str.trim (hd EmptyString (Str.split "=" (Str.trim p))))
        (Str.split "," paramsStr)
  end.

(** The state of the scan of [parseFunctionBoundaries]: the boundaries
    pushed so far and [currentFunc]. *)
Definition scanState : Type :=
  (list FunctionBoundary.t * option FunctionBoundary.t)%type.

Definition scanFunctionLine (st : scanState) (e : Z * string) : scanState :=
  let '(functions, currentFunc) := st in
  let '(index, line) := e in
  match exec funcStartPattern line with
  | Some funcStart =>
      let paramsStr := Str.trim (group 2 funcStart) in
      (functions,
       Some {| FunctionBoundary.name := group 1 funcStart;
               FunctionBoundary.startLine := index;
               FunctionBoundary.endLine := -1;
               FunctionBoundary.parameters := parseParameters paramsStr |})
  | None =>
      match exec funcEndPattern line, currentFunc with
      | Some _, Some f =>
          (functions ++ [FunctionBoundary.withEndLine f index], None)
      | _, _ => st
      end
  end.

Definition parseFunctionBoundaries (p : t) : list FunctionBoundary.t :=
  fst (fold_left scanFunctionLine (Arr.entries (lines p)) ([], None)).

Definition getFunctionAtLine (p : t) (line : num) : option FunctionBoundary.t :=
  List.find
    (fun func =>
       Num.leb (Fin (FunctionBoundary.startLine func)) line
       && Num.leb line (Fin (FunctionBoundary.endLine func)))
    (parseFunctionBoundaries p).

Definition isScope (kw : string) (decl : Declaration.t) : bool :=
  String.eqb (Str.toLowerCase (Declaration.scope decl)) kw.

(** The state of the declaration loop of [getKeysForMapAtLine]:
    [closestDecl] and [closestDistance]. *)
Definition selection : Type := (option Declaration.t * num)%type.

(** One round of the loop [for (const decl of declarations)]. *)
Definition considerDeclaration (p : t) (mapName : string) (targetLine : num)
           (currentFunc : option FunctionBoundary.t)
           (st : selection) (decl : Declaration.t) : selection :=
  let '(closestDecl, closestDistance) := st in
  let takeIfCloser :=
    let distance := Num.sub targetLine (Declaration.line decl) in
    if Num.leb distance closestDistance then (Some decl, distance) else st in
  if negb (String.eqb (Str.toLowerCase (Declaration.name decl))
                      (Str.toLowerCase mapName)) then st
  else if Num.ltb targetLine (Fin (Declaration.line decl)) then st
  else
    let declFunc := getFunctionAtLine p (Fin (Declaration.line decl)) in
    match currentFunc with
    | Some cur =>
        match declFunc with
        | Some df =>
            if String.eqb (FunctionBoundary.name df) (FunctionBoundary.name cur)
            then takeIfCloser else st
        | None =>
            if isScope "global" decl then
              match closestDecl with
              | None => takeIfCloser
              | Some c => if negb (isScope "local" c) then takeIfCloser else st
              end
            else st
        end
    | None =>
        match declFunc with
        | None => takeIfCloser
        | Some _ => st
        end
    end.

Definition closestDeclaration (p : t) (mapName : string) (targetLine : num)
  : option Declaration.t :=
  fst (fold_left
         (considerDeclaration p mapName targetLine (getFunctionAtLine p targetLine))
         (parseMapDeclarations p) (None, Infinity)).

(** One round of the loop [for (const assignment of assignments)]. *)
Definition collectKey (p : t) (targetLine : num)
           (currentFunc : option FunctionBoundary.t) (closestDecl : Declaration.t)
           (validKeys : JSSet.t) (assignment : KeyAssignment.t) : JSSet.t :=
  if Num.leb targetLine (Fin (KeyAssignment.line assignment)) then validKeys
  else
    let assignFunc := getFunctionAtLine p (Fin (KeyAssignment.line assignment)) in
    match currentFunc with
    | Some cur =>
        match assignFunc with
        | Some af =>
            if String.eqb (FunctionBoundary.name af) (FunctionBoundary.name cur)
            then JSSet.add (KeyAssignment.key assignment) validKeys
            else validKeys
        | None =>
            if isScope "global" closestDecl
            then JSSet.add (KeyAssignment.key assignment) validKeys
            else validKeys
        end
    | None =>
        match assignFunc with
        | None => JSSet.add (KeyAssignment.key assignment) validKeys
        | Some _ => validKeys
        end
    end.

Definition getFunctionParameterKeys (p : t) (functionName parameterName : string)
  : option (list ParameterKey.t) :=
  match List.find (fun f => String.eqb (FunctionBoundary.name f) functionName)
                  (parseFunctionBoundaries p) with
  | None => Some []
  | Some func =>
      if negb (Arr.includes parameterName (FunctionBoundary.parameters func))
      then Some []
      else
        assignments ← parseKeyAssignments p parameterName;
        Some (List.map
                (fun a =>
                   {| ParameterKey.key := KeyAssignment.key a;
                      ParameterKey.line := KeyAssignment.line a;
                      ParameterKey.addedInFunction := true |})
                (List.filter
                   (fun a =>
                      (FunctionBoundary.startLine func <=? KeyAssignment.line a)
                      && (KeyAssignment.line a <=? FunctionBoundary.endLine func))
                   assignments))
  end.

(** A call statement: blanks, a name, an argument list matched lazily up
    to the first closing parenthesis; no flag. *)
Definition functionCallPattern : regex :=
  seq [ star ws; Group 1 (plus word); star ws; chr "(";
        Group 2 (lazyStar (Chars Char.isDot)); chr ")" ].

(** The state of the scan of [getKeysFromFunctionCalls]: [keys] and
    [seenKeys]. *)
Definition callScan : Type := (list FunctionKey.t * JSSet.t)%type.

Definition pushUnseen (st : callScan) (k : ParameterKey.t) : callScan :=
  let '(keys, seenKeys) := st in
  if negb (JSSet.has (ParameterKey.key k) seenKeys) then
    (keys ++ [ {| FunctionKey.key := ParameterKey.key k;
                  FunctionKey.addedInFunction := true |} ],
     JSSet.add (ParameterKey.key k) seenKeys)
  else st.

Definition scanCallLine (p : t) (mapName : string) (targetLine : num)
           (st : option callScan) (e : Z * string) : option callScan :=
  st ← st;
  let '(index, line) := e in
  if Num.leb targetLine (Fin index) then Some st
  else
    match exec functionCallPattern line with
    | None => Some st
    | Some m =>
        let funcName := group 1 m in
        let args := List.map Str.trim (Str.split "," (group 2 m)) in
        let argIndex := Arr.indexOf mapName args in
        if argIndex =? -1 then Some st
        else
          match List.find (fun f => String.eqb (FunctionBoundary.name f) funcName)
                          (parseFunctionBoundaries p) with
          | None => Some st
          | Some func =>
              match FunctionBoundary.parameters func !! Z.to_nat argIndex with
              | None => Some st
              | Some paramName =>
                  paramKeys ← getFunctionParameterKeys p funcName paramName;
                  Some (fold_left pushUnseen paramKeys st)
              end
          end
    end.

Definition getKeysFromFunctionCalls (p : t) (mapName : string) (targetLine : num)
  : option (list FunctionKey.t) :=
  st ← fold_left (scanCallLine p mapName targetLine)
                 (Arr.entries (lines p)) (Some ([], JSSet.empty));
  Some (fst st).

(** [getKeysForMapAtLine(mapName, targetLine, includeFunctionKeys)].
    [None] is inherited from [parseKeyAssignments]. *)
Definition getKeysForMapAtLine (p : t) (mapName : string) (targetLine : num)
           (includeFunctionKeys : bool) : option Keys.t :=
  let currentFunc := getFunctionAtLine p targetLine in
  match closestDeclaration p mapName targetLine with
  | None => Some {| Keys.directKeys := []; Keys.functionKeys := [] |}
  | Some closestDecl =>
      assignments ← parseKeyAssignments p mapName;
      let validKeys :=
        fold_left (collectKey p targetLine currentFunc closestDecl)
                  assignments JSSet.empty in
      functionKeys ←
        (if includeFunctionKeys
         then getKeysFromFunctionCalls p mapName targetLine
         else Some []);
      Some {| Keys.directKeys := JSSet.toList validKeys;
              Keys.functionKeys := functionKeys |}
  end.


(** The inner [assignment.nested.forEach((key, index) => ...)] of
    [buildNestedMapStructure].  The loop walks down the tree through the
    variable [current] and creates the nodes that are missing; here the
    walk returns the object [current] started from, as the loop leaves it.
    When [current[key]] is inherited from [Object.prototype], [current]
    becomes [undefined], and reading a property of it in the next round
    throws. *)
Fixpoint addChain (assignment : KeyAssignment.t) (keys : list string)
         (index : Z) (current : NestedKeyNode.object)
  : completion NestedKeyNode.object :=
  match keys with
  | [] => Normal current
  | key :: keys' =>
      match Obj.get current key with
      | Obj.Undefined =>
          let created :=
            Node key (KeyAssignment.line assignment)
                 (KeyAssignment.notation assignment) []
                 (index =? Arr.length (KeyAssignment.nested assignment) - 1)
                 false in
          match addChain assignment keys' (index + 1) [] with
          | Normal sub =>
              Normal (Obj.define current key
                        (NestedKeyNode.withChildren created sub))
          | Throw e => Throw e
          end
      | Obj.Own n =>
          match addChain assignment keys' (index + 1)
                         (NestedKeyNode.children n) with
          | Normal sub =>
              Normal (Obj.update current key (NestedKeyNode.withChildren n sub))
          | Throw e => Throw e
          end
      | Obj.Inherited =>
          match keys' with
          | [] => Normal current
          | _ :: _ => Throw TypeError
          end
      end
  end.

(** One round of [assignments.forEach(assignment => ...)]; the state is
    [root.children]. *)
Definition addAssignment (children : completion NestedKeyNode.object)
           (assignment : KeyAssignment.t) : completion NestedKeyNode.object :=
  match children with
  | Throw e => Throw e
  | Normal children =>
      if 0 <? Arr.length (KeyAssignment.nested assignment) then
        addChain assignment (KeyAssignment.nested assignment) 0 children
      else
        let key := KeyAssignment.key assignment in
        match Obj.get children key with
        | Obj.Undefined =>
            Normal (Obj.define children key
                      (Node key (KeyAssignment.line assignment)
                            (KeyAssignment.notation assignment) [] true
                            (KeyAssignment.isDynamic assignment || false)))
        | _ => Normal children
        end
  end.

(** [buildNestedMapStructure(mapName)]: the [children] of the root it
    returns. *)
Definition buildNestedMapStructure (p : t) (mapName : string)
  : option (completion NestedKeyNode.object) :=
  assignments ← parseKeyAssignments p mapName;
  Some (fold_left addAssignment assignments (Normal [])).

End MapParser.

(** ** The include resolver ([src/utils/IncludeResolver.js])

    The service imports this class; its source is not part of the files at
    hand, only its use by the service and its tests are. *)

Module IncludeResolver.

(** Modelled from the spec: the resolver object, which is missing from the
    sources.  It keeps the three values its constructor receives: the
    workspace root, the library search paths and the maximum include depth
    (the service reads [autoitIncludePaths] and [maxDepth] back). *)
Record t : Type :=
  { workspaceRoot : string;
    autoitIncludePaths : list string;
    maxDepth : Z }.

(** Modelled from the spec: the constructor of the missing class; it
    stores its arguments. *)
Definition constructor (workspaceRoot : string) (autoitIncludePaths : list string)
           (maxIncludeDepth : Z) : t :=
  {| workspaceRoot := workspaceRoot;
     autoitIncludePaths := autoitIncludePaths;
     maxDepth := maxIncludeDepth |}.

(** Modelled from the spec: the state of the traversal of the missing
    [resolveAllIncludes]: the visited-set keyed by resolved absolute path,
    the files resolved so far in the order of discovery, and the files
    whose text has been read to find their include directives. *)
Record walk : Type :=
  { visited : gset string;
    resolved : list string;
    opened : list string }.

(** Modelled from the spec: a file not yet in the visited-set is found; it
    enters the set and the result. *)
Definition discover (file : string) (w : walk) : walk :=
  {| visited := {[file]} ∪ visited w;
     resolved := resolved w ++ [file];
     opened := opened w |}.

(** Modelled from the spec: the text of a file is read to find its include
    directives. *)
Definition open (file : string) (w : walk) : walk :=
  {| visited := visited w;
     resolved := resolved w;
     opened := opened w ++ [file] |}.

Section Closure.

(** Modelled from the spec: the include graph, that is the resolved
    absolute paths of the include directives of a file, in the order of the
    directives (the file is read, its directives parsed and resolved, those
    that resolve to nothing dropped). *)
Variable includesOf : string -> list string.

(** Modelled from the spec: the traversal of the missing
    [resolveAllIncludes], depth first.  [hops] is the number of hops
    still allowed below [file].  An include not yet in the visited-set
    is added to the result and to the set, then expanded with one hop
    less; with no hop left a file is not read. *)
Fixpoint expand (hops : nat) (file : string) (w : walk) : walk :=
  match hops with
  | O => w
  | S hops' =>
      fold_left
        (fun w inc =>
           if decide (inc ∈ visited w) then w
           else expand hops' inc (discover inc w))
        (includesOf file) (open file w)
  end.

(** Modelled from the spec: the traversal starts with the entry file in the
    visited-set and nothing resolved. *)
Definition start (entry : string) : walk :=
  {| visited := {[entry]}; resolved := []; opened := [] |}.

(** Modelled from the spec: [resolveAllIncludes(entryPath)] of the
    missing class: the files found by the traversal from the entry
    file, which is itself in the visited-set from the start and so not
    part of the result. *)
Definition resolveAllIncludes (r : t) (entry : string) : list string :=
  resolved (expand (Z.to_nat (maxDepth r)) entry (start entry)).

(** Modelled from the spec: the files the traversal of
    [resolveAllIncludes] reads, in the order in which it reads them. *)
Definition filesRead (r : t) (entry : string) : list string :=
  opened (expand (Z.to_nat (maxDepth r)) entry (start entry)).

End Closure.

End IncludeResolver.

(** ** src/services/MapTrackingService.js *)

(** What reading a file gives: its text, or the message of the error the
    read fails with. *)
Inductive readResult : Type :=
| Content (source : string)
| ReadError (message : string).

Module MapTrackingService.

(** The service object.  [pendingParses] keeps the pending source per
    file (its timestamp left out); of [debouncedParseByFile] the set of
    files that own a debounced function is kept, the timers themselves
    are not part of the embedding. *)
Record t : Type :=
  { fileParsers : gmap string MapParser.t;
    includeResolver : IncludeResolver.t;
    workspaceRoot : string;
    pendingParses : gmap string string;
    parseDebounceMs : Z;
    ongoingParses : gset string;
    debouncedParseByFile : gset string }.

Definition withFileParsers (this : t) (m : gmap string MapParser.t) : t :=
  {| fileParsers := m;
     includeResolver := includeResolver this;
     workspaceRoot := workspaceRoot this;
     pendingParses := pendingParses this;
     parseDebounceMs := parseDebounceMs this;
     ongoingParses := ongoingParses this;
     debouncedParseByFile := debouncedParseByFile this |}.

(** The object a constructor call builds when no instance exists. *)
Definition create (workspaceRoot : string) (autoitIncludePaths : list string)
           (maxIncludeDepth : Z) : t :=
  {| fileParsers := ∅;
     includeResolver :=
       IncludeResolver.constructor workspaceRoot autoitIncludePaths maxIncludeDepth;
     workspaceRoot := workspaceRoot;
     pendingParses := ∅;
     parseDebounceMs := 500;
     ongoingParses := ∅;
     debouncedParseByFile := ∅ |}.

(** *** Methods of one service object *)

Definition updateConfiguration (this : t) (workspaceRoot : string)
           (autoitIncludePaths : list string) (maxIncludeDepth : Z) : t :=
  {| fileParsers := ∅;
     includeResolver :=
       IncludeResolver.constructor workspaceRoot autoitIncludePaths maxIncludeDepth;
     workspaceRoot := workspaceRoot;
     pendingParses := pendingParses this;
     parseDebounceMs := parseDebounceMs this;
     ongoingParses := ongoingParses this;
     debouncedParseByFile := debouncedParseByFile this |}.

Definition updateFile (this : t) (filePath source : string) : t :=
  withFileParsers this
    (<[filePath := MapParser.constructor source]> (fileParsers this)).

(** [_parseFile]: nothing happens while a parse of the file is going on;
    otherwise the parser is replaced and the file leaves [ongoingParses]
    and [pendingParses] again. *)
Definition _parseFile (this : t) (filePath source : string) : t :=
  if decide (filePath ∈ ongoingParses this) then this
  else
    {| fileParsers := <[filePath := MapParser.constructor source]> (fileParsers this);
       includeResolver := includeResolver this;
       workspaceRoot := workspaceRoot this;
       pendingParses := delete filePath (pendingParses this);
       parseDebounceMs := parseDebounceMs this;
       ongoingParses := ongoingParses this ∖ {[filePath]};
       debouncedParseByFile := debouncedParseByFile this |}.

(** [updateFileImmediate]: the pending timer of the file, if any, is
    cancelled (not part of the embedding), then the file is parsed. *)
Definition updateFileImmediate (this : t) (filePath source : string) : t :=
  _parseFile this filePath source.

Definition removeFile (this : t) (filePath : string) : t :=
  withFileParsers this (delete filePath (fileParsers this)).

Definition clear (this : t) : t := withFileParsers this ∅.

Definition getKeysForMap (this : t) (filePath mapName : string) (line : num)
  : option Keys.t :=
  match fileParsers this !! filePath with
  | None => Some {| Keys.directKeys := []; Keys.functionKeys := [] |}
  | Some parser => MapParser.getKeysForMapAtLine parser mapName line true
  end.

Definition getMapStructure (this : t) (filePath mapName : string)
  : option (completion NestedKeyNode.object) :=
  match fileParsers this !! filePath with
  | None => Some (Normal [])
  | Some parser => MapParser.buildNestedMapStructure parser mapName
  end.

Section Host.

(** The file system as the service sees it: the include graph the
    resolver walks, and the outcome of reading a file. *)
Variable includesOf : string -> list string.
Variable readFile : string -> readResult.

(** One line written by [console.warn]: the text and the message of the
    error. *)
Definition warning (includedFile message : string) : string * string :=
  ("[MapTrackingService] Failed to read included file " +:+ includedFile +:+ ":",
   message).

(** The state of the loop of [getKeysForMapWithIncludes]: the service,
    [allDirectKeys], [allFunctionKeys], and the console. *)
Record merge : Type :=
  { service : t;
    allDirectKeys : JSSet.t;
    allFunctionKeys : list FunctionKey.t;
    console : list (string * string) }.

(** The first part of a round: an included file without a cached parser
    is read and parsed.  [inr] carries the warning of a failed read. *)
Definition ensureParsed (this : t) (includedFile : string)
  : t + (string * string) :=
  match fileParsers this !! includedFile with
  | Some _ => inl this
  | None =>
      match readFile includedFile with
      | Content source => inl (updateFile this includedFile source)
      | ReadError message => inr (warning includedFile message)
      end
  end.

(** One round of [for (const includedFile of includedFiles)].  [None]
    is inherited from [getKeysForMap]. *)
Definition mergeIncluded (mapName : string) (st : option merge)
           (includedFile : string) : option merge :=
  st ← st;
  match ensureParsed (service st) includedFile with
  | inr w =>
      Some {| service := service st;
              allDirectKeys := allDirectKeys st;
              allFunctionKeys := allFunctionKeys st;
              console := console st ++ [w] |}
  | inl this =>
      includedKeys ← getKeysForMap this includedFile mapName Infinity;
      Some {| service := this;
              allDirectKeys :=
                fold_left (fun s key => JSSet.add key s)
                          (Keys.directKeys includedKeys) (allDirectKeys st);
              allFunctionKeys :=
                allFunctionKeys st ++ Keys.functionKeys includedKeys;
              console := console st |}
  end.

(** [getKeysForMapWithIncludes(filePath, mapName, line)], run without
    other calls in between: the merged keys, the service afterwards and
    the warnings written. *)
Definition getKeysForMapWithIncludes (this : t) (filePath mapName : string)
           (line : num) : option (Keys.t * t * list (string * string)) :=
  currentKeys ← getKeysForMap this filePath mapName line;
  let includedFiles :=
    IncludeResolver.resolveAllIncludes includesOf (includeResolver this) filePath in
  st ← fold_left (mergeIncluded mapName) includedFiles
         (Some {| service := this;
                  allDirectKeys := JSSet.ofList (Keys.directKeys currentKeys);
                  allFunctionKeys := Keys.functionKeys currentKeys;
                  console := [] |});
  Some ({| Keys.directKeys := JSSet.toList (allDirectKeys st);
           Keys.functionKeys := allFunctionKeys st |},
        service st, console st).

End Host.

(** *** The singleton *)

(** The objects of the class, by address, the static field [instance],
    and the console. *)
Record world : Type :=
  { heap : gmap nat t;
    instance : option nat;
    log : list string }.

Definition changedParametersWarning : string :=
  "[MapTrackingService] getInstance called with different parameters than initial instance. "
  +:+ "Use updateConfiguration() to modify singleton settings.".

(** A parameter with a default value: the default stands in for
    [undefined]. *)
Definition orDefault {A : Type} (d : A) (x : option A) : A :=
  match x with Some v => v | None => d end.

(** [new MapTrackingService(workspaceRoot, autoitIncludePaths,
    maxIncludeDepth)]: the address of the object the expression evaluates
    to, and the world afterwards. *)
Definition construct (workspaceRoot : option string)
           (autoitIncludePaths : option (list string))
           (maxIncludeDepth : option Z) (w : world) : nat * world :=
  match instance w with
  | Some existing => (existing, w)
  | None =>
      let this := fresh (dom (heap w)) in
      (this,
       {| heap := <[this := create (orDefault "" workspaceRoot)
                                   (orDefault [] autoitIncludePaths)
                                   (orDefault 3 maxIncludeDepth)]> (heap w);
          instance := Some this;
          log := log w |})
  end.

(** [a !== b] for an argument that may be [undefined]. *)
Definition differs {A : Type} `{EqDecision A} (x : option A) (stored : A) : bool :=
  match x with
  | Some v => bool_decide (v ≠ stored)
  | None => false
  end.

(** [MapTrackingService.getInstance(...)].  The include paths are compared
    through [JSON.stringify], which tells two arrays of strings apart
    exactly when they differ. *)
Definition getInstance (workspaceRoot' : option string)
           (autoitIncludePaths' : option (list string))
           (maxIncludeDepth' : option Z) (w : world) : nat * world :=
  match instance w with
  | None =>
      let '(this, w') := construct workspaceRoot' autoitIncludePaths' maxIncludeDepth' w in
      (this, {| heap := heap w'; instance := Some this; log := log w' |})
  | Some existing =>
      let hasChanges :=
        match heap w !! existing with
        | Some inst =>
            differs workspaceRoot' (workspaceRoot inst)
            || differs autoitIncludePaths'
                 (IncludeResolver.autoitIncludePaths (includeResolver inst))
            || differs maxIncludeDepth'
                 (IncludeResolver.maxDepth (includeResolver inst))
        | None => false
        end in
      (existing,
       if hasChanges
       then {| heap := heap w; instance := instance w;
               log := log w ++ [changedParametersWarning] |}
       else w)
  end.

Definition resetInstance (w : world) : world :=
  {| heap := heap w; instance := None; log := log w |}.

(** A method call on the object at address [this]. *)
Definition invoke (this : nat) (method : t -> t) (w : world) : world :=
  {| heap := alter method this (heap w); instance := instance w; log := log w |}.

(** The configuration of a service: what the constructor and
    [updateConfiguration] receive. *)
Definition configuration (s : t) : string * IncludeResolver.t :=
  (workspaceRoot s, includeResolver s).

(** The calls a client can make that change the state of the class or of
    one of its objects (the queries change nothing, and
    [getKeysForMapWithIncludes] is treated on its own above). *)
Inductive call : Type :=
| New (workspaceRoot : option string) (autoitIncludePaths : option (list string))
      (maxIncludeDepth : option Z)
| GetInstance (workspaceRoot : option string)
              (autoitIncludePaths : option (list string))
              (maxIncludeDepth : option Z)
| ResetInstance
| UpdateConfiguration (this : nat) (workspaceRoot : string)
                      (autoitIncludePaths : list string) (maxIncludeDepth : Z)
| UpdateFile (this : nat) (filePath source : string)
| UpdateFileImmediate (this : nat) (filePath source : string)
| RemoveFile (this : nat) (filePath : string)
| Clear (this : nat).

Definition perform (c : call) (w : world) : world :=
  match c with
  | New r ps d => snd (construct r ps d w)
  | GetInstance r ps d => snd (getInstance r ps d w)
  | ResetInstance => resetInstance w
  | UpdateConfiguration this r ps d =>
      invoke this (fun s => updateConfiguration s r ps d) w
  | UpdateFile this f src => invoke this (fun s => updateFile s f src) w
  | UpdateFileImmediate this f src =>
      invoke this (fun s => updateFileImmediate s f src) w
  | RemoveFile this f => invoke this (fun s => removeFile s f) w
  | Clear this => invoke this clear w
  end.

End MapTrackingService.

(** ** src/ai_workspaceSymbols.js *)

Module WorkspaceSymbols.

(** The editor types the module handles.  A file URI is kept as the
    string [uri.toString()] gives. *)
Inductive SymbolKind : Type := Variable_ | Key | OtherKind (n : Z).

Definition Range : Type := (Z * Z * Z * Z)%type.

Inductive DocumentSymbol : Type :=
  DocSymbol (name detail : string) (kind : SymbolKind) (range : Range)
            (children : list DocumentSymbol).

Record SymbolInformation : Type :=
  { name : string;
    kind : SymbolKind;
    containerName : string;
    location : string * Range }.

(** An element of the array [provideDocumentSymbols] returns: a
    [DocumentSymbol] (it has a property [children]) or a
    [SymbolInformation]. *)
Inductive providedSymbol : Type :=
| Doc (d : DocumentSymbol)
| Info (i : SymbolInformation).

(** What [provideDocumentSymbols] returns: an array, or some other
    value. *)
Inductive provided : Type :=
| Symbols (l : list providedSymbol)
| NotAnArray.

Definition isMap (kind : SymbolKind) (detail : string) : bool :=
  match kind with
  | Variable_ => String.eqb detail "Map"
  | _ => false
  end.

(** [extractKeyChildren] for one key symbol: the key, then the keys
    below it. *)
Fixpoint extractKey (uri containerName : string) (keySymbol : DocumentSymbol)
  : list SymbolInformation :=
  let 'DocSymbol name _ _ range children := keySymbol in
  {| name := name; kind := Key; containerName := containerName;
     location := (uri, range) |}
  :: flat_map (extractKey uri containerName) children.

Definition extractKeyChildren (keySymbols : list DocumentSymbol)
           (uri containerName : string) (results : list SymbolInformation)
  : list SymbolInformation :=
  results ++ flat_map (extractKey uri containerName) keySymbols.

Definition extractMapKeySymbols (symbol : DocumentSymbol) (uri : string)
           (results : list SymbolInformation) : list SymbolInformation :=
  let 'DocSymbol name detail kind range children := symbol in
  if isMap kind detail then
    extractKeyChildren children uri name
      (results ++ [ {| name := name; kind := Variable_; containerName := "";
                       location := (uri, range) |} ])
  else results.

(** One round of [symbols.forEach(symbol => ...)]: what the symbol adds
    to [flatSymbols]. *)
Definition flattenSymbol (file : string) (flatSymbols : list SymbolInformation)
           (symbol : providedSymbol) : list SymbolInformation :=
  match symbol with
  | Info i => flatSymbols ++ [i]
  | Doc (DocSymbol name detail kind range children as d) =>
      if isMap kind detail then extractMapKeySymbols d file flatSymbols
      else
        flatSymbols
        ++ [ {| name := name; kind := kind; containerName := detail;
                location := (file, range) |} ]
        ++ List.map
             (fun child =>
                let 'DocSymbol cname _ ckind crange _ := child in
                {| name := cname; kind := ckind; containerName := name;
                   location := (file, crange) |})
             children
  end.

(** [files.slice(start, end)] *)
Definition slice {A : Type} (start stop : Z) (l : list A) : list A :=
  let len := Arr.length l in
  let clamp (i : Z) := if i <? 0 then Z.max (len + i) 0 else Z.min i len in
  let from := clamp start in
  let to := clamp stop in
  firstn (Z.to_nat (to - from)) (skipn (Z.to_nat from) l).

(** What the user is shown. *)
Inductive message : Type :=
| TruncationWarning (maxFiles total : Z)
| ErrorMessage (text : string).

Section Host.

(** [provideDocumentSymbols(await workspace.openTextDocument(file))]:
    [None] when opening the document or computing its symbols throws. *)
Variable documentSymbols : string -> option provided.

(** [token?.isCancellationRequested] as read by the check that precedes
    the batch starting at index [i]. *)
Variable isCancellationRequested : Z -> bool.

(** The function mapped over a batch: the entry of the file, or [None]
    when the file is skipped. *)
Definition processFile (file : string)
  : option (string * list SymbolInformation) :=
  match documentSymbols file with
  | None => None
  | Some NotAnArray => Some (file, [])
  | Some (Symbols symbols) =>
      Some (file, fold_left (flattenSymbol file) symbols [])
  end.

(** The state of the loop of [processBatch]: the map [results], and the
    files handed to [openTextDocument] so far. *)
Record progress : Type :=
  { results : gmap string (list SymbolInformation);
    opened : list string }.

Definition addBatch (st : progress) (batch : list string) : progress :=
  {| results :=
       fold_left
         (fun results result =>
            match result with
            | Some (uri, symbols) => <[uri := symbols]> results
            | None => results
            end)
         (List.map processFile batch) (results st);
     opened := opened st ++ batch |}.

(** The loop [for (let i = 0; i < files.length; i += batchSize)], run
    for at most [fuel] rounds; [None] when the loop is still running
    after that. *)
Fixpoint batchLoop (fuel : nat) (files : list string) (batchSize : Z)
         (i : Z) (st : progress) : option progress :=
  match fuel with
  | O => None
  | S fuel' =>
      if i <? Arr.length files then
        if isCancellationRequested i then Some st
        else batchLoop fuel' files batchSize (i + batchSize)
                       (addBatch st (slice i (i + batchSize) files))
      else Some st
  end.

Definition processBatch (files : list string) (batchSize : Z)
  : option progress :=
  batchLoop (S (List.length files)) files batchSize 0
            {| results := ∅; opened := [] |}.

(** What a call of [getWorkspaceSymbols] does: the map it resolves to,
    the files it opened and the messages it showed. *)
Record outcome : Type :=
  { symbols : gmap string (list SymbolInformation);
    processed : list string;
    shown : list message }.

(** [getWorkspaceSymbols(token)] for the configured [maxFiles] and
    [batchSize]; [findFiles] is the list of scripts of the workspace, or
    the message of the error the search fails with. *)
Definition getWorkspaceSymbols (maxFiles batchSize : Z)
           (findFiles : list string + string) : option outcome :=
  match findFiles with
  | inr text =>
      Some {| symbols := ∅; processed := []; shown := [ErrorMessage text] |}
  | inl workspaceScripts =>
      let filesToProcess := slice 0 maxFiles workspaceScripts in
      let shown :=
        if maxFiles <? Arr.length workspaceScripts
        then [TruncationWarning maxFiles (Arr.length workspaceScripts)]
        else [] in
      st ← processBatch filesToProcess batchSize;
      Some {| symbols := results st; processed := opened st; shown := shown |}
  end.

End Host.

End WorkspaceSymbols.

(** * Vocabulary of the properties *)

Module FB := FunctionBoundary.

(** A list of line numbers that increases strictly. *)
Definition increasing (zs : list Z) : Prop := StronglySorted Z.lt zs.

(** [f] ends before [g] starts. *)
Definition apart (f g : FB.t) : Prop := FB.endLine f < FB.startLine g.

Definition spans (f : FB.t) (line : num) : bool :=
  Num.leb (Fin (FB.startLine f)) line && Num.leb line (Fin (FB.endLine f)).

(** The invariant of the scan of [parseFunctionBoundaries] before the line
    of index [i]: the pushed functions are closed, lie before [i] and follow
    one another; the open function started before [i], after all of them. *)
Definition scanInv (i : Z) (st : MapParser.scanState) : Prop :=
  StronglySorted apart (fst st)
  /\ Forall (fun f => FB.startLine f < FB.endLine f /\ FB.endLine f < i) (fst st)
  /\ match snd st with
     | Some c => FB.startLine c < i /\ Forall (fun f => FB.endLine f < FB.startLine c) (fst st)
     | None => True
     end.

Module D := Declaration.

(** The declaration has the queried name, letter case ignored. *)
Definition namesMatch (decl : D.t) (mapName : string) : bool :=
  String.eqb (Str.toLowerCase (D.name decl)) (Str.toLowerCase mapName).

(** A declaration of the queried name at or before the query line. *)
Definition candidate (mapName : string) (targetLine : num) (decl : D.t) : bool :=
  namesMatch decl mapName && Num.leb (Fin (D.line decl)) targetLine.

(** A candidate in a scope compatible with the query line: inside a
    function with the name of the function around the query line, or at top
    level with the keyword Global, when the query line is inside a function;
    at top level, when the query line is outside every function. *)
Definition inScope (p : MapParser.t) (mapName : string) (targetLine : num)
           (decl : D.t) : bool :=
  candidate mapName targetLine decl
  && match MapParser.getFunctionAtLine p targetLine,
           MapParser.getFunctionAtLine p (Fin (D.line decl)) with
     | Some cur, Some df => String.eqb (FB.name df) (FB.name cur)
     | Some _, None => MapParser.isScope "global" decl
     | None, None => true
     | None, Some _ => false
     end.

(** Whether the loop takes a declaration, given the declaration it holds. *)
Definition accepts (p : MapParser.t) (mapName : string) (targetLine : num)
           (closestDecl : option D.t) (decl : D.t) : bool :=
  inScope p mapName targetLine decl
  && match MapParser.getFunctionAtLine p targetLine,
           MapParser.getFunctionAtLine p (Fin (D.line decl)) with
     | Some _, None =>
         match closestDecl with
         | None => true
         | Some c => negb (MapParser.isScope "local" c)
         end
     | _, _ => true
     end.

(** The states the declaration loop can be in after the declarations
    [seen]: nothing chosen at distance [Infinity], or one of [seen] chosen at
    its distance from the query line. *)
Definition selected (targetLine : num) (seen : list D.t) (st : MapParser.selection) : Prop :=
  st = (None, Infinity)
  \/ exists d, In d seen /\ st = (Some d, Num.sub targetLine (D.line d)).

Module KA := KeyAssignment.

(** *** The four rules of [parseKeyAssignments], in the words of the
    specification: what each rule makes of a line, when it applies. *)

(** The keys of a bracket chain after the name, when the line is such a
    chain followed by an equals sign. *)
Definition chainKeys (line mapName : string) : option (list string) :=
  match RegExp.exec (MapParser.nestedPattern mapName) line with
  | Some m =>
      let keyChain := RegExp.group 1 m in
      Some (List.map (RegExp.group 1)
              (RegExp.execAll (S (String.length keyChain)) MapParser.keyPattern keyChain))
  | None => None
  end.

(** Rule 1: a chain of at least two quoted keys; one assignment that
    carries the whole chain. *)
Definition nestedRule (mapName : string) (index : Z) (line : string) : option KA.t :=
  match chainKeys line mapName with
  | Some (k1 :: k2 :: ks) =>
      Some {| KA.key := k1; KA.line := index; KA.notation := bracket;
              KA.nested := k1 :: k2 :: ks; KA.isDynamic := false |}
  | _ => None
  end.

(** Rule 2: a variable between the brackets. *)
Definition dynamicRule (mapName : string) (index : Z) (line : string) : option KA.t :=
  match RegExp.exec (MapParser.dynamicPattern mapName) line with
  | Some m =>
      Some {| KA.key := RegExp.group 1 m; KA.line := index; KA.notation := bracket;
              KA.nested := []; KA.isDynamic := true |}
  | None => None
  end.

(** Rule 3: dot notation. *)
Definition dotRule (mapName : string) (index : Z) (line : string) : option KA.t :=
  match RegExp.exec (MapParser.dotPattern mapName) line with
  | Some m =>
      Some {| KA.key := RegExp.group 1 m; KA.line := index; KA.notation := dot;
              KA.nested := []; KA.isDynamic := false |}
  | None => None
  end.

(** Rule 4: one quoted key between brackets. *)
Definition bracketRule (mapName : string) (index : Z) (line : string) : option KA.t :=
  match RegExp.exec (MapParser.bracketPattern mapName) line with
  | Some m =>
      Some {| KA.key := RegExp.group 1 m; KA.line := index; KA.notation := bracket;
              KA.nested := []; KA.isDynamic := false |}
  | None => None
  end.

(** The first rule of a list that applies. *)
Fixpoint firstApplicable {A : Type} (rules : list (option A)) : option A :=
  match rules with
  | [] => None
  | Some a :: _ => Some a
  | None :: rules' => firstApplicable rules'
  end.

(** The assignment of a line by priority: a comment line has none, any
    other line the one of the first rule that applies. *)
Definition assignmentByPriority (mapName : string) (index : Z) (line : string)
  : option KA.t :=
  if MapParser.isComment line then None
  else firstApplicable [ nestedRule mapName index line;
                         dynamicRule mapName index line;
                         dotRule mapName index line;
                         bracketRule mapName index line ].

Module IR := IncludeResolver.

(** [reaches includesOf n f g]: [g] is [n] include hops away from [f]. *)
Inductive reaches (includesOf : string -> list string) : nat -> string -> string -> Prop :=
| reaches_here (f : string) : reaches includesOf 0 f f
| reaches_hop (n : nat) (f g h : string) :
    reaches includesOf n f g -> In h (includesOf g) -> reaches includesOf (S n) f h.

(** What holds of a traversal from [entry] at any moment: the visited-set
    is the entry and the files resolved; no file is resolved twice, nor the
    entry; no file is read twice, and only visited files are read. *)
Definition tidy (entry : string) (w : IR.walk) : Prop :=
  (forall f, f ∈ IR.visited w <-> f = entry \/ In f (IR.resolved w))
  /\ NoDup (IR.resolved w)
  /\ ~ In entry (IR.resolved w)
  /\ NoDup (IR.opened w)
  /\ (forall f, In f (IR.opened w) -> f ∈ IR.visited w).

(** What holds of a traversal from [entry] with at most [M] hops: a file
    resolved is between one and [M] hops away, a file read fewer than
    [M]. *)
Definition bounded (includesOf : string -> list string) (entry : string)
           (M : nat) (w : IR.walk) : Prop :=
  (forall f, In f (IR.resolved w) ->
             exists n, (1 <= n <= M)%nat /\ reaches includesOf n entry f)
  /\ (forall f, In f (IR.opened w) ->
                exists n, (n < M)%nat /\ reaches includesOf n entry f).

(** [w'] continues [w]. *)
Definition extends (w w' : IR.walk) : Prop :=
  IR.visited w ⊆ IR.visited w'
  /\ (forall f, In f (IR.opened w) -> In f (IR.opened w')).

(** The includes of the files read since [w] are all visited in [w']. *)
Definition covered (includesOf : string -> list string) (w w' : IR.walk) : Prop :=
  forall f, In f (IR.opened w') -> ~ In f (IR.opened w) ->
            forall g, In g (includesOf f) -> g ∈ IR.visited w'.

Module WS := WorkspaceSymbols.

(** The map [results] after the files [l] have been processed on top of
    the map [m]. *)
Definition absorb (documentSymbols : string -> option WS.provided)
           (m : gmap string (list WS.SymbolInformation)) (l : list string)
  : gmap string (list WS.SymbolInformation) :=
  fold_left
    (fun results result =>
       match result with
       | Some (uri, symbols) => <[uri := symbols]> results
       | None => results
       end)
    (List.map (WS.processFile documentSymbols) l) m.

(** A token that is never cancelled. *)
Definition neverCancelled (i : Z) : bool := false.

(** The distinct elements of a list, each at the place of its first
    occurrence. *)
Fixpoint firstOccurrences (l : list string) : list string :=
  match l with
  | [] => []
  | x :: l' => x :: List.filter (fun y => negb (String.eqb y x)) (firstOccurrences l')
  end.

Module MTS := MapTrackingService.

(** The parser [getKeysForMapWithIncludes] uses for an included file: the
    cached one, else the one made of the text read from disk; none when the
    file has no cached parser and cannot be read. *)
Definition parserFor (readFile : string -> readResult) (this : MTS.t) (f : string)
  : option MapParser.t :=
  match MTS.fileParsers this !! f with
  | Some p => Some p
  | None =>
      match readFile f with
      | Content source => Some (MapParser.constructor source)
      | ReadError _ => None
      end
  end.

(** What an included file contributes to the merge: the keys of the query
    at [Infinity] on its parser, nothing when the file is skipped. *)
Definition includedKeys (readFile : string -> readResult) (this : MTS.t)
           (mapName f : string) : option Keys.t :=
  match parserFor readFile this f with
  | Some parser => MapParser.getKeysForMapAtLine parser mapName Infinity true
  | None => Some Keys.none
  end.

(** The warning an included file causes: one when it has no cached parser
    and reading it fails. *)
Definition readWarnings (readFile : string -> readResult) (this : MTS.t) (f : string)
  : list (string * string) :=
  match MTS.fileParsers this !! f, readFile f with
  | None, ReadError message => [MTS.warning f message]
  | _, _ => []
  end.

(** The file parsers of [svc] are those of [this], and parsers of readable
    files that [this] had not cached. *)
Definition agrees (readFile : string -> readResult) (this svc : MTS.t) : Prop :=
  MTS.configuration svc = MTS.configuration this
  /\ forall f,
       MTS.fileParsers svc !! f = MTS.fileParsers this !! f
       \/ (MTS.fileParsers this !! f = None
           /\ exists source, readFile f = Content source
                /\ MTS.fileParsers svc !! f = Some (MapParser.constructor source)).

(** The declaration loop with the test on the distance left out. *)
Definition pickDeclaration (p : MapParser.t) (mapName : string) (targetLine : num)
  : option D.t :=
  fold_left (fun c d => if accepts p mapName targetLine c d then Some d else c)
            (MapParser.parseMapDeclarations p) None.

(** A query line at or after the end of the text. *)
Definition beyondEnd (p : MapParser.t) (targetLine : num) : Prop :=
  Num.leb (Fin (Arr.length (MapParser.lines p))) targetLine = true.

(** [blanksBefore s s']: [s'] is [s] without some blanks at its front. *)
Inductive blanksBefore : string -> string -> Prop :=
| blanks_none (s : string) : blanksBefore s s
| blanks_more (c : ascii) (s s' : string) :
    Char.isWhiteSpace c = true -> blanksBefore s s' -> blanksBefore (String c s) s'.

(** [demands r q]: whatever [r] matches starts with a character of the
    class [q]. *)
Definition demands (r : regex) (q : ascii -> bool) : Prop :=
  forall (A : Type) (s : string) (caps : RegExp.captures)
         (k : string -> RegExp.captures -> option A) (a : A),
    RegExp.rmatch r s caps k = Some a ->
    exists c s1, s = String c s1 /\ q c = true.

(** The first character of a line that is not a blank. *)
Definition firstChar (s : string) : option ascii :=
  match Str.trimStart s with
  | String c _ => Some c
  | EmptyString => None
  end.

Module NK := NestedKeyNode.

(** The node at a path of keys below an object. *)
Fixpoint lookupPath (o : NK.object) (path : list string) : option NK.t :=
  match path with
  | [] => None
  | k :: rest =>
      match Obj.own o k with
      | None => None
      | Some n =>
          match rest with
          | [] => Some n
          | _ :: _ => lookupPath (NK.children n) rest
          end
      end
  end.

(** Two nodes with the same key, line, notation and flags. *)
Definition sameFields (n n' : NK.t) : Prop :=
  NK.key n = NK.key n' /\ NK.line n = NK.line n' /\ NK.notation n = NK.notation n'
  /\ NK.isLeaf n = NK.isLeaf n' /\ NK.isDynamic n = NK.isDynamic n'.

(** Every node of [o] is still in [o'], at its path and with its fields. *)
Definition retains (o o' : NK.object) : Prop :=
  forall path n, lookupPath o path = Some n ->
                 exists n', lookupPath o' path = Some n' /\ sameFields n n'.

(** No key occurs twice among the children of a node, a child is stored
    under its own key, and a node without children is a leaf. *)
Inductive wellFormed : NK.object -> Prop :=
| wellFormed_object (o : NK.object) :
    NoDup (List.map fst o) ->
    (forall k n, In (k, n) o ->
                 NK.key n = k
                 /\ (NK.children n = [] -> NK.isLeaf n = true)
                 /\ wellFormed (NK.children n)) ->
    wellFormed o.

(** A key that is not the name of a property of [Object.prototype]. *)
Definition ordinaryKey (k : string) : bool := negb (Arr.includes k Obj.prototypeKeys).

(** The chain of keys of an assignment: its nested chain, or its one key. *)
Definition chainOf (a : KA.t) : list string :=
  match KA.nested a with
  | [] => [KA.key a]
  | _ :: _ => KA.nested a
  end.

Definition ordinary (a : KA.t) : bool := forallb ordinaryKey (chainOf a).

(** [isPrefix pre l]: the list [l] starts with [pre]. *)
Definition isPrefix (pre l : list string) : Prop := exists rest, l = pre ++ rest.

(** Every node of [o] lies on the chain of one of the assignments [l]. *)
Definition justified (l : list KA.t) (o : NK.object) : Prop :=
  forall path n, lookupPath o path = Some n ->
                 exists b, In b l /\ isPrefix path (chainOf b).

(** *** Texts of a flat Map, written out *)

(** A variable name: the dollar sign, a letter or underscore, word
    characters. *)
Definition isVariableName (name : string) : bool :=
  match name with
  | String d (String c t) =>
      Char.isChar "$" d && Char.isIdentStart c && Str.forallb Char.isWord t
  | _ => false
  end.

(** A key in dot notation: one or more word characters. *)
Definition isKeyName (k : string) : bool :=
  match k with
  | String c t => Char.isWord c && Str.forallb Char.isWord t
  | EmptyString => false
  end.

(** A text without line feed. *)
Definition oneLine (s : string) : bool :=
  Str.forallb (fun c => negb (Char.isChar Char.LF c)) s.

Definition declarationLine (name : string) : string := "Local " +:+ name +:+ "[]".

Definition assignmentLine (name : string) (e : string * string) : string :=
  name +:+ "." +:+ fst e +:+ " = " +:+ snd e.

(** An entry of a flat Map: a key in dot notation and a value on one line. *)
Definition entryOk (e : string * string) : Prop :=
  isKeyName (fst e) = true /\ oneLine (snd e) = true.

(** The text with a declaration of the Map [name] on its first line,
    followed by one line per entry (key, value) that assigns the value to
    the key in dot notation. *)
Definition flatMapText (name : string) (entries : list (string * string)) : string :=
  Str.unlines (declarationLine name :: List.map (assignmentLine name) entries).

(** *** Steps of the matcher *)

(** The end of the text, or a character a class rejects, stops a
    repetition of the class. *)
Definition stops (p : ascii -> bool) (s : string) : Prop :=
  match s with
  | EmptyString => True
  | String c _ => p c = false
  end.

(** One round of a repetition of a class. *)
Definition classRound {A : Type} (p : ascii -> bool) (s0 : string) (c0 : RegExp.captures)
           (k0 : string -> RegExp.captures -> option A) : option A :=
  RegExp.rmatch (Chars p) s0 (RegExp.clearGroups (RegExp.groupsOf (Chars p)) c0) k0.


(** The assignment the parser records for a key in dot notation. *)
Definition dotAssignment (index : Z) (key : string) : KA.t :=
  {| KA.key := key; KA.line := index; KA.notation := dot;
     KA.nested := []; KA.isDynamic := false |}.

(** * Example sources *)

(** Two definitions of a function named Load; the Map is declared in the
    first and used in the second. *)
Definition twoLoads : MapParser.t :=
  MapParser.constructor
    (Str.unlines ["Func Load()"; "  Local $mState[]"; "EndFunc";
                  "Func Load()"; "  $mState.ready = 1"; "EndFunc"]).

(** A global declaration, and a function with its own declaration. *)
Definition shadowed : MapParser.t :=
  MapParser.constructor
    (Str.unlines ["Global $mCfg[]"; "$mCfg.host = 1"; "Func Setup()";
                  "  Local $mCfg[]"; "  $mCfg.port = 80"; "EndFunc"]).


(** The include graph of two files that include each other. *)
Definition cycleAB (f : string) : list string :=
  if String.eqb f "/workspace/a.au3" then ["/workspace/b.au3"]
  else if String.eqb f "/workspace/b.au3" then ["/workspace/a.au3"]
  else [].

(** The include graph of a chain of four files. *)
Definition chain4 (f : string) : list string :=
  if String.eqb f "/workspace/level1.au3" then ["/workspace/level2.au3"]
  else if String.eqb f "/workspace/level2.au3" then ["/workspace/level3.au3"]
  else if String.eqb f "/workspace/level3.au3" then ["/workspace/level4.au3"]
  else [].

(** A workspace of three scripts of which the second cannot be opened. *)
Definition threeScripts : list string := ["file:///a.au3"; "file:///b.au3"; "file:///c.au3"].

Definition secondUnreadable (file : string) : option WS.provided :=
  if String.eqb file "file:///b.au3" then None else Some (WS.Symbols []).

(** One line for each rule of [parseKeyAssignments], and a comment. *)
Definition fourNotations : MapParser.t :=
  MapParser.constructor
    (Str.unlines
       [ "$mData[" +:+ Str.quoted "a" +:+ "][" +:+ Str.quoted "b" +:+ "] = 1";
         "$mData[$sKey] = 2";
         "$mData.name = 3";
         "$mData['id'] = 4";
         "; $mData.hidden = 5" ]).

(** A world with one service, the instance. *)
Definition oneInstance : MapTrackingService.world :=
  {| MapTrackingService.heap :=
       {[ 0%nat := MapTrackingService.create "/workspace" ["/autoit/include"] 3 ]};
     MapTrackingService.instance := Some 0%nat;
     MapTrackingService.log := [] |}.

(** A workspace of a main script with two includes, one of which is
    missing from the disk. *)
Definition mainIncludes (f : string) : list string :=
  if String.eqb f "/workspace/main.au3"
  then ["/workspace/lib.au3"; "/workspace/missing.au3"]
  else [].

Definition diskWithLib (f : string) : readResult :=
  if String.eqb f "/workspace/lib.au3"
  then Content (Str.unlines ["Global $mUser[]"; "$mUser.id = 1"; "$mUser.name = 2"])
  else ReadError "ENOENT: no such file or directory".

Definition mainTracked : MTS.t :=
  MTS.updateFile (MTS.create "/workspace" [] 3) "/workspace/main.au3"
    (Str.unlines ["#include " +:+ Str.quoted "lib.au3";
                  "#include " +:+ Str.quoted "missing.au3";
                  "Local $mUser[]"; "$mUser.name = 1"]).

(** The three lines of the end-to-end example of the specification. *)
Definition userMap : MapParser.t :=
  MapParser.constructor
    (Str.unlines ["Local $mUser[]"; "$mUser.name = " +:+ Str.quoted "John";
                  "$mUser.age = 30"]).

(** The end-to-end example of the specification for nested keys. *)
Definition nestedAB : MapParser.t :=
  MapParser.constructor
    ("$mData[" +:+ Str.quoted "a" +:+ "][" +:+ Str.quoted "b" +:+ "] = 1").

(** A flat key and a chain that use names of [Object.prototype]. *)
Definition flatConstructor : MapParser.t :=
  MapParser.constructor "$mData.constructor = 1".

Definition chainToString : MapParser.t :=
  MapParser.constructor
    ("$mData[" +:+ Str.quoted "toString" +:+ "][" +:+ Str.quoted "b" +:+ "] = 1").

(** * Further parts of the sources *)

(** ** The order of the properties of a plain object *)

Module Enumeration.

Definition digitValue (c : ascii) : option N :=
  if Char.isDigit c then Some (N.of_nat (Char.code c - 48)) else None.

(** The number a text of decimal digits writes. *)
Fixpoint decimal (acc : N) (s : string) : option N :=
  match s with
  | EmptyString => Some acc
  | String c s' =>
      match digitValue c with
      | Some d => decimal (10 * acc + d) s'
      | None => None
      end
  end.

(** A property name that is an array index: the canonical decimal text of
    an integer from zero up to two less than the thirty-second power of
    two. *)
Definition arrayIndex (k : string) : option N :=
  match k with
  | EmptyString => None
  | String c rest =>
      if Char.isChar "0" c && negb (String.eqb rest EmptyString) then None
      else
        match decimal 0 k with
        | Some n => if (n <? 4294967295)%N then Some n else None
        | None => None
        end
  end.

Fixpoint insertByIndex {A : Type} (n : N) (e : A) (l : list (N * A)) : list (N * A) :=
  match l with
  | [] => [(n, e)]
  | (m, x) :: l' =>
      if (n <? m)%N then (n, e) :: l else (m, x) :: insertByIndex n e l'
  end.

Definition sortByIndex {A : Type} (l : list (N * A)) : list (N * A) :=
  fold_left (fun sorted e => insertByIndex (fst e) (snd e) sorted) l [].

(** The own properties of a plain object in the order in which
    [Object.keys], [Object.values] and [Object.entries] list them: the
    array indices in increasing order, then the other names in the order
    in which they were created. *)
Definition enumerate {A : Type} (o : list (string * A)) : list (string * A) :=
  List.map snd
    (sortByIndex
       (flat_map (fun e => match arrayIndex (fst e) with
                           | Some n => [(n, e)]
                           | None => []
                           end) o))
  ++ List.filter (fun e => match arrayIndex (fst e) with
                           | Some _ => false
                           | None => true
                           end) o.

End Enumeration.

(** ** src/services/MapTrackingService.js: the structure of a Map with
    its includes *)

Module MapStructure.
Import NestedKeyNode.

(** One round of [Object.keys(source.children).forEach(key => ...)] in
    [_mergeMapStructures]: the key, the node of the source under it, and
    the merge of what lies below that node.  The state is
    [target.children].  When [target.children[key]] is inherited from
    [Object.prototype] the call recurs on the inherited value, which has no
    property [children]: reading a property of [undefined] throws as soon
    as the node of the source has a child. *)
Definition mergeKey (target : completion object)
           (step : string * (NestedKeyNode * (object -> completion object)))
  : completion object :=
  match target with
  | Throw e => Throw e
  | Normal children =>
      let '(key, (node, mergeBelow)) := step in
      match Obj.get children key with
      | Obj.Undefined => Normal (Obj.define children key node)
      | Obj.Own t =>
          match mergeBelow (NestedKeyNode.children t) with
          | Normal c => Normal (Obj.update children key (withChildren t c))
          | Throw e => Throw e
          end
      | Obj.Inherited =>
          match NestedKeyNode.children node with
          | [] => Normal children
          | _ :: _ => Throw TypeError
          end
      end
  end.

(** [_mergeMapStructures(target, source)] for a node [source]: what
    becomes of [target.children]. *)
Fixpoint mergeNode (source : NestedKeyNode) : object -> completion object :=
  let 'Node _ _ _ sourceChildren _ _ := source in
  let steps :=
    List.map (fun e => (fst e, (snd e, mergeNode (snd e)))) sourceChildren in
  fun targetChildren =>
    fold_left mergeKey (Enumeration.enumerate steps) (Normal targetChildren).

(** [_mergeMapStructures(target, source)] on the [children] of the two
    structures. *)
Definition _mergeMapStructures (target source : object) : completion object :=
  fold_left mergeKey
    (Enumeration.enumerate
       (List.map (fun e => (fst e, (snd e, mergeNode (snd e)))) source))
    (Normal target).

Section Host.

Variable includesOf : string -> list string.
Variable readFile : string -> readResult.

(** The state of the loop of [getMapStructureWithIncludes]: the service,
    [currentStructure.children] (or the exception thrown), and the
    console. *)
Record merge : Type :=
  { service : MapTrackingService.t;
    currentStructure : completion object;
    console : list (string * string) }.

(** The first part of a round: an included file without a cached parser
    is read and parsed at once. *)
Definition ensureParsed (this : MapTrackingService.t) (includedFile : string)
  : MapTrackingService.t + (string * string) :=
  match MapTrackingService.fileParsers this !! includedFile with
  | Some _ => inl this
  | None =>
      match readFile includedFile with
      | Content source =>
          inl (MapTrackingService.updateFileImmediate this includedFile source)
      | ReadError message => inr (MapTrackingService.warning includedFile message)
      end
  end.

(** One round of [for (const includedFile of includedFiles)]; nothing
    happens any more once an exception is thrown.  [None] is inherited from
    [getMapStructure]. *)
Definition mergeIncluded (mapName : string) (st : option merge)
           (includedFile : string) : option merge :=
  st ← st;
  match currentStructure st with
  | Throw _ => Some st
  | Normal current =>
      match ensureParsed (service st) includedFile with
      | inr w =>
          Some {| service := service st;
                  currentStructure := Normal current;
                  console := console st ++ [w] |}
      | inl this =>
          includedStructure ←
            MapTrackingService.getMapStructure this includedFile mapName;
          Some {| service := this;
                  currentStructure :=
                    match includedStructure with
                    | Normal included => _mergeMapStructures current included
                    | Throw e => Throw e
                    end;
                  console := console st |}
      end
  end.

(** [getMapStructureWithIncludes(filePath, mapName)], run without other
    calls in between: the [children] of the structure it resolves to (or
    the exception it rejects with), the service afterwards and the warnings
    written. *)
Definition getMapStructureWithIncludes (this : MapTrackingService.t)
           (filePath mapName : string) : option merge :=
  current ← MapTrackingService.getMapStructure this filePath mapName;
  fold_left (mergeIncluded mapName)
            (IncludeResolver.resolveAllIncludes
               includesOf (MapTrackingService.includeResolver this) filePath)
            (Some {| service := this; currentStructure := current; console := [] |}).

End Host.

End MapStructure.

(** ** src/services/MapTrackingService.js: debounced updates

    [debounce(func, wait)] returns a function that keeps one variable,
    [timeout], and hands a callback [later] to [setTimeout] of the host at
    each call.  The embedding keeps the host's pending timers in the
    world, each with the time at which it is due and with what its callback
    closes over. *)

Module Debounce.

(** A function [debounce] has returned: its variable [timeout] (a timer
    handle, or [undefined]) and its delay [wait].  Its [func] is, for every
    function the service makes, the arrow function that hands its arguments
    to [_parseFile]. *)
Record debounced : Type := { timeout : option nat; wait : Z }.

(** The callback [later] of one call of a debounced function: the file
    under which the function is kept in [debouncedParseByFile] (whose
    variable [timeout] the callback reads), and the arguments of the
    call. *)
Record later : Type := { owner : string; path : string; src : string }.

(** The service, the values of its map [debouncedParseByFile], and the
    host: the clock, the next timer handle and the pending timers. *)
Record world : Type :=
  { service : MapTrackingService.t;
    debouncedOf : gmap string debounced;
    now : Z;
    nextTimer : nat;
    timers : gmap nat (Z * later) }.

Definition withService (w : world) (s : MapTrackingService.t) : world :=
  {| service := s; debouncedOf := debouncedOf w; now := now w;
     nextTimer := nextTimer w; timers := timers w |}.

Definition withTimers (w : world) (ts : gmap nat (Z * later)) : world :=
  {| service := service w; debouncedOf := debouncedOf w; now := now w;
     nextTimer := nextTimer w; timers := ts |}.

(** [setTimeout(callback, delay)]: a new handle; the callback is due
    [delay] milliseconds from now. *)
Definition setTimeout (callback : later) (delay : Z) (w : world) : nat * world :=
  (nextTimer w,
   {| service := service w; debouncedOf := debouncedOf w; now := now w;
      nextTimer := S (nextTimer w);
      timers := <[nextTimer w := (now w + delay, callback)]> (timers w) |}).

(** [clearTimeout(handle)]: the timer is pending no more; nothing happens
    for [undefined] and for a timer that is not pending. *)
Definition clearTimeout (handle : option nat) (w : world) : world :=
  match handle with
  | Some id => withTimers w (delete id (timers w))
  | None => w
  end.

(** A call [debouncedFunction(path, src)] of the function kept under
    [file] (the caller has made sure that there is one). *)
Definition callDebounced (file path src : string) (w : world) : world :=
  match debouncedOf w !! file with
  | None => w
  | Some d =>
      let w1 := clearTimeout (timeout d) w in
      let '(id, w2) := setTimeout {| owner := file; path := path; src := src |} (wait d) w1 in
      {| service := service w2;
         debouncedOf := <[file := {| timeout := Some id; wait := wait d |}]> (debouncedOf w2);
         now := now w2; nextTimer := nextTimer w2; timers := timers w2 |}
  end.

(** [debouncedFunction.cancel()] *)
Definition cancel (file : string) (w : world) : world :=
  match debouncedOf w !! file with
  | None => w
  | Some d => clearTimeout (timeout d) w
  end.

(** The callback [later]: it clears the timer in [timeout], then calls
    [func] with the arguments of its call. *)
Definition runLater (callback : later) (w : world) : world :=
  let w1 := cancel (owner callback) w in
  withService w1
    (MapTrackingService._parseFile (service w1) (path callback) (src callback)).

(** [updateFileDebounced(filePath, source)] *)
Definition updateFileDebounced (filePath source : string) (w : world) : world :=
  let this := service w in
  let w1 :=
    if decide (filePath ∈ MapTrackingService.debouncedParseByFile this) then w
    else
      {| service :=
           {| MapTrackingService.fileParsers := MapTrackingService.fileParsers this;
              MapTrackingService.includeResolver := MapTrackingService.includeResolver this;
              MapTrackingService.workspaceRoot := MapTrackingService.workspaceRoot this;
              MapTrackingService.pendingParses := MapTrackingService.pendingParses this;
              MapTrackingService.parseDebounceMs := MapTrackingService.parseDebounceMs this;
              MapTrackingService.ongoingParses := MapTrackingService.ongoingParses this;
              MapTrackingService.debouncedParseByFile :=
                {[filePath]} ∪ MapTrackingService.debouncedParseByFile this |};
         debouncedOf :=
           <[filePath := {| timeout := None;
                            wait := MapTrackingService.parseDebounceMs this |}]>
             (debouncedOf w);
         now := now w; nextTimer := nextTimer w; timers := timers w |} in
  let this1 := service w1 in
  let w2 :=
    withService w1
      {| MapTrackingService.fileParsers := MapTrackingService.fileParsers this1;
         MapTrackingService.includeResolver := MapTrackingService.includeResolver this1;
         MapTrackingService.workspaceRoot := MapTrackingService.workspaceRoot this1;
         MapTrackingService.pendingParses :=
           <[filePath := source]> (MapTrackingService.pendingParses this1);
         MapTrackingService.parseDebounceMs := MapTrackingService.parseDebounceMs this1;
         MapTrackingService.ongoingParses := MapTrackingService.ongoingParses this1;
         MapTrackingService.debouncedParseByFile :=
           MapTrackingService.debouncedParseByFile this1 |} in
  callDebounced filePath filePath source w2.

(** [updateFileImmediate(filePath, source)], with the cancellation of the
    pending debounced parse. *)
Definition updateFileImmediate (filePath source : string) (w : world) : world :=
  let w1 :=
    if decide (filePath ∈ MapTrackingService.debouncedParseByFile (service w))
    then cancel filePath w else w in
  withService w1 (MapTrackingService._parseFile (service w1) filePath source).

(** The host runs the callback of the timer [id], if it is pending; the
    timer is then pending no more. *)
Definition fire (id : nat) (w : world) : world :=
  match timers w !! id with
  | None => w
  | Some (_, callback) => runLater callback (withTimers w (delete id (timers w)))
  end.

(** Whether timer [a] comes before timer [b]: it is due earlier, or at the
    same time and was set earlier. *)
Definition comesBefore (a b : nat * Z) : bool :=
  (snd a <? snd b) || ((snd a =? snd b) && (fst a <? fst b)%nat).

Fixpoint insertDue (a : nat * Z) (l : list (nat * Z)) : list (nat * Z) :=
  match l with
  | [] => [a]
  | b :: l' => if comesBefore a b then a :: l else b :: insertDue a l'
  end.

(** The pending timers that are due, in the order in which the host runs
    them. *)
Definition dueTimers (w : world) : list nat :=
  List.map fst
    (fold_right insertDue []
       (List.filter (fun e => snd e <=? now w)
          (List.map (fun e => (fst e, fst (snd e))) (map_to_list (timers w))))).

(** Time passes until [t]: the host runs the callbacks that are due, one
    after the other.  (The callbacks at hand set no timer.) *)
Definition elapse (t : Z) (w : world) : world :=
  let w0 :=
    {| service := service w; debouncedOf := debouncedOf w; now := Z.max (now w) t;
       nextTimer := nextTimer w; timers := timers w |} in
  fold_left (fun w id => fire id w) (dueTimers w0) w0.

(** What happens to a service: a call of one of its methods, or time that
    passes. *)
Inductive event : Type :=
| UpdateFileDebounced (filePath source : string)
| UpdateFileImmediate (filePath source : string)
| UpdateFile (filePath source : string)
| RemoveFile (filePath : string)
| Clear
| UpdateConfiguration (workspaceRoot : string) (autoitIncludePaths : list string)
                      (maxIncludeDepth : Z)
| Elapse (t : Z).

Definition step (w : world) (e : event) : world :=
  match e with
  | UpdateFileDebounced f s => updateFileDebounced f s w
  | UpdateFileImmediate f s => updateFileImmediate f s w
  | UpdateFile f s => withService w (MapTrackingService.updateFile (service w) f s)
  | RemoveFile f => withService w (MapTrackingService.removeFile (service w) f)
  | Clear => withService w (MapTrackingService.clear (service w))
  | UpdateConfiguration r ps d =>
      withService w (MapTrackingService.updateConfiguration (service w) r ps d)
  | Elapse t => elapse t w
  end.

(** A new service, at time zero, with no timer set. *)
Definition start (workspaceRoot : string) (autoitIncludePaths : list string)
           (maxIncludeDepth : Z) : world :=
  {| service := MapTrackingService.create workspaceRoot autoitIncludePaths maxIncludeDepth;
     debouncedOf := ∅; now := 0; nextTimer := 0%nat; timers := ∅ |}.

End Debounce.

(** ** A [Map] with string keys, in insertion order *)

Module JSMap.

Section Values.

Context {V : Type}.

Definition t : Type := list (string * V).

Fixpoint get (k : string) (m : t) : option V :=
  match m with
  | [] => None
  | (k', v) :: m' => if String.eqb k' k then Some v else get k m'
  end.

(** [m.set(k, v)]: the value of a key that is present changes in place, a
    new key goes to the end. *)
Fixpoint set (k : string) (v : V) (m : t) : t :=
  match m with
  | [] => [(k, v)]
  | (k', v') :: m' =>
      if String.eqb k' k then (k', v) :: m' else (k', v') :: set k v m'
  end.

Fixpoint delete (k : string) (m : t) : t :=
  match m with
  | [] => []
  | (k', v') :: m' =>
      if String.eqb k' k then m' else (k', v') :: delete k m'
  end.

Definition size (m : t) : Z := Arr.length m.

Definition keys (m : t) : list string := List.map fst m.

(** [m.keys().next().value] *)
Definition firstKey (m : t) : option string :=
  match m with
  | [] => None
  | (k, _) :: _ => Some k
  end.

End Values.

Arguments t : clear implicits.

End JSMap.

(** ** src/ai_completion.js *)

Module Completions.

Inductive CompletionItemKind : Type := Function_ | Variable_ | Property | Field.

(** A [CompletionItem], with the properties the module sets. *)
Record CompletionItem : Type :=
  { label : string;
    kind : CompletionItemKind;
    detail : option string;
    sortText : option string;
    commitCharacters : option (list string) }.

(** [createNewCompletionItem(kind, name, itemDetail)]; [parenTriggerOn] is
    the module variable of that name, read as a condition. *)
Definition createNewCompletionItem (parenTriggerOn : bool) (kind : CompletionItemKind)
           (name : string) (itemDetail : option string) : CompletionItem :=
  {| label := name;
     kind := kind;
     detail :=
       Some match kind with
            | Variable_ => "Variable"
            | _ => match itemDetail with Some d => d | None => "Document Function" end
            end;
     sortText := None;
     commitCharacters :=
       match kind with
       | Function_ => if parenTriggerOn then Some ["("] else None
       | _ => None
       end |}.

Definition arraysMatch (arr1 arr2 : list string) : bool :=
  if negb (Arr.length arr1 =? Arr.length arr2) then false
  else forallb (fun v => 0 <=? Arr.indexOf v arr2) arr1.

Definition MAX_CACHE_SIZE : Z := 50.

(** A value of [includeCache]. *)
Record cached : Type :=
  { files : list string;
    completions : list CompletionItem }.

Definition enforceCacheLimit (cache : JSMap.t cached) : JSMap.t cached :=
  if MAX_CACHE_SIZE <? JSMap.size cache then
    match JSMap.firstKey cache with
    | Some firstKey => JSMap.delete firstKey cache
    | None => cache
    end
  else cache.

(** [getIncludeCompletions(document, includesCheck)], as a function of the
    cache.  [docUri] is [document.uri.toString()]; [getIncludeData] gives,
    for an include of this document, the keys of the object the function
    of that name in [./util] returns, or [None] when it returns no
    object. *)
Definition getIncludeCompletions (parenTriggerOn : bool)
           (getIncludeData : string -> option (list string))
           (includeCache : JSMap.t cached) (docUri : string)
           (includesCheck : list string)
  : list CompletionItem * JSMap.t cached :=
  let build :=
    let includeCompletionItems :=
      fold_left
        (fun items include =>
           match getIncludeData include with
           | Some includeFunctions =>
               items
               ++ List.map
                    (fun newFunc =>
                       createNewCompletionItem parenTriggerOn Function_ newFunc
                         (Some ("Function from " +:+ include)))
                    includeFunctions
           | None => items
           end)
        includesCheck [] in
    (includeCompletionItems,
     enforceCacheLimit
       (JSMap.set docUri {| files := includesCheck;
                            completions := includeCompletionItems |} includeCache)) in
  match JSMap.get docUri includeCache with
  | Some entry =>
      if arraysMatch includesCheck (files entry)
      then (completions entry, JSMap.set docUri entry (JSMap.delete docUri includeCache))
      else build
  | None => build
  end.

(** The handler given to [workspace.onDidCloseTextDocument]. *)
Definition onDidCloseTextDocument (languageId docUri : string)
           (includeCache : JSMap.t cached) : JSMap.t cached :=
  if String.eqb languageId "autoit" then JSMap.delete docUri includeCache
  else includeCache.

(** One round of [functionKeys.forEach(keyObj => ...)]: the set
    [seenFunctionKeys] and the array [mapCompletions]. *)
Definition addFunctionKey (mapName : string)
           (st : JSSet.t * list CompletionItem) (keyObj : FunctionKey.t)
  : JSSet.t * list CompletionItem :=
  let '(seenFunctionKeys, mapCompletions) := st in
  if negb (String.eqb (FunctionKey.key keyObj) EmptyString)
     && negb (JSSet.has (FunctionKey.key keyObj) seenFunctionKeys)
  then
    (JSSet.add (FunctionKey.key keyObj) seenFunctionKeys,
     mapCompletions
     ++ [ {| label := FunctionKey.key keyObj;
             kind := Field;
             detail := Some (mapName +:+ " property (added in function)");
             sortText := Some ("1_" +:+ FunctionKey.key keyObj);
             commitCharacters := None |} ])
  else st.

(** [getMapKeyCompletions(document, position, mapName)].
    [enableIntelligence] and [showFunctionKeys] are the two settings, read
    as conditions; [result] is how the call of
    [getKeysForMapWithIncludes] ended: with the keys, or with an error.
    The service is never [null] and its keys are always an object with two
    arrays, so the tests on their shape let every such result through. *)
Definition getMapKeyCompletions (enableIntelligence showFunctionKeys : bool)
           (mapName : string) (result : completion Keys.t) : list CompletionItem :=
  if negb enableIntelligence then []
  else
    match result with
    | Throw _ => []
    | Normal result =>
        let mapCompletions :=
          List.map
            (fun key =>
               {| label := key;
                  kind := Property;
                  detail := Some (mapName +:+ " property");
                  sortText := Some ("0_" +:+ key);
                  commitCharacters := None |})
            (Keys.directKeys result) in
        if showFunctionKeys then
          snd (fold_left (addFunctionKey mapName) (Keys.functionKeys result)
                         (JSSet.empty, mapCompletions))
        else mapCompletions
    end.

(** What happens to the cache: a call of [getIncludeCompletions], or a
    document that is closed. *)
Inductive event : Type :=
| GetIncludeCompletions (parenTriggerOn : bool)
                        (getIncludeData : string -> option (list string))
                        (docUri : string) (includesCheck : list string)
| CloseTextDocument (languageId docUri : string).

Definition step (includeCache : JSMap.t cached) (e : event) : JSMap.t cached :=
  match e with
  | GetIncludeCompletions p host docUri includesCheck =>
      snd (getIncludeCompletions p host includeCache docUri includesCheck)
  | CloseTextDocument languageId docUri =>
      onDidCloseTextDocument languageId docUri includeCache
  end.

End Completions.

(** * Further vocabulary *)

(** *** Function boundaries read off the text *)

(** The line of index [i]. *)
Definition lineAt (ls : list string) (i : Z) : option string :=
  if i <? 0 then None else ls !! Z.to_nat i.

(** A line that starts a function: a header [Func name(...)]. *)
Definition opensFunction (line : string) : bool :=
  match RegExp.exec MapParser.funcStartPattern line with
  | Some _ => true
  | None => false
  end.

(** A line the scan can take as the end of a function: [EndFunc] after
    optional blanks, on a line that is not itself a header. *)
Definition closesFunction (line : string) : bool :=
  negb (opensFunction line)
  && match RegExp.exec MapParser.funcEndPattern line with
     | Some _ => true
     | None => false
     end.

(** No line strictly between [s] and [e] starts or ends a function. *)
Definition plainBetween (ls : list string) (s e : Z) : Prop :=
  forall j l, s < j < e -> lineAt ls j = Some l ->
              opensFunction l = false /\ closesFunction l = false.

(** The header of [f] is on line [startLine f]. *)
Definition headed (ls : list string) (f : FB.t) : Prop :=
  exists l m,
    lineAt ls (FB.startLine f) = Some l
    /\ RegExp.exec MapParser.funcStartPattern l = Some m
    /\ FB.name f = RegExp.group 1 m
    /\ FB.parameters f = MapParser.parseParameters (Str.trim (RegExp.group 2 m)).

(** [f] is a function of the text: its header is on line [startLine f],
    the first line after it that starts or ends a function is line
    [endLine f], and that line ends one. *)
Definition delimits (ls : list string) (f : FB.t) : Prop :=
  headed ls f
  /\ (exists l, lineAt ls (FB.endLine f) = Some l /\ closesFunction l = true)
  /\ FB.startLine f < FB.endLine f
  /\ plainBetween ls (FB.startLine f) (FB.endLine f).

(** The state of the scan after the lines [pre]: the functions pushed are
    those of [pre]; a function is open exactly when its header is the last
    line of [pre] that starts or ends a function. *)
Definition scanned (pre : list string) (st : MapParser.scanState) : Prop :=
  (forall f, In f (fst st) <-> delimits pre f)
  /\ (forall c, snd st = Some c <->
                headed pre c /\ FB.endLine c = -1
                /\ plainBetween pre (FB.startLine c) (Arr.length pre)).

(** *** The keys of a query *)

(** An assignment a query at [targetLine] sees, once the declaration
    [decl] is chosen: it lies on a line before the query line and, when the
    query line is inside a function, inside a function of that name, or at
    top level if the declaration has the keyword Global; when the query line
    is outside every function, at top level. *)
Definition visible (p : MapParser.t) (targetLine : num) (decl : D.t) (a : KA.t) : bool :=
  Num.ltb (Fin (KA.line a)) targetLine
  && match MapParser.getFunctionAtLine p targetLine,
           MapParser.getFunctionAtLine p (Fin (KA.line a)) with
     | Some cur, Some af => String.eqb (FB.name af) (FB.name cur)
     | Some _, None => MapParser.isScope "global" decl
     | None, None => true
     | None, Some _ => false
     end.

(** The state of the scan of [getKeysFromFunctionCalls] is sound: the keys
    pushed are those seen, none twice, each marked as added in a
    function. *)
Definition callScanOk (st : MapParser.callScan) : Prop :=
  List.map FunctionKey.key (fst st) = snd st
  /\ NoDup (snd st)
  /\ Forall (fun k => FunctionKey.addedInFunction k = true) (fst st).

(** [k] is a key a function adds to one of its parameters: an assignment
    to the parameter [param] of the reported function [func], on a line of
    that function. *)
Definition addedToParameter (p : MapParser.t) (func : FB.t) (param key : string) : Prop :=
  In func (MapParser.parseFunctionBoundaries p)
  /\ In param (FB.parameters func)
  /\ exists assignments a,
       MapParser.parseKeyAssignments p param = Some assignments
       /\ In a assignments
       /\ KA.key a = key
       /\ FB.startLine func <= KA.line a <= FB.endLine func.

(** A call of [func] with the Map as an argument, on a line before the
    query line. *)
Definition calledWith (p : MapParser.t) (mapName : string) (targetLine : num)
           (func : FB.t) (param : string) : Prop :=
  exists index line m,
    In (index, line) (Arr.entries (MapParser.lines p))
    /\ Num.ltb (Fin index) targetLine = true
    /\ RegExp.exec MapParser.functionCallPattern line = Some m
    /\ FB.name func = RegExp.group 1 m
    /\ FB.parameters func
       !! Z.to_nat (Arr.indexOf mapName
                      (List.map Str.trim (Str.split "," (RegExp.group 2 m))))
       = Some param
    /\ Arr.indexOf mapName (List.map Str.trim (Str.split "," (RegExp.group 2 m))) <> -1.

(** *** The texts a pattern matches *)

(** [matches r w]: the pattern [r] matches the whole of the text [w]. *)
Inductive matches : regex -> string -> Prop :=
| matches_eps : matches Eps EmptyString
| matches_chars (p : ascii -> bool) (c : ascii) :
    p c = true -> matches (Chars p) (String c EmptyString)
| matches_cat (r1 r2 : regex) (w1 w2 : string) :
    matches r1 w1 -> matches r2 w2 -> matches (Cat r1 r2) (w1 +:+ w2)
| matches_alt_l (r1 r2 : regex) (w : string) :
    matches r1 w -> matches (Alt r1 r2) w
| matches_alt_r (r1 r2 : regex) (w : string) :
    matches r2 w -> matches (Alt r1 r2) w
| matches_rep_nil (greedy : bool) (r : regex) : matches (Rep greedy r) EmptyString
| matches_rep_more (greedy : bool) (r : regex) (w1 w2 : string) :
    matches r w1 -> matches (Rep greedy r) w2 -> matches (Rep greedy r) (w1 +:+ w2)
| matches_group (i : nat) (r : regex) (w : string) :
    matches r w -> matches (Group i r) w.

(** A text of one or more characters of a class. *)
Definition nonEmptyOf (p : ascii -> bool) (w : string) : bool :=
  match w with
  | String c t => p c && Str.forallb p t
  | EmptyString => false
  end.

(** One of the four scope keywords, letter case ignored. *)
Definition isScopeKeyword (w : string) : bool :=
  Arr.includes (Str.toLowerCase w) ["local"; "global"; "dim"; "static"].

(** What a successful run of the matcher means: the pattern matches a
    front part of the input, and the continuation succeeded on the rest.
    A pattern without groups hands the captures on as they are. *)
Definition sound (A : Type) (r : regex) : Prop :=
  forall (s : string) (caps : RegExp.captures)
         (k : string -> RegExp.captures -> option A) (a : A),
    RegExp.rmatch r s caps k = Some a ->
    exists w s1 caps1,
      s = w +:+ s1 /\ matches r w
      /\ (RegExp.groupsOf r = [] -> caps1 = caps)
      /\ k s1 caps1 = Some a.


(** *** The shape of what the parser reports *)

(** The shape of an assignment: a chain of two or more quoted keys that
    starts with the key; or no chain, and a key that is a variable name
    (dynamic), a word (dot notation) or a non-empty text without quote
    characters (bracket notation). *)
Definition assignmentShape (a : KA.t) : bool :=
  match KA.nested a with
  | k1 :: _ :: _ =>
      match KA.notation a with bracket => true | dot => false end
      && negb (KA.isDynamic a)
      && List.forallb (nonEmptyOf Char.isKeyChar) (KA.nested a)
      && String.eqb (KA.key a) k1
  | [_] => false
  | [] =>
      match KA.notation a, KA.isDynamic a with
      | bracket, true => isVariableName (KA.key a)
      | bracket, false => nonEmptyOf Char.isKeyChar (KA.key a)
      | dot, false => nonEmptyOf Char.isWord (KA.key a)
      | dot, true => false
      end
  end.

(** A parameter as [parseFunctionBoundaries] keeps it: without blanks
    around it, and without equals sign or comma. *)
Definition parameterShape (q : string) : Prop :=
  Str.trim q = q
  /\ Str.forallb (fun c => negb (Char.isChar "=" c || Char.isChar "," c)) q = true.

(** *** Histories of the service *)

(** The world before any call: no object, no instance, an empty console. *)
Definition initialWorld : MTS.world :=
  {| MTS.heap := ∅; MTS.instance := None; MTS.log := [] |}.

(** The world after a sequence of calls. *)
Definition run (calls : list MTS.call) (w : MTS.world) : MTS.world :=
  fold_left (fun w c => MTS.perform c w) calls w.

(** *** Symbols *)


(** The entry of a symbol flattened with a given kind and container. *)
Definition entryOf (uri containerName : string) (kind : WS.SymbolKind)
           (d : WS.DocumentSymbol) : WS.SymbolInformation :=
  let 'WS.DocSymbol name _ _ range _ := d in
  {| WS.name := name; WS.kind := kind; WS.containerName := containerName;
     WS.location := (uri, range) |}.

(** *** Merged structures *)



(** The node a path leads to, from a property [key] holding [node]. *)
Definition below (node : NK.t) (rest : list string) : option NK.t :=
  match rest with
  | [] => Some node
  | _ :: _ => lookupPath (NK.children node) rest
  end.

(** A structure all of whose keys, at every depth, are ordinary. *)
Inductive ordinaryTree : NK.object -> Prop :=
| ordinaryTree_object (o : NK.object) :
    (forall k n, In (k, n) o -> ordinaryKey k = true /\ ordinaryTree (NK.children n)) ->
    ordinaryTree o.

(** ** Debounced updates *)

(** The world of a new service after the events [es]. *)
Definition worldAfter (workspaceRoot : string) (autoitIncludePaths : list string)
           (maxIncludeDepth : Z) (es : list Debounce.event) : Debounce.world :=
  fold_left Debounce.step es
            (Debounce.start workspaceRoot autoitIncludePaths maxIncludeDepth).

(** Timer [id] is pending and will parse [source] as the text of [file]
    at time [due]. *)
Definition pendingFor (w : Debounce.world) (file : string) (id : nat) (due : Z)
           (source : string) : Prop :=
  Debounce.timers w !! id
  = Some (due, {| Debounce.owner := file; Debounce.path := file;
                  Debounce.src := source |}).

(** No timer is pending for [file]. *)
Definition noTimerFor (w : Debounce.world) (file : string) : Prop :=
  forall id due callback,
    Debounce.timers w !! id = Some (due, callback) -> Debounce.owner callback <> file.

(** What the variables of a service and of its debounced functions have to
    do with the pending timers. *)
Definition orderly (w : Debounce.world) : Prop :=
  MTS.ongoingParses (Debounce.service w) = ∅
  /\ MTS.parseDebounceMs (Debounce.service w) = 500
  /\ (forall f, f ∈ MTS.debouncedParseByFile (Debounce.service w)
                <-> is_Some (Debounce.debouncedOf w !! f))
  /\ (forall f d, Debounce.debouncedOf w !! f = Some d ->
                  Debounce.wait d = 500
                  /\ forall id, Debounce.timeout d = Some id ->
                                (id < Debounce.nextTimer w)%nat)
  /\ (forall f g d e id,
        Debounce.debouncedOf w !! f = Some d -> Debounce.debouncedOf w !! g = Some e ->
        Debounce.timeout d = Some id -> Debounce.timeout e = Some id -> f = g)
  /\ (forall id due callback,
        Debounce.timers w !! id = Some (due, callback) ->
        Debounce.path callback = Debounce.owner callback
        /\ (exists d, Debounce.debouncedOf w !! Debounce.owner callback = Some d
                      /\ Debounce.timeout d = Some id)
        /\ MTS.pendingParses (Debounce.service w) !! Debounce.owner callback
           = Some (Debounce.src callback))
  /\ (forall f s, MTS.pendingParses (Debounce.service w) !! f = Some s ->
                  exists id due, pendingFor w f id due s).

(** Every pending timer is due later than now, and within the delay. *)
Definition punctual (w : Debounce.world) : Prop :=
  forall id due callback,
    Debounce.timers w !! id = Some (due, callback) ->
    Debounce.now w < due <= Debounce.now w + 500.

(** An event that leaves a parse of [file] due at [deadline] pending: no
    debounced or immediate update of the file, and no time beyond the
    deadline. *)
Definition quiet (file : string) (deadline : Z) (e : Debounce.event) : Prop :=
  match e with
  | Debounce.UpdateFileDebounced g _ => g <> file
  | Debounce.UpdateFileImmediate g _ => g <> file
  | Debounce.Elapse t => t < deadline
  | _ => True
  end.

(** The handles of the debounced functions and the pending timers agree:
    two functions never hold one handle, and a pending timer is the one its
    function holds. *)
Definition wired (w : Debounce.world) : Prop :=
  (forall f g d e id,
     Debounce.debouncedOf w !! f = Some d -> Debounce.debouncedOf w !! g = Some e ->
     Debounce.timeout d = Some id -> Debounce.timeout e = Some id -> f = g)
  /\ (forall id due callback,
        Debounce.timers w !! id = Some (due, callback) ->
        exists d, Debounce.debouncedOf w !! Debounce.owner callback = Some d
                  /\ Debounce.timeout d = Some id).

(** ** The cache of include completions *)

(** The cache after the events [es], empty at first. *)
Definition cacheAfter (es : list Completions.event) : JSMap.t Completions.cached :=
  fold_left Completions.step es [].

(** ** Completions of Map keys *)

(** The item suggested for a key assigned in the text. *)
Definition propertyItem (mapName key : string) : Completions.CompletionItem :=
  {| Completions.label := key;
     Completions.kind := Completions.Property;
     Completions.detail := Some (mapName +:+ " property");
     Completions.sortText := Some ("0_" +:+ key);
     Completions.commitCharacters := None |}.

(** The item suggested for a key added in a function. *)
Definition fieldItem (mapName key : string) : Completions.CompletionItem :=
  {| Completions.label := key;
     Completions.kind := Completions.Field;
     Completions.detail := Some (mapName +:+ " property (added in function)");
     Completions.sortText := Some ("1_" +:+ key);
     Completions.commitCharacters := None |}.

Definition nonEmpty (s : string) : bool := negb (String.eqb s EmptyString).

(** * Further example sources *)

(** A function that fills the Map it receives, and a call of it. *)
Definition withCall : MapParser.t :=
  MapParser.constructor
    (Str.unlines ["Func Fill($mArg)"; "  $mArg.id = 1"; "  $mArg.name = 2"; "EndFunc";
                  "Local $mUser[]"; "$mUser.age = 3"; "Fill($mUser)"]).

(** A token that is cancelled once the loop has reached index [k]. *)
Definition cancelledFrom (k i : Z) : bool := k <=? i.

(** The structure of [$mUser] in the main script of [mainTracked], merged
    with its includes. *)
Definition mainWithIncludes : option MapStructure.merge :=
  MapStructure.getMapStructureWithIncludes mainIncludes diskWithLib mainTracked
    "/workspace/main.au3" "$mUser".

Definition mainMerged : MapStructure.merge :=
  match mainWithIncludes with
  | Some st => st
  | None =>
      {| MapStructure.service := mainTracked;
         MapStructure.currentStructure := Normal [];
         MapStructure.console := [] |}
  end.

(** Two flat structures that share the key name. *)
Definition ownTree : NestedKeyNode.object :=
  [("name", Node "name" 3 dot [] true false)].


(** A service that tracks one script, in which the key name is assigned
    to [$mUser] directly and by a function called with it. *)
Definition filledTwice : MTS.t :=
  MTS.updateFile (MTS.create "/workspace" [] 3) "/workspace/fill.au3"
    (Str.unlines ["Func Fill($mArg)"; "  $mArg.name = 1"; "  $mArg.id = 2"; "EndFunc";
                  "Local $mUser[]"; "$mUser.name = 3"; "Fill($mUser)"]).

(** * Properties *)

(** ** Arrays and scans *)

Section ArrayFacts.
Context {A : Type}.

Lemma entriesFrom_bounds (l : list A) (i j : Z) (x : A) :
  In (j, x) (Arr.entriesFrom i l) -> i <= j < i + Arr.length l.
Proof.
  revert i. induction l as [|y l IH]; intros i; simpl; [tauto|].
  unfold Arr.length in *. simpl List.length. intros [E | H].
  - inversion E; subst. lia.
  - apply IH in H. lia.
Qed.

Lemma entriesFrom_app (l1 l2 : list A) (i : Z) :
  Arr.entriesFrom i (l1 ++ l2)
  = Arr.entriesFrom i l1 ++ Arr.entriesFrom (i + Arr.length l1) l2.
Proof.
  revert i. induction l1 as [|y l1 IH]; intros i; simpl.
  - unfold Arr.length. simpl. f_equal. lia.
  - rewrite IH. do 3 f_equal. unfold Arr.length. simpl List.length. lia.
Qed.

End ArrayFacts.

(** Visiting the lines in order and keeping at most one item per line, the
    item carrying the index of its line, gives items in increasing line
    order. *)
Lemma flat_map_entries_increasing {A B : Type} (f : Z * A -> list B) (ln : B -> Z)
      (l : list A) (i : Z) :
  (forall e b, In b (f e) -> f e = [b] /\ ln b = fst e) ->
  increasing (List.map ln (flat_map f (Arr.entriesFrom i l)))
  /\ Forall (fun z => i <= z) (List.map ln (flat_map f (Arr.entriesFrom i l))).
Proof.
  intros Hf. revert i. induction l as [|x l IH]; intros i; simpl.
  - split; constructor.
  - destruct (IH (i + 1)) as [IHs IHb].
    assert (Hb' : Forall (fun z => i < z)
                    (List.map ln (flat_map f (Arr.entriesFrom (i + 1) l)))).
    { eapply Forall_impl; [exact IHb|]. simpl. intros; lia. }
    destruct (f (i, x)) as [|b bs] eqn:E; simpl.
    + split; [exact IHs|]. eapply Forall_impl; [exact Hb'|]. simpl; intros; lia.
    + destruct (Hf (i, x) b) as [E1 E2]; [rewrite E; left; reflexivity|].
      rewrite E in E1. inversion E1; subst bs. simpl in *. rewrite E2.
      split.
      * constructor; assumption.
      * constructor; [lia|]. eapply Forall_impl; [exact Hb'|]. simpl; intros; lia.
Qed.

(** ** Function boundaries *)

Lemma scanInv_step (i : Z) (st : MapParser.scanState) (line : string) :
  scanInv i st -> scanInv (i + 1) (MapParser.scanFunctionLine st (i, line)).
Proof.
  destruct st as [fs cur]. unfold scanInv, MapParser.scanFunctionLine. simpl.
  intros (Hs & Hf & Hc).
  assert (Hf' : Forall (fun f => FB.startLine f < FB.endLine f /\ FB.endLine f < i + 1) fs).
  { eapply Forall_impl; [exact Hf|]. simpl. intros f [? ?]. lia. }
  destruct (RegExp.exec MapParser.funcStartPattern line) as [m|]; simpl.
  - repeat split; [assumption|assumption|lia|].
    eapply Forall_impl; [exact Hf|]. simpl. intros f [? ?]. lia.
  - destruct (RegExp.exec MapParser.funcEndPattern line) as [m|]; simpl.
    + destruct cur as [c|]; simpl.
      * destruct Hc as [Hc1 Hc2]. repeat split.
        -- apply StronglySorted_app_2;
             [ | exact Hs | repeat constructor].
           intros f g Hfin Hg. apply list_elem_of_In in Hfin.
           apply list_elem_of_In in Hg. destruct Hg as [<-|[]].
           unfold apart. simpl.
           rewrite List.Forall_forall in Hc2. apply Hc2. assumption.
        -- apply Forall_app. split; [assumption|]. repeat constructor; simpl; lia.
      * repeat split; assumption.
    + repeat split; [assumption|assumption|].
      destruct cur as [c|]; [|exact I]. destruct Hc as [Hc1 Hc2]. split; [lia|assumption].
Qed.

Lemma scanInv_fold (ls : list string) (i : Z) (st : MapParser.scanState) :
  scanInv i st ->
  scanInv (i + Arr.length ls)
          (fold_left MapParser.scanFunctionLine (Arr.entriesFrom i ls) st).
Proof.
  revert i st. induction ls as [|l ls IH]; intros i st H; simpl.
  - unfold Arr.length. simpl List.length.
    replace (i + Z.of_nat 0) with i by lia. exact H.
  - apply scanInv_step with (line := l) in H. apply IH in H.
    unfold Arr.length in *. simpl List.length.
    replace (i + Z.of_nat (S (List.length ls))) with (i + 1 + Z.of_nat (List.length ls)) by lia.
    exact H.
Qed.

(** The functions [parseFunctionBoundaries] returns are closed, disjoint
    and in text order. *)
Lemma boundaries_apart (p : MapParser.t) :
  StronglySorted apart (MapParser.parseFunctionBoundaries p)
  /\ Forall (fun f => FB.startLine f < FB.endLine f) (MapParser.parseFunctionBoundaries p).
Proof.
  unfold MapParser.parseFunctionBoundaries, Arr.entries.
  destruct (scanInv_fold (MapParser.lines p) 0 ([], None)) as (Hs & Hf & _).
  { repeat split; constructor. }
  split; [exact Hs|]. eapply Forall_impl; [exact Hf|]. simpl. tauto.
Qed.

(** In a list of disjoint functions in text order, the function found at a
    line is also the one found at every earlier line it spans. *)
Lemma find_spanning_earlier (fs : list FB.t) (f : FB.t) (target : num) (l : Z) :
  StronglySorted apart fs ->
  List.find (fun g => spans g target) fs = Some f ->
  FB.startLine f <= l -> Num.leb (Fin l) target = true ->
  List.find (fun g => spans g (Fin l)) fs = Some f.
Proof.
  intros Hs. induction Hs as [|g fs Hs IH Hg]; simpl; [discriminate|].
  intros Hfind Hstart Hle.
  destruct (spans g target) eqn:Eg.
  - inversion Hfind; subst g. unfold spans in *. simpl.
    apply andb_prop in Eg as [_ Eg].
    destruct target as [t|]; simpl in *; [|discriminate].
    replace (FB.startLine f <=? l) with true by (symmetry; apply Z.leb_le; lia).
    replace (l <=? FB.endLine f) with true
      by (symmetry; apply Z.leb_le; apply Z.leb_le in Eg, Hle; lia).
    reflexivity.
  - assert (Hin : In f fs) by (apply List.find_some in Hfind; tauto).
    rewrite List.Forall_forall in Hg. specialize (Hg f Hin). unfold apart in Hg.
    replace (spans g (Fin l)) with false; [apply IH; assumption|].
    symmetry. unfold spans. simpl. apply andb_false_iff. right.
    apply Z.leb_gt. lia.
Qed.

Lemma getFunctionAtLine_earlier (p : MapParser.t) (f : FB.t) (target : num) (l : Z) :
  MapParser.getFunctionAtLine p target = Some f ->
  FB.startLine f <= l -> Num.leb (Fin l) target = true ->
  MapParser.getFunctionAtLine p (Fin l) = Some f.
Proof.
  unfold MapParser.getFunctionAtLine. intros H ? ?.
  eapply (find_spanning_earlier _ f target l); eauto.
  apply boundaries_apart.
Qed.

Lemma getFunctionAtLine_spans (p : MapParser.t) (f : FB.t) (line : num) :
  MapParser.getFunctionAtLine p line = Some f -> spans f line = true.
Proof.
  unfold MapParser.getFunctionAtLine. intros H.
  apply List.find_some in H. tauto.
Qed.

(** ** The declaration loop *)

Lemma parseMapDeclarations_increasing (p : MapParser.t) :
  increasing (List.map D.line (MapParser.parseMapDeclarations p)).
Proof.
  unfold MapParser.parseMapDeclarations, Arr.entries.
  apply flat_map_entries_increasing.
  intros [index line] b. simpl.
  destruct (MapParser.isComment line); [intros []|].
  destruct (RegExp.exec MapParser.mapDeclPattern line); [|intros []].
  intros [<-|[]]. split; reflexivity.
Qed.

Lemma sub_leb_earlier (targetLine : num) (l1 l2 : Z) :
  l1 < l2 -> Num.leb (Num.sub targetLine l2) (Num.sub targetLine l1) = true.
Proof.
  intros H. destruct targetLine as [t|]; simpl; [|reflexivity].
  apply Z.leb_le. lia.
Qed.

Lemma leb_Infinity (a : num) : Num.leb a Infinity = true.
Proof. destruct a; reflexivity. Qed.

(** After declarations on earlier lines, a round of the loop takes the
    declaration exactly when [accepts] says so: the test on the distance
    never stands in the way. *)
Lemma considerDeclaration_accepts (p : MapParser.t) (mapName : string)
      (targetLine : num) (seen : list D.t) (st : MapParser.selection) (decl : D.t) :
  selected targetLine seen st ->
  Forall (fun d => D.line d < D.line decl) seen ->
  MapParser.considerDeclaration p mapName targetLine
    (MapParser.getFunctionAtLine p targetLine) st decl
  = if accepts p mapName targetLine (fst st) decl
    then (Some decl, Num.sub targetLine (D.line decl))
    else st.
Proof.
  intros Hsel Hseen.
  assert (Hclose : forall c dist, st = (c, dist) ->
            Num.leb (Num.sub targetLine (D.line decl)) dist = true).
  { intros c dist ->. destruct Hsel as [E | (d & Hin & E)]; inversion E; subst.
    - apply leb_Infinity.
    - apply sub_leb_earlier. rewrite List.Forall_forall in Hseen. auto. }
  destruct st as [c dist]. specialize (Hclose c dist eq_refl).
  unfold MapParser.considerDeclaration, accepts, inScope, candidate, namesMatch, Num.ltb.
  cbn [fst]. rewrite Hclose.
  destruct (String.eqb (Str.toLowerCase (D.name decl)) (Str.toLowerCase mapName));
    cbn [negb andb]; [|reflexivity].
  destruct (Num.leb (Fin (D.line decl)) targetLine); cbn [negb andb]; [|reflexivity].
  destruct (MapParser.getFunctionAtLine p targetLine) as [cur|];
    destruct (MapParser.getFunctionAtLine p (Fin (D.line decl))) as [df|];
    cbn [negb andb]; try reflexivity.
  - destruct (String.eqb (FB.name df) (FB.name cur)); reflexivity.
  - destruct (MapParser.isScope "global" decl); cbn [negb andb]; [|reflexivity].
    destruct c as [c|]; [|reflexivity].
    destruct (MapParser.isScope "local" c); reflexivity.
Qed.

Lemma selected_step (p : MapParser.t) (mapName : string) (targetLine : num)
      (seen : list D.t) (st : MapParser.selection) (decl : D.t) :
  selected targetLine seen st ->
  Forall (fun d => D.line d < D.line decl) seen ->
  selected targetLine (seen ++ [decl])
    (MapParser.considerDeclaration p mapName targetLine
       (MapParser.getFunctionAtLine p targetLine) st decl).
Proof.
  intros Hsel Hseen. rewrite (considerDeclaration_accepts _ _ _ seen) by assumption.
  destruct (accepts _ _ _ _ _).
  - right. exists decl. split; [apply in_or_app; right; left; reflexivity|reflexivity].
  - destruct Hsel as [E | (d & Hin & E)]; [left; exact E|].
    right. exists d. split; [apply in_or_app; left; exact Hin|exact E].
Qed.

(** What the loop holds after a run of declarations satisfies an invariant
    [P] that every round preserves. *)
Lemma declaration_loop_invariant (p : MapParser.t) (mapName : string)
      (targetLine : num) (P : option D.t -> Prop) (rest seen : list D.t)
      (st : MapParser.selection) :
  increasing (List.map D.line (seen ++ rest)) ->
  selected targetLine seen st ->
  P (fst st) ->
  (forall c d, In d rest -> P c ->
     accepts p mapName targetLine c d = true -> P (Some d)) ->
  P (fst (fold_left
            (MapParser.considerDeclaration p mapName targetLine
               (MapParser.getFunctionAtLine p targetLine)) rest st)).
Proof.
  revert seen st. induction rest as [|d rest IH]; intros seen st Hinc Hsel HP Hstep; simpl.
  - exact HP.
  - assert (Hseen : Forall (fun d0 => D.line d0 < D.line d) seen).
    { unfold increasing in Hinc. rewrite List.map_app in Hinc. simpl in Hinc.
      apply List.Forall_forall. intros d0 Hd0.
      eapply (StronglySorted_app_1_elem_of _ _ _ _ _ Hinc).
      - apply list_elem_of_In, List.in_map, Hd0.
      - left. }
    apply (IH (seen ++ [d])).
    + rewrite <- List.app_assoc. exact Hinc.
    + apply selected_step; assumption.
    + rewrite (considerDeclaration_accepts _ _ _ seen) by assumption.
      destruct (accepts p mapName targetLine (fst st) d) eqn:E; simpl.
      * apply (Hstep (fst st) d); [left; reflexivity|exact HP|exact E].
      * exact HP.
    + intros c d' Hin. apply Hstep. right. exact Hin.
Qed.

Lemma closestDeclaration_invariant (p : MapParser.t) (mapName : string)
      (targetLine : num) (P : option D.t -> Prop) :
  P None ->
  (forall c d, In d (MapParser.parseMapDeclarations p) -> P c ->
     accepts p mapName targetLine c d = true -> P (Some d)) ->
  P (MapParser.closestDeclaration p mapName targetLine).
Proof.
  intros H0 Hstep. unfold MapParser.closestDeclaration.
  apply (declaration_loop_invariant p mapName targetLine P _ []).
  - apply parseMapDeclarations_increasing.
  - left. reflexivity.
  - exact H0.
  - exact Hstep.
Qed.

(** The declaration the loop ends with is a declaration of the file in a
    compatible scope. *)
Lemma closestDeclaration_inScope (p : MapParser.t) (mapName : string)
      (targetLine : num) (d : D.t) :
  MapParser.closestDeclaration p mapName targetLine = Some d ->
  In d (MapParser.parseMapDeclarations p) /\ inScope p mapName targetLine d = true.
Proof.
  apply (closestDeclaration_invariant p mapName targetLine
           (fun c => c = Some d ->
              In d (MapParser.parseMapDeclarations p)
              /\ inScope p mapName targetLine d = true)).
  - discriminate.
  - intros c d' Hin _ Hacc E. inversion E; subst d'.
    split; [exact Hin|]. unfold accepts in Hacc. apply andb_prop in Hacc. tauto.
Qed.

Lemma closestDeclaration_none (p : MapParser.t) (mapName : string) (targetLine : num) :
  (forall d, In d (MapParser.parseMapDeclarations p) ->
             inScope p mapName targetLine d = false) ->
  MapParser.closestDeclaration p mapName targetLine = None.
Proof.
  intros Hnone.
  apply (closestDeclaration_invariant p mapName targetLine (fun c => c = None)).
  - reflexivity.
  - intros c d Hin _ Hacc. unfold accepts in Hacc.
    rewrite (Hnone d Hin) in Hacc. discriminate.
Qed.

(** ** The insertion-ordered set *)

Lemma filter_twice {A : Type} (f g : A -> bool) (l : list A) :
  List.filter f (List.filter g l) = List.filter (fun y => g y && f y) l.
Proof.
  induction l as [|x l IH]; simpl; [reflexivity|].
  destruct (g x); simpl; [destruct (f x)|]; rewrite IH; reflexivity.
Qed.

Lemma has_app (x : string) (s1 s2 : JSSet.t) :
  JSSet.has x (s1 ++ s2) = JSSet.has x s1 || JSSet.has x s2.
Proof. unfold JSSet.has. apply List.existsb_app. Qed.

(** Adding the elements of a list to a set appends, in the order of their
    first occurrence, those that the set does not have. *)
Lemma add_all (l : list string) (s : JSSet.t) :
  fold_left (fun s x => JSSet.add x s) l s
  = s ++ List.filter (fun y => negb (JSSet.has y s)) (firstOccurrences l).
Proof.
  revert s. induction l as [|x l IH]; intros s; simpl.
  - rewrite List.app_nil_r. reflexivity.
  - rewrite IH. unfold JSSet.add. destruct (JSSet.has x s) eqn:Hx; simpl.
    + f_equal. rewrite filter_twice. apply List.filter_ext. intros y.
      destruct (String.eqb_spec y x) as [->|Hne]; simpl; [rewrite Hx|]; reflexivity.
    + rewrite <- List.app_assoc. simpl. do 2 f_equal.
      rewrite filter_twice. apply List.filter_ext. intros y.
      rewrite has_app. unfold JSSet.has at 2. simpl. rewrite orb_false_r.
      destruct (String.eqb_spec y x) as [->|Hne]; simpl.
      * rewrite orb_true_r. reflexivity.
      * rewrite orb_false_r. reflexivity.
Qed.

Lemma filter_true {A : Type} (l : list A) : List.filter (fun _ => true) l = l.
Proof. induction l as [|x l IH]; simpl; [|rewrite IH]; reflexivity. Qed.

Lemma ofList_firstOccurrences (l : list string) :
  JSSet.toList (JSSet.ofList l) = firstOccurrences l.
Proof.
  unfold JSSet.toList, JSSet.ofList, JSSet.empty. rewrite add_all. simpl.
  apply filter_true.
Qed.

Lemma add_all_ofList (l1 l2 : list string) :
  fold_left (fun s x => JSSet.add x s) l2 (JSSet.ofList l1) = firstOccurrences (l1 ++ l2).
Proof.
  rewrite <- ofList_firstOccurrences. unfold JSSet.ofList, JSSet.toList.
  rewrite List.fold_left_app. reflexivity.
Qed.

(** ** The bound on the rounds of a repetition *)

Section Fuel.
Context {A : Type}.

Lemma rounds_ext
      (body : string -> RegExp.captures -> (string -> RegExp.captures -> option A) -> option A)
      (greedy : bool) (k1 k2 : string -> RegExp.captures -> option A) (n : nat) :
  (forall s c ka kb, (forall s' c', ka s' c' = kb s' c') -> body s c ka = body s c kb) ->
  (forall s c, k1 s c = k2 s c) ->
  forall s caps,
    RegExp.rounds body greedy k1 n s caps = RegExp.rounds body greedy k2 n s caps.
Proof.
  intros Hbody Hk. induction n as [|n IH]; intros s caps; simpl.
  - apply Hk.
  - rewrite (Hk s caps).
    rewrite (Hbody s caps
               (fun s1 c1 => if (String.length s1 <? String.length s)%nat
                             then RegExp.rounds body greedy k1 n s1 c1 else None)
               (fun s1 c1 => if (String.length s1 <? String.length s)%nat
                             then RegExp.rounds body greedy k2 n s1 c1 else None)).
    + reflexivity.
    + intros s' c'. destruct (String.length s' <? String.length s)%nat; [apply IH|reflexivity].
Qed.

(** The matcher uses its continuation only through its results. *)
Lemma rmatch_ext (r : regex) (s : string) (caps : RegExp.captures)
      (k1 k2 : string -> RegExp.captures -> option A) :
  (forall s' c', k1 s' c' = k2 s' c') ->
  RegExp.rmatch r s caps k1 = RegExp.rmatch r s caps k2.
Proof.
  revert s caps k1 k2.
  induction r as [|p|r1 IH1 r2 IH2|r1 IH1 r2 IH2|g r IH|i r IH]; intros s caps k1 k2 Hk; simpl.
  - apply Hk.
  - destruct s as [|c s']; [reflexivity|]. destruct (p c); [apply Hk|reflexivity].
  - apply IH1. intros s' c'. apply IH2. exact Hk.
  - rewrite (IH1 s caps k1 k2 Hk), (IH2 s caps k1 k2 Hk). reflexivity.
  - apply rounds_ext; [|exact Hk]. intros s0 c0 ka kb Hab. apply IH. exact Hab.
  - apply IH. intros s' c'. apply Hk.
Qed.

(** A match that can only fail after the pattern fails. *)
Lemma rmatch_none (r : regex) (s : string) (caps : RegExp.captures) :
  RegExp.rmatch r s caps (fun _ _ => @None A) = None.
Proof.
  revert s caps.
  induction r as [|p|r1 IH1 r2 IH2|r1 IH1 r2 IH2|g r IH|i r IH]; intros s caps; simpl.
  - reflexivity.
  - destruct s as [|c s']; [reflexivity|]. destruct (p c); reflexivity.
  - rewrite (rmatch_ext r1 s caps _ (fun _ _ => None)); [apply IH1|].
    intros s' c'. apply IH2.
  - rewrite IH1, IH2. reflexivity.
  - generalize (String.length s) at 1. intros n. revert s caps.
    induction n as [|n IHn]; intros s caps; simpl; [reflexivity|].
    rewrite (rmatch_ext r s _ _ (fun _ _ => None)).
    + rewrite IH. destruct g; reflexivity.
    + intros s' c'. destruct (String.length s' <? String.length s)%nat; [apply IHn|reflexivity].
  - apply IH.
Qed.

(** The rounds of a repetition over the pattern [r] do not depend on the
    bound, once the bound is the length of the input or more: the bound the
    matcher uses never cuts a repetition short. *)
Lemma rounds_bound_irrelevant (r : regex) (greedy : bool)
      (k : string -> RegExp.captures -> option A) (n m : nat) :
  forall s caps,
    (String.length s <= n)%nat -> (String.length s <= m)%nat ->
    RegExp.rounds
      (fun s0 c0 k0 => RegExp.rmatch r s0 (RegExp.clearGroups (RegExp.groupsOf r) c0) k0)
      greedy k n s caps
    = RegExp.rounds
        (fun s0 c0 k0 => RegExp.rmatch r s0 (RegExp.clearGroups (RegExp.groupsOf r) c0) k0)
        greedy k m s caps.
Proof.
  remember (fun s0 c0 (k0 : string -> RegExp.captures -> option A) =>
              RegExp.rmatch r s0 (RegExp.clearGroups (RegExp.groupsOf r) c0) k0)
    as body eqn:Ebody.
  assert (Hext : forall s c ka kb, (forall s' c', ka s' c' = kb s' c') ->
                                   body s c ka = body s c kb).
  { intros s c ka kb Hab. rewrite Ebody. apply rmatch_ext. exact Hab. }
  assert (Hstuck : forall (f : string -> RegExp.captures -> option A) c,
             body EmptyString c
                  (fun s1 c1 => if (String.length s1 <? String.length EmptyString)%nat
                                then f s1 c1 else None)
             = None).
  { intros f c. rewrite (Hext _ _ _ (fun _ _ => None)).
    - rewrite Ebody. apply rmatch_none.
    - intros s' c'. reflexivity. }
  clear Ebody. revert m. induction n as [|n IH]; intros m s caps Hn Hm.
  - destruct s as [|c s]; [|simpl in Hn; lia].
    destruct m as [|m]; [reflexivity|]. cbn [RegExp.rounds]. rewrite Hstuck.
    destruct greedy; [reflexivity|]. destruct (k EmptyString caps); reflexivity.
  - destruct m as [|m].
    + destruct s as [|c s]; [|simpl in Hm; lia]. cbn [RegExp.rounds]. rewrite Hstuck.
      destruct greedy; [reflexivity|]. destruct (k EmptyString caps); reflexivity.
    + cbn [RegExp.rounds].
      rewrite (Hext s caps
                 (fun s1 c1 => if (String.length s1 <? String.length s)%nat
                               then RegExp.rounds body greedy k n s1 c1 else None)
                 (fun s1 c1 => if (String.length s1 <? String.length s)%nat
                               then RegExp.rounds body greedy k m s1 c1 else None)).
      * reflexivity.
      * intros s' c'. destruct (Nat.ltb_spec (String.length s') (String.length s));
          [apply IH; lia|reflexivity].
Qed.

End Fuel.

(** ** What a pattern demands of the first character of a line *)

Lemma rounds_blanks {A : Type} (k : string -> RegExp.captures -> option A)
      (n : nat) (s : string) (caps : RegExp.captures) (a : A) :
  RegExp.rounds
    (fun s0 c0 k0 =>
       RegExp.rmatch RegExp.ws s0 (RegExp.clearGroups (RegExp.groupsOf RegExp.ws) c0) k0)
    true k n s caps = Some a ->
  exists s' caps', blanksBefore s s' /\ k s' caps' = Some a.
Proof.
  revert s caps. induction n as [|n IH]; intros s caps; simpl.
  - intros H. exists s, caps. split; [constructor|exact H].
  - destruct s as [|c s1]; simpl.
    + intros H. exists EmptyString, caps. split; [constructor|exact H].
    + destruct (Char.isWhiteSpace c) eqn:Ec.
      * destruct (String.length s1 <? S (String.length s1))%nat.
        -- destruct (RegExp.rounds _ true k n s1 _) as [a'|] eqn:E.
           ++ intros H. inversion H; subst a'. apply IH in E as (s' & caps' & Hb & Hk).
              exists s', caps'. split; [constructor; assumption|exact Hk].
           ++ intros H. exists (String c s1), caps. split; [constructor|exact H].
        -- intros H. exists (String c s1), caps. split; [constructor|exact H].
      * intros H. exists (String c s1), caps. split; [constructor|exact H].
Qed.

(** A pattern that starts with optional blanks matches what follows the
    blanks it skips. *)
Lemma exec_after_blanks (r : regex) (s : string) (m : RegExp.matched) :
  RegExp.exec (Cat (RegExp.star RegExp.ws) r) s = Some m ->
  exists s' caps' k, blanksBefore s s' /\ RegExp.rmatch r s' caps' k = Some m.
Proof.
  unfold RegExp.exec, RegExp.star. cbn [RegExp.rmatch]. intros H.
  apply rounds_blanks in H as (s' & caps' & Hb & Hk).
  exists s', caps'. eexists. split; [exact Hb|exact Hk].
Qed.

Lemma demands_chars (q : ascii -> bool) : demands (Chars q) q.
Proof.
  intros A s caps k a. simpl. destruct s as [|c s1]; [discriminate|].
  destruct (q c) eqn:E; [|discriminate]. intros _. exists c, s1. split; [reflexivity|exact E].
Qed.

Lemma demands_cat (r1 r2 : regex) (q : ascii -> bool) :
  demands r1 q -> demands (Cat r1 r2) q.
Proof. intros H A s caps k a. simpl. apply H. Qed.

Lemma demands_group (i : nat) (r : regex) (q : ascii -> bool) :
  demands r q -> demands (Group i r) q.
Proof. intros H A s caps k a. simpl. apply H. Qed.

Lemma demands_alt (r1 r2 : regex) (q1 q2 : ascii -> bool) :
  demands r1 q1 -> demands r2 q2 -> demands (Alt r1 r2) (fun c => q1 c || q2 c).
Proof.
  intros H1 H2 A s caps k a. simpl.
  destruct (RegExp.rmatch r1 s caps k) as [a'|] eqn:E.
  - intros _. apply H1 in E as (c & s1 & -> & Hq). exists c, s1. rewrite Hq. auto.
  - intros E2. apply H2 in E2 as (c & s1 & -> & Hq). exists c, s1. rewrite Hq.
    rewrite orb_true_r. auto.
Qed.

Lemma demands_text (d : ascii) (t : string) :
  demands (RegExp.textIgnoreCase (String d t)) (Char.eqIgnoreCase d).
Proof. simpl. apply demands_cat, demands_chars. Qed.

Lemma toLowerCase_blank (c : ascii) :
  Char.isWhiteSpace (Char.toLowerCase c) = Char.isWhiteSpace c.
Proof. destruct c as [[] [] [] [] [] [] [] []]; reflexivity. Qed.

Lemma eqIgnoreCase_blank (d c : ascii) :
  Char.eqIgnoreCase d c = true -> Char.isWhiteSpace c = Char.isWhiteSpace d.
Proof.
  unfold Char.eqIgnoreCase. intros H. apply Ascii.eqb_eq in H.
  rewrite <- (toLowerCase_blank c), <- (toLowerCase_blank d), H. reflexivity.
Qed.

Lemma blanksBefore_firstChar (s s1 : string) (c : ascii) :
  blanksBefore s (String c s1) -> Char.isWhiteSpace c = false -> firstChar s = Some c.
Proof.
  unfold firstChar. intros H Hc. remember (String c s1) as s' eqn:E.
  induction H as [s|c0 s s' Hc0 H IH]; subst.
  - simpl. rewrite Hc. reflexivity.
  - simpl. rewrite Hc0. apply IH. reflexivity.
Qed.

(** A line matched by a pattern that, after optional blanks, demands a
    character that is no blank has such a character as its first
    character. *)
Lemma exec_firstChar (r : regex) (q : ascii -> bool) (s : string) (m : RegExp.matched) :
  demands r q -> (forall c, q c = true -> Char.isWhiteSpace c = false) ->
  RegExp.exec (Cat (RegExp.star RegExp.ws) r) s = Some m ->
  exists c, firstChar s = Some c /\ q c = true.
Proof.
  intros Hd Hq H. apply exec_after_blanks in H as (s' & caps' & k & Hb & Hm).
  apply Hd in Hm as (c & s1 & -> & Hc). exists c. split; [|exact Hc].
  apply (blanksBefore_firstChar s s1 c Hb). apply Hq. exact Hc.
Qed.

(** ** Running the matcher on a text with unknown parts *)

Lemma append_nil (s : string) : EmptyString +:+ s = s.
Proof. reflexivity. Qed.

Lemma append_cons (c : ascii) (w s : string) : String c w +:+ s = String c (w +:+ s).
Proof. reflexivity. Qed.

Lemma length_append (w r : string) :
  String.length (w +:+ r) = (String.length w + String.length r)%nat.
Proof.
  induction w as [|c w IH]; [reflexivity|].
  rewrite append_cons. simpl. rewrite IH. reflexivity.
Qed.

Section Stepping.
Context {A : Type}.

Lemma clearGroups_nil (caps : RegExp.captures) : RegExp.clearGroups [] caps = caps.
Proof. unfold RegExp.clearGroups. simpl. apply filter_true. Qed.

Lemma classRound_stop (p : ascii -> bool) (s : string) (c0 : RegExp.captures)
      (k0 : string -> RegExp.captures -> option A) :
  stops p s -> classRound p s c0 k0 = None.
Proof.
  intros Hs. unfold classRound. destruct s as [|c s]; [reflexivity|].
  simpl in Hs. cbn [RegExp.rmatch]. rewrite Hs. reflexivity.
Qed.

Lemma classRound_take (p : ascii -> bool) (c : ascii) (s : string) (c0 : RegExp.captures)
      (k0 : string -> RegExp.captures -> option A) :
  p c = true -> classRound p (String c s) c0 k0 = k0 s c0.
Proof.
  intros Hc. unfold classRound. cbn [RegExp.rmatch RegExp.groupsOf].
  rewrite Hc, clearGroups_nil. reflexivity.
Qed.

Lemma rounds_stop (p : ascii -> bool) (k : string -> RegExp.captures -> option A)
      (n : nat) (s : string) (caps : RegExp.captures) :
  stops p s -> RegExp.rounds (classRound p) true k n s caps = k s caps.
Proof.
  intros Hs. destruct n as [|n]; [reflexivity|]. cbn [RegExp.rounds].
  rewrite classRound_stop by exact Hs. reflexivity.
Qed.

(** A greedy repetition of a class before a character the class rejects
    matches nothing and goes on. *)
Lemma star_stop (p : ascii -> bool) (k : string -> RegExp.captures -> option A)
      (s : string) (caps : RegExp.captures) :
  stops p s -> RegExp.rmatch (RegExp.star (Chars p)) s caps k = k s caps.
Proof. intros Hs. exact (rounds_stop p k (String.length s) s caps Hs). Qed.

Lemma rounds_all (p : ascii -> bool) (k : string -> RegExp.captures -> option A)
      (w s : string) (a : A) :
  Str.forallb p w = true -> stops p s ->
  forall (n : nat) (caps : RegExp.captures),
    (String.length w <= n)%nat ->
    k s caps = Some a ->
    RegExp.rounds (classRound p) true k n (w +:+ s) caps = Some a.
Proof.
  intros Hw Hs. induction w as [|c w IH]; intros n caps Hn Hk.
  - rewrite append_nil, (rounds_stop p k n s caps Hs). exact Hk.
  - simpl in Hw. apply andb_prop in Hw as [Hc Hw].
    destruct n as [|n]; [simpl in Hn; lia|].
    rewrite append_cons. cbn [RegExp.rounds].
    rewrite classRound_take by exact Hc.
    replace (String.length (w +:+ s) <? String.length (String c (w +:+ s)))%nat with true
      by (symmetry; apply Nat.ltb_lt; simpl; lia).
    rewrite (IH Hw n caps) by (simpl in Hn; try lia; exact Hk). reflexivity.
Qed.

(** A greedy repetition of a class takes all of a run of the class when
    its continuation succeeds after the run. *)
Lemma star_all (p : ascii -> bool) (k : string -> RegExp.captures -> option A)
      (w s : string) (caps : RegExp.captures) (a : A) :
  Str.forallb p w = true -> stops p s -> k s caps = Some a ->
  RegExp.rmatch (RegExp.star (Chars p)) (w +:+ s) caps k = Some a.
Proof.
  intros Hw Hs Hk.
  change (RegExp.rounds (classRound p) true k (String.length (w +:+ s)) (w +:+ s) caps = Some a).
  apply rounds_all; try assumption.
  rewrite length_append. lia.
Qed.

Lemma group_step (i : nat) (r : regex) (s : string) (caps : RegExp.captures)
      (k : string -> RegExp.captures -> option A) :
  RegExp.rmatch (Group i r) s caps k
  = RegExp.rmatch r s caps
      (fun s1 c1 => k s1 (RegExp.setGroup i (RegExp.consumed s s1) c1)).
Proof. reflexivity. Qed.

Lemma cat_step (r1 r2 : regex) (s : string) (caps : RegExp.captures)
      (k : string -> RegExp.captures -> option A) :
  RegExp.rmatch (Cat r1 r2) s caps k
  = RegExp.rmatch r1 s caps (fun s1 c1 => RegExp.rmatch r2 s1 c1 k).
Proof. reflexivity. Qed.

Lemma chars_take (p : ascii -> bool) (c : ascii) (s : string) (caps : RegExp.captures)
      (k : string -> RegExp.captures -> option A) :
  p c = true -> RegExp.rmatch (Chars p) (String c s) caps k = k s caps.
Proof. intros Hc. cbn [RegExp.rmatch]. rewrite Hc. reflexivity. Qed.

Lemma alt_left (r1 r2 : regex) (s : string) (caps : RegExp.captures)
      (k : string -> RegExp.captures -> option A) (a : A) :
  RegExp.rmatch r1 s caps k = Some a -> RegExp.rmatch (Alt r1 r2) s caps k = Some a.
Proof. intros H. cbn [RegExp.rmatch]. rewrite H. reflexivity. Qed.

(** One or more of a class: the whole run, as for [star_all]. *)
Lemma plus_all (p : ascii -> bool) (k : string -> RegExp.captures -> option A)
      (c : ascii) (w s : string) (caps : RegExp.captures) (a : A) :
  p c = true -> Str.forallb p w = true -> stops p s -> k s caps = Some a ->
  RegExp.rmatch (RegExp.plus (Chars p)) (String c w +:+ s) caps k = Some a.
Proof.
  intros Hc Hw Hs Hk. unfold RegExp.plus.
  change (RegExp.rmatch (Chars p) (String c (w +:+ s)) caps
            (fun s1 c1 => RegExp.rmatch (RegExp.star (Chars p)) s1 c1 k) = Some a).
  rewrite chars_take by exact Hc. apply star_all; assumption.
Qed.

Lemma eqIgnoreCase_refl (c : ascii) : Char.eqIgnoreCase c c = true.
Proof. unfold Char.eqIgnoreCase. apply Ascii.eqb_refl. Qed.

(** A literal text matches itself. *)
Lemma text_matches (t rest : string) (caps : RegExp.captures)
      (k : string -> RegExp.captures -> option A) :
  RegExp.rmatch (RegExp.textIgnoreCase t) (t +:+ rest) caps k = k rest caps.
Proof.
  revert caps k. induction t as [|c t IH]; intros caps k; [reflexivity|].
  rewrite append_cons. cbn [RegExp.textIgnoreCase RegExp.rmatch].
  rewrite eqIgnoreCase_refl. apply IH.
Qed.

End Stepping.

Lemma substring_prefix (w r : string) : substring 0 (String.length w) (w +:+ r) = w.
Proof.
  induction w as [|c w IH].
  - rewrite append_nil. destruct r; reflexivity.
  - rewrite append_cons. simpl. rewrite IH. reflexivity.
Qed.

(** What a group records: the text before the rest. *)
Lemma consumed_prefix (w r : string) : RegExp.consumed (w +:+ r) r = w.
Proof.
  unfold RegExp.consumed. rewrite length_append.
  replace (String.length w + String.length r - String.length r)%nat
    with (String.length w) by lia.
  apply substring_prefix.
Qed.

Lemma isComment_first (c : ascii) (s : string) :
  Char.isWhiteSpace c = false -> Ascii.eqb c ";" = false ->
  MapParser.isComment (String c s) = false.
Proof.
  intros Hw Hc. unfold MapParser.isComment, Str.trim, Str.startsWith.
  cbn [Str.trimStart]. rewrite Hw. cbn [Str.trimEnd]. rewrite Hw.
  assert (E : exists t, match Str.trimEnd s with
                        | EmptyString => String c EmptyString
                        | String a t0 => String c (String a t0)
                        end = String c t).
  { destruct (Str.trimEnd s); eexists; reflexivity. }
  destruct E as (t & ->).
  change (String.prefix ";" (String c t))
    with (if Ascii.ascii_dec ";" c then String.prefix "" t else false).
  destruct (Ascii.ascii_dec ";" c) as [<-|Hne]; [discriminate|reflexivity].
Qed.

Lemma selected_fold (p : MapParser.t) (mapName : string) (targetLine : num)
      (rest seen : list D.t) (st : MapParser.selection) :
  increasing (List.map D.line (seen ++ rest)) ->
  selected targetLine seen st ->
  selected targetLine (seen ++ rest)
    (fold_left
       (MapParser.considerDeclaration p mapName targetLine
          (MapParser.getFunctionAtLine p targetLine)) rest st).
Proof.
  revert seen st. induction rest as [|d rest IH]; intros seen st Hinc Hsel; simpl.
  - rewrite List.app_nil_r. exact Hsel.
  - replace (seen ++ d :: rest) with ((seen ++ [d]) ++ rest)
      by (rewrite <- List.app_assoc; reflexivity).
    apply IH.
    + rewrite <- List.app_assoc. exact Hinc.
    + apply selected_step; [exact Hsel|].
      apply List.Forall_forall. intros d0 Hd0.
      unfold increasing in Hinc. rewrite List.map_app in Hinc.
      eapply (StronglySorted_app_1_elem_of _ _ _ _ _ Hinc).
      * apply list_elem_of_In, List.in_map, Hd0.
      * left.
Qed.

(** A candidate inside the function around the query line is taken
    whatever the loop holds, and from then on the loop holds a declaration
    inside that function. *)
Lemma sameFunction_wins (p : MapParser.t) (mapName : string) (targetLine : num)
      (cur : FB.t) (d0 : D.t) :
  MapParser.getFunctionAtLine p targetLine = Some cur ->
  In d0 (MapParser.parseMapDeclarations p) ->
  candidate mapName targetLine d0 = true ->
  MapParser.getFunctionAtLine p (Fin (D.line d0)) = Some cur ->
  exists d, MapParser.closestDeclaration p mapName targetLine = Some d
            /\ MapParser.getFunctionAtLine p (Fin (D.line d)) = Some cur
            /\ D.line d0 <= D.line d.
Proof.
  intros Hcur Hin Hcand Hfn.
  pose proof (parseMapDeclarations_increasing p) as Hinc.
  unfold MapParser.closestDeclaration.
  destruct (List.in_split _ _ Hin) as (pre & post & E). rewrite E in *.
  rewrite List.fold_left_app. simpl.
  set (step := MapParser.considerDeclaration p mapName targetLine
                 (MapParser.getFunctionAtLine p targetLine)).
  set (st1 := fold_left step pre (None, Infinity)).
  assert (Hsel1 : selected targetLine pre st1).
  { replace pre with ([] ++ pre) at 1 by reflexivity.
    apply selected_fold; [|left; reflexivity]. simpl.
    unfold increasing in *. rewrite List.map_app in Hinc.
    eapply StronglySorted_app_1_l. exact Hinc. }
  assert (Hpre : Forall (fun d => D.line d < D.line d0) pre).
  { apply List.Forall_forall. intros d Hd.
    unfold increasing in Hinc. rewrite List.map_app in Hinc.
    eapply (StronglySorted_app_1_elem_of _ _ _ _ _ Hinc).
    - apply list_elem_of_In, List.in_map, Hd.
    - left. }
  assert (Hacc : forall c, accepts p mapName targetLine c d0 = true).
  { intros c. unfold accepts, inScope. rewrite Hcand, Hcur, Hfn.
    rewrite String.eqb_refl. reflexivity. }
  assert (Hst2 : step st1 d0 = (Some d0, Num.sub targetLine (D.line d0))).
  { unfold step. rewrite (considerDeclaration_accepts _ _ _ pre) by assumption.
    rewrite Hacc. reflexivity. }
  rewrite Hst2.
  apply (declaration_loop_invariant p mapName targetLine
           (fun c => exists d, c = Some d
                      /\ MapParser.getFunctionAtLine p (Fin (D.line d)) = Some cur
                      /\ D.line d0 <= D.line d)
           post (pre ++ [d0])).
  - rewrite <- List.app_assoc. exact Hinc.
  - right. exists d0. split; [apply in_or_app; right; left; reflexivity|reflexivity].
  - exists d0. repeat split; [exact Hfn|lia].
  - intros c d Hd _ Hacc'. exists d. split; [reflexivity|].
    assert (Hlt : D.line d0 < D.line d).
    { unfold increasing in Hinc. rewrite List.map_app in Hinc. simpl in Hinc.
      apply StronglySorted_app_1_r in Hinc. inversion Hinc as [|? ? _ Hall]; subst.
      rewrite List.Forall_forall in Hall. apply Hall. apply List.in_map. exact Hd. }
    split; [|lia].
    unfold accepts, inScope, candidate in Hacc'.
    apply andb_prop in Hacc' as [Hacc' _]. apply andb_prop in Hacc' as [Hacc' _].
    apply andb_prop in Hacc' as [_ Hle].
    apply (getFunctionAtLine_earlier p cur targetLine); [exact Hcur| |exact Hle].
    apply getFunctionAtLine_spans in Hfn. unfold spans in Hfn.
    apply andb_prop in Hfn as [Hfn _]. simpl in Hfn. apply Z.leb_le in Hfn. lia.
Qed.

(** ** C8: no declaration in scope *)

(** C8.  For every source text, Map name and query line: when no
    declaration of that name at or before the query line lies in a scope
    compatible with the query line, [getKeysForMapAtLine] returns (it does
    not throw) the object with an empty [directKeys] and an empty
    [functionKeys]. *)
Theorem getKeysForMapAtLine_no_declaration (p : MapParser.t) (mapName : string)
        (targetLine : num) (includeFunctionKeys : bool) :
  (forall d, In d (MapParser.parseMapDeclarations p) ->
             inScope p mapName targetLine d = false) ->
  MapParser.getKeysForMapAtLine p mapName targetLine includeFunctionKeys
  = Some {| Keys.directKeys := []; Keys.functionKeys := [] |}.
Proof.
  intros Hnone. unfold MapParser.getKeysForMapAtLine.
  rewrite (closestDeclaration_none p mapName targetLine Hnone). reflexivity.
Qed.

(** A declaration inside a function, queried from top level. *)
Lemma getKeysForMapAtLine_no_declaration_witness :
  MapParser.getKeysForMapAtLine
    (MapParser.constructor
       (Str.unlines ["Func Setup()"; "  Local $mCfg[]"; "  $mCfg.port = 80";
                     "EndFunc"; "$mCfg.host = 1"]))
    "$mCfg" (Fin 5) true
  = Some {| Keys.directKeys := []; Keys.functionKeys := [] |}.
Proof.
  apply getKeysForMapAtLine_no_declaration.
  intros d Hd. vm_compute in Hd. destruct Hd as [<-|[]]. vm_compute. reflexivity.
Defined.

(** ** C2: which declaration is chosen *)

(** C2, amended.  Let the query line lie inside a function.  (1) When the
    file has a declaration of the name at or before the query line inside
    the function around the query line, the declaration chosen lies inside
    that function.  (2) A top-level declaration is chosen only when there is
    no such declaration, and only with the keyword Global.  (3) A
    declaration inside a function with another name is never chosen.  The
    declaration chosen always is a declaration of the name at or before the
    query line. *)
Theorem declaration_choice (p : MapParser.t) (mapName : string)
        (targetLine : num) (cur : FB.t) :
  MapParser.getFunctionAtLine p targetLine = Some cur ->
  (forall d0, In d0 (MapParser.parseMapDeclarations p) ->
      candidate mapName targetLine d0 = true ->
      MapParser.getFunctionAtLine p (Fin (D.line d0)) = Some cur ->
      exists d, MapParser.closestDeclaration p mapName targetLine = Some d
                /\ MapParser.getFunctionAtLine p (Fin (D.line d)) = Some cur)
  /\ (forall d, MapParser.closestDeclaration p mapName targetLine = Some d ->
        MapParser.getFunctionAtLine p (Fin (D.line d)) = None ->
        MapParser.isScope "global" d = true
        /\ forall d0, In d0 (MapParser.parseMapDeclarations p) ->
             candidate mapName targetLine d0 = true ->
             MapParser.getFunctionAtLine p (Fin (D.line d0)) <> Some cur)
  /\ (forall d g, MapParser.closestDeclaration p mapName targetLine = Some d ->
        MapParser.getFunctionAtLine p (Fin (D.line d)) = Some g ->
        FB.name g = FB.name cur)
  /\ (forall d, MapParser.closestDeclaration p mapName targetLine = Some d ->
        In d (MapParser.parseMapDeclarations p)
        /\ candidate mapName targetLine d = true).
Proof.
  intros Hcur.
  assert (H1 : forall d0, In d0 (MapParser.parseMapDeclarations p) ->
      candidate mapName targetLine d0 = true ->
      MapParser.getFunctionAtLine p (Fin (D.line d0)) = Some cur ->
      exists d, MapParser.closestDeclaration p mapName targetLine = Some d
                /\ MapParser.getFunctionAtLine p (Fin (D.line d)) = Some cur).
  { intros d0 Hin Hcand Hfn.
    destruct (sameFunction_wins p mapName targetLine cur d0 Hcur Hin Hcand Hfn)
      as (d & E & Hd & _).
    exists d. split; assumption. }
  split; [exact H1|]. split; [|split].
  - intros d Hd Htop.
    destruct (closestDeclaration_inScope p mapName targetLine d Hd) as [_ Hsc].
    unfold inScope in Hsc. rewrite Hcur, Htop in Hsc.
    apply andb_prop in Hsc as [_ Hglobal]. split; [exact Hglobal|].
    intros d0 Hin Hcand Hfn.
    destruct (H1 d0 Hin Hcand Hfn) as (d' & E & Hd').
    rewrite Hd in E. inversion E; subst d'. rewrite Htop in Hd'. discriminate.
  - intros d g Hd Hg.
    destruct (closestDeclaration_inScope p mapName targetLine d Hd) as [_ Hsc].
    unfold inScope in Hsc. rewrite Hcur, Hg in Hsc.
    apply andb_prop in Hsc as [_ Hname]. apply String.eqb_eq. exact Hname.
  - intros d Hd.
    destruct (closestDeclaration_inScope p mapName targetLine d Hd) as [Hin Hsc].
    split; [exact Hin|]. unfold inScope in Hsc. apply andb_prop in Hsc. tauto.
Qed.

(** The query at the last line of the function Setup of [shadowed]. *)
Lemma declaration_choice_witness :
  let p := shadowed in
  let cur := {| FB.name := "Setup"; FB.startLine := 2; FB.endLine := 5;
                FB.parameters := [] |} in
  MapParser.getFunctionAtLine p (Fin 5) = Some cur
  /\ (forall d g, MapParser.closestDeclaration p "$mCfg" (Fin 5) = Some d ->
        MapParser.getFunctionAtLine p (Fin (D.line d)) = Some g ->
        FB.name g = FB.name cur).
Proof.
  intros p cur.
  assert (Hcur : MapParser.getFunctionAtLine p (Fin 5) = Some cur)
    by (vm_compute; reflexivity).
  split; [exact Hcur|].
  exact (proj1 (proj2 (proj2 (declaration_choice p "$mCfg" (Fin 5) cur Hcur)))).
Defined.

(** C2 as stated fails where two functions carry one name: queried inside
    the second Load of [twoLoads], the declaration chosen is the one inside
    the first Load, a different function. *)
Lemma declaration_in_other_function_chosen :
  exists d g cur,
    MapParser.closestDeclaration twoLoads "$mState" (Fin 4) = Some d
    /\ MapParser.getFunctionAtLine twoLoads (Fin 4) = Some cur
    /\ MapParser.getFunctionAtLine twoLoads (Fin (D.line d)) = Some g
    /\ FB.startLine g = 0 /\ FB.startLine cur = 3 /\ g <> cur.
Proof.
  eexists; eexists; eexists.
  split; [vm_compute; reflexivity|].
  split; [vm_compute; reflexivity|].
  split; [vm_compute; reflexivity|].
  split; [reflexivity|]. split; [reflexivity|]. discriminate.
Qed.

(** ** C3: one assignment per line, by priority *)

Lemma lineAssignments_priority (mapName : string) (index : Z) (line : string) :
  MapParser.lineAssignments mapName index line
  = match assignmentByPriority mapName index line with
    | Some a => [a]
    | None => []
    end.
Proof.
  unfold MapParser.lineAssignments, assignmentByPriority.
  destruct (MapParser.isComment line); [reflexivity|].
  unfold nestedRule, MapParser.parseNestedKeyStructure, chainKeys.
  destruct (RegExp.exec (MapParser.nestedPattern mapName) line) as [m|];
    cbn [firstApplicable].
  - set (keys := List.map (RegExp.group 1) _).
    destruct keys as [|k1 [|k2 ks]]; try reflexivity.
    + cbn [firstApplicable].
      unfold dynamicRule, MapParser.parseDynamicKeysFromLine.
      destruct (RegExp.exec (MapParser.dynamicPattern mapName) line); [reflexivity|].
      cbn [firstApplicable]. unfold dotRule, bracketRule.
      destruct (RegExp.exec (MapParser.dotPattern mapName) line); [reflexivity|].
      cbn [firstApplicable].
      destruct (RegExp.exec (MapParser.bracketPattern mapName) line); reflexivity.
    + cbn [firstApplicable].
      unfold dynamicRule, MapParser.parseDynamicKeysFromLine.
      destruct (RegExp.exec (MapParser.dynamicPattern mapName) line); [reflexivity|].
      cbn [firstApplicable]. unfold dotRule, bracketRule.
      destruct (RegExp.exec (MapParser.dotPattern mapName) line); [reflexivity|].
      cbn [firstApplicable].
      destruct (RegExp.exec (MapParser.bracketPattern mapName) line); reflexivity.
    + replace (1 <? Arr.length (k1 :: k2 :: ks)) with true
        by (symmetry; apply Z.ltb_lt; unfold Arr.length; simpl List.length; lia).
      replace (0 <? Arr.length (k1 :: k2 :: ks)) with true
        by (symmetry; apply Z.ltb_lt; unfold Arr.length; simpl List.length; lia).
      reflexivity.
  - unfold dynamicRule, MapParser.parseDynamicKeysFromLine.
    destruct (RegExp.exec (MapParser.dynamicPattern mapName) line); [reflexivity|].
    cbn [firstApplicable]. unfold dotRule, bracketRule.
    destruct (RegExp.exec (MapParser.dotPattern mapName) line); [reflexivity|].
    cbn [firstApplicable].
    destruct (RegExp.exec (MapParser.bracketPattern mapName) line); reflexivity.
Qed.

Lemma lineAssignments_at_most_one (mapName : string) (index : Z) (line : string)
      (a : KA.t) :
  In a (MapParser.lineAssignments mapName index line) ->
  MapParser.lineAssignments mapName index line = [a] /\ KA.line a = index.
Proof.
  rewrite lineAssignments_priority.
  destruct (assignmentByPriority mapName index line) as [b|] eqn:E; [|intros []].
  intros [<-|[]]. split; [reflexivity|].
  unfold assignmentByPriority in E.
  destruct (MapParser.isComment line); [discriminate|].
  unfold nestedRule, dynamicRule, dotRule, bracketRule in E.
  destruct (chainKeys line mapName) as [[|k1 [|k2 ks]]|];
    cbn [firstApplicable] in E; try (inversion E; reflexivity);
    destruct (RegExp.exec (MapParser.dynamicPattern mapName) line);
    cbn [firstApplicable] in E; try (inversion E; reflexivity);
    destruct (RegExp.exec (MapParser.dotPattern mapName) line);
    cbn [firstApplicable] in E; try (inversion E; reflexivity);
    destruct (RegExp.exec (MapParser.bracketPattern mapName) line);
    cbn [firstApplicable] in E; try (inversion E; reflexivity); discriminate.
Qed.

Lemma parseKeyAssignments_increasing (p : MapParser.t) (mapName : string)
      (assignments : list KA.t) :
  MapParser.parseKeyAssignments p mapName = Some assignments ->
  increasing (List.map KA.line assignments).
Proof.
  unfold MapParser.parseKeyAssignments.
  destruct (MapParser.literalName mapName); [|discriminate].
  intros E. inversion E. unfold Arr.entries.
  apply flat_map_entries_increasing.
  intros [index line] a. simpl. apply lineAssignments_at_most_one.
Qed.

Lemma increasing_injective {A : Type} (ln : A -> Z) (l : list A) (a b : A) :
  increasing (List.map ln l) -> In a l -> In b l -> ln a = ln b -> a = b.
Proof.
  unfold increasing. induction l as [|x l IH]; simpl; [tauto|].
  intros Hs. inversion Hs as [|? ? Hs' Hall]; subst.
  rewrite List.Forall_forall in Hall.
  intros [->|Ha] [->|Hb] E; try reflexivity.
  - specialize (Hall (ln b) (List.in_map ln _ _ Hb)). lia.
  - specialize (Hall (ln a) (List.in_map ln _ _ Ha)). lia.
  - apply IH; assumption.
Qed.

(** C3.  For every line, what [parseKeyAssignments] adds for it is the
    assignment of the first of the four rules that applies, tried in the
    order nested chain of at least two keys, dynamic bracket, dot notation,
    single bracket (nothing for a comment line or when no rule applies).  In
    the list it returns, a nested assignment carries its whole chain of two
    or more keys with the first key as its key, and no two assignments come
    from one line: no line gives both a nested and a flat assignment. *)
Theorem parseKeyAssignments_priority (p : MapParser.t) (mapName : string)
        (assignments : list KA.t) :
  MapParser.parseKeyAssignments p mapName = Some assignments ->
  (forall index line,
      MapParser.lineAssignments mapName index line
      = match assignmentByPriority mapName index line with
        | Some a => [a]
        | None => []
        end)
  /\ assignments
     = flat_map (fun '(index, line) =>
                   match assignmentByPriority mapName index line with
                   | Some a => [a]
                   | None => []
                   end)
                (Arr.entries (MapParser.lines p))
  /\ (forall a, In a assignments -> KA.nested a <> [] ->
        (2 <= List.length (KA.nested a))%nat
        /\ KA.key a = hd EmptyString (KA.nested a)
        /\ KA.isDynamic a = false)
  /\ (forall a b, In a assignments -> In b assignments ->
        KA.line a = KA.line b -> a = b).
Proof.
  intros Hparse. split; [apply lineAssignments_priority|]. split; [|split].
  - unfold MapParser.parseKeyAssignments in Hparse.
    destruct (MapParser.literalName mapName); [|discriminate].
    inversion Hparse. apply flat_map_ext. intros [index line].
    apply lineAssignments_priority.
  - intros a Hin Hnested.
    unfold MapParser.parseKeyAssignments in Hparse.
    destruct (MapParser.literalName mapName); [|discriminate].
    inversion Hparse; subst assignments. apply in_flat_map in Hin.
    destruct Hin as ([index line] & _ & Hin).
    rewrite lineAssignments_priority in Hin.
    destruct (assignmentByPriority mapName index line) as [b|] eqn:E; [|destruct Hin].
    destruct Hin as [<-|[]].
    unfold assignmentByPriority in E.
    destruct (MapParser.isComment line); [discriminate|].
    unfold nestedRule, dynamicRule, dotRule, bracketRule in E.
    destruct (chainKeys line mapName) as [[|k1 [|k2 ks]]|];
      cbn [firstApplicable] in E;
      try (inversion E; subst b; simpl; repeat split; lia);
      destruct (RegExp.exec (MapParser.dynamicPattern mapName) line);
      cbn [firstApplicable] in E;
      try (inversion E; subst b; simpl in Hnested; congruence);
      destruct (RegExp.exec (MapParser.dotPattern mapName) line);
      cbn [firstApplicable] in E;
      try (inversion E; subst b; simpl in Hnested; congruence);
      destruct (RegExp.exec (MapParser.bracketPattern mapName) line);
      cbn [firstApplicable] in E;
      try (inversion E; subst b; simpl in Hnested; congruence); discriminate.
  - intros a b Ha Hb. apply (increasing_injective KA.line assignments); try assumption.
    apply (parseKeyAssignments_increasing p mapName). exact Hparse.
Qed.

(** The four notations, one per line. *)
Lemma parseKeyAssignments_priority_witness :
  exists assignments,
    MapParser.parseKeyAssignments fourNotations "$mData" = Some assignments
    /\ List.map KA.key assignments = ["a"; "$sKey"; "name"; "id"]
    /\ (forall a b, In a assignments -> In b assignments ->
          KA.line a = KA.line b -> a = b).
Proof.
  eexists. split; [vm_compute; reflexivity|]. split; [reflexivity|].
  apply (parseKeyAssignments_priority fourNotations "$mData").
  vm_compute. reflexivity.
Defined.

(** ** Queries at the end of the text *)

Lemma fold_left_ext_in {A B : Type} (f g : A -> B -> A) (l : list B) (a : A) :
  (forall a x, In x l -> f a x = g a x) -> fold_left f l a = fold_left g l a.
Proof.
  revert a. induction l as [|x l IH]; intros a H; simpl; [reflexivity|].
  rewrite H by (left; reflexivity). apply IH. intros a' y Hy. apply H. right. exact Hy.
Qed.

Lemma closestDeclaration_pick (p : MapParser.t) (mapName : string) (targetLine : num) :
  MapParser.closestDeclaration p mapName targetLine = pickDeclaration p mapName targetLine.
Proof.
  unfold MapParser.closestDeclaration, pickDeclaration.
  pose proof (parseMapDeclarations_increasing p) as Hinc.
  change (MapParser.parseMapDeclarations p) with ([] ++ MapParser.parseMapDeclarations p) in Hinc.
  assert (Hsel : selected targetLine [] (None, Infinity)) by (left; reflexivity).
  change (@None D.t) with (fst (@None D.t, Infinity)) at 2.
  generalize dependent (@None D.t, Infinity).
  generalize dependent (@nil D.t).
  induction (MapParser.parseMapDeclarations p) as [|d rest IH]; intros seen Hinc st Hsel; simpl.
  - reflexivity.
  - assert (Hseen : Forall (fun d0 => D.line d0 < D.line d) seen).
    { apply List.Forall_forall. intros d0 Hd0.
      unfold increasing in Hinc. rewrite List.map_app in Hinc.
      eapply (StronglySorted_app_1_elem_of _ _ _ _ _ Hinc).
      - apply list_elem_of_In, List.in_map, Hd0.
      - left. }
    rewrite (IH (seen ++ [d])).
    + rewrite (considerDeclaration_accepts _ _ _ seen) by assumption.
      destruct (accepts p mapName targetLine (fst st) d); reflexivity.
    + rewrite <- List.app_assoc. exact Hinc.
    + apply selected_step; assumption.
Qed.

Lemma declaration_line_bounds (p : MapParser.t) (d : D.t) :
  In d (MapParser.parseMapDeclarations p) ->
  0 <= D.line d < Arr.length (MapParser.lines p).
Proof.
  unfold MapParser.parseMapDeclarations, Arr.entries. intros H.
  apply in_flat_map in H as ([index line] & Hin & H).
  apply entriesFrom_bounds in Hin.
  destruct (MapParser.isComment line); [destruct H|].
  destruct (RegExp.exec MapParser.mapDeclPattern line); [|destruct H].
  destruct H as [<-|[]]. simpl. lia.
Qed.

Lemma assignment_line_bounds (p : MapParser.t) (mapName : string)
      (assignments : list KA.t) (a : KA.t) :
  MapParser.parseKeyAssignments p mapName = Some assignments ->
  In a assignments ->
  0 <= KA.line a < Arr.length (MapParser.lines p).
Proof.
  unfold MapParser.parseKeyAssignments, Arr.entries.
  destruct (MapParser.literalName mapName); [|discriminate].
  intros E H. inversion E; subst assignments.
  apply in_flat_map in H as ([index line] & Hin & H).
  apply entriesFrom_bounds in Hin.
  apply lineAssignments_at_most_one in H as [_ ->]. lia.
Qed.

(** No function spans a line at or after the end of the text. *)
Lemma getFunctionAtLine_beyondEnd (p : MapParser.t) (targetLine : num) :
  beyondEnd p targetLine -> MapParser.getFunctionAtLine p targetLine = None.
Proof.
  unfold beyondEnd, MapParser.getFunctionAtLine, MapParser.parseFunctionBoundaries, Arr.entries.
  intros Hb.
  destruct (scanInv_fold (MapParser.lines p) 0 ([], None)) as (_ & Hf & _).
  { repeat split; constructor. }
  replace (0 + Arr.length (MapParser.lines p)) with (Arr.length (MapParser.lines p)) in Hf by lia.
  induction Hf as [|f fs [_ Hend] _ IH]; simpl; [reflexivity|].
  replace (Num.leb targetLine (Fin (FB.endLine f))) with false; [rewrite andb_false_r; exact IH|].
  destruct targetLine as [t|]; [|reflexivity]. simpl in *.
  symmetry. apply Z.leb_gt. apply Z.leb_le in Hb. lia.
Qed.

Lemma beyondEnd_Infinity (p : MapParser.t) : beyondEnd p Infinity.
Proof. reflexivity. Qed.

Lemma beyondEnd_after (p : MapParser.t) (targetLine : num) (l : Z) :
  beyondEnd p targetLine -> l < Arr.length (MapParser.lines p) ->
  Num.leb (Fin l) targetLine = true /\ Num.leb targetLine (Fin l) = false.
Proof.
  unfold beyondEnd. destruct targetLine as [t|]; simpl; intros Hb Hl; [|split; reflexivity].
  apply Z.leb_le in Hb. split; [apply Z.leb_le|apply Z.leb_gt]; lia.
Qed.

(** A query at or after the end of the text gives what the query at
    [Infinity] gives. *)
Lemma getKeysForMapAtLine_beyondEnd (p : MapParser.t) (mapName : string)
      (targetLine : num) (includeFunctionKeys : bool) :
  beyondEnd p targetLine ->
  MapParser.getKeysForMapAtLine p mapName targetLine includeFunctionKeys
  = MapParser.getKeysForMapAtLine p mapName Infinity includeFunctionKeys.
Proof.
  intros Hb. unfold MapParser.getKeysForMapAtLine.
  rewrite (getFunctionAtLine_beyondEnd p targetLine Hb).
  rewrite (getFunctionAtLine_beyondEnd p Infinity (beyondEnd_Infinity p)).
  assert (Hpick : MapParser.closestDeclaration p mapName targetLine
                  = MapParser.closestDeclaration p mapName Infinity).
  { rewrite !closestDeclaration_pick. unfold pickDeclaration.
    apply fold_left_ext_in. intros c d Hd.
    unfold accepts, inScope, candidate.
    rewrite (getFunctionAtLine_beyondEnd p targetLine Hb).
    rewrite (getFunctionAtLine_beyondEnd p Infinity (beyondEnd_Infinity p)).
    destruct (beyondEnd_after p targetLine (D.line d) Hb) as [-> _];
      [apply declaration_line_bounds; exact Hd|].
    destruct (beyondEnd_after p Infinity (D.line d) (beyondEnd_Infinity p)) as [-> _];
      [apply declaration_line_bounds; exact Hd|].
    reflexivity. }
  rewrite Hpick.
  destruct (MapParser.closestDeclaration p mapName Infinity) as [decl|]; [|reflexivity].
  destruct (MapParser.parseKeyAssignments p mapName) as [assignments|] eqn:Ea; [|reflexivity].
  simpl.
  assert (Hkeys : fold_left (MapParser.collectKey p targetLine None decl) assignments JSSet.empty
                  = fold_left (MapParser.collectKey p Infinity None decl) assignments JSSet.empty).
  { apply fold_left_ext_in. intros s a Ha. unfold MapParser.collectKey.
    pose proof (assignment_line_bounds p mapName assignments a Ea Ha) as Hl.
    destruct (beyondEnd_after p targetLine (KA.line a) Hb) as [_ ->]; [lia|].
    reflexivity. }
  rewrite Hkeys.
  assert (Hcalls : MapParser.getKeysFromFunctionCalls p mapName targetLine
                   = MapParser.getKeysFromFunctionCalls p mapName Infinity).
  { unfold MapParser.getKeysFromFunctionCalls. f_equal.
    apply fold_left_ext_in. intros st [index line] Hin.
    apply entriesFrom_bounds in Hin. unfold MapParser.scanCallLine.
    destruct st as [st|]; [|reflexivity]. simpl.
    destruct (beyondEnd_after p targetLine index Hb) as [_ ->]; [lia|].
    reflexivity. }
  rewrite Hcalls. reflexivity.
Qed.

(** ** C10: the singleton *)

Lemma construct_existing (w : MapTrackingService.world) (i : nat)
      (r : option string) (ps : option (list string)) (d : option Z) :
  MapTrackingService.instance w = Some i ->
  MapTrackingService.construct r ps d w = (i, w).
Proof. intros H. unfold MapTrackingService.construct. rewrite H. reflexivity. Qed.

Lemma getInstance_existing (w : MapTrackingService.world) (i : nat)
      (r : option string) (ps : option (list string)) (d : option Z) :
  MapTrackingService.instance w = Some i ->
  exists warnings,
    MapTrackingService.getInstance r ps d w
    = (i, {| MapTrackingService.heap := MapTrackingService.heap w;
             MapTrackingService.instance := Some i;
             MapTrackingService.log := MapTrackingService.log w ++ warnings |}).
Proof.
  intros H. unfold MapTrackingService.getInstance. rewrite H.
  match goal with |- context [if ?b then _ else _] => destruct b end.
  - exists [MapTrackingService.changedParametersWarning]. reflexivity.
  - exists []. rewrite List.app_nil_r. destruct w; simpl in *. subst. reflexivity.
Qed.

Lemma method_keeps_configuration (s : MapTrackingService.t) (f src : string) :
  MapTrackingService.configuration (MapTrackingService.updateFile s f src)
  = MapTrackingService.configuration s
  /\ MapTrackingService.configuration (MapTrackingService.updateFileImmediate s f src)
     = MapTrackingService.configuration s
  /\ MapTrackingService.configuration (MapTrackingService.removeFile s f)
     = MapTrackingService.configuration s
  /\ MapTrackingService.configuration (MapTrackingService.clear s)
     = MapTrackingService.configuration s.
Proof.
  repeat split.
  unfold MapTrackingService.updateFileImmediate, MapTrackingService._parseFile.
  destruct (decide _); reflexivity.
Qed.

(** C10.  Once an instance exists: a constructor call evaluates to that
    instance and changes nothing; [getInstance], with any arguments, returns
    that instance and leaves every object (its configuration and its map of
    file parsers) and the static field as they are, writing at most a
    warning; and of all the state-changing calls only [updateConfiguration]
    on an object changes the configuration of that object, which it sets to
    its arguments. *)
Theorem singleton_configuration (w : MapTrackingService.world) (i : nat)
        (inst : MapTrackingService.t) :
  MapTrackingService.instance w = Some i ->
  MapTrackingService.heap w !! i = Some inst ->
  (forall r ps d, MapTrackingService.construct r ps d w = (i, w))
  /\ (forall r ps d,
        fst (MapTrackingService.getInstance r ps d w) = i
        /\ MapTrackingService.heap (snd (MapTrackingService.getInstance r ps d w))
           = MapTrackingService.heap w
        /\ MapTrackingService.instance (snd (MapTrackingService.getInstance r ps d w))
           = Some i)
  /\ (forall c,
        (forall r ps d, c <> MapTrackingService.UpdateConfiguration i r ps d) ->
        exists inst',
          MapTrackingService.heap (MapTrackingService.perform c w) !! i = Some inst'
          /\ MapTrackingService.configuration inst'
             = MapTrackingService.configuration inst)
  /\ (forall r ps d,
        exists inst',
          MapTrackingService.heap
            (MapTrackingService.perform (MapTrackingService.UpdateConfiguration i r ps d) w)
          !! i = Some inst'
          /\ MapTrackingService.configuration inst'
             = (r, IncludeResolver.constructor r ps d)).
Proof.
  intros Hinst Hheap. split; [|split; [|split]].
  - intros. apply construct_existing. exact Hinst.
  - intros r ps d.
    destruct (getInstance_existing w i r ps d Hinst) as (warnings & E).
    rewrite E. simpl. auto.
  - intros c Hc.
    assert (Hother : forall (j : nat) (m : MapTrackingService.t -> MapTrackingService.t),
               (forall s, MapTrackingService.configuration (m s)
                          = MapTrackingService.configuration s) ->
               exists inst',
                 MapTrackingService.heap (MapTrackingService.invoke j m w) !! i = Some inst'
                 /\ MapTrackingService.configuration inst'
                    = MapTrackingService.configuration inst).
    { intros j m Hm. unfold MapTrackingService.invoke. simpl.
      destruct (decide (j = i)) as [->|Hne].
      - exists (m inst). rewrite lookup_alter_eq, Hheap. simpl. split; [reflexivity|apply Hm].
      - exists inst. rewrite lookup_alter_ne by exact Hne. split; [exact Hheap|reflexivity]. }
    destruct c as [r ps d|r ps d| |j r ps d|j f src|j f src|j f|j]; simpl.
    + rewrite (construct_existing w i r ps d Hinst). simpl. eauto.
    + destruct (getInstance_existing w i r ps d Hinst) as (warnings & E).
      rewrite E. simpl. eauto.
    + eauto.
    + unfold MapTrackingService.invoke. simpl.
      destruct (decide (j = i)) as [->|Hne]; [exfalso; eapply Hc; reflexivity|].
      exists inst. rewrite lookup_alter_ne by exact Hne. split; [exact Hheap|reflexivity].
    + apply Hother. intros s. apply (method_keeps_configuration s f src).
    + apply Hother. intros s. apply (method_keeps_configuration s f src).
    + apply Hother. intros s. apply (method_keeps_configuration s f EmptyString).
    + apply Hother. intros s. apply (method_keeps_configuration s EmptyString EmptyString).
  - intros r ps d. unfold MapTrackingService.perform, MapTrackingService.invoke. simpl.
    rewrite lookup_alter_eq, Hheap. simpl. eexists. split; reflexivity.
Qed.

(** A second constructor call with other arguments in [oneInstance]. *)
Lemma singleton_configuration_witness :
  MapTrackingService.construct (Some "/elsewhere") (Some []) (Some 9) oneInstance
  = (0%nat, oneInstance).
Proof.
  refine (proj1 (singleton_configuration oneInstance 0
                   (MapTrackingService.create "/workspace" ["/autoit/include"] 3)
                   _ _) _ _ _).
  - reflexivity.
  - vm_compute. reflexivity.
Defined.

(** ** C5, C6: the include closure *)

Section Closure.
Variable includesOf : string -> list string.
Variable entry : string.

Lemma tidy_start : tidy entry (IR.start entry).
Proof.
  unfold tidy, IR.start. simpl. split; [|split; [|split; [|split]]].
  - intros f. rewrite elem_of_singleton. simpl. tauto.
  - constructor.
  - intros [].
  - constructor.
  - intros f [].
Qed.

Lemma NoDup_snoc (l : list string) (x : string) :
  NoDup l -> ~ In x l -> NoDup (l ++ [x]).
Proof.
  intros Hl Hx. apply NoDup_app. split; [exact Hl|]. split; [|apply NoDup_singleton].
  intros y Hy Hy'. apply list_elem_of_In in Hy. apply list_elem_of_In in Hy'.
  destruct Hy' as [<-|[]]. contradiction.
Qed.

Lemma tidy_discover (w : IR.walk) (inc : string) :
  tidy entry w -> inc ∉ IR.visited w -> tidy entry (IR.discover inc w).
Proof.
  intros (Hv & Hr & He & Ho & Hov) Hnew. unfold tidy, IR.discover. simpl.
  assert (Hinc : inc <> entry /\ ~ In inc (IR.resolved w)).
  { split; intros H; apply Hnew, Hv; [left; exact H|right; exact H]. }
  split; [|split; [|split; [|split]]].
  - intros f. rewrite elem_of_union, elem_of_singleton, Hv, List.in_app_iff. simpl.
    intuition congruence.
  - apply NoDup_snoc; tauto.
  - intros H. apply in_app_or in H as [H|[H|[]]]; [tauto|]. subst inc. tauto.
  - exact Ho.
  - intros f Hf. apply elem_of_union_r. apply Hov. exact Hf.
Qed.

Lemma tidy_open (w : IR.walk) (file : string) :
  tidy entry w -> file ∈ IR.visited w -> ~ In file (IR.opened w) ->
  tidy entry (IR.open file w).
Proof.
  intros (Hv & Hr & He & Ho & Hov) Hin Hnot. unfold tidy, IR.open. simpl.
  split; [exact Hv|]. split; [exact Hr|]. split; [exact He|]. split.
  - apply NoDup_snoc; assumption.
  - intros f Hf. apply in_app_or in Hf as [Hf|[<-|[]]]; [apply Hov; exact Hf|exact Hin].
Qed.

(** The traversal below a visited, unread file keeps the walk tidy and
    only adds to it. *)
Lemma expand_tidy (hops : nat) (file : string) (w : IR.walk) :
  tidy entry w -> file ∈ IR.visited w -> ~ In file (IR.opened w) ->
  tidy entry (IR.expand includesOf hops file w)
  /\ extends w (IR.expand includesOf hops file w).
Proof.
  revert file w. induction hops as [|hops IH]; intros file w Ht Hin Hnot; simpl.
  - split; [exact Ht|]. split; [reflexivity|auto].
  - assert (H0 : tidy entry (IR.open file w) /\ extends w (IR.open file w)).
    { split; [apply tidy_open; assumption|].
      split; [reflexivity|]. intros f Hf. simpl. apply in_or_app. left. exact Hf. }
    generalize dependent (IR.open file w). clear Ht Hnot.
    induction (includesOf file) as [|inc incs IHincs]; intros w0 [Ht0 He0]; simpl.
    + split; assumption.
    + apply IHincs. destruct (decide (inc ∈ IR.visited w0)) as [Hv|Hv].
      * split; assumption.
      * assert (Hd : tidy entry (IR.discover inc w0)) by (apply tidy_discover; assumption).
        destruct (IH inc (IR.discover inc w0)) as [Ht1 He1].
        -- exact Hd.
        -- simpl. apply elem_of_union_l, elem_of_singleton. reflexivity.
        -- simpl. intros Ho. destruct Ht0 as (_ & _ & _ & _ & Hov). apply Hv, Hov, Ho.
        -- split; [exact Ht1|]. destruct He0 as [Hs0 Ho0]. destruct He1 as [Hs1 Ho1].
           split.
           ++ etransitivity; [exact Hs0|]. etransitivity; [|exact Hs1].
              simpl. apply union_subseteq_r.
           ++ intros f Hf. apply Ho1. simpl. apply Ho0. exact Hf.
Qed.

Lemma expand_bounded (M hops depth : nat) (file : string) (w : IR.walk) :
  (depth + hops <= M)%nat ->
  reaches includesOf depth entry file ->
  bounded includesOf entry M w ->
  bounded includesOf entry M (IR.expand includesOf hops file w).
Proof.
  revert depth file w. induction hops as [|hops IH]; intros depth file w Hd Hr Hb; simpl.
  - exact Hb.
  - assert (H0 : bounded includesOf entry M (IR.open file w)).
    { destruct Hb as [Hb1 Hb2]. split; [exact Hb1|]. simpl. intros f Hf.
      apply in_app_or in Hf as [Hf|[<-|[]]]; [apply Hb2; exact Hf|].
      exists depth. split; [lia|exact Hr]. }
    assert (Hincs : forall inc, In inc (includesOf file) ->
                      reaches includesOf (S depth) entry inc).
    { intros inc Hinc. eapply reaches_hop; eassumption. }
    generalize dependent (IR.open file w). clear Hb.
    induction (includesOf file) as [|inc incs IHincs]; intros w0 Hb0; simpl.
    + exact Hb0.
    + apply IHincs; [intros; apply Hincs; right; assumption|].
      destruct (decide (inc ∈ IR.visited w0)); [exact Hb0|].
      apply (IH (S depth)); [lia|apply Hincs; left; reflexivity|].
      destruct Hb0 as [Hb1 Hb2]. split; [|exact Hb2]. simpl. intros f Hf.
      apply in_app_or in Hf as [Hf|[<-|[]]]; [apply Hb1; exact Hf|].
      exists (S depth). split; [lia|apply Hincs; left; reflexivity].
Qed.

Lemma expand_covered (hops : nat) (file : string) (w : IR.walk) :
  tidy entry w -> file ∈ IR.visited w -> ~ In file (IR.opened w) ->
  covered includesOf w (IR.expand includesOf hops file w).
Proof.
  revert file w. induction hops as [|hops IH]; intros file w Ht Hin Hnot; simpl.
  - intros f Hf Hnf. contradiction.
  - (* the loop over the includes of [file], from the walk [w0] reached
       after the includes [done] *)
    assert (Hloop : forall incs done w0,
               includesOf file = done ++ incs ->
               tidy entry w0 -> extends (IR.open file w) w0 ->
               (forall g, In g done -> g ∈ IR.visited w0) ->
               (forall f, In f (IR.opened w0) -> ~ In f (IR.opened w) -> f <> file ->
                          forall g, In g (includesOf f) -> g ∈ IR.visited w0) ->
               covered includesOf w
                 (fold_left
                    (fun w1 inc =>
                       if decide (inc ∈ IR.visited w1) then w1
                       else IR.expand includesOf hops inc (IR.discover inc w1))
                    incs w0)).
    { induction incs as [|inc incs IHincs]; intros done w0 Hsplit Ht0 He0 Hdone Hcov; simpl.
      - intros f Hf Hnf g Hg. destruct (String.eqb_spec f file) as [->|Hne].
        + apply Hdone. rewrite Hsplit, List.app_nil_r in Hg. exact Hg.
        + apply (Hcov f); assumption.
      - assert (Hsplit' : includesOf file = (done ++ [inc]) ++ incs)
          by (rewrite <- List.app_assoc; exact Hsplit).
        destruct (decide (inc ∈ IR.visited w0)) as [Hv|Hv].
        + apply (IHincs (done ++ [inc])); try assumption.
          intros g Hg. apply in_app_or in Hg as [Hg|[<-|[]]]; [apply Hdone; exact Hg|exact Hv].
        + assert (Hd : tidy entry (IR.discover inc w0)) by (apply tidy_discover; assumption).
          assert (Hdv : inc ∈ IR.visited (IR.discover inc w0))
            by (simpl; apply elem_of_union_l, elem_of_singleton; reflexivity).
          assert (Hdo : ~ In inc (IR.opened (IR.discover inc w0))).
          { simpl. intros Ho. destruct Ht0 as (_ & _ & _ & _ & Hov). apply Hv, Hov, Ho. }
          destruct (expand_tidy hops inc _ Hd Hdv Hdo) as [Ht1 [Hs1 Ho1]].
          pose proof (IH inc _ Hd Hdv Hdo) as Hc1.
          assert (Hsub : IR.visited w0 ⊆ IR.visited (IR.expand includesOf hops inc (IR.discover inc w0))).
          { etransitivity; [|exact Hs1]. simpl. apply union_subseteq_r. }
          apply (IHincs (done ++ [inc])); try assumption.
          * destruct He0 as [Hs0 Ho0]. split.
            -- etransitivity; [exact Hs0|exact Hsub].
            -- intros f Hf. apply Ho1. simpl. apply Ho0. exact Hf.
          * intros g Hg. apply in_app_or in Hg as [Hg|[<-|[]]].
            -- apply Hsub, Hdone, Hg.
            -- apply Hs1. exact Hdv.
          * intros f Hf Hnf Hne g Hg.
            destruct (List.in_dec String.string_dec f (IR.opened w0)) as [Hold|Hnew].
            -- apply Hsub. apply (Hcov f); assumption.
            -- apply (Hc1 f); assumption. }
    apply (Hloop (includesOf file) [] (IR.open file w)).
    + reflexivity.
    + apply tidy_open; assumption.
    + split; [reflexivity|auto].
    + intros g [].
    + simpl. intros f Hf Hnf Hne. apply in_app_or in Hf as [Hf|[Hf|[]]]; [contradiction|].
      subst f. contradiction.
Qed.

End Closure.

Lemma walk_facts (includesOf : string -> list string) (r : IR.t) (entry : string) :
  let w := IR.expand includesOf (Z.to_nat (IR.maxDepth r)) entry (IR.start entry) in
  tidy entry w
  /\ bounded includesOf entry (Z.to_nat (IR.maxDepth r)) w
  /\ covered includesOf (IR.start entry) w.
Proof.
  intros w.
  assert (Hin : entry ∈ IR.visited (IR.start entry))
    by (simpl; apply elem_of_singleton; reflexivity).
  assert (Hnot : ~ In entry (IR.opened (IR.start entry))) by (simpl; tauto).
  split; [|split].
  - apply (proj1 (expand_tidy includesOf entry _ entry _ (tidy_start includesOf entry) Hin Hnot)).
  - apply (expand_bounded includesOf entry _ _ 0).
    + simpl. lia.
    + constructor.
    + split; simpl; intros f [].
  - apply (expand_covered includesOf entry _ entry _ (tidy_start includesOf entry) Hin Hnot).
Qed.

(** C5.  [resolveAllIncludes] is a total function of the include graph,
    the resolver and the entry file: it returns for every graph, cyclic or
    not.  In its result no file occurs twice and the entry file does not
    occur; no file is read twice, whatever the maximum depth, so the files
    read are at most one more than the files returned.  For two
    files that include each other the result is the other file alone and
    the two files are read once each, for every maximum depth of at least
    one: the visited-set ends the traversal, not the depth. *)
Theorem resolveAllIncludes_cycle_safe (includesOf : string -> list string)
        (r : IR.t) (entry : string) :
  NoDup (IR.resolveAllIncludes includesOf r entry)
  /\ ~ In entry (IR.resolveAllIncludes includesOf r entry)
  /\ NoDup (IR.filesRead includesOf r entry)
  /\ (List.length (IR.filesRead includesOf r entry)
      <= S (List.length (IR.resolveAllIncludes includesOf r entry)))%nat
  /\ (forall n : nat,
        let deep := IR.constructor "/workspace" [] (Z.of_nat (S (S n))) in
        IR.resolveAllIncludes cycleAB deep "/workspace/a.au3" = ["/workspace/b.au3"]
        /\ IR.filesRead cycleAB deep "/workspace/a.au3"
           = ["/workspace/a.au3"; "/workspace/b.au3"]).
Proof.
  destruct (walk_facts includesOf r entry) as ((Hv & Hr & He & Ho & Hov) & _ & _).
  split; [exact Hr|]. split; [exact He|]. split; [exact Ho|]. split.
  { change (S (List.length (IR.resolveAllIncludes includesOf r entry)))
      with (List.length (entry :: IR.resolveAllIncludes includesOf r entry)).
    apply List.NoDup_incl_length; [apply NoDup_ListNoDup; exact Ho|].
    intros f Hf. apply Hov, Hv in Hf. simpl. intuition auto. }
  clear. intros n deep. unfold IR.resolveAllIncludes, IR.filesRead, deep. simpl IR.maxDepth.
  rewrite Nat2Z.id.
  assert (E : IR.expand cycleAB (S (S n)) "/workspace/a.au3" (IR.start "/workspace/a.au3")
              = {| IR.visited := {["/workspace/b.au3"]} ∪ {["/workspace/a.au3"]};
                   IR.resolved := ["/workspace/b.au3"];
                   IR.opened := ["/workspace/a.au3"; "/workspace/b.au3"] |}).
  { cbn [IR.expand]. change (cycleAB "/workspace/a.au3") with ["/workspace/b.au3"].
    cbn [fold_left IR.open IR.start IR.visited].
    rewrite decide_False by (cbn [IR.visited IR.start IR.open]; set_solver).
    change (cycleAB "/workspace/b.au3") with ["/workspace/a.au3"].
    cbn [fold_left IR.open IR.discover IR.visited IR.resolved IR.opened].
    rewrite decide_True by (cbn [IR.visited IR.start IR.open IR.discover]; set_solver).
    reflexivity. }
  rewrite E. split; reflexivity.
Qed.

(** C6.  The entry file is not in the result of [resolveAllIncludes].
    With maximum depth [M], every file of the result is between one and [M]
    include hops from the entry file, and every file that is read is fewer
    than [M] hops from it: a file reached with the last hop is not read.
    Every include of a file that is read is in the result (or is the entry
    file), so a file reached with the last hop is in the result.  With
    maximum depth 2 on the chain level1, level2, level3, level4 the result
    is level2 and level3, without level4, and level3 is not read. *)
Theorem resolveAllIncludes_depth_bounded (includesOf : string -> list string)
        (r : IR.t) (entry : string) :
  ~ In entry (IR.resolveAllIncludes includesOf r entry)
  /\ (forall f, In f (IR.resolveAllIncludes includesOf r entry) ->
        exists n, (1 <= n <= Z.to_nat (IR.maxDepth r))%nat
                  /\ reaches includesOf n entry f)
  /\ (forall f, In f (IR.filesRead includesOf r entry) ->
        exists n, (n < Z.to_nat (IR.maxDepth r))%nat
                  /\ reaches includesOf n entry f)
  /\ (forall f g, In f (IR.filesRead includesOf r entry) ->
        In g (includesOf f) ->
        g = entry \/ In g (IR.resolveAllIncludes includesOf r entry))
  /\ (let two := IR.constructor "/workspace" [] 2 in
      IR.resolveAllIncludes chain4 two "/workspace/level1.au3"
      = ["/workspace/level2.au3"; "/workspace/level3.au3"]
      /\ ~ In "/workspace/level4.au3"
              (IR.resolveAllIncludes chain4 two "/workspace/level1.au3")
      /\ IR.filesRead chain4 two "/workspace/level1.au3"
         = ["/workspace/level1.au3"; "/workspace/level2.au3"]).
Proof.
  destruct (walk_facts includesOf r entry)
    as ((Hv & _ & He & _ & _) & (Hb1 & Hb2) & Hc).
  split; [exact He|]. split; [exact Hb1|]. split; [exact Hb2|]. split.
  - intros f g Hf Hg. apply (proj1 (Hv g)).
    apply (Hc f Hf); [simpl; tauto|exact Hg].
  - assert (E : IR.resolveAllIncludes chain4 (IR.constructor "/workspace" [] 2)
                  "/workspace/level1.au3"
                = ["/workspace/level2.au3"; "/workspace/level3.au3"])
      by (vm_compute; reflexivity).
    cbv zeta. rewrite E. split; [reflexivity|]. split; [|vm_compute; reflexivity].
    simpl. intros [H|[H|[]]]; discriminate.
Qed.

(** The chain of four files: level3 is two hops from level1. *)
Lemma resolveAllIncludes_depth_bounded_witness :
  exists n, (1 <= n <= 2)%nat /\ reaches chain4 n "/workspace/level1.au3" "/workspace/level3.au3".
Proof.
  apply (proj1 (proj2 (resolveAllIncludes_depth_bounded chain4
                         (IR.constructor "/workspace" [] 2) "/workspace/level1.au3"))).
  vm_compute. right. left. reflexivity.
Defined.

(** ** C9: truncation and batches of the workspace symbols *)

Section Batches.
Variable documentSymbols : string -> option WS.provided.

Lemma slice_prefix {A : Type} (l : list A) (m : Z) :
  0 <= m <= Arr.length l -> WS.slice 0 m l = firstn (Z.to_nat m) l.
Proof.
  intros Hm. unfold WS.slice. cbn zeta.
  replace (0 <? 0) with false by reflexivity.
  replace (m <? 0) with false by (symmetry; apply Z.ltb_ge; lia).
  unfold Arr.length in *.
  rewrite Z.min_l by lia. rewrite Z.min_l by lia.
  replace (Z.to_nat 0) with 0%nat by reflexivity. simpl skipn.
  f_equal. lia.
Qed.

Lemma slice_batch {A : Type} (l : list A) (i : nat) (b : Z) :
  (i < List.length l)%nat -> 1 <= b ->
  WS.slice (Z.of_nat i) (Z.of_nat i + b) l ++ skipn (i + Z.to_nat b) l = skipn i l.
Proof.
  intros Hi Hb. unfold WS.slice. cbn zeta. unfold Arr.length.
  replace (Z.of_nat i <? 0) with false by (symmetry; apply Z.ltb_ge; lia).
  replace (Z.of_nat i + b <? 0) with false by (symmetry; apply Z.ltb_ge; lia).
  rewrite (Z.min_l (Z.of_nat i)) by lia. rewrite Nat2Z.id.
  destruct (Z.le_gt_cases (Z.of_nat i + b) (Z.of_nat (List.length l))) as [Hle|Hgt].
  - rewrite Z.min_l by lia.
    replace (Z.to_nat (Z.of_nat i + b - Z.of_nat i)) with (Z.to_nat b) by lia.
    rewrite <- (List.firstn_skipn (Z.to_nat b) (skipn i l)) at 2.
    rewrite List.skipn_skipn. do 2 f_equal. lia.
  - rewrite Z.min_r by lia.
    rewrite (List.skipn_all2 l (n := (i + Z.to_nat b)%nat)) by lia.
    rewrite List.app_nil_r. apply List.firstn_all2.
    rewrite List.length_skipn. lia.
Qed.

Lemma absorb_app (m : gmap string (list WS.SymbolInformation)) (l1 l2 : list string) :
  absorb documentSymbols m (l1 ++ l2)
  = absorb documentSymbols (absorb documentSymbols m l1) l2.
Proof. unfold absorb. rewrite List.map_app, List.fold_left_app. reflexivity. Qed.

Lemma processFile_uri (file uri : string) (symbols : list WS.SymbolInformation) :
  WS.processFile documentSymbols file = Some (uri, symbols) -> uri = file.
Proof.
  unfold WS.processFile. destruct (documentSymbols file) as [[l|]|]; intros E;
    inversion E; reflexivity.
Qed.

(** The entry of a file in the map: the flattened symbols of the file when
    it is among the files processed and could be opened. *)
Lemma absorb_lookup (l : list string) (m : gmap string (list WS.SymbolInformation))
      (uri : string) :
  absorb documentSymbols m l !! uri
  = match WS.processFile documentSymbols uri with
    | Some (_, symbols) => if bool_decide (uri ∈ l) then Some symbols else m !! uri
    | None => m !! uri
    end.
Proof.
  revert m. induction l as [|f l IH]; intros m.
  - unfold absorb. cbn [List.map fold_left].
    destruct (WS.processFile documentSymbols uri) as [[u s]|]; [|reflexivity].
    rewrite bool_decide_eq_false_2 by apply not_elem_of_nil. reflexivity.
  - replace (absorb documentSymbols m (f :: l))
      with (absorb documentSymbols m ([f] ++ l)) by reflexivity.
    rewrite absorb_app, IH.
    unfold absorb at 1 2. cbn [List.map fold_left].
    destruct (WS.processFile documentSymbols uri) as [[u s]|] eqn:Euri.
    + destruct (bool_decide (uri ∈ l)) eqn:El.
      * rewrite bool_decide_eq_true_2; [reflexivity|].
        apply bool_decide_eq_true_1 in El. apply elem_of_cons. tauto.
      * apply bool_decide_eq_false_1 in El.
        destruct (String.eqb_spec f uri) as [->|Hne].
        -- rewrite Euri. rewrite (processFile_uri _ _ _ Euri), lookup_insert_eq.
           rewrite bool_decide_eq_true_2 by (apply elem_of_cons; tauto). reflexivity.
        -- rewrite bool_decide_eq_false_2
             by (rewrite elem_of_cons; intros [?|?]; [congruence|tauto]).
           destruct (WS.processFile documentSymbols f) as [[u' s']|] eqn:Ef; [|reflexivity].
           rewrite (processFile_uri _ _ _ Ef). apply lookup_insert_ne. exact Hne.
    + destruct (WS.processFile documentSymbols f) as [[u' s']|] eqn:Ef; [|reflexivity].
      rewrite (processFile_uri _ _ _ Ef). apply lookup_insert_ne.
      intros ->. rewrite Euri in Ef. discriminate.
Qed.

(** Without cancellation and with a batch size of at least one, the loop
    ends and has processed every file from index [i] on. *)
Lemma batchLoop_completes (files : list string) (batchSize : Z) (fuel i : nat)
      (st : WS.progress) :
  1 <= batchSize -> (1 <= fuel)%nat -> (List.length files < fuel + i)%nat ->
  WS.batchLoop documentSymbols neverCancelled fuel files batchSize (Z.of_nat i) st
  = Some {| WS.results := absorb documentSymbols (WS.results st) (skipn i files);
            WS.opened := WS.opened st ++ skipn i files |}.
Proof.
  intros Hb. revert i st. induction fuel as [|fuel IH]; intros i st Hpos Hfuel; simpl.
  - lia.
  - destruct (Z.ltb_spec (Z.of_nat i) (Arr.length files)) as [Hlt|Hge];
      unfold Arr.length in *.
    + unfold neverCancelled.
      replace (Z.of_nat i + batchSize) with (Z.of_nat (i + Z.to_nat batchSize)) by lia.
      rewrite IH by lia. unfold WS.addBatch. simpl.
      replace (Z.of_nat (i + Z.to_nat batchSize)) with (Z.of_nat i + batchSize) by lia.
      f_equal. f_equal.
      * fold (absorb documentSymbols (WS.results st)
                     (WS.slice (Z.of_nat i) (Z.of_nat i + batchSize) files)).
        rewrite <- absorb_app. rewrite slice_batch by lia. reflexivity.
      * rewrite <- List.app_assoc. rewrite slice_batch by lia. reflexivity.
    + rewrite List.skipn_all2 by lia. unfold absorb. simpl.
      rewrite List.app_nil_r. destruct st; reflexivity.
Qed.

End Batches.

(** C9, amended.  Let the workspace have more scripts than the configured
    maximum [maxFiles] (not negative), let the batch size be at least one
    and the token never cancelled.  Then [getWorkspaceSymbols] returns; it
    has opened exactly the first [maxFiles] scripts, in order and once each;
    the map it returns has an entry exactly for those of them that could be
    opened, holding the flattened symbols of the script; and exactly one
    message is shown, the truncation warning. *)
Theorem getWorkspaceSymbols_truncates (documentSymbols : string -> option WS.provided)
        (workspaceScripts : list string) (maxFiles batchSize : Z) :
  0 <= maxFiles < Arr.length workspaceScripts ->
  1 <= batchSize ->
  exists out,
    WS.getWorkspaceSymbols documentSymbols neverCancelled maxFiles batchSize
                           (inl workspaceScripts) = Some out
    /\ WS.processed out = firstn (Z.to_nat maxFiles) workspaceScripts
    /\ (forall uri,
          WS.symbols out !! uri
          = if bool_decide (uri ∈ firstn (Z.to_nat maxFiles) workspaceScripts)
            then snd <$> WS.processFile documentSymbols uri
            else None)
    /\ WS.shown out
       = [WS.TruncationWarning maxFiles (Arr.length workspaceScripts)].
Proof.
  intros Hm Hb. unfold WS.getWorkspaceSymbols, WS.processBatch.
  rewrite slice_prefix by lia.
  set (files := firstn (Z.to_nat maxFiles) workspaceScripts).
  change 0 with (Z.of_nat 0).
  rewrite (batchLoop_completes documentSymbols files batchSize) by (try assumption; lia).
  simpl. eexists. split; [reflexivity|]. simpl.
  split; [reflexivity|]. split.
  - intros uri. rewrite absorb_lookup, lookup_empty.
    destruct (WS.processFile documentSymbols uri) as [[u s]|]; simpl.
    + reflexivity.
    + destruct (bool_decide _); reflexivity.
  - replace (maxFiles <? Arr.length workspaceScripts) with true
      by (symmetry; apply Z.ltb_lt; lia).
    reflexivity.
Qed.

(** Three scripts, a maximum of two, batches of ten. *)
Lemma getWorkspaceSymbols_truncates_witness :
  exists out,
    WS.getWorkspaceSymbols secondUnreadable neverCancelled 2 10 (inl threeScripts)
    = Some out
    /\ WS.processed out = ["file:///a.au3"; "file:///b.au3"]
    /\ WS.shown out = [WS.TruncationWarning 2 3].
Proof.
  destruct (getWorkspaceSymbols_truncates secondUnreadable threeScripts 2 10)
    as (out & E & Hp & _ & Hs).
  - unfold Arr.length, threeScripts. simpl. lia.
  - lia.
  - exists out. split; [exact E|]. split; [exact Hp|exact Hs].
Defined.

(** C9 as stated fails when one of the first files cannot be opened: with
    three scripts and a maximum of two, the second script unreadable, both
    scripts are processed but the map returned holds symbols for one file
    only. *)
Lemma getWorkspaceSymbols_skips_unreadable :
  exists out,
    WS.getWorkspaceSymbols secondUnreadable neverCancelled 2 10 (inl threeScripts)
    = Some out
    /\ WS.symbols out !! "file:///a.au3" = Some []
    /\ WS.symbols out !! "file:///b.au3" = None
    /\ size (WS.symbols out) = 1%nat.
Proof.
  eexists. split; [vm_compute; reflexivity|].
  split; [vm_compute; reflexivity|]. split; vm_compute; reflexivity.
Qed.

(** ** C7: merging the keys of included files *)

Section Merge.
Variable includesOf : string -> list string.
Variable readFile : string -> readResult.
Variable this : MTS.t.
Variable mapName : string.

Lemma agrees_refl : agrees readFile this this.
Proof. split; [reflexivity|]. intros f. left. reflexivity. Qed.

Lemma agrees_parserFor (svc : MTS.t) (f : string) :
  agrees readFile this svc -> parserFor readFile svc f = parserFor readFile this f.
Proof.
  intros [_ H]. unfold parserFor.
  destruct (H f) as [E|(E & source & Hr & E')]; rewrite E; [reflexivity|].
  rewrite E', Hr. reflexivity.
Qed.

Lemma agrees_updateFile (svc : MTS.t) (f source : string) :
  agrees readFile this svc -> MTS.fileParsers svc !! f = None ->
  readFile f = Content source ->
  agrees readFile this (MTS.updateFile svc f source).
Proof.
  intros [Hc H] Hnone Hr. split; [exact Hc|]. intros g. unfold MTS.updateFile. simpl.
  destruct (String.eqb_spec f g) as [<-|Hne].
  - right. rewrite lookup_insert_eq.
    destruct (H f) as [E|(E & _)]; [rewrite Hnone in E; split; [congruence|]|split; [exact E|]];
      exists source; split; [exact Hr|reflexivity|exact Hr|reflexivity].
  - rewrite lookup_insert_ne by exact Hne. apply H.
Qed.

(** One round of the loop, for an included file whose query returns. *)
Lemma mergeIncluded_step (st : MTS.merge) (f : string) (k : Keys.t) :
  agrees readFile this (MTS.service st) ->
  includedKeys readFile this mapName f = Some k ->
  exists svc,
    MTS.mergeIncluded readFile mapName (Some st) f
    = Some {| MTS.service := svc;
              MTS.allDirectKeys :=
                fold_left (fun s key => JSSet.add key s) (Keys.directKeys k)
                          (MTS.allDirectKeys st);
              MTS.allFunctionKeys := MTS.allFunctionKeys st ++ Keys.functionKeys k;
              MTS.console := MTS.console st ++ readWarnings readFile this f |}
    /\ agrees readFile this svc.
Proof.
  intros Hag Hk. pose proof (agrees_parserFor _ f Hag) as Hp.
  unfold includedKeys in Hk. unfold MTS.mergeIncluded, MTS.ensureParsed. simpl.
  unfold parserFor in Hp, Hk. unfold readWarnings.
  destruct Hag as [Hc Hag'].
  destruct (MTS.fileParsers (MTS.service st) !! f) as [p|] eqn:Ecache.
  - (* a cached parser *)
    exists (MTS.service st). split; [|split; assumption].
    unfold MTS.getKeysForMap. rewrite Ecache.
    destruct (MTS.fileParsers this !! f) as [p0|] eqn:E0.
    + inversion Hp; subst p0. rewrite Hk. simpl. rewrite List.app_nil_r. reflexivity.
    + destruct (readFile f) as [source|message]; [|discriminate].
      inversion Hp; subst p. rewrite Hk. simpl. rewrite List.app_nil_r. reflexivity.
  - destruct (Hag' f) as [E|(E & source & Hr & E')]; [|rewrite Ecache in E'; discriminate].
    rewrite Ecache in E. rewrite <- E in *.
    destruct (readFile f) as [source|message] eqn:Hr.
    + (* read and parsed now *)
      exists (MTS.updateFile (MTS.service st) f source).
      split; [|apply agrees_updateFile; [split|..]; assumption].
      unfold MTS.getKeysForMap, MTS.updateFile. simpl. rewrite lookup_insert_eq.
      rewrite Hk. simpl. rewrite List.app_nil_r. reflexivity.
    + (* skipped with a warning *)
      exists (MTS.service st). split; [|split; assumption].
      inversion Hk; subst k. simpl. rewrite List.app_nil_r. reflexivity.
Qed.

Lemma mergeIncluded_fold (files : list string) (ks : list Keys.t) (st : MTS.merge) :
  agrees readFile this (MTS.service st) ->
  Forall2 (fun f k => includedKeys readFile this mapName f = Some k) files ks ->
  exists svc,
    fold_left (MTS.mergeIncluded readFile mapName) files (Some st)
    = Some {| MTS.service := svc;
              MTS.allDirectKeys :=
                fold_left (fun s key => JSSet.add key s)
                          (concat (List.map Keys.directKeys ks)) (MTS.allDirectKeys st);
              MTS.allFunctionKeys :=
                MTS.allFunctionKeys st ++ concat (List.map Keys.functionKeys ks);
              MTS.console := MTS.console st ++ flat_map (readWarnings readFile this) files |}
    /\ agrees readFile this svc.
Proof.
  intros Hag Hall. revert st Hag.
  induction Hall as [|f k files ks Hk Hall IH]; intros st Hag;
    cbn [fold_left List.map concat flat_map].
  - exists (MTS.service st). rewrite !List.app_nil_r. split; [destruct st; reflexivity|exact Hag].
  - destruct (mergeIncluded_step st f k Hag Hk) as (svc1 & E1 & Hag1).
    rewrite E1.
    match type of E1 with _ = Some ?s => destruct (IH s Hag1) as (svc & E & Hag2) end.
    simpl in E.
    exists svc. split; [|exact Hag2]. rewrite E.
    rewrite List.fold_left_app, <- !List.app_assoc. reflexivity.
Qed.

End Merge.

(** C7.  Let the local query return [currentKeys] and the query at
    [Infinity] on each included file return ([ks], nothing for a file that
    is skipped).  Then [getKeysForMapWithIncludes] returns; its [directKeys]
    are the distinct keys of the local result followed by those of the
    included files, in the order of first occurrence; its [functionKeys] are
    the local ones followed by those of the included files, duplicates kept;
    an included file without cached parser whose read fails is skipped with
    one warning and the others still contribute; the service afterwards has
    the old configuration and parsers, and parsers of the included files
    read.  The query at [Infinity] on an included file is the query at the
    end of its text. *)
Theorem getKeysForMapWithIncludes_merges (includesOf : string -> list string)
        (readFile : string -> readResult) (this : MTS.t)
        (filePath mapName : string) (line : num)
        (currentKeys : Keys.t) (ks : list Keys.t) :
  MTS.getKeysForMap this filePath mapName line = Some currentKeys ->
  Forall2 (fun f k => includedKeys readFile this mapName f = Some k)
          (IR.resolveAllIncludes includesOf (MTS.includeResolver this) filePath) ks ->
  (exists this',
      MTS.getKeysForMapWithIncludes includesOf readFile this filePath mapName line
      = Some ({| Keys.directKeys :=
                   firstOccurrences
                     (Keys.directKeys currentKeys ++ concat (List.map Keys.directKeys ks));
                 Keys.functionKeys :=
                   Keys.functionKeys currentKeys ++ concat (List.map Keys.functionKeys ks) |},
              this',
              flat_map (readWarnings readFile this)
                       (IR.resolveAllIncludes includesOf (MTS.includeResolver this) filePath))
      /\ agrees readFile this this')
  /\ (forall f parser,
        parserFor readFile this f = Some parser ->
        includedKeys readFile this mapName f
        = MapParser.getKeysForMapAtLine parser mapName
            (Fin (Arr.length (MapParser.lines parser))) true).
Proof.
  intros Hlocal Hks. split.
  - unfold MTS.getKeysForMapWithIncludes. rewrite Hlocal. simpl.
    destruct (mergeIncluded_fold readFile this mapName _ ks
                {| MTS.service := this;
                   MTS.allDirectKeys := JSSet.ofList (Keys.directKeys currentKeys);
                   MTS.allFunctionKeys := Keys.functionKeys currentKeys;
                   MTS.console := [] |} (agrees_refl readFile this) Hks)
      as (svc & E & Hag).
    rewrite E. simpl. exists svc. split; [|exact Hag].
    rewrite add_all_ofList. reflexivity.
  - intros f parser Hp. unfold includedKeys. rewrite Hp.
    symmetry. apply getKeysForMapAtLine_beyondEnd.
    unfold beyondEnd. simpl. apply Z.leb_refl.
Qed.

(** The main script of [mainTracked], queried at its end: the included
    library adds the key id, the missing include a warning. *)
Lemma getKeysForMapWithIncludes_merges_witness :
  exists this',
    MTS.getKeysForMapWithIncludes mainIncludes diskWithLib mainTracked
      "/workspace/main.au3" "$mUser" (Fin 4)
    = Some ({| Keys.directKeys := ["name"; "id"]; Keys.functionKeys := [] |},
            this',
            [MTS.warning "/workspace/missing.au3" "ENOENT: no such file or directory"])
    /\ agrees diskWithLib mainTracked this'.
Proof.
  refine (proj1 (getKeysForMapWithIncludes_merges mainIncludes diskWithLib mainTracked
                   "/workspace/main.au3" "$mUser" (Fin 4)
                   {| Keys.directKeys := ["name"]; Keys.functionKeys := [] |}
                   [ {| Keys.directKeys := ["id"; "name"]; Keys.functionKeys := [] |};
                     Keys.none ] _ _)).
  - vm_compute. reflexivity.
  - replace (IR.resolveAllIncludes mainIncludes (MTS.includeResolver mainTracked)
                                   "/workspace/main.au3")
      with ["/workspace/lib.au3"; "/workspace/missing.au3"] by (vm_compute; reflexivity).
    repeat constructor.
Defined.

(** ** C1: the keys of a flat Map *)

Lemma startsWith_dollar (mapName : string) :
  Str.startsWith "$" mapName = true -> exists t, mapName = String "$" t.
Proof.
  unfold Str.startsWith. destruct mapName as [|c t]; [discriminate|].
  change (String.prefix "$" (String c t))
    with (if Ascii.ascii_dec "$" c then String.prefix "" t else false).
  destruct (Ascii.ascii_dec "$" c) as [<-|Hne]; [|discriminate].
  intros _. exists t. reflexivity.
Qed.

Lemma eqIgnoreCase_dollar (c : ascii) :
  Char.eqIgnoreCase "$" c = true -> c = "$"%char.
Proof.
  destruct c as [[] [] [] [] [] [] [] []]; vm_compute; intros H;
    first [discriminate H | reflexivity].
Qed.

Lemma scopeLetter_not_F (c : ascii) :
  Char.eqIgnoreCase "L" c || (Char.eqIgnoreCase "G" c
    || (Char.eqIgnoreCase "D" c || Char.eqIgnoreCase "S" c)) = true ->
  Char.eqIgnoreCase "F" c = false /\ Char.isWhiteSpace c = false.
Proof.
  destruct c as [[] [] [] [] [] [] [] []]; vm_compute; intros H;
    first [discriminate H | split; reflexivity].
Qed.

(** A line with an assignment to a Map whose name starts with the dollar
    sign starts, after blanks, with the dollar sign. *)
Lemma assignment_firstChar (mapName : string) (index : Z) (line : string) :
  Str.startsWith "$" mapName = true ->
  MapParser.lineAssignments mapName index line <> [] ->
  firstChar line = Some "$"%char.
Proof.
  intros Hd Hne. apply startsWith_dollar in Hd as (t & ->).
  assert (Hpat : forall rest m,
             RegExp.exec (RegExp.seq (RegExp.star RegExp.ws
                                        :: MapParser.escapedName (String "$" t) :: rest)) line
             = Some m -> firstChar line = Some "$"%char).
  { intros rest m H.
    assert (Hseq : RegExp.seq (RegExp.star RegExp.ws
                                 :: MapParser.escapedName (String "$" t) :: rest)
                   = Cat (RegExp.star RegExp.ws)
                         (RegExp.seq (MapParser.escapedName (String "$" t) :: rest)))
      by reflexivity.
    rewrite Hseq in H.
    apply (exec_firstChar _ (Char.eqIgnoreCase "$")) in H as (c & Hc & Hq).
    - apply eqIgnoreCase_dollar in Hq. subst c. exact Hc.
    - destruct rest as [|r rest]; [apply demands_text|apply demands_cat, demands_text].
    - intros c Hc. apply eqIgnoreCase_dollar in Hc. subst c. reflexivity. }
  rewrite lineAssignments_priority in Hne.
  unfold assignmentByPriority in Hne.
  destruct (MapParser.isComment line); [contradiction|].
  unfold nestedRule, chainKeys, dynamicRule, dotRule, bracketRule in Hne.
  destruct (RegExp.exec (MapParser.nestedPattern (String "$" t)) line) eqn:E1;
    [unfold MapParser.nestedPattern in E1; exact (Hpat _ _ E1)|].
  destruct (RegExp.exec (MapParser.dynamicPattern (String "$" t)) line) eqn:E2;
    [unfold MapParser.dynamicPattern in E2; exact (Hpat _ _ E2)|].
  destruct (RegExp.exec (MapParser.dotPattern (String "$" t)) line) eqn:E3;
    [unfold MapParser.dotPattern in E3; exact (Hpat _ _ E3)|].
  destruct (RegExp.exec (MapParser.bracketPattern (String "$" t)) line) eqn:E4;
    [unfold MapParser.bracketPattern in E4; exact (Hpat _ _ E4)|].
  simpl in Hne. contradiction.
Qed.

Lemma funcStart_firstChar (line : string) (m : RegExp.matched) :
  RegExp.exec MapParser.funcStartPattern line = Some m ->
  exists c, firstChar line = Some c /\ Char.eqIgnoreCase "F" c = true.
Proof.
  intros H. apply (exec_firstChar _ (Char.eqIgnoreCase "F")) in H; [exact H| |].
  - apply demands_cat, demands_text.
  - intros c Hc. rewrite (eqIgnoreCase_blank "F" c Hc). reflexivity.
Qed.

Lemma mapDecl_firstChar (line : string) (m : RegExp.matched) :
  RegExp.exec MapParser.mapDeclPattern line = Some m ->
  exists c, firstChar line = Some c /\ Char.eqIgnoreCase "F" c = false.
Proof.
  intros H.
  apply (exec_firstChar _
           (fun c => Char.eqIgnoreCase "L" c || (Char.eqIgnoreCase "G" c
                       || (Char.eqIgnoreCase "D" c || Char.eqIgnoreCase "S" c)))) in H.
  - destruct H as (c & Hc & Hq). exists c. split; [exact Hc|]. apply scopeLetter_not_F, Hq.
  - apply demands_cat, demands_group.
    apply demands_alt; [apply demands_text|].
    apply demands_alt; [apply demands_text|].
    apply demands_alt; apply demands_text.
  - intros c Hc. apply scopeLetter_not_F, Hc.
Qed.

(** A text without a line that opens a function has no function. *)
Lemma no_function_lines (p : MapParser.t) :
  (forall line, In line (MapParser.lines p) ->
                RegExp.exec MapParser.funcStartPattern line = None) ->
  MapParser.parseFunctionBoundaries p = [].
Proof.
  unfold MapParser.parseFunctionBoundaries, Arr.entries. generalize 0.
  induction (MapParser.lines p) as [|l ls IH]; intros i H; simpl; [reflexivity|].
  rewrite H by (left; reflexivity).
  destruct (RegExp.exec MapParser.funcEndPattern l); apply IH; intros; apply H; right; assumption.
Qed.

Lemma entries_line {A : Type} (l : list A) (i index : Z) (x : A) :
  In (index, x) (Arr.entriesFrom i l) -> In x l.
Proof.
  revert i. induction l as [|y l IH]; intros i; simpl; [tauto|].
  intros [E|H]; [left; congruence|right; eapply IH; exact H].
Qed.

Lemma line_entry {A : Type} (l : list A) (i : Z) (x : A) :
  In x l -> exists index, In (index, x) (Arr.entriesFrom i l).
Proof.
  revert i. induction l as [|y l IH]; intros i; simpl; [tauto|].
  intros [->|H]; [exists i; left; reflexivity|].
  destruct (IH (i + 1) H) as (index & Hin). exists index. right. exact Hin.
Qed.

(** Without functions every call site is skipped. *)
Lemma no_functions_no_calls (p : MapParser.t) (mapName : string) (targetLine : num) :
  MapParser.parseFunctionBoundaries p = [] ->
  MapParser.getKeysFromFunctionCalls p mapName targetLine = Some [].
Proof.
  intros Hf. unfold MapParser.getKeysFromFunctionCalls.
  assert (H : forall es, fold_left (MapParser.scanCallLine p mapName targetLine) es
                           (Some ([], JSSet.empty)) = Some ([], JSSet.empty)).
  { induction es as [|[index line] es IH]; cbn [fold_left]; [reflexivity|].
    assert (Hstep : MapParser.scanCallLine p mapName targetLine
                      (Some ([], JSSet.empty)) (index, line) = Some ([], JSSet.empty)).
    { unfold MapParser.scanCallLine. simpl. rewrite Hf.
      destruct (Num.leb targetLine (Fin index)); [reflexivity|].
      destruct (RegExp.exec MapParser.functionCallPattern line); [|reflexivity].
      destruct (Arr.indexOf _ _ =? -1); reflexivity. }
    rewrite Hstep. exact IH. }
  rewrite H. reflexivity.
Qed.

Lemma no_functions_no_function (p : MapParser.t) (line : num) :
  MapParser.parseFunctionBoundaries p = [] -> MapParser.getFunctionAtLine p line = None.
Proof. unfold MapParser.getFunctionAtLine. intros ->. reflexivity. Qed.

(** Without functions the keys collected are those of the assignments
    before the query line. *)
Lemma no_functions_collect (p : MapParser.t) (targetLine : num) (decl : D.t)
      (assignments : list KA.t) (s : JSSet.t) :
  MapParser.parseFunctionBoundaries p = [] ->
  fold_left (MapParser.collectKey p targetLine None decl) assignments s
  = fold_left (fun s x => JSSet.add x s)
      (List.map KA.key
         (List.filter (fun a => Num.ltb (Fin (KA.line a)) targetLine) assignments)) s.
Proof.
  intros Hf. revert s. induction assignments as [|a l IH]; intros s; simpl; [reflexivity|].
  unfold MapParser.collectKey at 2. rewrite (no_functions_no_function p _ Hf).
  unfold Num.ltb. destruct (Num.leb targetLine (Fin (KA.line a))); simpl; apply IH.
Qed.

Lemma entries_functional {A : Type} (l : list A) (i index : Z) (x y : A) :
  In (index, x) (Arr.entriesFrom i l) -> In (index, y) (Arr.entriesFrom i l) -> x = y.
Proof.
  revert i. induction l as [|z l IH]; intros i; simpl; [tauto|].
  intros [E1|H1] [E2|H2].
  - congruence.
  - inversion E1; subst. apply entriesFrom_bounds in H2. lia.
  - inversion E2; subst. apply entriesFrom_bounds in H1. lia.
  - eapply IH; eassumption.
Qed.

(** In a text without functions, once a declaration is chosen the direct
    keys are the distinct keys of the assignments before the query line, in
    the order of first appearance, and there are no function keys. *)
Lemma no_functions_keys (p : MapParser.t) (mapName : string) (targetLine : num)
      (includeFunctionKeys : bool) (decl : D.t) (assignments : list KA.t) :
  MapParser.parseFunctionBoundaries p = [] ->
  MapParser.closestDeclaration p mapName targetLine = Some decl ->
  MapParser.parseKeyAssignments p mapName = Some assignments ->
  MapParser.getKeysForMapAtLine p mapName targetLine includeFunctionKeys
  = Some {| Keys.directKeys :=
              firstOccurrences
                (List.map KA.key
                   (List.filter (fun a => Num.ltb (Fin (KA.line a)) targetLine)
                                assignments));
            Keys.functionKeys := [] |}.
Proof.
  intros Hf Hd Ha. unfold MapParser.getKeysForMapAtLine.
  rewrite Hd, Ha. simpl.
  rewrite (no_functions_no_function p targetLine Hf).
  rewrite (no_functions_collect p targetLine decl assignments _ Hf).
  rewrite (no_functions_no_calls p mapName targetLine Hf).
  fold (JSSet.ofList
          (List.map KA.key
             (List.filter (fun a => Num.ltb (Fin (KA.line a)) targetLine) assignments))).
  rewrite ofList_firstOccurrences.
  destruct includeFunctionKeys; reflexivity.
Qed.

(** One declaration on the first line, an assignment on every other line:
    the keys assigned before the queried line. *)
Lemma keys_before_line (p : MapParser.t) (mapName : string) (L : Z)
      (includeFunctionKeys : bool) (d : D.t) :
  MapParser.literalName mapName = true ->
  Str.startsWith "$" mapName = true ->
  MapParser.parseMapDeclarations p = [d] ->
  namesMatch d mapName = true ->
  D.line d = 0 ->
  (forall index line, In (index, line) (Arr.entries (MapParser.lines p)) ->
      index <> 0 -> MapParser.lineAssignments mapName index line <> []) ->
  0 <= L ->
  exists assignments,
    MapParser.parseKeyAssignments p mapName = Some assignments
    /\ MapParser.getKeysForMapAtLine p mapName (Fin L) includeFunctionKeys
       = Some {| Keys.directKeys :=
                   firstOccurrences
                     (List.map KA.key
                        (List.filter (fun a => KA.line a <? L) assignments));
                 Keys.functionKeys := [] |}.
Proof.
  intros Hlit Hdollar Hdecls Hname Hline Hassign HL.
  (* the first line is the declaration *)
  assert (Hfirst : exists line0 m,
             In (0, line0) (Arr.entries (MapParser.lines p))
             /\ RegExp.exec MapParser.mapDeclPattern line0 = Some m).
  { assert (Hin : In d (MapParser.parseMapDeclarations p)) by (rewrite Hdecls; left; reflexivity).
    unfold MapParser.parseMapDeclarations in Hin.
    apply in_flat_map in Hin as ([index line] & Hin & Hd).
    destruct (MapParser.isComment line); [destruct Hd|].
    destruct (RegExp.exec MapParser.mapDeclPattern line) as [m|] eqn:E; [|destruct Hd].
    destruct Hd as [<-|[]]. simpl in Hline. subst index. exists line, m. split; assumption. }
  destruct Hfirst as (line0 & m0 & Hin0 & Hm0).
  (* no line opens a function *)
  assert (Hf : MapParser.parseFunctionBoundaries p = []).
  { apply no_function_lines. intros line Hl.
    destruct (line_entry (MapParser.lines p) 0 line Hl) as (index & Hin).
    destruct (RegExp.exec MapParser.funcStartPattern line) as [m|] eqn:E; [|reflexivity].
    exfalso. apply funcStart_firstChar in E as (c & Hc & HF).
    destruct (Z.eq_dec index 0) as [->|Hne].
    - rewrite (entries_functional _ _ _ _ _ Hin Hin0) in Hc.
      apply mapDecl_firstChar in Hm0 as (c' & Hc' & HF'). congruence.
    - rewrite (assignment_firstChar mapName index line Hdollar (Hassign index line Hin Hne)) in Hc.
      inversion Hc; subst c. discriminate. }
  (* the declaration is chosen *)
  assert (Hd : MapParser.closestDeclaration p mapName (Fin L) = Some d).
  { rewrite closestDeclaration_pick. unfold pickDeclaration. rewrite Hdecls. simpl.
    unfold accepts, inScope, candidate. rewrite Hname, Hline.
    rewrite !(no_functions_no_function p _ Hf). simpl.
    replace (0 <=? L) with true by (symmetry; apply Z.leb_le; exact HL). reflexivity. }
  unfold MapParser.parseKeyAssignments. rewrite Hlit. eexists. split; [reflexivity|].
  rewrite (no_functions_keys p mapName (Fin L) includeFunctionKeys d _ Hf Hd)
    by (unfold MapParser.parseKeyAssignments; rewrite Hlit; reflexivity).
  do 4 f_equal. apply List.filter_ext. intros a. unfold Num.ltb. simpl.
  symmetry. apply Z.ltb_antisym.
Qed.

(** ** C1 on a text written out *)

Lemma identStart_word (c : ascii) : Char.isIdentStart c = true -> Char.isWord c = true.
Proof.
  destruct c as [[] [] [] [] [] [] [] []]; vm_compute; intros H;
    first [discriminate H | reflexivity].
Qed.

Lemma word_plain (c : ascii) :
  Char.isWord c = true ->
  negb (Char.isPatternSyntax c) = true /\ negb (Char.isChar Char.LF c) = true.
Proof.
  destruct c as [[] [] [] [] [] [] [] []]; vm_compute; intros H;
    first [discriminate H | split; reflexivity].
Qed.

Lemma forallb_impl (p q : ascii -> bool) (s : string) :
  (forall c, p c = true -> q c = true) ->
  Str.forallb p s = true -> Str.forallb q s = true.
Proof.
  intros Hpq. induction s as [|c s IH]; simpl; [reflexivity|].
  intros H. apply andb_prop in H as [Hc Hs]. rewrite (Hpq c Hc), (IH Hs). reflexivity.
Qed.

Lemma forallb_append (p : ascii -> bool) (a b : string) :
  Str.forallb p (a +:+ b) = Str.forallb p a && Str.forallb p b.
Proof.
  induction a as [|c a IH]; [reflexivity|].
  rewrite append_cons. simpl. rewrite IH, andb_assoc. reflexivity.
Qed.

Lemma variableName_parts (name : string) :
  isVariableName name = true ->
  exists c t, name = String "$" (String c t)
              /\ Char.isIdentStart c = true /\ Str.forallb Char.isWord t = true.
Proof.
  destruct name as [|d [|c t]]; try discriminate. simpl. intros H.
  apply andb_prop in H as [H Ht]. apply andb_prop in H as [Hd Hc].
  unfold Char.isChar in Hd. apply Ascii.eqb_eq in Hd. subst d.
  exists c, t. repeat split; assumption.
Qed.

Lemma variableName_dollar (name : string) :
  isVariableName name = true -> Str.startsWith "$" name = true.
Proof. intros H. apply variableName_parts in H as (c & t & -> & _). reflexivity. Qed.

Lemma variableName_words (name : string) (q : ascii -> bool) :
  (forall c, Char.isWord c = true -> q c = true) -> q "$"%char = true ->
  isVariableName name = true -> Str.forallb q name = true.
Proof.
  intros Hq Hd H. apply variableName_parts in H as (c & t & -> & Hc & Ht).
  simpl. rewrite Hd, (Hq c (identStart_word c Hc)), (forallb_impl _ q t Hq Ht). reflexivity.
Qed.

Lemma variableName_literal (name : string) :
  isVariableName name = true -> MapParser.literalName name = true.
Proof.
  apply variableName_words; [|reflexivity]. intros c Hc. apply (word_plain c Hc).
Qed.

Lemma variableName_oneLine (name : string) :
  isVariableName name = true -> oneLine name = true.
Proof.
  apply variableName_words; [|reflexivity]. intros c Hc. apply (word_plain c Hc).
Qed.

Lemma keyName_oneLine (k : string) : isKeyName k = true -> oneLine k = true.
Proof.
  destruct k as [|c k]; [discriminate|]. intros H.
  apply (forallb_impl Char.isWord); [intros c' Hc'; apply (word_plain c' Hc')|exact H].
Qed.

(** *** The lines of the text *)

Lemma split_last (s : string) : oneLine s = true -> Str.split Char.LF s = [s].
Proof.
  induction s as [|c s IH]; [reflexivity|]. simpl. intros H.
  apply andb_prop in H as [Hc Hs]. unfold Char.isChar in Hc.
  apply negb_true_iff in Hc. rewrite Hc, (IH Hs). reflexivity.
Qed.

Lemma split_line (s rest : string) :
  oneLine s = true ->
  Str.split Char.LF (s +:+ String Char.LF rest) = s :: Str.split Char.LF rest.
Proof.
  induction s as [|c s IH]; [reflexivity|]. rewrite append_cons. simpl. intros H.
  apply andb_prop in H as [Hc Hs]. unfold Char.isChar in Hc.
  apply negb_true_iff in Hc. rewrite Hc, (IH Hs). reflexivity.
Qed.

Lemma split_unlines (l : string) (ls : list string) :
  Forall (fun x => oneLine x = true) (l :: ls) ->
  Str.split Char.LF (Str.unlines (l :: ls)) = l :: ls.
Proof.
  revert l. induction ls as [|l2 ls IH]; intros l H.
  - apply split_last. inversion H; assumption.
  - inversion H as [|? ? Hl Hls]; subst.
    change (Str.unlines (l :: l2 :: ls))
      with (l +:+ String Char.LF (Str.unlines (l2 :: ls))).
    rewrite (split_line _ _ Hl), (IH l2 Hls). reflexivity.
Qed.

Lemma declarationLine_oneLine (name : string) :
  isVariableName name = true -> oneLine (declarationLine name) = true.
Proof.
  intros H. unfold declarationLine, oneLine. rewrite !forallb_append.
  fold (oneLine name). rewrite (variableName_oneLine name H). reflexivity.
Qed.

Lemma assignmentLine_oneLine (name : string) (e : string * string) :
  isVariableName name = true -> isKeyName (fst e) = true -> oneLine (snd e) = true ->
  oneLine (assignmentLine name e) = true.
Proof.
  intros H Hk Hv. unfold assignmentLine, oneLine. rewrite !forallb_append.
  fold (oneLine name) (oneLine (fst e)) (oneLine (snd e)).
  rewrite (variableName_oneLine name H), (keyName_oneLine _ Hk), Hv. reflexivity.
Qed.

Lemma lines_flatMapText (name : string) (entries : list (string * string)) :
  isVariableName name = true -> Forall entryOk entries ->
  MapParser.lines (MapParser.constructor (flatMapText name entries))
  = declarationLine name :: List.map (assignmentLine name) entries.
Proof.
  intros H He. unfold MapParser.constructor, flatMapText. cbn [MapParser.lines].
  apply split_unlines. constructor; [apply declarationLine_oneLine, H|].
  induction He as [|e es [Hk Hv] _ IH]; simpl; constructor;
    [apply assignmentLine_oneLine; assumption|exact IH].
Qed.

(** *** What the patterns make of the lines *)

Lemma exec_dot (t k' v : string) (c c0 : ascii) :
  Char.isIdentStart c = true -> Str.forallb Char.isWord t = true ->
  Char.isWord c0 = true -> Str.forallb Char.isWord k' = true ->
  RegExp.exec (MapParser.dotPattern (String "$" (String c t)))
              (assignmentLine (String "$" (String c t)) (String c0 k', v))
  = Some {| RegExp.groups := [(1%nat, String c0 k')]; RegExp.rest := String " " v |}.
Proof.
  intros Hc Ht Hc0 Hk. unfold RegExp.exec, MapParser.dotPattern, assignmentLine.
  cbn [RegExp.seq fst snd]. unfold MapParser.escapedName, RegExp.ws, RegExp.word, RegExp.chr.
  set (name := String "$" (String c t)).
  change (RegExp.rmatch (RegExp.star (Chars Char.isWhiteSpace))
            (String "$" (String c t +:+ "." +:+ String c0 k' +:+ " = " +:+ v)) []
            (fun s1 c1 =>
               RegExp.rmatch (RegExp.textIgnoreCase name) s1 c1
                 (fun s2 c2 =>
                    RegExp.rmatch (Chars (Char.isChar ".")) s2 c2
                      (fun s3 c3 =>
                         RegExp.rmatch (Group 1 (RegExp.plus (Chars Char.isWord))) s3 c3
                           (fun s4 c4 =>
                              RegExp.rmatch (RegExp.star (Chars Char.isWhiteSpace)) s4 c4
                                (fun s5 c5 =>
                                   RegExp.rmatch (Chars (Char.isChar "=")) s5 c5
                                     (fun s' caps => Some {| RegExp.groups := caps; RegExp.rest := s' |}))))))
          = Some {| RegExp.groups := [(1%nat, String c0 k')]; RegExp.rest := String " " v |}).
  rewrite star_stop by reflexivity.
  change (String "$" (String c t +:+ "." +:+ String c0 k' +:+ " = " +:+ v))
    with (name +:+ "." +:+ String c0 k' +:+ " = " +:+ v).
  rewrite text_matches.
  change ("." +:+ String c0 k' +:+ " = " +:+ v) with (String "." (String c0 k' +:+ String " " (String "=" (String " " v)))).
  rewrite chars_take by reflexivity.
  rewrite group_step. apply plus_all; [exact Hc0|exact Hk|reflexivity|].
  rewrite consumed_prefix.
  change (String " " (String "=" (String " " v))) with (" " +:+ String "=" (String " " v)).
  apply star_all; [reflexivity|reflexivity|].
  rewrite chars_take by reflexivity. reflexivity.
Qed.

Lemma exec_nested_dot (name rest : string) :
  Str.startsWith "$" name = true ->
  RegExp.exec (MapParser.nestedPattern name) (name +:+ String "." rest) = None.
Proof.
  intros Hd. apply startsWith_dollar in Hd as (t & ->).
  unfold RegExp.exec, MapParser.nestedPattern. cbn [RegExp.seq].
  unfold MapParser.escapedName, RegExp.ws. rewrite cat_step.
  rewrite append_cons, star_stop by reflexivity. rewrite <- append_cons.
  rewrite cat_step, text_matches. reflexivity.
Qed.

Lemma exec_dynamic_dot (name rest : string) :
  Str.startsWith "$" name = true ->
  RegExp.exec (MapParser.dynamicPattern name) (name +:+ String "." rest) = None.
Proof.
  intros Hd. apply startsWith_dollar in Hd as (t & ->).
  unfold RegExp.exec, MapParser.dynamicPattern. cbn [RegExp.seq].
  unfold MapParser.escapedName, RegExp.ws. rewrite cat_step.
  rewrite append_cons, star_stop by reflexivity. rewrite <- append_cons.
  rewrite cat_step, text_matches. reflexivity.
Qed.


Lemma exec_declarationLine (t : string) (c : ascii) :
  Char.isIdentStart c = true -> Str.forallb Char.isWord t = true ->
  RegExp.exec MapParser.mapDeclPattern (declarationLine (String "$" (String c t)))
  = Some {| RegExp.groups := [(2%nat, String "$" (String c t)); (1%nat, "Local")];
            RegExp.rest := EmptyString |}.
Proof.
  intros Hc Ht. unfold RegExp.exec, MapParser.mapDeclPattern, declarationLine.
  cbn [RegExp.seq]. unfold RegExp.ws, RegExp.word, RegExp.chr.
  set (name := String "$" (String c t)).
  rewrite cat_step.
  change ("Local " +:+ name +:+ "[]") with (String "L" ("ocal " +:+ name +:+ "[]")).
  rewrite star_stop by reflexivity.
  change (String "L" ("ocal " +:+ name +:+ "[]")) with ("Local" +:+ String " " (name +:+ "[]")).
  rewrite cat_step, group_step. apply alt_left. rewrite text_matches.
  rewrite consumed_prefix.
  rewrite cat_step. unfold RegExp.plus. rewrite cat_step, chars_take by reflexivity.
  unfold name at 1. rewrite append_cons, star_stop by reflexivity.
  rewrite cat_step, group_step. cbn [RegExp.seq]. rewrite cat_step, chars_take by reflexivity.
  rewrite cat_step, append_cons, chars_take by exact Hc.
  apply star_all; [exact Ht|reflexivity|].
  change (String "$" (String c (t +:+ "[]"))) with (name +:+ "[]").
  rewrite consumed_prefix.
  rewrite cat_step, star_stop by reflexivity.
  rewrite cat_step, chars_take by reflexivity.
  rewrite cat_step, star_stop by reflexivity.
  rewrite chars_take by reflexivity. reflexivity.
Qed.

Lemma exec_declaration_assignment (name rest : string) :
  Str.startsWith "$" name = true ->
  RegExp.exec MapParser.mapDeclPattern (name +:+ rest) = None.
Proof.
  intros Hd. apply startsWith_dollar in Hd as (t & ->).
  unfold RegExp.exec, MapParser.mapDeclPattern. cbn [RegExp.seq].
  unfold RegExp.ws. rewrite cat_step, append_cons, star_stop by reflexivity.
  reflexivity.
Qed.
Lemma lineAssignments_dot (name : string) (index : Z) (e : string * string) :
  isVariableName name = true -> isKeyName (fst e) = true ->
  MapParser.lineAssignments name index (assignmentLine name e)
  = [dotAssignment index (fst e)].
Proof.
  intros H Hk. pose proof (variableName_dollar name H) as Hd.
  destruct e as [k v]. cbn [fst] in *.
  unfold MapParser.lineAssignments, MapParser.parseNestedKeyStructure,
    MapParser.parseDynamicKeysFromLine.
  assert (Hc : MapParser.isComment (assignmentLine name (k, v)) = false).
  { apply startsWith_dollar in Hd as (t & ->). unfold assignmentLine.
    rewrite append_cons. apply isComment_first; reflexivity. }
  rewrite Hc. unfold assignmentLine. cbn [fst snd].
  change ("." +:+ k +:+ " = " +:+ v) with (String "." (k +:+ " = " +:+ v)).
  rewrite (exec_nested_dot name _ Hd), (exec_dynamic_dot name _ Hd).
  cbn [Arr.length List.length Z.of_nat Z.ltb Z.compare].
  apply variableName_parts in H as (c & t & -> & Hc1 & Ht).
  destruct k as [|c0 k']; [discriminate|]. simpl in Hk. apply andb_prop in Hk as [Hc0 Hk'].
  change (String "$" (String c t) +:+ String "." (String c0 k' +:+ " = " +:+ v))
    with (assignmentLine (String "$" (String c t)) (String c0 k', v)).
  rewrite (exec_dot t k' v c c0 Hc1 Ht Hc0 Hk'). reflexivity.
Qed.

Lemma lineAssignments_declarationLine (name : string) (index : Z) :
  isVariableName name = true ->
  MapParser.lineAssignments name index (declarationLine name) = [].
Proof.
  intros H. apply variableName_parts in H as (c & t & -> & _ & _).
  unfold MapParser.lineAssignments, MapParser.parseNestedKeyStructure,
    MapParser.parseDynamicKeysFromLine.
  assert (Hc : MapParser.isComment (declarationLine (String "$" (String c t))) = false)
    by (apply isComment_first; reflexivity).
  rewrite Hc.
  assert (Hno : forall rest,
             RegExp.exec (RegExp.seq (RegExp.star RegExp.ws
                                        :: MapParser.escapedName (String "$" (String c t))
                                        :: rest))
                         (declarationLine (String "$" (String c t))) = None).
  { intros rest. unfold RegExp.exec.
    change (RegExp.seq (RegExp.star RegExp.ws
                          :: MapParser.escapedName (String "$" (String c t)) :: rest))
      with (Cat (RegExp.star (Chars Char.isWhiteSpace))
                (RegExp.seq (MapParser.escapedName (String "$" (String c t)) :: rest))).
    rewrite cat_step. unfold declarationLine.
    change ("Local " +:+ String "$" (String c t) +:+ "[]")
      with (String "L" ("ocal " +:+ String "$" (String c t) +:+ "[]")).
    rewrite star_stop by reflexivity. destruct rest; reflexivity. }
  unfold MapParser.nestedPattern, MapParser.dynamicPattern, MapParser.dotPattern,
    MapParser.bracketPattern.
  rewrite !Hno. reflexivity.
Qed.

Lemma parseKeyAssignments_lines (name : string) (es : list (string * string)) :
  isVariableName name = true -> Forall entryOk es ->
  forall i,
    flat_map (fun '(index, line) => MapParser.lineAssignments name index line)
             (Arr.entriesFrom i (List.map (assignmentLine name) es))
    = List.map (fun '(index, e) => dotAssignment index (fst e)) (Arr.entriesFrom i es).
Proof.
  intros H He. induction He as [|e es [Hk Hv] _ IH]; intros i; [reflexivity|].
  cbn [List.map Arr.entriesFrom flat_map].
  rewrite (lineAssignments_dot name i e H Hk), IH. reflexivity.
Qed.

Lemma parseMapDeclarations_lines (name : string) (es : list (string * string)) :
  isVariableName name = true ->
  forall i,
    flat_map
      (fun '(index, line) =>
         if MapParser.isComment line then []
         else match RegExp.exec MapParser.mapDeclPattern line with
              | Some m => [ {| D.name := RegExp.group 2 m; D.scope := RegExp.group 1 m;
                               D.line := index |} ]
              | None => []
              end)
      (Arr.entriesFrom i (List.map (assignmentLine name) es))
    = [].
Proof.
  intros H. pose proof (variableName_dollar name H) as Hd.
  induction es as [|e es IH]; intros i; [reflexivity|].
  cbn [List.map Arr.entriesFrom flat_map]. rewrite IH.
  unfold assignmentLine at 2.
  rewrite (exec_declaration_assignment name _ Hd).
  destruct (MapParser.isComment (assignmentLine name e)); reflexivity.
Qed.

(** The keys assigned on the lines before [L], one entry per line from
    line [i] on. *)
Lemma keys_before (es : list (string * string)) (L : Z) :
  forall i,
    List.map KA.key
      (List.filter (fun a => KA.line a <? L)
         (List.map (fun '(index, e) => dotAssignment index (fst e)) (Arr.entriesFrom i es)))
    = List.map fst (firstn (Z.to_nat (L - i)) es).
Proof.
  induction es as [|e es IH]; intros i; [rewrite firstn_nil; reflexivity|].
  cbn [Arr.entriesFrom List.map List.filter dotAssignment KA.line].
  destruct (Z.ltb_spec i L) as [Hlt|Hge].
  - replace (Z.to_nat (L - i)) with (S (Z.to_nat (L - (i + 1)))) by lia.
    cbn [firstn List.map KA.key]. rewrite IH. reflexivity.
  - rewrite IH. replace (Z.to_nat (L - (i + 1))) with O by lia.
    replace (Z.to_nat (L - i)) with O by lia. reflexivity.
Qed.

(** A Map declared on the first line of a text and filled, one key per
    line, in dot notation: queried at line [L], the keys of the first
    [L - 1] assignments. *)
Lemma flatMapText_keys (name : string) (entries : list (string * string)) (L : Z)
      (includeFunctionKeys : bool) :
  isVariableName name = true -> Forall entryOk entries -> 0 <= L ->
  MapParser.getKeysForMapAtLine (MapParser.constructor (flatMapText name entries))
                                name (Fin L) includeFunctionKeys
  = Some {| Keys.directKeys :=
              firstOccurrences (List.map fst (firstn (Z.to_nat (L - 1)) entries));
            Keys.functionKeys := [] |}.
Proof.
  intros H He HL.
  pose proof (lines_flatMapText name entries H He) as Hlines.
  set (p := MapParser.constructor (flatMapText name entries)) in *.
  assert (Hdecl : MapParser.parseMapDeclarations p
                  = [ {| D.name := name; D.scope := "Local"; D.line := 0 |} ]).
  { unfold MapParser.parseMapDeclarations, Arr.entries. rewrite Hlines.
    cbn [Arr.entriesFrom flat_map].
    rewrite (parseMapDeclarations_lines name entries H).
    destruct (variableName_parts name H) as (c & t & -> & Hc & Ht).
    rewrite (exec_declarationLine t c Hc Ht).
    replace (MapParser.isComment (declarationLine (String "$" (String c t)))) with false
      by (symmetry; apply isComment_first; reflexivity).
    reflexivity. }
  assert (Hassign : MapParser.parseKeyAssignments p name
                    = Some (List.map (fun '(index, e) => dotAssignment index (fst e))
                                     (Arr.entriesFrom 1 entries))).
  { unfold MapParser.parseKeyAssignments. rewrite (variableName_literal name H).
    unfold Arr.entries. rewrite Hlines. cbn [Arr.entriesFrom flat_map].
    rewrite (lineAssignments_declarationLine name 0 H).
    rewrite (parseKeyAssignments_lines name entries H He). reflexivity. }
  destruct (keys_before_line p name L includeFunctionKeys
              {| D.name := name; D.scope := "Local"; D.line := 0 |})
    as (assignments & Ha & Hkeys).
  - apply variableName_literal, H.
  - apply variableName_dollar, H.
  - exact Hdecl.
  - unfold namesMatch. apply String.eqb_refl.
  - reflexivity.
  - intros index line Hin Hne. unfold Arr.entries in Hin. rewrite Hlines in Hin.
    destruct Hin as [E|Hin]; [inversion E; subst; contradiction|].
    apply entries_line in Hin as Hl. apply in_map_iff in Hl as (e & <- & Hel).
    rewrite Forall_forall in He. destruct (He e (proj2 (list_elem_of_In _ _) Hel)) as [Hk _].
    rewrite (lineAssignments_dot name index e H Hk). discriminate.
  - exact HL.
  - rewrite Hassign in Ha. inversion Ha; subst assignments.
    rewrite Hkeys, (keys_before entries L 1). reflexivity.
Qed.

(** C1.  Let a text hold one declaration of a Map, on its first line, and
    on every other line an assignment to that Map (in any of the notations
    the parser knows).  Queried at line [L], [getKeysForMapAtLine] returns
    as [directKeys] exactly the distinct keys assigned on the lines strictly
    before [L], in the order of first appearance (and no function keys).
    So it is for every text made of a declaration line and one assignment
    in dot notation per line: queried at line [M], the distinct keys of the
    first [M - 1] assignments.  For the three lines of the example, queried
    at line 3, the result is name, age. *)
Theorem flat_map_keys (p : MapParser.t) (mapName : string) (L : Z)
        (includeFunctionKeys : bool) (d : D.t) :
  MapParser.literalName mapName = true ->
  Str.startsWith "$" mapName = true ->
  MapParser.parseMapDeclarations p = [d] ->
  namesMatch d mapName = true ->
  D.line d = 0 ->
  (forall index line, In (index, line) (Arr.entries (MapParser.lines p)) ->
      index <> 0 -> MapParser.lineAssignments mapName index line <> []) ->
  0 <= L ->
  (exists assignments,
      MapParser.parseKeyAssignments p mapName = Some assignments
      /\ MapParser.getKeysForMapAtLine p mapName (Fin L) includeFunctionKeys
         = Some {| Keys.directKeys :=
                     firstOccurrences
                       (List.map KA.key
                          (List.filter (fun a => KA.line a <? L) assignments));
                   Keys.functionKeys := [] |})
  /\ (forall (name : string) (entries : list (string * string)) (M : Z),
         isVariableName name = true -> Forall entryOk entries -> 0 <= M ->
         MapParser.getKeysForMapAtLine
           (MapParser.constructor (flatMapText name entries)) name (Fin M)
           includeFunctionKeys
         = Some {| Keys.directKeys :=
                     firstOccurrences
                       (List.map fst (firstn (Z.to_nat (M - 1)) entries));
                   Keys.functionKeys := [] |})
  /\ MapParser.getKeysForMapAtLine userMap "$mUser" (Fin 3) true
     = Some {| Keys.directKeys := ["name"; "age"]; Keys.functionKeys := [] |}.
Proof.
  intros Hlit Hdollar Hdecls Hname Hline Hassign HL.
  split; [|split; [|vm_compute; reflexivity]].
  - apply (keys_before_line p mapName L includeFunctionKeys d); assumption.
  - intros name entries M Hn He HM. apply flatMapText_keys; assumption.
Qed.

(** The example of the specification, queried at its end. *)
Lemma flat_map_keys_witness :
  exists assignments,
    MapParser.parseKeyAssignments userMap "$mUser" = Some assignments
    /\ MapParser.getKeysForMapAtLine userMap "$mUser" (Fin 3) true
       = Some {| Keys.directKeys :=
                   firstOccurrences
                     (List.map KA.key
                        (List.filter (fun a => KA.line a <? 3) assignments));
                 Keys.functionKeys := [] |}.
Proof.
  refine (proj1 (flat_map_keys userMap "$mUser" 3 true
                   {| D.name := "$mUser"; D.scope := "Local"; D.line := 0 |}
                   _ _ _ _ _ _ _)).
  - vm_compute. reflexivity.
  - vm_compute. reflexivity.
  - vm_compute. reflexivity.
  - vm_compute. reflexivity.
  - reflexivity.
  - intros index line Hin Hne. vm_compute in Hin.
    destruct Hin as [E|[E|[E|[]]]]; inversion E; subst; [contradiction| |];
      vm_compute; discriminate.
  - lia.
Defined.

(** ** C4: the tree of nested keys *)

(** C4, on the inputs where the code departs from it.  The example of the
    specification gives the tree it names.  A flat key that is the name of a
    property of [Object.prototype] is read as present in the empty object
    and gets no node: the tree stays empty.  A chain through such a key
    makes [current] undefined and the next round throws. *)
Theorem buildNestedMapStructure_prototype_keys :
  MapParser.buildNestedMapStructure nestedAB "$mData"
  = Some (Normal [("a", Node "a" 0 bracket
                          [("b", Node "b" 0 bracket [] true false)] false false)])
  /\ MapParser.parseKeyAssignments flatConstructor "$mData"
     = Some [ {| KA.key := "constructor"; KA.line := 0; KA.notation := dot;
                 KA.nested := []; KA.isDynamic := false |} ]
  /\ MapParser.buildNestedMapStructure flatConstructor "$mData" = Some (Normal [])
  /\ MapParser.buildNestedMapStructure chainToString "$mData" = Some (Throw TypeError).
Proof. repeat split; vm_compute; reflexivity. Qed.

(** *** The tree for ordinary keys *)

Lemma own_define (o : NK.object) (k k' : string) (n : NK.t) :
  Obj.own (Obj.define o k n) k'
  = match Obj.own o k' with
    | Some m => Some m
    | None => if String.eqb k k' then Some n else None
    end.
Proof.
  unfold Obj.define. induction o as [|[k0 m] o IH]; simpl.
  - reflexivity.
  - destruct (String.eqb k0 k'); [reflexivity|exact IH].
Qed.

Lemma own_update (o : NK.object) (k k' : string) (n : NK.t) :
  Obj.own (Obj.update o k n) k'
  = match Obj.own o k with
    | Some _ => if String.eqb k k' then Some n else Obj.own o k'
    | None => Obj.own o k'
    end.
Proof.
  induction o as [|[k0 m] o IH]; simpl; [reflexivity|].
  destruct (String.eqb_spec k0 k) as [->|Hne]; simpl.
  - destruct (String.eqb k k'); reflexivity.
  - rewrite IH. destruct (String.eqb_spec k0 k') as [->|Hne'].
    + destruct (Obj.own o k); [|reflexivity].
      destruct (String.eqb_spec k k'); [congruence|reflexivity].
    + reflexivity.
Qed.

Lemma own_In (o : NK.object) (k : string) (n : NK.t) :
  Obj.own o k = Some n -> In (k, n) o.
Proof.
  induction o as [|[k0 m] o IH]; simpl; [discriminate|].
  destruct (String.eqb_spec k0 k) as [->|Hne].
  - intros E. inversion E. left. reflexivity.
  - intros E. right. apply IH, E.
Qed.

Lemma own_None (o : NK.object) (k : string) :
  Obj.own o k = None -> ~ In k (List.map fst o).
Proof.
  induction o as [|[k0 m] o IH]; simpl; [tauto|].
  destruct (String.eqb_spec k0 k) as [->|Hne]; [discriminate|].
  intros E [H|H]; [congruence|]. apply IH; assumption.
Qed.

Lemma get_cases (o : NK.object) (k : string) :
  match Obj.get o k with
  | Obj.Own n => Obj.own o k = Some n
  | Obj.Inherited => Obj.own o k = None /\ ordinaryKey k = false
  | Obj.Undefined => Obj.own o k = None /\ ordinaryKey k = true
  end.
Proof.
  unfold Obj.get, ordinaryKey. destruct (Obj.own o k); [reflexivity|].
  destruct (Arr.includes k Obj.prototypeKeys); split; reflexivity.
Qed.

Lemma update_keys (o : NK.object) (k : string) (n : NK.t) :
  List.map fst (Obj.update o k n) = List.map fst o.
Proof.
  induction o as [|[k0 m] o IH]; simpl; [reflexivity|].
  destruct (String.eqb k0 k); simpl; [reflexivity|]. rewrite IH. reflexivity.
Qed.

Lemma update_In (o : NK.object) (k k' : string) (n n' : NK.t) :
  In (k', n') (Obj.update o k n) -> In (k', n') o \/ (k' = k /\ n' = n).
Proof.
  induction o as [|[k0 m] o IH]; simpl; [tauto|].
  destruct (String.eqb_spec k0 k) as [->|Hne]; simpl.
  - intros [E|H]; [inversion E; subst; right; split; reflexivity|left; right; exact H].
  - intros [E|H]; [left; left; exact E|]. destruct (IH H) as [H'|H']; [left; right; exact H'|right; exact H'].
Qed.

Lemma sameFields_refl (n : NK.t) : sameFields n n.
Proof. repeat split. Qed.

Lemma sameFields_withChildren (n : NK.t) (c : NK.object) :
  sameFields n (NK.withChildren n c).
Proof. destruct n. repeat split. Qed.

Lemma sameFields_trans (n1 n2 n3 : NK.t) :
  sameFields n1 n2 -> sameFields n2 n3 -> sameFields n1 n3.
Proof. unfold sameFields. intuition congruence. Qed.

Lemma children_withChildren (n : NK.t) (c : NK.object) :
  NK.children (NK.withChildren n c) = c.
Proof. destruct n. reflexivity. Qed.

Lemma retains_refl (o : NK.object) : retains o o.
Proof. intros path n H. exists n. split; [exact H|apply sameFields_refl]. Qed.

Lemma retains_trans (o1 o2 o3 : NK.object) :
  retains o1 o2 -> retains o2 o3 -> retains o1 o3.
Proof.
  intros H12 H23 path n H. destruct (H12 path n H) as (n2 & H2 & S2).
  destruct (H23 path n2 H2) as (n3 & H3 & S3). exists n3.
  split; [exact H3|eapply sameFields_trans; eassumption].
Qed.

(** Walking a chain creates nodes and changes children below existing
    nodes; it keeps every node there is. *)
Lemma addChain_retains (a : KA.t) (keys : list string) (i : Z) (o o' : NK.object) :
  MapParser.addChain a keys i o = Normal o' -> retains o o'.
Proof.
  revert i o o'. induction keys as [|k keys IH]; intros i o o'; simpl.
  - intros E. inversion E. apply retains_refl.
  - pose proof (get_cases o k) as Hget. destruct (Obj.get o k) as [m| |].
    + destruct (MapParser.addChain a keys (i + 1) (NK.children m)) as [sub|e] eqn:Esub;
        [|discriminate].
      intros E. inversion E; subst o'. clear E. apply IH in Esub.
      intros path n. destruct path as [|k0 rest]; simpl; [discriminate|].
      rewrite own_update, Hget.
      destruct (String.eqb_spec k k0) as [<-|Hne].
      * rewrite Hget, children_withChildren. destruct rest as [|k1 rest].
        -- intros E. inversion E; subst n. eexists. split; [reflexivity|].
           apply sameFields_withChildren.
        -- apply Esub.
      * intros H. exists n. split; [exact H|apply sameFields_refl].
    + destruct keys; [|discriminate]. intros E. inversion E. apply retains_refl.
    + destruct Hget as [Hnone _].
      destruct (MapParser.addChain a keys (i + 1) []) as [sub|e]; [|discriminate].
      intros E. inversion E; subst o'. clear E.
      intros path n. destruct path as [|k0 rest]; simpl; [discriminate|].
      rewrite own_define. destruct (Obj.own o k0) as [m|] eqn:E0; [|discriminate].
      intros H. exists n. split; [exact H|apply sameFields_refl].
Qed.

Lemma addAssignment_retains (a : KA.t) (o o' : NK.object) :
  MapParser.addAssignment (Normal o) a = Normal o' -> retains o o'.
Proof.
  unfold MapParser.addAssignment.
  destruct (0 <? Arr.length (KA.nested a)); [apply addChain_retains|].
  destruct (Obj.get o (KA.key a)) eqn:Eg; intros E; inversion E; subst;
    try apply retains_refl.
  pose proof (get_cases o (KA.key a)) as Hget. rewrite Eg in Hget. destruct Hget as [Hnone _].
  intros path n. destruct path as [|k0 rest]; simpl; [discriminate|].
  rewrite own_define. destruct (Obj.own o k0) as [m|]; [|discriminate].
  intros H. exists n. split; [exact H|apply sameFields_refl].
Qed.

Lemma fold_addAssignment_Throw (l : list KA.t) (e : exn) :
  fold_left MapParser.addAssignment l (Throw e) = Throw e.
Proof. induction l as [|a l IH]; simpl; [reflexivity|exact IH]. Qed.

(** Later assignments keep the nodes of earlier ones. *)
Lemma fold_addAssignment_retains (l : list KA.t) (o o' : NK.object) :
  fold_left MapParser.addAssignment l (Normal o) = Normal o' -> retains o o'.
Proof.
  revert o. induction l as [|a l IH]; intros o; cbn [fold_left].
  - intros E. inversion E. apply retains_refl.
  - destruct (MapParser.addAssignment (Normal o) a) as [o1|e] eqn:E1.
    + intros E. eapply retains_trans; [apply (addAssignment_retains a); exact E1|apply IH, E].
    + rewrite fold_addAssignment_Throw. discriminate.
Qed.

Lemma lookupPath_nil (path : list string) : lookupPath [] path = None.
Proof. destruct path; reflexivity. Qed.

Lemma isPrefix_cons (k0 k : string) (pre keys : list string) :
  isPrefix (k0 :: pre) (k :: keys) -> k0 = k /\ isPrefix pre keys.
Proof. intros (rest & E). inversion E; subst. split; [reflexivity|exists rest; reflexivity]. Qed.

Lemma isPrefix_nil_r (pre : list string) : isPrefix pre [] -> pre = [].
Proof. intros (rest & E). destruct pre; [reflexivity|discriminate]. Qed.

(** For ordinary keys the walk returns. *)
Lemma addChain_returns (a : KA.t) (keys : list string) (i : Z) (o : NK.object) :
  forallb ordinaryKey keys = true ->
  exists o', MapParser.addChain a keys i o = Normal o'.
Proof.
  revert i o. induction keys as [|k keys IH]; intros i o; simpl.
  - intros _. exists o. reflexivity.
  - intros H. apply andb_prop in H as [Hk Hkeys].
    pose proof (get_cases o k) as Hget. destruct (Obj.get o k) as [m| |].
    + destruct (IH (i + 1) (NK.children m) Hkeys) as (sub & ->). eexists. reflexivity.
    + destruct Hget as [_ Hget]. rewrite Hk in Hget. discriminate.
    + destruct (IH (i + 1) [] Hkeys) as (sub & ->). eexists. reflexivity.
Qed.

(** The walk keeps the tree well formed, and leaves no object empty that
    it has passed through. *)
Lemma addChain_wellFormed (a : KA.t) (keys : list string) (i : Z) (o o' : NK.object) :
  forallb ordinaryKey keys = true ->
  i + Arr.length keys = Arr.length (KA.nested a) ->
  wellFormed o ->
  MapParser.addChain a keys i o = Normal o' ->
  wellFormed o' /\ (o <> [] \/ keys <> [] -> o' <> []).
Proof.
  revert i o o'. induction keys as [|k keys IH]; intros i o o' Hord Hidx Hwf; simpl.
  - intros E. inversion E; subst. split; [exact Hwf|]. intros [H|H]; [exact H|contradiction].
  - apply andb_prop in Hord as [Hk Hkeys].
    assert (Hidx' : i + 1 + Arr.length keys = Arr.length (KA.nested a)).
    { unfold Arr.length in *. simpl List.length in Hidx. lia. }
    inversion Hwf as [? Hnd Hnodes]; subst.
    pose proof (get_cases o k) as Hget. destruct (Obj.get o k) as [m| |].
    + destruct (MapParser.addChain a keys (i + 1) (NK.children m)) as [sub|e] eqn:Esub;
        [|discriminate].
      intros E. inversion E; subst o'. clear E.
      destruct (Hnodes k m (own_In _ _ _ Hget)) as (Hkey & Hleaf & Hwfm).
      destruct (IH _ _ _ Hkeys Hidx' Hwfm Esub) as [Hwfsub Hne].
      split.
      * constructor; [rewrite update_keys; exact Hnd|].
        intros k' n' Hin. apply update_In in Hin as [Hin|[-> ->]]; [apply Hnodes, Hin|].
        rewrite children_withChildren. destruct m as [mk ml mn mc mlf md]. simpl in *.
        split; [exact Hkey|]. split; [|exact Hwfsub].
        intros ->. apply Hleaf. destruct mc as [|x mc]; [reflexivity|].
        exfalso. apply Hne; [left; discriminate|reflexivity].
      * intros _ Hnil. apply (f_equal (List.map fst)) in Hnil.
        rewrite update_keys in Hnil. apply own_In in Hget.
        destruct o; [destruct Hget|discriminate].
    + destruct Hget as [_ Hget]. rewrite Hk in Hget. discriminate.
    + destruct Hget as [Hnone _].
      destruct (MapParser.addChain a keys (i + 1) []) as [sub|e] eqn:Esub; [|discriminate].
      intros E. inversion E; subst o'. clear E.
      assert (Hwf0 : wellFormed []) by (constructor; [constructor|intros ? ? []]).
      destruct (IH _ _ _ Hkeys Hidx' Hwf0 Esub) as [Hwfsub Hne].
      split.
      * unfold Obj.define. constructor.
        -- rewrite List.map_app. simpl. apply NoDup_app. split; [exact Hnd|].
           split; [|apply NoDup_singleton].
           intros x Hx Hx'. apply list_elem_of_In in Hx. apply list_elem_of_In in Hx'.
           destruct Hx' as [<-|[]]. apply (own_None o k Hnone). exact Hx.
        -- intros k' n' Hin. apply in_app_or in Hin as [Hin|[Hin|[]]]; [apply Hnodes, Hin|].
           inversion Hin; subst k' n'. simpl.
           split; [reflexivity|]. split; [|exact Hwfsub].
           intros ->. apply Z.eqb_eq. destruct keys as [|k1 keys].
           ++ unfold Arr.length in *. simpl List.length in *. lia.
           ++ exfalso. apply Hne; [right; discriminate|reflexivity].
      * intros _ Hnil. unfold Obj.define in Hnil. destruct o; discriminate.
Qed.

(** After the walk every prefix of the chain leads to a node; a node that
    was not there before carries the line and notation of the assignment
    and is a leaf exactly when it ends the chain. *)
Lemma addChain_present (a : KA.t) (keys : list string) (i : Z) (o o' : NK.object) :
  forallb ordinaryKey keys = true ->
  i + Arr.length keys = Arr.length (KA.nested a) ->
  MapParser.addChain a keys i o = Normal o' ->
  forall pre, isPrefix pre keys -> pre <> [] ->
    exists n, lookupPath o' pre = Some n
              /\ (lookupPath o pre = None ->
                  NK.line n = KA.line a /\ NK.notation n = KA.notation a
                  /\ NK.isLeaf n = (List.length pre =? List.length keys)%nat).
Proof.
  revert i o o'. induction keys as [|k keys IH]; intros i o o' Hord Hidx; simpl.
  - intros _ pre Hpre Hne. apply isPrefix_nil_r in Hpre. contradiction.
  - apply andb_prop in Hord as [Hk Hkeys].
    assert (Hidx' : i + 1 + Arr.length keys = Arr.length (KA.nested a)).
    { unfold Arr.length in *. simpl List.length in Hidx. lia. }
    pose proof (get_cases o k) as Hget. destruct (Obj.get o k) as [m| |].
    + destruct (MapParser.addChain a keys (i + 1) (NK.children m)) as [sub|e] eqn:Esub;
        [|discriminate].
      intros E pre Hpre Hne. inversion E; subst o'. clear E.
      destruct pre as [|k0 pre]; [contradiction|].
      apply isPrefix_cons in Hpre as [-> Hpre]. simpl.
      rewrite own_update, Hget, String.eqb_refl, children_withChildren.
      destruct pre as [|k1 pre].
      * eexists. split; [reflexivity|]. discriminate.
      * destruct (IH _ _ _ Hkeys Hidx' Esub (k1 :: pre) Hpre) as (n & Hn & Hnew);
          [discriminate|].
        exists n. split; [exact Hn|exact Hnew].
    + destruct Hget as [_ Hget]. rewrite Hk in Hget. discriminate.
    + destruct Hget as [Hnone _].
      destruct (MapParser.addChain a keys (i + 1) []) as [sub|e] eqn:Esub; [|discriminate].
      intros E pre Hpre Hne. inversion E; subst o'. clear E.
      destruct pre as [|k0 pre]; [contradiction|].
      apply isPrefix_cons in Hpre as [-> Hpre]. simpl.
      rewrite own_define, Hnone, String.eqb_refl. simpl.
      destruct pre as [|k1 pre].
      * eexists. split; [reflexivity|]. intros _. simpl.
        split; [reflexivity|]. split; [reflexivity|].
        unfold Arr.length in *. simpl List.length in Hidx.
        destruct keys as [|k1 keys]; simpl.
        -- apply Z.eqb_eq. simpl List.length in Hidx. lia.
        -- apply Z.eqb_neq. simpl List.length in Hidx. lia.
      * destruct (IH _ _ _ Hkeys Hidx' Esub (k1 :: pre) Hpre) as (n & Hn & Hnew);
          [discriminate|].
        exists n. split; [exact Hn|]. intros _. apply Hnew. reflexivity.
Qed.

(** A node found after the walk was there before or lies on the chain. *)
Lemma addChain_justified (a : KA.t) (keys : list string) (i : Z) (o o' : NK.object) :
  MapParser.addChain a keys i o = Normal o' ->
  forall path n, lookupPath o' path = Some n ->
    (exists m, lookupPath o path = Some m) \/ isPrefix path keys.
Proof.
  revert i o o'. induction keys as [|k keys IH]; intros i o o'; simpl.
  - intros E path n H. inversion E; subst. left. exists n. exact H.
  - pose proof (get_cases o k) as Hget. destruct (Obj.get o k) as [m| |].
    + destruct (MapParser.addChain a keys (i + 1) (NK.children m)) as [sub|e] eqn:Esub;
        [|discriminate].
      intros E path n. inversion E; subst o'. clear E.
      destruct path as [|k0 rest]; simpl; [discriminate|].
      rewrite own_update, Hget.
      destruct (String.eqb_spec k k0) as [<-|Hne].
      * rewrite Hget, children_withChildren. destruct rest as [|k1 rest].
        -- intros _. left. exists m. reflexivity.
        -- intros H. destruct (IH _ _ _ Esub _ _ H) as [Hold|(r & ->)];
             [left; exact Hold|right; exists r; reflexivity].
      * intros H. left. exists n. exact H.
    + destruct keys; [|discriminate]. intros E path n H. inversion E; subst.
      left. exists n. exact H.
    + destruct Hget as [Hnone _].
      destruct (MapParser.addChain a keys (i + 1) []) as [sub|e] eqn:Esub; [|discriminate].
      intros E path n. inversion E; subst o'. clear E.
      destruct path as [|k0 rest]; simpl; [discriminate|].
      rewrite own_define. destruct (Obj.own o k0) as [m|] eqn:E0.
      * intros H. left. exists n. exact H.
      * destruct (String.eqb_spec k k0) as [<-|Hne]; [|discriminate]. simpl.
        destruct rest as [|k1 rest].
        -- intros _. right. exists keys. reflexivity.
        -- intros H. destruct (IH _ _ _ Esub _ _ H) as [(m & Hm)|(r & ->)].
           ++ rewrite lookupPath_nil in Hm. discriminate.
           ++ right. exists r. reflexivity.
Qed.

(** One assignment with ordinary keys: the round returns, keeps the tree
    well formed, makes every prefix of its chain lead to a node, and adds
    nodes on its chain only. *)
Lemma addAssignment_ordinary (a : KA.t) (o : NK.object) :
  ordinary a = true -> wellFormed o ->
  exists o',
    MapParser.addAssignment (Normal o) a = Normal o'
    /\ wellFormed o'
    /\ (forall pre, isPrefix pre (chainOf a) -> pre <> [] ->
          exists n, lookupPath o' pre = Some n
                    /\ (lookupPath o pre = None ->
                        NK.line n = KA.line a /\ NK.notation n = KA.notation a
                        /\ NK.isLeaf n
                           = (List.length pre =? List.length (chainOf a))%nat))
    /\ (forall path n, lookupPath o' path = Some n ->
          (exists m, lookupPath o path = Some m) \/ isPrefix path (chainOf a)).
Proof.
  unfold ordinary, chainOf, MapParser.addAssignment. intros Hord Hwf.
  destruct (KA.nested a) as [|k1 ks] eqn:En.
  - (* a flat key *)
    replace (0 <? Arr.length []) with false by reflexivity.
    simpl in Hord. rewrite andb_true_r in Hord.
    pose proof (get_cases o (KA.key a)) as Hget.
    destruct (Obj.get o (KA.key a)) as [m| |].
    + exists o. split; [reflexivity|]. split; [exact Hwf|]. split.
      * intros pre Hpre Hne. destruct pre as [|k0 pre]; [contradiction|].
        apply isPrefix_cons in Hpre as [-> Hpre]. apply isPrefix_nil_r in Hpre. subst pre.
        simpl. rewrite Hget. exists m. split; [reflexivity|discriminate].
      * intros path n H. left. exists n. exact H.
    + destruct Hget as [_ Hget]. rewrite Hord in Hget. discriminate.
    + destruct Hget as [Hnone _]. eexists. split; [reflexivity|].
      inversion Hwf as [? Hnd Hnodes]; subst. split; [|split].
      * unfold Obj.define. constructor.
        -- rewrite List.map_app. simpl. apply NoDup_app. split; [exact Hnd|].
           split; [|apply NoDup_singleton].
           intros x Hx Hx'. apply list_elem_of_In in Hx. apply list_elem_of_In in Hx'.
           destruct Hx' as [<-|[]]. apply (own_None o _ Hnone). exact Hx.
        -- intros k' n' Hin. apply in_app_or in Hin as [Hin|[Hin|[]]]; [apply Hnodes, Hin|].
           inversion Hin; subst k' n'. simpl. split; [reflexivity|]. split; [reflexivity|].
           constructor; [constructor|intros ? ? []].
      * intros pre Hpre Hne. destruct pre as [|k0 pre]; [contradiction|].
        apply isPrefix_cons in Hpre as [-> Hpre]. apply isPrefix_nil_r in Hpre. subst pre.
        simpl. rewrite own_define, Hnone, String.eqb_refl.
        eexists. split; [reflexivity|]. intros _. repeat split.
      * intros path n. destruct path as [|k0 rest]; simpl; [discriminate|].
        rewrite own_define. destruct (Obj.own o k0) as [m|] eqn:E0.
        -- intros H. left. exists n. exact H.
        -- destruct (String.eqb_spec (KA.key a) k0) as [<-|Hne]; [|discriminate].
           simpl. destruct rest as [|k1 rest]; [|discriminate].
           intros _. right. exists []. reflexivity.
  - (* a chain *)
    replace (0 <? Arr.length (k1 :: ks)) with true
      by (symmetry; apply Z.ltb_lt; unfold Arr.length; simpl List.length; lia).
    assert (Hidx : 0 + Arr.length (k1 :: ks) = Arr.length (KA.nested a))
      by (rewrite En; lia).
    destruct (addChain_returns a (k1 :: ks) 0 o Hord) as (o' & E).
    exists o'. split; [exact E|].
    split; [apply (addChain_wellFormed a (k1 :: ks) 0 o o' Hord Hidx Hwf E)|].
    split.
    + apply (addChain_present a (k1 :: ks) 0 o o' Hord Hidx E).
    + apply (addChain_justified a (k1 :: ks) 0 o o' E).
Qed.

(** The fold over assignments with ordinary keys returns a well-formed
    tree whose nodes all lie on chains of the assignments. *)
Lemma fold_addAssignment_ordinary (l done : list KA.t) (o : NK.object) :
  forallb ordinary l = true -> wellFormed o -> justified done o ->
  exists o', fold_left MapParser.addAssignment l (Normal o) = Normal o'
             /\ wellFormed o' /\ justified (done ++ l) o'.
Proof.
  revert done o. induction l as [|a l IH]; intros done o Hord Hwf Hj; cbn [fold_left].
  - exists o. rewrite List.app_nil_r. auto.
  - simpl in Hord. apply andb_prop in Hord as [Ha Hl].
    destruct (addAssignment_ordinary a o Ha Hwf) as (o1 & E1 & Hwf1 & _ & Hj1).
    rewrite E1. destruct (IH (done ++ [a]) o1 Hl Hwf1) as (o' & E & Hwf' & Hj').
    + intros path n H. destruct (Hj1 path n H) as [(m & Hm)|Hp].
      * destruct (Hj path m Hm) as (b & Hb & Hpb). exists b.
        split; [apply in_or_app; left; exact Hb|exact Hpb].
      * exists a. split; [apply in_or_app; right; left; reflexivity|exact Hp].
    + exists o'. rewrite <- List.app_assoc in Hj'. auto.
Qed.

(** The tree of assignments with ordinary keys.  The fold returns a
    well-formed tree: no duplicate keys below a node, and a node without
    children is a leaf.  Every node lies on the chain of an assignment, and
    the node at a path is the one created by the first assignment whose
    chain runs along the path: it has the line and notation of that
    assignment and is a leaf exactly when the path is the whole chain. *)
Lemma tree_of_ordinary_assignments (assignments : list KA.t) :
  forallb ordinary assignments = true ->
  exists root,
    fold_left MapParser.addAssignment assignments (Normal []) = Normal root
    /\ wellFormed root
    /\ justified assignments root
    /\ (forall l1 a l2 path,
          assignments = l1 ++ a :: l2 ->
          isPrefix path (chainOf a) -> path <> [] ->
          (forall b, In b l1 -> ~ isPrefix path (chainOf b)) ->
          exists n, lookupPath root path = Some n
                    /\ NK.line n = KA.line a /\ NK.notation n = KA.notation a
                    /\ NK.isLeaf n
                       = (List.length path =? List.length (chainOf a))%nat).
Proof.
  intros Hord.
  assert (Hwf0 : wellFormed []) by (constructor; [constructor|intros ? ? []]).
  assert (Hj0 : justified [] []) by (intros path n H; rewrite lookupPath_nil in H; discriminate).
  destruct (fold_addAssignment_ordinary assignments [] [] Hord Hwf0 Hj0)
    as (root & E & Hwf & Hj).
  exists root. split; [exact E|]. split; [exact Hwf|]. split; [exact Hj|].
  intros l1 a l2 path -> Hpre Hne Hfirst.
  rewrite List.forallb_app in Hord. apply andb_prop in Hord as [H1 H2].
  simpl in H2. apply andb_prop in H2 as [Ha H2].
  destruct (fold_addAssignment_ordinary l1 [] [] H1 Hwf0 Hj0) as (o1 & E1 & Hwf1 & Hj1).
  rewrite List.fold_left_app, E1 in E. cbn [fold_left] in E.
  destruct (addAssignment_ordinary a o1 Ha Hwf1) as (o2 & E2 & _ & Hpresent & _).
  rewrite E2 in E.
  destruct (Hpresent path Hpre Hne) as (n2 & Hn2 & Hnew).
  assert (Habsent : lookupPath o1 path = None).
  { destruct (lookupPath o1 path) as [m|] eqn:Hm; [|reflexivity].
    exfalso. destruct (Hj1 path m Hm) as (b & Hb & Hpb).
    apply (Hfirst b); assumption. }
  destruct (Hnew Habsent) as (Hline & Hnot & Hleaf).
  destruct (fold_addAssignment_retains l2 o2 root E path n2 Hn2) as (n & Hn & Hs).
  destruct Hs as (_ & Sline & Snot & Sleaf & _).
  exists n. split; [exact Hn|]. rewrite <- Sline, <- Snot, <- Sleaf. auto.
Qed.

(** * Further properties of the parser *)

(** ** Where the function boundaries come from *)

Lemma lineAt_Some (ls : list string) (i : Z) (l : string) :
  lineAt ls i = Some l -> 0 <= i < Arr.length ls.
Proof.
  unfold lineAt, Arr.length. destruct (Z.ltb_spec i 0) as [Hneg|Hpos]; [discriminate|].
  intros Hl. apply lookup_lt_Some in Hl. lia.
Qed.

Lemma lineAt_app_l (pre rest : list string) (i : Z) :
  i < Arr.length pre -> lineAt (pre ++ rest) i = lineAt pre i.
Proof.
  unfold lineAt, Arr.length. intros Hi. destruct (Z.ltb_spec i 0) as [Hneg|Hpos]; [reflexivity|].
  apply lookup_app_l. lia.
Qed.

Lemma lineAt_last (pre : list string) (l : string) :
  lineAt (pre ++ [l]) (Arr.length pre) = Some l.
Proof.
  unfold lineAt, Arr.length. destruct (Z.ltb_spec (Z.of_nat (List.length pre)) 0); [lia|].
  rewrite Nat2Z.id. apply list_lookup_middle. reflexivity.
Qed.

Lemma length_snoc (pre : list string) (l : string) :
  Arr.length (pre ++ [l]) = Arr.length pre + 1.
Proof. unfold Arr.length. rewrite List.length_app. simpl. lia. Qed.
Lemma plainBetween_app (pre rest : list string) (s e : Z) :
  e <= Arr.length pre ->
  (plainBetween (pre ++ rest) s e <-> plainBetween pre s e).
Proof.
  intros He. unfold plainBetween. split; intros H j l Hj Hl; apply (H j l Hj).
  - rewrite lineAt_app_l by lia. exact Hl.
  - rewrite lineAt_app_l in Hl by lia. exact Hl.
Qed.

Lemma plainBetween_snoc (pre : list string) (l : string) (s : Z) :
  s < Arr.length pre ->
  (plainBetween (pre ++ [l]) s (Arr.length pre + 1)
   <-> plainBetween pre s (Arr.length pre)
       /\ opensFunction l = false /\ closesFunction l = false).
Proof.
  intros Hs. unfold plainBetween. split.
  - intros H. split.
    + intros j l0 Hj Hl. apply (H j l0); [lia|]. rewrite lineAt_app_l by lia. exact Hl.
    + apply (H (Arr.length pre) l); [lia|]. apply lineAt_last.
  - intros [H Hl] j l0 Hj Hl0.
    destruct (Z.eq_dec j (Arr.length pre)) as [->|Hne].
    + rewrite lineAt_last in Hl0. inversion Hl0; subst l0. exact Hl.
    + apply (H j l0); [lia|]. rewrite lineAt_app_l in Hl0 by lia. exact Hl0.
Qed.

Lemma headed_app (pre rest : list string) (f : FB.t) :
  FB.startLine f < Arr.length pre ->
  (headed (pre ++ rest) f <-> headed pre f).
Proof.
  intros Hs. unfold headed. rewrite lineAt_app_l by exact Hs. reflexivity.
Qed.

Lemma headed_bound (ls : list string) (f : FB.t) :
  headed ls f -> 0 <= FB.startLine f < Arr.length ls.
Proof. intros (l & m & Hl & _). apply (lineAt_Some ls _ l Hl). Qed.

(** The functions of a text with one more line: those of the text, and the
    one the new line ends. *)
Lemma delimits_snoc (pre : list string) (l : string) (f : FB.t) :
  delimits (pre ++ [l]) f
  <-> delimits pre f
      \/ (FB.endLine f = Arr.length pre /\ closesFunction l = true
          /\ headed pre f /\ plainBetween pre (FB.startLine f) (Arr.length pre)).
Proof.
  unfold delimits. split.
  - intros (Hh & (el & Hel & Hc) & Hlt & Hp).
    pose proof (lineAt_Some _ _ _ Hel) as Hb. rewrite length_snoc in Hb.
    destruct (Z.eq_dec (FB.endLine f) (Arr.length pre)) as [E|Hne].
    + right. rewrite E in *. rewrite lineAt_last in Hel. inversion Hel; subst el.
      split; [reflexivity|]. split; [exact Hc|]. split.
      * apply (headed_app pre [l]); [lia|exact Hh].
      * apply (plainBetween_app pre [l]); [lia|exact Hp].
    + left. split; [|split; [|split]].
      * apply (headed_app pre [l]); [lia|exact Hh].
      * exists el. rewrite lineAt_app_l in Hel by lia. split; assumption.
      * exact Hlt.
      * apply (plainBetween_app pre [l]); [lia|exact Hp].
  - intros [(Hh & (el & Hel & Hc) & Hlt & Hp)|(E & Hc & Hh & Hp)].
    + pose proof (lineAt_Some _ _ _ Hel) as Hb.
      split; [|split; [|split]].
      * apply (headed_app pre [l]); [lia|exact Hh].
      * exists el. rewrite lineAt_app_l by lia. split; assumption.
      * exact Hlt.
      * apply (plainBetween_app pre [l]); [lia|exact Hp].
    + pose proof (headed_bound _ _ Hh) as Hb. rewrite E. split; [|split; [|split]].
      * apply (headed_app pre [l]); [lia|exact Hh].
      * exists l. split; [apply lineAt_last|exact Hc].
      * lia.
      * apply (plainBetween_app pre [l]); [lia|exact Hp].
Qed.
Lemma headed_withEndLine (ls : list string) (f : FB.t) (e : Z) :
  headed ls (FB.withEndLine f e) <-> headed ls f.
Proof. reflexivity. Qed.

(** A header on the last line is the open function; an earlier header is
    open no more once the last line starts or ends a function. *)
Lemma open_snoc (pre : list string) (l : string) (c : FB.t) :
  headed (pre ++ [l]) c ->
  plainBetween (pre ++ [l]) (FB.startLine c) (Arr.length pre + 1) ->
  (FB.startLine c = Arr.length pre /\ opensFunction l = true)
  \/ (headed pre c /\ plainBetween pre (FB.startLine c) (Arr.length pre)
      /\ opensFunction l = false /\ closesFunction l = false).
Proof.
  intros Hh Hp. pose proof (headed_bound _ _ Hh) as Hb. rewrite length_snoc in Hb.
  destruct (Z.eq_dec (FB.startLine c) (Arr.length pre)) as [E|Hne].
  - left. split; [exact E|]. destruct Hh as (l0 & m0 & Hl0 & Hm0 & _).
    rewrite E, lineAt_last in Hl0. inversion Hl0; subst l0.
    unfold opensFunction. rewrite Hm0. reflexivity.
  - right. apply plainBetween_snoc in Hp as (Hp & Ho & Hc); [|lia].
    split; [|tauto]. apply (headed_app pre [l]); [lia|exact Hh].
Qed.

Lemma scanned_step (pre : list string) (st : MapParser.scanState) (l : string) :
  scanned pre st ->
  scanned (pre ++ [l]) (MapParser.scanFunctionLine st (Arr.length pre, l)).
Proof.
  destruct st as [fs cur]. unfold scanned. cbn [fst snd]. intros [Hfs Hcur].
  unfold MapParser.scanFunctionLine.
  destruct (RegExp.exec MapParser.funcStartPattern l) as [m|] eqn:Es.
  - assert (Ho : opensFunction l = true) by (unfold opensFunction; rewrite Es; reflexivity).
    assert (Hc : closesFunction l = false) by (unfold closesFunction; rewrite Ho; reflexivity).
    cbn [fst snd]. split.
    + intros f. rewrite delimits_snoc, Hfs. split; [tauto|].
      intros [H|(_ & H & _)]; [exact H|congruence].
    + intros c. rewrite length_snoc. split.
      * intros E. inversion E; subst c; clear E. cbn. split; [|split].
        -- exists l, m. cbn. rewrite lineAt_last. auto.
        -- reflexivity.
        -- intros j l0 Hj. lia.
      * intros (Hh & He & Hp).
        destruct (open_snoc pre l c Hh Hp) as [[E _]|(_ & _ & Ho' & _)]; [|congruence].
        destruct Hh as (l0 & m0 & Hl0 & Hm0 & Hn & Hps).
        rewrite E, lineAt_last in Hl0. inversion Hl0; subst l0.
        rewrite Es in Hm0. inversion Hm0; subst m0.
        destruct c; cbn in *; subst; reflexivity.
  - assert (Ho : opensFunction l = false) by (unfold opensFunction; rewrite Es; reflexivity).
    destruct (RegExp.exec MapParser.funcEndPattern l) as [me|] eqn:Ee.
    + assert (Hc : closesFunction l = true)
        by (unfold closesFunction; rewrite Ho, Ee; reflexivity).
      assert (Hclosed : forall c0 : FB.t,
                 headed (pre ++ [l]) c0 /\ FB.endLine c0 = -1
                 /\ plainBetween (pre ++ [l]) (FB.startLine c0) (Arr.length (pre ++ [l]))
                 -> False).
      { intros c0 (Hh & _ & Hp). rewrite length_snoc in Hp.
        destruct (open_snoc pre l c0 Hh Hp) as [[_ Ho']|(_ & _ & _ & Hc')]; congruence. }
      destruct cur as [c|]; cbn [fst snd].
      * split.
        -- intros f. rewrite in_app_iff, delimits_snoc, Hfs.
           destruct (proj1 (Hcur c) eq_refl) as (Hh & He & Hp). split.
           ++ intros [H|[<-|[]]]; [left; exact H|]. right. cbn.
              split; [reflexivity|]. split; [exact Hc|]. split; assumption.
           ++ intros [H|(E & _ & Hh' & Hp')]; [left; exact H|]. right. left.
              assert (Eq : Some c = Some (FB.withEndLine f (-1))).
              { apply Hcur. split; [exact Hh'|]. split; [reflexivity|exact Hp']. }
              inversion Eq; subst c. destruct f; cbn in *; subst; reflexivity.
        -- intros c0. split; [discriminate|]. intros H. destruct (Hclosed c0 H).
      * split.
        -- intros f. rewrite delimits_snoc, Hfs. split; [tauto|].
           intros [H|(E & _ & Hh' & Hp')]; [exact H|]. exfalso.
           assert (Eq : None = Some (FB.withEndLine f (-1))).
           { apply Hcur. split; [exact Hh'|]. split; [reflexivity|exact Hp']. }
           discriminate.
        -- intros c0. split; [discriminate|]. intros H. destruct (Hclosed c0 H).
    + assert (Hc : closesFunction l = false)
        by (unfold closesFunction; rewrite Ho, Ee; reflexivity).
      cbn [fst snd]. split.
      * intros f. rewrite delimits_snoc, Hfs. split; [tauto|].
        intros [H|(_ & H & _)]; [exact H|congruence].
      * intros c. rewrite Hcur, length_snoc. split.
        -- intros (Hh & He & Hp). pose proof (headed_bound _ _ Hh) as Hb.
           split; [apply (headed_app pre [l]); [lia|exact Hh]|]. split; [exact He|].
           apply plainBetween_snoc; [lia|]. tauto.
        -- intros (Hh & He & Hp).
           destruct (open_snoc pre l c Hh Hp) as [[_ Ho']|(Hh' & Hp' & _)]; [congruence|].
           tauto.
Qed.
Lemma scanned_fold (rest pre : list string) (st : MapParser.scanState) :
  scanned pre st ->
  scanned (pre ++ rest)
          (fold_left MapParser.scanFunctionLine
                     (Arr.entriesFrom (Arr.length pre) rest) st).
Proof.
  revert pre st. induction rest as [|l rest IH]; intros pre st H.
  - rewrite List.app_nil_r. exact H.
  - cbn [Arr.entriesFrom fold_left].
    replace (pre ++ l :: rest) with ((pre ++ [l]) ++ rest)
      by (rewrite <- List.app_assoc; reflexivity).
    rewrite <- length_snoc with (l := l). apply IH, scanned_step, H.
Qed.

Lemma scanned_start : scanned [] ([], None).
Proof.
  split; cbn [fst snd].
  - intros f. split; [intros []|]. intros ((l & m & Hl & _) & _).
    apply lineAt_Some in Hl. unfold Arr.length in Hl. simpl in Hl. lia.
  - intros c. split; [discriminate|]. intros ((l & m & Hl & _) & _).
    apply lineAt_Some in Hl. unfold Arr.length in Hl. simpl in Hl. lia.
Qed.

Lemma boundaries_delimited (p : MapParser.t) (f : FB.t) :
  In f (MapParser.parseFunctionBoundaries p) <-> delimits (MapParser.lines p) f.
Proof.
  unfold MapParser.parseFunctionBoundaries, Arr.entries.
  pose proof (scanned_fold (MapParser.lines p) [] ([], None) scanned_start) as [H _].
  exact (H f).
Qed.

(** X1.  [parseFunctionBoundaries] reports exactly the functions the text
    delimits: a function is reported if and only if its header [Func
    name(...)] is on its start line, its end line is the first line after
    the header that starts or ends a function, and that line is an
    [EndFunc] line.  So a header that is followed by another header before
    any [EndFunc], or by no [EndFunc] at all, gives no function. *)
Theorem function_boundaries_delimited (p : MapParser.t) (f : FB.t) :
  In f (MapParser.parseFunctionBoundaries p) <-> delimits (MapParser.lines p) f.
Proof. apply boundaries_delimited. Qed.

(** X2.  The functions [parseFunctionBoundaries] reports are in text
    order and do not overlap: each one starts on a line of the text, ends
    on a later line of the text, and ends before the next one starts. *)
Theorem function_boundaries_in_order (p : MapParser.t) :
  StronglySorted apart (MapParser.parseFunctionBoundaries p)
  /\ Forall (fun f => 0 <= FB.startLine f < FB.endLine f
                      /\ FB.endLine f < Arr.length (MapParser.lines p))
            (MapParser.parseFunctionBoundaries p).
Proof.
  split; [apply boundaries_apart|].
  apply List.Forall_forall. intros f Hf.
  apply boundaries_delimited in Hf.
  destruct Hf as (Hh & (l & Hl & _) & Hlt & _).
  apply headed_bound in Hh. apply lineAt_Some in Hl. lia.
Qed.

Lemma spanning_unique (fs : list FB.t) (f g : FB.t) (line : num) :
  StronglySorted apart fs ->
  Forall (fun f => FB.startLine f < FB.endLine f) fs ->
  In f fs -> In g fs -> spans f line = true -> spans g line = true -> f = g.
Proof.
  intros Hs Hlt Hf Hg Sf Sg.
  assert (Hno : forall a b, apart a b -> spans a line = true -> spans b line = true -> False).
  { intros a b Hab Sa Sb. unfold apart, spans in *.
    apply andb_prop in Sa as [_ Sa]. apply andb_prop in Sb as [Sb _].
    destruct line as [z|]; simpl in *; [|discriminate].
    apply Z.leb_le in Sa, Sb. lia. }
  induction Hs as [|a fs Hs IH Ha]; [destruct Hf|].
  inversion Hlt as [|? ? _ Hlt']; subst.
  rewrite List.Forall_forall in Ha.
  destruct Hf as [<-|Hf], Hg as [<-|Hg].
  - reflexivity.
  - destruct (Hno a g (Ha g Hg) Sf Sg).
  - destruct (Hno a f (Ha f Hf) Sg Sf).
  - apply IH; assumption.
Qed.

(** X3.  [getFunctionAtLine] answers with a function exactly when that
    function is one of the reported functions and the line lies between its
    start line and its end line (both included); no line lies in two
    functions, so the answer does not depend on the order of the search. *)
Theorem getFunctionAtLine_characterised (p : MapParser.t) (line : num) (f : FB.t) :
  MapParser.getFunctionAtLine p line = Some f
  <-> In f (MapParser.parseFunctionBoundaries p) /\ spans f line = true.
Proof.
  unfold MapParser.getFunctionAtLine. split.
  - intros H. apply List.find_some in H. exact H.
  - intros [Hin Hs].
    destruct (List.find
                (fun func => Num.leb (Fin (FB.startLine func)) line
                             && Num.leb line (Fin (FB.endLine func)))
                (MapParser.parseFunctionBoundaries p)) as [g|] eqn:E.
    + apply List.find_some in E as [Hg Sg]. f_equal.
      destruct (boundaries_apart p) as [Hsorted Hlt].
      exact (spanning_unique _ g f line Hsorted Hlt Hg Hin Sg Hs).
    + exfalso. pose proof (List.find_none _ _ E f Hin) as Hn.
      unfold spans in Hs. cbn beta in Hn. congruence.
Qed.

(** ** The keys of a query *)

Lemma has_In (x : string) (s : JSSet.t) : JSSet.has x s = true <-> In x s.
Proof.
  unfold JSSet.has. rewrite existsb_exists. split.
  - intros (y & Hy & E). apply String.eqb_eq in E. subst y. exact Hy.
  - intros H. exists x. split; [exact H|apply String.eqb_refl].
Qed.

Lemma firstOccurrences_In (l : list string) (x : string) :
  In x (firstOccurrences l) <-> In x l.
Proof.
  induction l as [|y l IH]; simpl; [tauto|].
  rewrite List.filter_In, IH. split.
  - intros [E|[H _]]; [left; exact E|right; exact H].
  - intros [E|H]; [left; exact E|].
    destruct (String.eqb_spec x y) as [->|Hne]; [left; reflexivity|].
    right. split; [exact H|]. reflexivity.
Qed.

Lemma firstOccurrences_NoDup (l : list string) : NoDup (firstOccurrences l).
Proof.
  induction l as [|y l IH]; simpl; [constructor|].
  constructor.
  - rewrite list_elem_of_In, List.filter_In. intros [_ H].
    rewrite String.eqb_refl in H. discriminate.
  - apply NoDup_ListNoDup. apply List.NoDup_filter. apply NoDup_ListNoDup, IH.
Qed.

(** What the loop over the assignments collects. *)
Lemma collectKey_visible (p : MapParser.t) (targetLine : num) (decl : D.t)
      (assignments : list KA.t) (s : JSSet.t) :
  fold_left (MapParser.collectKey p targetLine
               (MapParser.getFunctionAtLine p targetLine) decl) assignments s
  = fold_left (fun s x => JSSet.add x s)
      (List.map KA.key (List.filter (visible p targetLine decl) assignments)) s.
Proof.
  assert (Hstep : forall s0 a,
             MapParser.collectKey p targetLine
               (MapParser.getFunctionAtLine p targetLine) decl s0 a
             = if visible p targetLine decl a then JSSet.add (KA.key a) s0 else s0).
  { intros s0 a. unfold MapParser.collectKey, visible, Num.ltb.
    destruct (Num.leb targetLine (Fin (KA.line a))); [reflexivity|]. cbn [negb andb].
    destruct (MapParser.getFunctionAtLine p targetLine) as [cur|];
      destruct (MapParser.getFunctionAtLine p (Fin (KA.line a))) as [af|];
      reflexivity. }
  revert s. induction assignments as [|a l IH]; intros s; [reflexivity|].
  cbn [fold_left List.filter]. rewrite Hstep, IH.
  destruct (visible p targetLine decl a); reflexivity.
Qed.

(** X5.  Once a declaration is chosen, the direct keys of a query are the
    distinct keys of the assignments the query sees (those before the query
    line and in the scope of the query), in the order of their first
    appearance; no key is listed twice, and each is the key of an
    assignment on a line before the query line. *)
Theorem direct_keys_visible (p : MapParser.t) (mapName : string) (targetLine : num)
        (includeFunctionKeys : bool) (decl : D.t) (assignments : list KA.t)
        (r : Keys.t) :
  MapParser.closestDeclaration p mapName targetLine = Some decl ->
  MapParser.parseKeyAssignments p mapName = Some assignments ->
  MapParser.getKeysForMapAtLine p mapName targetLine includeFunctionKeys = Some r ->
  Keys.directKeys r
  = firstOccurrences
      (List.map KA.key (List.filter (visible p targetLine decl) assignments))
  /\ NoDup (Keys.directKeys r)
  /\ (forall k, In k (Keys.directKeys r) ->
        exists a, In a assignments /\ KA.key a = k
                  /\ Num.ltb (Fin (KA.line a)) targetLine = true).
Proof.
  intros Hd Ha Hr. unfold MapParser.getKeysForMapAtLine in Hr.
  rewrite Hd, Ha in Hr. cbn [mbind option_bind] in Hr.
  rewrite collectKey_visible in Hr.
  fold (JSSet.ofList
          (List.map KA.key (List.filter (visible p targetLine decl) assignments))) in Hr.
  rewrite ofList_firstOccurrences in Hr.
  assert (E : Keys.directKeys r
              = firstOccurrences
                  (List.map KA.key (List.filter (visible p targetLine decl) assignments))).
  { destruct (if includeFunctionKeys
              then MapParser.getKeysFromFunctionCalls p mapName targetLine
              else Some []) as [fk|]; [|discriminate].
    cbn [mbind option_bind] in Hr. inversion Hr. reflexivity. }
  split; [exact E|]. rewrite E. split; [apply firstOccurrences_NoDup|].
  intros k Hk. apply firstOccurrences_In, in_map_iff in Hk as (a & Hkey & Hin).
  apply List.filter_In in Hin as [Hin Hv]. exists a.
  split; [exact Hin|]. split; [exact Hkey|].
  unfold visible in Hv. apply andb_prop in Hv as [Hv _]. exact Hv.
Qed.

(** ** Keys added by function calls *)

Lemma pushUnseen_ok (st : MapParser.callScan) (k : ParameterKey.t) :
  callScanOk st -> callScanOk (MapParser.pushUnseen st k).
Proof.
  destruct st as [keys seen]. unfold callScanOk, MapParser.pushUnseen. cbn [fst snd].
  intros (Hm & Hn & Ha).
  destruct (JSSet.has (ParameterKey.key k) seen) eqn:E; cbn [negb fst snd];
    [repeat split; assumption|].
  assert (Hnot : ~ In (ParameterKey.key k) seen).
  { intros Hin. apply has_In in Hin. congruence. }
  unfold JSSet.add. rewrite E. split; [|split].
  - rewrite List.map_app, Hm. reflexivity.
  - apply NoDup_snoc; [exact Hn|exact Hnot].
  - apply Forall_app. split; [exact Ha|]. repeat constructor.
Qed.

Lemma pushUnseen_keys (st : MapParser.callScan) (k : ParameterKey.t) (x : FunctionKey.t) :
  In x (fst (MapParser.pushUnseen st k)) ->
  In x (fst st) \/ FunctionKey.key x = ParameterKey.key k.
Proof.
  destruct st as [keys seen]. unfold MapParser.pushUnseen.
  destruct (negb (JSSet.has (ParameterKey.key k) seen)); cbn [fst]; [|tauto].
  rewrite in_app_iff. intros [H|[<-|[]]]; [left; exact H|right; reflexivity].
Qed.

Lemma fold_pushUnseen (pks : list ParameterKey.t) (st : MapParser.callScan) :
  callScanOk st ->
  callScanOk (fold_left MapParser.pushUnseen pks st)
  /\ forall x, In x (fst (fold_left MapParser.pushUnseen pks st)) ->
               In x (fst st) \/ exists pk, In pk pks /\ FunctionKey.key x = ParameterKey.key pk.
Proof.
  revert st. induction pks as [|k pks IH]; intros st Hok; cbn [fold_left].
  - split; [exact Hok|]. intros x Hx. left. exact Hx.
  - destruct (IH _ (pushUnseen_ok st k Hok)) as [Hok' Hin]. split; [exact Hok'|].
    intros x Hx. destruct (Hin x Hx) as [H|(pk & Hpk & E)].
    + destruct (pushUnseen_keys st k x H) as [H'|E]; [left; exact H'|].
      right. exists k. split; [left; reflexivity|exact E].
    + right. exists pk. split; [right; exact Hpk|exact E].
Qed.

(** The keys [getFunctionParameterKeys] returns for a parameter of the
    first function of the given name. *)
Lemma getFunctionParameterKeys_added (p : MapParser.t) (func : FB.t)
      (param : string) (pks : list ParameterKey.t) (pk : ParameterKey.t) :
  List.find (fun f => String.eqb (FB.name f) (FB.name func))
            (MapParser.parseFunctionBoundaries p) = Some func ->
  MapParser.getFunctionParameterKeys p (FB.name func) param = Some pks ->
  In pk pks ->
  addedToParameter p func param (ParameterKey.key pk).
Proof.
  intros Hfind Hk Hin. unfold MapParser.getFunctionParameterKeys in Hk.
  rewrite Hfind in Hk.
  destruct (Arr.includes param (FB.parameters func)) eqn:Ei; cbn [negb] in Hk;
    [|inversion Hk; subst pks; destruct Hin].
  destruct (MapParser.parseKeyAssignments p param) as [assignments|] eqn:Ea;
    [|discriminate].
  cbn [mbind option_bind] in Hk. inversion Hk; subst pks; clear Hk.
  apply in_map_iff in Hin as (a & <- & Ha). apply List.filter_In in Ha as [Ha Hr].
  apply andb_prop in Hr as [H1 H2]. apply Z.leb_le in H1, H2.
  split; [apply List.find_some in Hfind; tauto|]. split.
  - unfold Arr.includes in Ei. apply existsb_exists in Ei as (y & Hy & E).
    apply String.eqb_eq in E. subst y. exact Hy.
  - exists assignments, a. cbn. repeat split; try assumption; reflexivity.
Qed.

(** What one line adds to the scan. *)
Lemma scanCallLine_ok (p : MapParser.t) (mapName : string) (targetLine : num)
      (st st' : MapParser.callScan) (e : Z * string) :
  In e (Arr.entries (MapParser.lines p)) ->
  callScanOk st ->
  MapParser.scanCallLine p mapName targetLine (Some st) e = Some st' ->
  callScanOk st'
  /\ forall x, In x (fst st') ->
       In x (fst st)
       \/ exists func param,
            calledWith p mapName targetLine func param
            /\ addedToParameter p func param (FunctionKey.key x).
Proof.
  intros He Hok. destruct e as [index line].
  unfold MapParser.scanCallLine. cbn [mbind option_bind].
  assert (Hsame : Some st = Some st' ->
            callScanOk st'
            /\ forall x, In x (fst st') ->
                 In x (fst st)
                 \/ exists func param,
                      calledWith p mapName targetLine func param
                      /\ addedToParameter p func param (FunctionKey.key x)).
  { intros E. inversion E; subst st'. split; [exact Hok|]. intros x Hx. left. exact Hx. }
  destruct (Num.leb targetLine (Fin index)) eqn:El; [exact Hsame|].
  destruct (RegExp.exec MapParser.functionCallPattern line) as [m|] eqn:Em; [|exact Hsame].
  cbv zeta.
  set (args := List.map Str.trim (Str.split "," (RegExp.group 2 m))).
  destruct (Z.eqb_spec (Arr.indexOf mapName args) (-1)) as [|Hidx]; [exact Hsame|].
  destruct (List.find (fun f => String.eqb (FB.name f) (RegExp.group 1 m))
                      (MapParser.parseFunctionBoundaries p)) as [func|] eqn:Ef;
    [|exact Hsame].
  destruct (FB.parameters func !! Z.to_nat (Arr.indexOf mapName args))
    as [param|] eqn:Ep; [|exact Hsame].
  destruct (MapParser.getFunctionParameterKeys p (RegExp.group 1 m) param)
    as [pks|] eqn:Ek; [|discriminate].
  cbn [mbind option_bind]. intros E. inversion E; subst st'; clear E.
  destruct (fold_pushUnseen pks st Hok) as [Hok' Hin]. split; [exact Hok'|].
  intros x Hx. destruct (Hin x Hx) as [H|(pk & Hpk & Ekey)]; [left; exact H|].
  right. exists func, param.
  assert (Hname : FB.name func = RegExp.group 1 m).
  { apply List.find_some in Ef as [_ Ef]. apply String.eqb_eq in Ef. exact Ef. }
  split.
  - exists index, line, m. unfold Num.ltb. rewrite El.
    repeat split; try assumption; reflexivity.
  - rewrite Ekey. rewrite <- Hname in Ef, Ek.
    exact (getFunctionParameterKeys_added p func param pks pk Ef Ek Hpk).
Qed.

Lemma scanCallLine_None (p : MapParser.t) (mapName : string) (targetLine : num)
      (es : list (Z * string)) :
  fold_left (MapParser.scanCallLine p mapName targetLine) es None = None.
Proof. induction es as [|e es IH]; [reflexivity|exact IH]. Qed.

Lemma scanCallLines_ok (p : MapParser.t) (mapName : string) (targetLine : num)
      (es : list (Z * string)) (st st' : MapParser.callScan) :
  (forall e, In e es -> In e (Arr.entries (MapParser.lines p))) ->
  callScanOk st ->
  fold_left (MapParser.scanCallLine p mapName targetLine) es (Some st) = Some st' ->
  callScanOk st'
  /\ forall x, In x (fst st') ->
       In x (fst st)
       \/ exists func param,
            calledWith p mapName targetLine func param
            /\ addedToParameter p func param (FunctionKey.key x).
Proof.
  revert st. induction es as [|e es IH]; intros st Hes Hok; cbn [fold_left].
  - intros E. inversion E; subst st'. split; [exact Hok|]. intros x Hx. left. exact Hx.
  - destruct (MapParser.scanCallLine p mapName targetLine (Some st) e) as [st1|] eqn:E1;
      [|rewrite scanCallLine_None; discriminate].
    destruct (scanCallLine_ok p mapName targetLine st st1 e (Hes e (or_introl eq_refl)) Hok E1)
      as [Hok1 Hin1].
    intros E. destruct (IH st1 (fun e' H => Hes e' (or_intror H)) Hok1 E) as [Hok' Hin'].
    split; [exact Hok'|]. intros x Hx.
    destruct (Hin' x Hx) as [H|H]; [|right; exact H]. exact (Hin1 x H).
Qed.

Lemma function_keys_ok (p : MapParser.t) (mapName : string) (targetLine : num)
      (keys : list FunctionKey.t) :
  MapParser.getKeysFromFunctionCalls p mapName targetLine = Some keys ->
  NoDup (List.map FunctionKey.key keys)
  /\ Forall (fun k => FunctionKey.addedInFunction k = true) keys
  /\ forall x, In x keys ->
       exists func param,
         calledWith p mapName targetLine func param
         /\ addedToParameter p func param (FunctionKey.key x).
Proof.
  unfold MapParser.getKeysFromFunctionCalls. intros H.
  destruct (fold_left (MapParser.scanCallLine p mapName targetLine)
                      (Arr.entries (MapParser.lines p)) (Some ([], JSSet.empty)))
    as [st|] eqn:E; [|discriminate].
  cbn [mbind option_bind] in H. inversion H; subst keys; clear H.
  destruct (scanCallLines_ok p mapName targetLine _ ([], JSSet.empty) st
              (fun e H => H)) as [(Hm & Hn & Ha) Hin].
  - split; [reflexivity|]. split; constructor.
  - exact E.
  - split; [rewrite Hm; exact Hn|]. split; [exact Ha|].
    intros x Hx. destruct (Hin x Hx) as [[]|H]. exact H.
Qed.

(** X6.  The keys [getKeysFromFunctionCalls] returns are pairwise
    distinct, and each is marked as added in a function. *)
Theorem function_keys_distinct (p : MapParser.t) (mapName : string) (targetLine : num)
        (keys : list FunctionKey.t) :
  MapParser.getKeysFromFunctionCalls p mapName targetLine = Some keys ->
  NoDup (List.map FunctionKey.key keys)
  /\ Forall (fun k => FunctionKey.addedInFunction k = true) keys.
Proof.
  intros H. destruct (function_keys_ok p mapName targetLine keys H) as (Hn & Ha & _).
  split; assumption.
Qed.

(** X7.  Every key [getKeysFromFunctionCalls] returns comes from a call
    on a line before the query line that passes the Map as an argument to a
    reported function: the key is assigned, on a line of that function, to
    the parameter at the position of the argument. *)
Theorem function_keys_from_calls (p : MapParser.t) (mapName : string)
        (targetLine : num) (keys : list FunctionKey.t) (x : FunctionKey.t) :
  MapParser.getKeysFromFunctionCalls p mapName targetLine = Some keys ->
  In x keys ->
  exists func param,
    calledWith p mapName targetLine func param
    /\ addedToParameter p func param (FunctionKey.key x).
Proof.
  intros H Hx. destruct (function_keys_ok p mapName targetLine keys H) as (_ & _ & Hin).
  exact (Hin x Hx).
Qed.

(** Queried at the end of [withCall]: the keys the call of Fill adds. *)
Lemma function_keys_distinct_witness :
  let keys := [ {| FunctionKey.key := "id"; FunctionKey.addedInFunction := true |};
                {| FunctionKey.key := "name"; FunctionKey.addedInFunction := true |} ] in
  NoDup (List.map FunctionKey.key keys)
  /\ Forall (fun k => FunctionKey.addedInFunction k = true) keys.
Proof.
  intros keys. apply (function_keys_distinct withCall "$mUser" (Fin 7) keys).
  vm_compute. reflexivity.
Defined.

Lemma function_keys_from_calls_witness :
  exists func param,
    calledWith withCall "$mUser" (Fin 7) func param
    /\ addedToParameter withCall func param "id".
Proof.
  apply (function_keys_from_calls withCall "$mUser" (Fin 7)
           [ {| FunctionKey.key := "id"; FunctionKey.addedInFunction := true |};
             {| FunctionKey.key := "name"; FunctionKey.addedInFunction := true |} ]
           {| FunctionKey.key := "id"; FunctionKey.addedInFunction := true |}).
  - vm_compute. reflexivity.
  - left. reflexivity.
Defined.

(** Queried at the end of [shadowed], inside the function Setup: the
    assignment inside Setup is seen, the one at top level is not, since the
    declaration chosen is the Local one. *)
Lemma direct_keys_visible_witness :
  let decl := {| D.name := "$mCfg"; D.scope := "Local"; D.line := 3 |} in
  let assignments :=
    [ {| KA.key := "host"; KA.line := 1; KA.notation := dot; KA.nested := [];
         KA.isDynamic := false |};
      {| KA.key := "port"; KA.line := 4; KA.notation := dot; KA.nested := [];
         KA.isDynamic := false |} ] in
  let r := {| Keys.directKeys := ["port"]; Keys.functionKeys := [] |} in
  Keys.directKeys r
  = firstOccurrences
      (List.map KA.key (List.filter (visible shadowed (Fin 5) decl) assignments))
  /\ NoDup (Keys.directKeys r)
  /\ (forall k, In k (Keys.directKeys r) ->
        exists a, In a assignments /\ KA.key a = k
                  /\ Num.ltb (Fin (KA.line a)) (Fin 5) = true).
Proof.
  intros decl assignments r.
  apply (direct_keys_visible shadowed "$mCfg" (Fin 5) true decl assignments r);
    vm_compute; reflexivity.
Defined.

(** X4.  A query at a line at or after the end of the text gives what the
    query at [Infinity] gives: the whole text is seen. *)
Theorem query_beyond_end (p : MapParser.t) (mapName : string) (targetLine : num)
        (includeFunctionKeys : bool) :
  Num.leb (Fin (Arr.length (MapParser.lines p))) targetLine = true ->
  MapParser.getKeysForMapAtLine p mapName targetLine includeFunctionKeys
  = MapParser.getKeysForMapAtLine p mapName Infinity includeFunctionKeys.
Proof. intros H. apply getKeysForMapAtLine_beyondEnd. exact H. Qed.

Lemma query_beyond_end_witness :
  MapParser.getKeysForMapAtLine withCall "$mUser" (Fin 7) true
  = MapParser.getKeysForMapAtLine withCall "$mUser" Infinity true.
Proof. apply (query_beyond_end withCall "$mUser" (Fin 7) true). vm_compute. reflexivity. Defined.

(** * What the patterns capture *)

Lemma append_assoc (a b c : string) : (a +:+ b) +:+ c = a +:+ (b +:+ c).
Proof.
  induction a as [|x a IH]; [reflexivity|].
  rewrite !append_cons, IH. reflexivity.
Qed.

Lemma append_nil_r (a : string) : a +:+ EmptyString = a.
Proof. induction a as [|x a IH]; [reflexivity|]. rewrite append_cons, IH. reflexivity. Qed.

Section Soundness.
Context {A : Type}.

Lemma rounds_sound (r : regex) (greedy : bool)
      (k : string -> RegExp.captures -> option A) (a : A) :
  sound A r ->
  forall (n : nat) (s : string) (caps : RegExp.captures),
    RegExp.rounds
      (fun s0 c0 k0 => RegExp.rmatch r s0 (RegExp.clearGroups (RegExp.groupsOf r) c0) k0)
      greedy k n s caps = Some a ->
    exists w s1 caps1,
      s = w +:+ s1 /\ matches (Rep greedy r) w
      /\ (RegExp.groupsOf r = [] -> caps1 = caps)
      /\ k s1 caps1 = Some a.
Proof.
  intros Hr. induction n as [|n IH]; intros s caps H.
  - exists EmptyString, s, caps. repeat split; [constructor|exact H].
  - cbn [RegExp.rounds] in H.
    assert (Hstop : k s caps = Some a ->
              exists w s1 caps1,
                s = w +:+ s1 /\ matches (Rep greedy r) w
                /\ (RegExp.groupsOf r = [] -> caps1 = caps) /\ k s1 caps1 = Some a).
    { intros Hk. exists EmptyString, s, caps. repeat split; [constructor|exact Hk]. }
    assert (Hagain :
              RegExp.rmatch r s (RegExp.clearGroups (RegExp.groupsOf r) caps)
                (fun s1 c1 =>
                   if (String.length s1 <? String.length s)%nat
                   then RegExp.rounds
                          (fun s0 c0 k0 =>
                             RegExp.rmatch r s0
                               (RegExp.clearGroups (RegExp.groupsOf r) c0) k0)
                          greedy k n s1 c1
                   else None) = Some a ->
              exists w s1 caps1,
                s = w +:+ s1 /\ matches (Rep greedy r) w
                /\ (RegExp.groupsOf r = [] -> caps1 = caps) /\ k s1 caps1 = Some a).
    { intros Hm. apply Hr in Hm as (w1 & s1 & caps1 & -> & Hw1 & Hc1 & Hk1).
      destruct (String.length s1 <? String.length (w1 +:+ s1))%nat; [|discriminate].
      apply IH in Hk1 as (w2 & s2 & caps2 & -> & Hw2 & Hc2 & Hk2).
      exists (w1 +:+ w2), s2, caps2. split; [symmetry; apply append_assoc|].
      split; [constructor; assumption|]. split; [|exact Hk2].
      intros Hg. rewrite (Hc2 Hg), (Hc1 Hg), Hg. apply clearGroups_nil. }
    destruct greedy.
    + destruct (RegExp.rmatch r s _ _) as [a'|] eqn:E.
      * inversion H; subst a'. exact (Hagain eq_refl).
      * exact (Hstop H).
    + destruct (k s caps) as [a'|] eqn:E.
      * inversion H; subst a'. exact (Hstop eq_refl).
      * exact (Hagain H).
Qed.

Lemma rmatch_sound (r : regex) : sound A r.
Proof.
  induction r as [|p|r1 IH1 r2 IH2|r1 IH1 r2 IH2|greedy r IH|i r IH];
    intros s caps k a H; cbn [RegExp.rmatch] in H.
  - exists EmptyString, s, caps. repeat split; [constructor|exact H].
  - destruct s as [|c s]; [discriminate|]. destruct (p c) eqn:Ec; [|discriminate].
    exists (String c EmptyString), s, caps. repeat split; [constructor; exact Ec|exact H].
  - apply IH1 in H as (w1 & s1 & caps1 & -> & Hw1 & Hc1 & H).
    apply IH2 in H as (w2 & s2 & caps2 & -> & Hw2 & Hc2 & H).
    exists (w1 +:+ w2), s2, caps2. split; [symmetry; apply append_assoc|].
    split; [constructor; assumption|]. split; [|exact H].
    cbn [RegExp.groupsOf]. intros Hg. apply app_eq_nil in Hg as [Hg1 Hg2].
    rewrite (Hc2 Hg2), (Hc1 Hg1). reflexivity.
  - assert (Hg : forall caps1 : RegExp.captures,
               (RegExp.groupsOf r1 = [] -> caps1 = caps) ->
               (RegExp.groupsOf r2 = [] -> caps1 = caps) ->
               RegExp.groupsOf (Alt r1 r2) = [] -> caps1 = caps).
    { cbn [RegExp.groupsOf]. intros caps1 H1 _ Hg. apply app_eq_nil in Hg as [Hg1 _].
      exact (H1 Hg1). }
    destruct (RegExp.rmatch r1 s caps k) as [a'|] eqn:E.
    + inversion H; subst a'. apply IH1 in E as (w & s1 & caps1 & -> & Hw & Hc & Hk).
      exists w, s1, caps1. split; [reflexivity|]. split; [apply matches_alt_l, Hw|].
      split; [|exact Hk]. cbn [RegExp.groupsOf]. intros Hg'.
      apply app_eq_nil in Hg' as [Hg1 _]. exact (Hc Hg1).
    + apply IH2 in H as (w & s1 & caps1 & -> & Hw & Hc & Hk).
      exists w, s1, caps1. split; [reflexivity|]. split; [apply matches_alt_r, Hw|].
      split; [|exact Hk]. cbn [RegExp.groupsOf]. intros Hg'.
      apply app_eq_nil in Hg' as [_ Hg2]. exact (Hc Hg2).
  - exact (rounds_sound r greedy k a IH _ s caps H).
  - apply IH in H as (w & s1 & caps1 & -> & Hw & Hc & Hk).
    exists w, s1, (RegExp.setGroup i (RegExp.consumed (w +:+ s1) s1) caps1).
    split; [reflexivity|]. split; [constructor; exact Hw|]. split; [|exact Hk].
    cbn [RegExp.groupsOf]. discriminate.
Qed.

(** A group records the text its pattern matched. *)
Lemma group_sound (i : nat) (r : regex) (s : string) (caps : RegExp.captures)
      (k : string -> RegExp.captures -> option A) (a : A) :
  RegExp.rmatch (Group i r) s caps k = Some a ->
  exists w s1 caps1,
    s = w +:+ s1 /\ matches r w
    /\ (RegExp.groupsOf r = [] -> caps1 = caps)
    /\ k s1 (RegExp.setGroup i w caps1) = Some a.
Proof.
  intros H. rewrite group_step in H.
  apply rmatch_sound in H as (w & s1 & caps1 & -> & Hw & Hc & Hk).
  rewrite consumed_prefix in Hk. exists w, s1, caps1. repeat split; assumption.
Qed.

End Soundness.

(** ** The texts of the patterns at hand *)

Lemma matches_cat_inv (r1 r2 : regex) (w : string) :
  matches (Cat r1 r2) w -> exists w1 w2, w = w1 +:+ w2 /\ matches r1 w1 /\ matches r2 w2.
Proof. intros H. inversion H; subst. eauto. Qed.

Lemma matches_chars_inv (p : ascii -> bool) (w : string) :
  matches (Chars p) w -> exists c, w = String c EmptyString /\ p c = true.
Proof. intros H. inversion H; subst. eauto. Qed.

Lemma matches_group_inv (i : nat) (r : regex) (w : string) :
  matches (Group i r) w -> matches r w.
Proof. intros H. inversion H; subst. assumption. Qed.

Lemma matches_run (greedy : bool) (p : ascii -> bool) (w : string) :
  matches (Rep greedy (Chars p)) w -> Str.forallb p w = true.
Proof.
  intros H. remember (Rep greedy (Chars p)) as r eqn:Er.
  induction H as [| | | | | |g r0 w1 w2 H1 _ H2 IH2|]; try discriminate.
  - reflexivity.
  - inversion Er; subst. apply matches_chars_inv in H1 as (c & -> & Hc).
    rewrite append_cons, append_nil. simpl. rewrite Hc. apply IH2. reflexivity.
Qed.

Lemma matches_plus (p : ascii -> bool) (w : string) :
  matches (RegExp.plus (Chars p)) w -> nonEmptyOf p w = true.
Proof.
  unfold RegExp.plus. intros H.
  apply matches_cat_inv in H as (w1 & w2 & -> & H1 & H2).
  apply matches_chars_inv in H1 as (c & -> & Hc). apply matches_run in H2.
  rewrite append_cons, append_nil. simpl. rewrite Hc, H2. reflexivity.
Qed.

Lemma toLowerCase_append (a b : string) :
  Str.toLowerCase (a +:+ b) = Str.toLowerCase a +:+ Str.toLowerCase b.
Proof.
  unfold Str.toLowerCase. induction a as [|c a IH]; [reflexivity|].
  rewrite append_cons. simpl. rewrite IH, append_cons. reflexivity.
Qed.

Lemma matches_text (t w : string) :
  matches (RegExp.textIgnoreCase t) w -> Str.toLowerCase w = Str.toLowerCase t.
Proof.
  revert w. induction t as [|d t IH]; intros w H; cbn [RegExp.textIgnoreCase] in H.
  - inversion H; subst. reflexivity.
  - apply matches_cat_inv in H as (w1 & w2 & -> & H1 & H2).
    apply matches_chars_inv in H1 as (c & -> & Hc). apply IH in H2.
    rewrite append_cons, append_nil. unfold Str.toLowerCase in *. simpl. rewrite H2.
    unfold Char.eqIgnoreCase in Hc. apply Ascii.eqb_eq in Hc. rewrite Hc. reflexivity.
Qed.

(** The pattern of a variable name. *)
Lemma matches_variable (w : string) :
  matches (RegExp.seq [RegExp.chr "$"; Chars Char.isIdentStart; RegExp.star RegExp.word]) w ->
  isVariableName w = true.
Proof.
  cbn [RegExp.seq]. intros H.
  apply matches_cat_inv in H as (w1 & w' & -> & H1 & H).
  apply matches_cat_inv in H as (w2 & w3 & -> & H2 & H3).
  apply matches_chars_inv in H1 as (c1 & -> & Hc1).
  apply matches_chars_inv in H2 as (c2 & -> & Hc2).
  apply matches_run in H3.
  rewrite !append_cons, !append_nil. simpl. unfold RegExp.chr in Hc1.
  rewrite Hc1, Hc2, H3. reflexivity.
Qed.

Lemma matches_alt_inv (r1 r2 : regex) (w : string) :
  matches (Alt r1 r2) w -> matches r1 w \/ matches r2 w.
Proof. intros H. inversion H; subst; [left|right]; assumption. Qed.

(** The scope keywords. *)
Lemma matches_scope (w : string) :
  matches (Alt (RegExp.textIgnoreCase "Local")
               (Alt (RegExp.textIgnoreCase "Global")
                    (Alt (RegExp.textIgnoreCase "Dim") (RegExp.textIgnoreCase "Static")))) w ->
  isScopeKeyword w = true.
Proof.
  intros H. unfold isScopeKeyword.
  destruct (matches_alt_inv _ _ _ H) as [H1|H1];
    [apply matches_text in H1; rewrite H1; reflexivity|].
  destruct (matches_alt_inv _ _ _ H1) as [H2|H2];
    [apply matches_text in H2; rewrite H2; reflexivity|].
  destruct (matches_alt_inv _ _ _ H2) as [H3|H3];
    apply matches_text in H3; rewrite H3; reflexivity.
Qed.

(** ** What the groups of the patterns hold *)

Lemma groupsOf_text (t : string) : RegExp.groupsOf (RegExp.textIgnoreCase t) = [].
Proof. induction t as [|c t IH]; [reflexivity|exact IH]. Qed.

(** The part of a pattern in front, when it has no group. *)
Ltac plain_front H w Hw :=
  rewrite cat_step in H;
  let s := fresh "s" in
  let caps := fresh "caps" in
  let Hc := fresh "Hc" in
  apply rmatch_sound in H as (w & s & caps & -> & Hw & Hc & H);
  rewrite (Hc ltac:(first [reflexivity | apply groupsOf_text])) in H; clear Hc caps.

(** The part of a pattern in front, when it is a group without groups
    inside. *)
Ltac group_front H w Hw :=
  rewrite cat_step in H;
  let s := fresh "s" in
  let caps := fresh "caps" in
  let Hc := fresh "Hc" in
  apply group_sound in H as (w & s & caps & -> & Hw & Hc & H);
  rewrite (Hc ltac:(first [reflexivity | apply groupsOf_text])) in H; clear Hc caps.

(** The last part of a pattern, without groups. *)
Ltac plain_last H :=
  let w := fresh "w" in
  let s := fresh "s" in
  let caps := fresh "caps" in
  let Hw := fresh "Hw" in
  let Hc := fresh "Hc" in
  apply rmatch_sound in H as (w & s & caps & -> & Hw & Hc & H);
  rewrite (Hc ltac:(first [reflexivity | apply groupsOf_text])) in H; clear Hc caps Hw.

Lemma mapDecl_captures (line : string) (m : RegExp.matched) :
  RegExp.exec MapParser.mapDeclPattern line = Some m ->
  isScopeKeyword (RegExp.group 1 m) = true /\ isVariableName (RegExp.group 2 m) = true.
Proof.
  unfold RegExp.exec, MapParser.mapDeclPattern. cbn [RegExp.seq]. intros H.
  plain_front H w0 Hw0. group_front H w1 Hw1. plain_front H w2 Hw2.
  group_front H w3 Hw3. plain_last H.
  inversion H; subst m. cbn.
  split; [apply matches_scope, Hw1|apply matches_variable, Hw3].
Qed.

Lemma dot_captures (mapName line : string) (m : RegExp.matched) :
  RegExp.exec (MapParser.dotPattern mapName) line = Some m ->
  nonEmptyOf Char.isWord (RegExp.group 1 m) = true.
Proof.
  unfold RegExp.exec, MapParser.dotPattern. cbn [RegExp.seq]. intros H.
  plain_front H w0 Hw0. plain_front H w1 Hw1. plain_front H w2 Hw2.
  group_front H w3 Hw3. plain_last H.
  inversion H; subst m. cbn. apply matches_plus, Hw3.
Qed.

Lemma dynamic_captures (mapName line : string) (m : RegExp.matched) :
  RegExp.exec (MapParser.dynamicPattern mapName) line = Some m ->
  isVariableName (RegExp.group 1 m) = true.
Proof.
  unfold RegExp.exec, MapParser.dynamicPattern. cbn [RegExp.seq]. intros H.
  plain_front H w0 Hw0. plain_front H w1 Hw1. plain_front H w2 Hw2.
  group_front H w3 Hw3. plain_last H.
  inversion H; subst m. cbn. apply matches_variable, Hw3.
Qed.

Lemma bracket_captures (mapName line : string) (m : RegExp.matched) :
  RegExp.exec (MapParser.bracketPattern mapName) line = Some m ->
  nonEmptyOf Char.isKeyChar (RegExp.group 1 m) = true.
Proof.
  unfold RegExp.exec, MapParser.bracketPattern. cbn [RegExp.seq]. intros H.
  plain_front H w0 Hw0. plain_front H w1 Hw1. plain_front H w2 Hw2.
  plain_front H w3 Hw3. group_front H w4 Hw4. plain_last H.
  inversion H; subst m. cbn. apply matches_plus, Hw4.
Qed.

Lemma key_captures (s : string) (m : RegExp.matched) :
  RegExp.exec MapParser.keyPattern s = Some m ->
  nonEmptyOf Char.isKeyChar (RegExp.group 1 m) = true.
Proof.
  unfold RegExp.exec, MapParser.keyPattern. cbn [RegExp.seq]. intros H.
  plain_front H w0 Hw0. plain_front H w1 Hw1.
  group_front H w2 Hw2. plain_last H.
  inversion H; subst m. cbn. apply matches_plus, Hw2.
Qed.

Lemma funcStart_captures (line : string) (m : RegExp.matched) :
  RegExp.exec MapParser.funcStartPattern line = Some m ->
  nonEmptyOf Char.isWord (RegExp.group 1 m) = true.
Proof.
  unfold RegExp.exec, MapParser.funcStartPattern. cbn [RegExp.seq]. intros H.
  plain_front H w0 Hw0. plain_front H w1 Hw1. plain_front H w2 Hw2.
  group_front H w3 Hw3. plain_front H w4 Hw4. plain_front H w5 Hw5.
  group_front H w6 Hw6. plain_last H.
  inversion H; subst m. cbn. apply matches_plus, Hw3.
Qed.

(** ** The shape of declarations and assignments *)

Lemma search_exec (r : regex) (s : string) (m : RegExp.matched) :
  RegExp.search r s = Some m -> exists s', RegExp.exec r s' = Some m.
Proof.
  induction s as [|c s IH]; cbn [RegExp.search].
  - destruct (RegExp.exec r EmptyString) as [m'|] eqn:E; [|discriminate].
    intros H. inversion H; subst m'. exists EmptyString. exact E.
  - destruct (RegExp.exec r (String c s)) as [m'|] eqn:E.
    + intros H. inversion H; subst m'. exists (String c s). exact E.
    + exact IH.
Qed.

Lemma execAll_exec (fuel : nat) (r : regex) (s : string) (m : RegExp.matched) :
  In m (RegExp.execAll fuel r s) -> exists s', RegExp.exec r s' = Some m.
Proof.
  revert s. induction fuel as [|fuel IH]; intros s; cbn [RegExp.execAll]; [intros []|].
  destruct (RegExp.search r s) as [m'|] eqn:E; [|intros []].
  destruct (String.length (RegExp.rest m') <? String.length s)%nat.
  - intros [<-|H]; [exact (search_exec r s m' E)|exact (IH _ H)].
  - intros [<-|[]]. exact (search_exec r s m' E).
Qed.

Lemma nonEmptyOf_nonempty (p : ascii -> bool) (w : string) :
  nonEmptyOf p w = true -> w <> EmptyString.
Proof. destruct w; [discriminate|]. intros _. discriminate. Qed.

Lemma variableName_nonempty (w : string) : isVariableName w = true -> w <> EmptyString.
Proof. destruct w; [discriminate|]. intros _. discriminate. Qed.

Lemma parseNestedKeyStructure_shape (line mapName : string) :
  match MapParser.parseNestedKeyStructure line mapName with
  | [] => True
  | [_] => False
  | ks => List.forallb (nonEmptyOf Char.isKeyChar) ks = true
  end.
Proof.
  unfold MapParser.parseNestedKeyStructure.
  destruct (RegExp.exec (MapParser.nestedPattern mapName) line) as [m|]; [|exact I].
  cbv zeta.
  set (ms := RegExp.execAll _ MapParser.keyPattern (RegExp.group 1 m)).
  assert (Hall : List.forallb (nonEmptyOf Char.isKeyChar) (List.map (RegExp.group 1) ms) = true).
  { apply forallb_forall. intros k Hk. apply in_map_iff in Hk as (m' & <- & Hm').
    apply execAll_exec in Hm' as (s' & Hs'). exact (key_captures s' m' Hs'). }
  destruct (List.map (RegExp.group 1) ms) as [|k1 [|k2 ks]] eqn:E.
  - exact I.
  - exact I.
  - replace (1 <? Arr.length (k1 :: k2 :: ks)) with true; [exact Hall|].
    symmetry. apply Z.ltb_lt. unfold Arr.length. simpl List.length. lia.
Qed.

Lemma lineAssignments_shape (mapName : string) (index : Z) (line : string) (a : KA.t) :
  In a (MapParser.lineAssignments mapName index line) -> assignmentShape a = true.
Proof.
  unfold MapParser.lineAssignments.
  destruct (MapParser.isComment line); [intros []|]. cbv zeta.
  pose proof (parseNestedKeyStructure_shape line mapName) as Hn.
  destruct (MapParser.parseNestedKeyStructure line mapName) as [|k1 [|k2 ks]] eqn:En.
  - cbn [Arr.length List.length Z.of_nat Z.ltb Z.compare].
    unfold MapParser.parseDynamicKeysFromLine.
    destruct (RegExp.exec (MapParser.dynamicPattern mapName) line) as [md|] eqn:Ed.
    + replace (0 <? Arr.length [RegExp.group 1 md]) with true by reflexivity.
      intros [<-|[]]. unfold assignmentShape. cbn.
      exact (dynamic_captures mapName line md Ed).
    + cbn [Arr.length List.length Z.of_nat Z.ltb Z.compare].
      destruct (RegExp.exec (MapParser.dotPattern mapName) line) as [mdot|] eqn:Edot.
      * intros [<-|[]]. unfold assignmentShape. cbn.
        exact (dot_captures mapName line mdot Edot).
      * destruct (RegExp.exec (MapParser.bracketPattern mapName) line) as [mb|] eqn:Eb;
          [|intros []].
        intros [<-|[]]. unfold assignmentShape. cbn.
        exact (bracket_captures mapName line mb Eb).
  - destruct Hn.
  - replace (0 <? Arr.length (k1 :: k2 :: ks)) with true
      by (symmetry; apply Z.ltb_lt; unfold Arr.length; simpl List.length; lia).
    intros [<-|[]]. unfold assignmentShape. cbn [KA.nested KA.notation KA.isDynamic KA.key hd].
    rewrite Hn, String.eqb_refl. reflexivity.
Qed.

(** X8.  Every assignment [parseKeyAssignments] reports has one of four
    shapes: a chain of two or more non-empty quoted keys, with the first
    key of the chain as its key; a dynamic key that is a variable name; a
    key in dot notation made of word characters; or a key in bracket
    notation that is non-empty and holds no quote character.  In
    particular no reported key is the empty text, and a chain never has
    exactly one key. *)
Theorem assignments_well_shaped (p : MapParser.t) (mapName : string)
        (assignments : list KA.t) (a : KA.t) :
  MapParser.parseKeyAssignments p mapName = Some assignments ->
  In a assignments ->
  assignmentShape a = true
  /\ KA.key a <> EmptyString
  /\ List.length (KA.nested a) <> 1%nat.
Proof.
  unfold MapParser.parseKeyAssignments.
  destruct (MapParser.literalName mapName); [|discriminate].
  intros E Hin. inversion E; subst assignments; clear E.
  apply in_flat_map in Hin as ([index line] & _ & Hin).
  apply lineAssignments_shape in Hin. split; [exact Hin|].
  unfold assignmentShape in Hin.
  destruct (KA.nested a) as [|k1 [|k2 ks]] eqn:En; [| discriminate |].
  - split; [|simpl; lia].
    destruct (KA.notation a), (KA.isDynamic a); try discriminate.
    + exact (nonEmptyOf_nonempty _ _ Hin).
    + exact (variableName_nonempty _ Hin).
    + exact (nonEmptyOf_nonempty _ _ Hin).
  - split; [|simpl; lia].
    apply andb_prop in Hin as [Hin Hk]. apply andb_prop in Hin as [_ Hall].
    apply String.eqb_eq in Hk. rewrite Hk.
    cbn [List.forallb] in Hall. apply andb_prop in Hall as [H1 _].
    exact (nonEmptyOf_nonempty _ _ H1).
Qed.

Lemma assignments_well_shaped_witness :
  let a := {| KA.key := "a"; KA.line := 0; KA.notation := bracket;
              KA.nested := ["a"; "b"]; KA.isDynamic := false |} in
  assignmentShape a = true
  /\ KA.key a <> EmptyString
  /\ List.length (KA.nested a) <> 1%nat.
Proof.
  intros a.
  apply (assignments_well_shaped fourNotations "$mData"
           [ a;
             {| KA.key := "$sKey"; KA.line := 1; KA.notation := bracket;
                KA.nested := []; KA.isDynamic := true |};
             {| KA.key := "name"; KA.line := 2; KA.notation := dot;
                KA.nested := []; KA.isDynamic := false |};
             {| KA.key := "id"; KA.line := 3; KA.notation := bracket;
                KA.nested := []; KA.isDynamic := false |} ] a).
  - vm_compute. reflexivity.
  - left. reflexivity.
Defined.

Lemma entriesFrom_lookup {A : Type} (l : list A) (i j : Z) (x : A) :
  In (j, x) (Arr.entriesFrom i l) -> i <= j /\ l !! Z.to_nat (j - i) = Some x.
Proof.
  revert i. induction l as [|y l IH]; intros i; cbn [Arr.entriesFrom]; [intros []|].
  intros [E|H].
  - inversion E; subst. split; [lia|]. replace (j - j) with 0 by lia. reflexivity.
  - apply IH in H as [Hle Hl]. split; [lia|].
    replace (Z.to_nat (j - i)) with (S (Z.to_nat (j - (i + 1)))) by lia. exact Hl.
Qed.

Lemma entries_lineAt (ls : list string) (index : Z) (line : string) :
  In (index, line) (Arr.entries ls) -> lineAt ls index = Some line.
Proof.
  unfold Arr.entries, lineAt. intros H. apply entriesFrom_lookup in H as [Hle Hl].
  destruct (Z.ltb_spec index 0) as [Hneg|_]; [lia|].
  replace (index - 0) with index in Hl by lia. exact Hl.
Qed.

(** X9.  The declarations [parseMapDeclarations] reports are in text
    order, at most one per line; each names a variable (a dollar sign, a
    letter or underscore, then word characters) with one of the four scope
    keywords Local, Global, Dim and Static in any letter case, and stands on
    a line of the text that is not a comment. *)
Theorem declarations_well_formed (p : MapParser.t) :
  increasing (List.map D.line (MapParser.parseMapDeclarations p))
  /\ Forall (fun d =>
               isVariableName (D.name d) = true
               /\ isScopeKeyword (D.scope d) = true
               /\ exists l, lineAt (MapParser.lines p) (D.line d) = Some l
                            /\ MapParser.isComment l = false)
            (MapParser.parseMapDeclarations p).
Proof.
  split; [apply parseMapDeclarations_increasing|].
  apply List.Forall_forall. intros d Hd.
  unfold MapParser.parseMapDeclarations in Hd.
  apply in_flat_map in Hd as ([index line] & Hin & Hd).
  destruct (MapParser.isComment line) eqn:Ec; [destruct Hd|].
  destruct (RegExp.exec MapParser.mapDeclPattern line) as [m|] eqn:Em; [|destruct Hd].
  destruct Hd as [<-|[]]. cbn [D.name D.scope D.line].
  destruct (mapDecl_captures line m Em) as [Hs Hv].
  split; [exact Hv|]. split; [exact Hs|].
  exists line. split; [apply entries_lineAt, Hin|exact Ec].
Qed.

(** ** Names and parameters of functions *)

Lemma split_pieces (sep : ascii) (s x : string) :
  In x (Str.split sep s) -> Str.forallb (fun c => negb (Ascii.eqb c sep)) x = true.
Proof.
  revert x. induction s as [|c s IH]; intros x; cbn [Str.split].
  - intros [<-|[]]. reflexivity.
  - destruct (Ascii.eqb c sep) eqn:E.
    + intros [<-|H]; [reflexivity|exact (IH x H)].
    + destruct (Str.split sep s) as [|h t].
      * intros [<-|[]]. simpl. rewrite E. reflexivity.
      * intros [<-|H].
        -- simpl. rewrite E. simpl. apply IH. left. reflexivity.
        -- apply IH. right. exact H.
Qed.

Lemma split_nonempty (sep : ascii) (s : string) : Str.split sep s <> [].
Proof.
  destruct s as [|c s]; cbn [Str.split]; [discriminate|].
  destruct (Ascii.eqb c sep); [discriminate|].
  destruct (Str.split sep s); discriminate.
Qed.

Lemma forallb_trimStart (p : ascii -> bool) (s : string) :
  Str.forallb p s = true -> Str.forallb p (Str.trimStart s) = true.
Proof.
  induction s as [|c s IH]; [reflexivity|]. cbn [Str.trimStart].
  intros H. destruct (Char.isWhiteSpace c); [|exact H].
  simpl in H. apply andb_prop in H as [_ H]. exact (IH H).
Qed.

Lemma forallb_trimEnd (p : ascii -> bool) (s : string) :
  Str.forallb p s = true -> Str.forallb p (Str.trimEnd s) = true.
Proof.
  induction s as [|c s IH]; [reflexivity|]. cbn [Str.trimEnd Str.forallb].
  intros H. apply andb_prop in H as [Hc H]. specialize (IH H).
  destruct (Str.trimEnd s) as [|d t].
  - destruct (Char.isWhiteSpace c); [reflexivity|]. simpl. rewrite Hc. reflexivity.
  - cbn [Str.forallb]. rewrite Hc. exact IH.
Qed.

Lemma forallb_trim (p : ascii -> bool) (s : string) :
  Str.forallb p s = true -> Str.forallb p (Str.trim s) = true.
Proof. intros H. apply forallb_trimEnd, forallb_trimStart, H. Qed.

Lemma trimEnd_idempotent (s : string) : Str.trimEnd (Str.trimEnd s) = Str.trimEnd s.
Proof.
  induction s as [|c s IH]; [reflexivity|]. cbn [Str.trimEnd].
  destruct (Str.trimEnd s) as [|d t] eqn:E.
  - destruct (Char.isWhiteSpace c) eqn:Ec; [reflexivity|].
    cbn [Str.trimEnd]. rewrite Ec. reflexivity.
  - cbn [Str.trimEnd] in *. rewrite IH. reflexivity.
Qed.

Lemma trimEnd_head (c : ascii) (s : string) :
  Char.isWhiteSpace c = false ->
  exists t, Str.trimEnd (String c s) = String c t.
Proof.
  intros Hc. cbn [Str.trimEnd]. destruct (Str.trimEnd s) as [|d t].
  - rewrite Hc. eauto.
  - eauto.
Qed.

Lemma trimStart_head (s : string) :
  Str.trimStart s = EmptyString
  \/ exists c t, Str.trimStart s = String c t /\ Char.isWhiteSpace c = false.
Proof.
  induction s as [|c s IH]; [left; reflexivity|]. cbn [Str.trimStart].
  destruct (Char.isWhiteSpace c) eqn:Ec; [exact IH|]. right. eauto.
Qed.

Lemma trim_idempotent (s : string) : Str.trim (Str.trim s) = Str.trim s.
Proof.
  unfold Str.trim. destruct (trimStart_head s) as [E|(c & t & E & Hc)]; rewrite E.
  - reflexivity.
  - destruct (trimEnd_head c t Hc) as (t' & Et). rewrite Et.
    cbn [Str.trimStart]. rewrite Hc, <- Et. apply trimEnd_idempotent.
Qed.

Lemma parseParameters_shape (paramsStr q : string) :
  In q (MapParser.parseParameters paramsStr) -> parameterShape q.
Proof.
  unfold MapParser.parseParameters. destruct paramsStr as [|c0 s0]; [intros []|].
  intros H. apply in_map_iff in H as (piece & <- & Hpiece).
  split; [apply trim_idempotent|]. apply forallb_trim.
  apply split_pieces in Hpiece.
  pose proof (split_nonempty "=" (Str.trim piece)) as Hne.
  destruct (Str.split "=" (Str.trim piece)) as [|h t] eqn:E; [contradiction|].
  cbn [hd].
  assert (Hin : In h (Str.split "=" (Str.trim piece))) by (rewrite E; left; reflexivity).
  pose proof (split_pieces _ _ _ Hin) as Hh. apply (forallb_trim _ piece) in Hpiece.
  assert (Hsub : forall x, In x (Str.split "=" (Str.trim piece)) ->
                   Str.forallb (fun c => negb (Ascii.eqb c ",")) x = true).
  { clear -Hpiece. generalize dependent (Str.trim piece). intros s.
    induction s as [|c s IH]; intros Hs x; cbn [Str.split].
    - intros [<-|[]]. reflexivity.
    - simpl in Hs. apply andb_prop in Hs as [Hc Hs]. specialize (IH Hs).
      destruct (Ascii.eqb c "=").
      + intros [<-|H]; [reflexivity|exact (IH x H)].
      + destruct (Str.split "=" s) as [|h t].
        * intros [<-|[]]. simpl. rewrite Hc. reflexivity.
        * intros [<-|H].
          -- simpl. rewrite Hc. apply IH. left. reflexivity.
          -- apply IH. right. exact H. }
  specialize (Hsub h Hin). clear -Hh Hsub.
  induction h as [|c h IH]; [reflexivity|]. simpl in *.
  apply andb_prop in Hh as [H1 Hh]. apply andb_prop in Hsub as [H2 Hsub].
  unfold Char.isChar. apply negb_true_iff in H1, H2. rewrite H1, H2. simpl.
  exact (IH Hh Hsub).
Qed.

(** X10.  Every function [parseFunctionBoundaries] reports has a name of
    one or more word characters; its parameters are kept without the blanks
    around them and without default value: none holds an equals sign or a
    comma. *)
Theorem function_signatures (p : MapParser.t) (f : FB.t) :
  In f (MapParser.parseFunctionBoundaries p) ->
  nonEmptyOf Char.isWord (FB.name f) = true
  /\ Forall parameterShape (FB.parameters f).
Proof.
  intros Hf. apply boundaries_delimited in Hf as ((l & m & _ & Hm & Hn & Hp) & _).
  split.
  - rewrite Hn. exact (funcStart_captures l m Hm).
  - rewrite Hp. apply List.Forall_forall. intros q. apply parseParameters_shape.
Qed.

Lemma function_signatures_witness :
  let f := {| FB.name := "Fill"; FB.startLine := 0; FB.endLine := 3;
              FB.parameters := ["$mArg"] |} in
  nonEmptyOf Char.isWord (FB.name f) = true
  /\ Forall parameterShape (FB.parameters f).
Proof.
  intros f. apply (function_signatures withCall f). vm_compute. left. reflexivity.
Defined.

(** * Further properties of the service *)

(** X11.  What the service answers for a file is what the parser of the
    text last given for that file answers; updating one file leaves the
    answers for every other file as they were.  The same holds for the
    nested structure. *)
Theorem updateFile_then_query (s : MTS.t) (f src : string) :
  (forall mapName line,
     MTS.getKeysForMap (MTS.updateFile s f src) f mapName line
     = MapParser.getKeysForMapAtLine (MapParser.constructor src) mapName line true)
  /\ (forall mapName,
        MTS.getMapStructure (MTS.updateFile s f src) f mapName
        = MapParser.buildNestedMapStructure (MapParser.constructor src) mapName)
  /\ (forall f' mapName line,
        f' <> f ->
        MTS.getKeysForMap (MTS.updateFile s f src) f' mapName line
        = MTS.getKeysForMap s f' mapName line
        /\ MTS.getMapStructure (MTS.updateFile s f src) f' mapName
           = MTS.getMapStructure s f' mapName).
Proof.
  unfold MTS.getKeysForMap, MTS.getMapStructure, MTS.updateFile, MTS.withFileParsers.
  cbn [MTS.fileParsers]. split; [|split].
  - intros mapName line. rewrite lookup_insert_eq. reflexivity.
  - intros mapName. rewrite lookup_insert_eq. reflexivity.
  - intros f' mapName line Hne. rewrite lookup_insert_ne by congruence. split; reflexivity.
Qed.


(** Every object of a world has an empty set of ongoing parses. *)
Lemma perform_idle (c : MTS.call) (w : MTS.world) :
  (forall i s, MTS.heap w !! i = Some s -> MTS.ongoingParses s = ∅) ->
  forall i s, MTS.heap (MTS.perform c w) !! i = Some s -> MTS.ongoingParses s = ∅.
Proof.
  intros Hw.
  assert (Hinvoke : forall this method,
             (forall s, MTS.ongoingParses s = ∅ -> MTS.ongoingParses (method s) = ∅) ->
             forall i s, MTS.heap (MTS.invoke this method w) !! i = Some s ->
                         MTS.ongoingParses s = ∅).
  { intros this method Hm i s. unfold MTS.invoke. cbn [MTS.heap].
    destruct (decide (i = this)) as [->|Hne].
    - rewrite lookup_alter_eq. destruct (MTS.heap w !! this) as [s0|] eqn:E; [|discriminate].
      cbn. intros H. inversion H; subst s. apply Hm. exact (Hw this s0 E).
    - rewrite lookup_alter_ne by congruence. apply Hw. }
  destruct c as [r ps d|r ps d| |this r ps d|this f src|this f src|this f|this];
    cbn [MTS.perform].
  - unfold MTS.construct. destruct (MTS.instance w); cbn [snd]; [exact Hw|].
    cbn [MTS.heap]. intros i s.
    destruct (decide (i = fresh (dom (MTS.heap w)))) as [->|Hne].
    + rewrite lookup_insert_eq. intros H. inversion H. reflexivity.
    + rewrite lookup_insert_ne by congruence. apply Hw.
  - unfold MTS.getInstance. destruct (MTS.instance w) as [existing|] eqn:Ei.
    + cbn [snd]. match goal with |- context [if ?b then _ else _] => destruct b end;
        cbn [MTS.heap]; exact Hw.
    + unfold MTS.construct. rewrite Ei. cbn [snd MTS.heap]. intros i s.
      destruct (decide (i = fresh (dom (MTS.heap w)))) as [->|Hne].
      * rewrite lookup_insert_eq. intros H. inversion H. reflexivity.
      * rewrite lookup_insert_ne by congruence. apply Hw.
  - exact Hw.
  - apply Hinvoke. intros s Hs. exact Hs.
  - apply Hinvoke. intros s Hs. exact Hs.
  - apply Hinvoke. intros s Hs. unfold MTS.updateFileImmediate, MTS._parseFile.
    destruct (decide (f ∈ MTS.ongoingParses s)); [exact Hs|].
    cbn [MTS.ongoingParses]. rewrite Hs. apply empty_difference_L.
  - apply Hinvoke. intros s Hs. exact Hs.
  - apply Hinvoke. intros s Hs. exact Hs.
Qed.

Lemma run_idle (calls : list MTS.call) (w : MTS.world) :
  (forall i s, MTS.heap w !! i = Some s -> MTS.ongoingParses s = ∅) ->
  forall i s, MTS.heap (run calls w) !! i = Some s -> MTS.ongoingParses s = ∅.
Proof.
  revert w. induction calls as [|c calls IH]; intros w Hw; [exact Hw|].
  cbn [run fold_left]. apply IH. apply perform_idle, Hw.
Qed.

(** X13.  Between calls no parse is ever under way: after any sequence of
    calls, starting without any object, every service has an empty set of
    ongoing parses.  So the test [_parseFile] makes on that set never stops
    it: [updateFileImmediate] always installs the parser of the text it is
    given, and removes the pending source of the file. *)
Theorem parse_is_never_blocked (calls : list MTS.call) (i : nat) (s : MTS.t)
        (f src : string) :
  MTS.heap (run calls initialWorld) !! i = Some s ->
  MTS.ongoingParses s = ∅
  /\ MTS.fileParsers (MTS.updateFileImmediate s f src) !! f
     = Some (MapParser.constructor src)
  /\ MTS.pendingParses (MTS.updateFileImmediate s f src) !! f = None
  /\ MTS.ongoingParses (MTS.updateFileImmediate s f src) = ∅.
Proof.
  intros H.
  assert (Hs : MTS.ongoingParses s = ∅).
  { apply (run_idle calls initialWorld) with (i := i); [|exact H].
    intros j s0. cbn. rewrite lookup_empty. discriminate. }
  split; [exact Hs|].
  unfold MTS.updateFileImmediate, MTS._parseFile.
  destruct (decide (f ∈ MTS.ongoingParses s)) as [Hin|_];
    [rewrite Hs in Hin; apply elem_of_empty in Hin; destruct Hin|].
  cbn [MTS.fileParsers MTS.pendingParses MTS.ongoingParses].
  rewrite lookup_insert_eq, lookup_delete_eq, Hs. repeat split.
  apply empty_difference_L.
Qed.

Lemma parse_is_never_blocked_witness :
  let s := MTS.create "/workspace" [] 3 in
  MTS.ongoingParses s = ∅
  /\ MTS.fileParsers (MTS.updateFileImmediate s "/workspace/a.au3" "Local $m[]")
     !! "/workspace/a.au3"
     = Some (MapParser.constructor "Local $m[]")
  /\ MTS.pendingParses (MTS.updateFileImmediate s "/workspace/a.au3" "Local $m[]")
     !! "/workspace/a.au3" = None
  /\ MTS.ongoingParses (MTS.updateFileImmediate s "/workspace/a.au3" "Local $m[]") = ∅.
Proof.
  intros s.
  apply (parse_is_never_blocked [MTS.New (Some "/workspace") (Some []) (Some 3)]
           (fresh (dom (∅ : gmap nat MTS.t))) s).
  cbn. rewrite lookup_insert_eq. reflexivity.
Defined.

(** * Further properties of the workspace symbols *)

Section MoreBatches.
Variable documentSymbols : string -> option WS.provided.

Lemma slice_extends {A : Type} (l : list A) (i : nat) (b : Z) :
  (i < List.length l)%nat -> 1 <= b ->
  firstn i l ++ WS.slice (Z.of_nat i) (Z.of_nat i + b) l = firstn (i + Z.to_nat b) l.
Proof.
  intros Hi Hb.
  apply (List.app_inv_tail (skipn (i + Z.to_nat b) l)).
  rewrite <- List.app_assoc, slice_batch by assumption.
  rewrite !List.firstn_skipn. reflexivity.
Qed.

(** Whatever the token does, the loop has processed a front part of the
    files when it ends. *)
Lemma batchLoop_prefix (isCancellationRequested : Z -> bool) (files : list string)
      (batchSize : Z) (fuel i : nat) (st st' : WS.progress) :
  1 <= batchSize ->
  WS.opened st = firstn i files ->
  WS.results st = absorb documentSymbols ∅ (firstn i files) ->
  WS.batchLoop documentSymbols isCancellationRequested fuel files batchSize
               (Z.of_nat i) st = Some st' ->
  exists n, WS.opened st' = firstn n files
            /\ WS.results st' = absorb documentSymbols ∅ (firstn n files).
Proof.
  intros Hb. revert i st. induction fuel as [|fuel IH]; intros i st Ho Hr;
    cbn [WS.batchLoop]; [discriminate|].
  destruct (Z.ltb_spec (Z.of_nat i) (Arr.length files)) as [Hlt|Hge].
  - destruct (isCancellationRequested (Z.of_nat i)).
    + intros E. inversion E; subst st'. exists i. split; assumption.
    + unfold Arr.length in Hlt.
      replace (Z.of_nat i + batchSize) with (Z.of_nat (i + Z.to_nat batchSize)) by lia.
      apply IH.
      * unfold WS.addBatch. cbn [WS.opened]. rewrite Ho.
        replace (Z.of_nat (i + Z.to_nat batchSize)) with (Z.of_nat i + batchSize) by lia.
        apply slice_extends; lia.
      * unfold WS.addBatch. cbn [WS.results]. rewrite Hr.
        fold (absorb documentSymbols (absorb documentSymbols ∅ (firstn i files))
                     (WS.slice (Z.of_nat i) (Z.of_nat (i + Z.to_nat batchSize)) files)).
        rewrite <- absorb_app.
        replace (Z.of_nat (i + Z.to_nat batchSize)) with (Z.of_nat i + batchSize) by lia.
        rewrite slice_extends by lia. reflexivity.
  - intros E. inversion E; subst st'. exists i. split; assumption.
Qed.

(** X14.  With a batch size of at least one and a token that is never
    cancelled, [processBatch] does not depend on the batch size: it opens
    every file once, in order, and its map is the one obtained by
    processing the files one after the other. *)
Theorem processBatch_any_batch_size (files : list string) (b1 b2 : Z) :
  1 <= b1 -> 1 <= b2 ->
  WS.processBatch documentSymbols neverCancelled files b1
  = WS.processBatch documentSymbols neverCancelled files b2
  /\ WS.processBatch documentSymbols neverCancelled files b1
     = Some {| WS.results := absorb documentSymbols ∅ files; WS.opened := files |}.
Proof.
  intros H1 H2.
  assert (H : forall b, 1 <= b ->
            WS.processBatch documentSymbols neverCancelled files b
            = Some {| WS.results := absorb documentSymbols ∅ files; WS.opened := files |}).
  { intros b Hb. unfold WS.processBatch.
    rewrite (batchLoop_completes documentSymbols files b (S (List.length files)) 0)
      by (simpl; lia).
    reflexivity. }
  rewrite (H b1 H1), (H b2 H2). split; reflexivity.
Qed.

(** X15.  With a batch size of zero or less, at least one file and a
    token that is never cancelled, the loop of [processBatch] never ends:
    the index does not advance, and whatever the number of rounds, the loop
    is still running after them. *)
Theorem nonpositive_batch_never_ends (files : list string) (batchSize : Z)
        (fuel : nat) :
  batchSize <= 0 -> files <> [] ->
  WS.batchLoop documentSymbols neverCancelled fuel files batchSize 0
               {| WS.results := ∅; WS.opened := [] |} = None.
Proof.
  intros Hb Hne.
  assert (Hlen : 0 < Arr.length files).
  { unfold Arr.length. destruct files; [contradiction|]. simpl List.length. lia. }
  assert (H : forall i st, i <= 0 ->
            WS.batchLoop documentSymbols neverCancelled fuel files batchSize i st = None).
  { induction fuel as [|n IH]; intros i st Hi; cbn [WS.batchLoop]; [reflexivity|].
    replace (i <? Arr.length files) with true by (symmetry; apply Z.ltb_lt; lia).
    unfold neverCancelled. apply IH. lia. }
  apply H. lia.
Qed.

(** X16.  Whatever the token does, when [processBatch] ends with a batch
    size of at least one, the files it has opened are a front part of the
    files, in order, and its map is the one obtained by processing that
    front part: a cancellation never leaves a file half processed or a gap
    among the files. *)
Theorem processBatch_front_part (isCancellationRequested : Z -> bool)
        (files : list string) (batchSize : Z) (st : WS.progress) :
  1 <= batchSize ->
  WS.processBatch documentSymbols isCancellationRequested files batchSize = Some st ->
  exists n, WS.opened st = firstn n files
            /\ WS.results st = absorb documentSymbols ∅ (firstn n files)
            /\ (isCancellationRequested 0 = true -> files <> [] -> n = 0%nat).
Proof.
  intros Hb H. unfold WS.processBatch in H.
  destruct (isCancellationRequested 0) eqn:Ec.
  - exists 0%nat. cbn [WS.batchLoop] in H.
    destruct (Z.ltb_spec 0 (Arr.length files)) as [Hlt|Hge].
    + rewrite Ec in H. inversion H; subst st. cbn. repeat split.
    + inversion H; subst st. cbn. repeat split.
  - destruct (batchLoop_prefix isCancellationRequested files batchSize
                (S (List.length files)) 0 {| WS.results := ∅; WS.opened := [] |} st Hb)
      as (n & Ho & Hr); [reflexivity|reflexivity|exact H|].
    exists n. split; [exact Ho|]. split; [exact Hr|]. discriminate.
Qed.

End MoreBatches.

Lemma processBatch_any_batch_size_witness :
  WS.processBatch secondUnreadable neverCancelled threeScripts 1
  = WS.processBatch secondUnreadable neverCancelled threeScripts 10
  /\ WS.processBatch secondUnreadable neverCancelled threeScripts 1
     = Some {| WS.results := absorb secondUnreadable ∅ threeScripts;
               WS.opened := threeScripts |}.
Proof. apply (processBatch_any_batch_size secondUnreadable threeScripts 1 10); lia. Defined.

Lemma nonpositive_batch_never_ends_witness :
  WS.batchLoop secondUnreadable neverCancelled 1000 threeScripts 0 0
               {| WS.results := ∅; WS.opened := [] |} = None.
Proof.
  apply (nonpositive_batch_never_ends secondUnreadable threeScripts 0 1000);
    [lia|discriminate].
Defined.

(** Cancelled after the first batch of two files. *)
Lemma processBatch_front_part_witness :
  let st := {| WS.results := absorb secondUnreadable ∅ (firstn 2 threeScripts);
               WS.opened := firstn 2 threeScripts |} in
  exists n, WS.opened st = firstn n threeScripts
            /\ WS.results st = absorb secondUnreadable ∅ (firstn n threeScripts)
            /\ (cancelledFrom 2 0 = true -> threeScripts <> [] -> n = 0%nat).
Proof.
  intros st.
  apply (processBatch_front_part secondUnreadable (cancelledFrom 2) threeScripts 2 st);
    [lia|]. vm_compute. reflexivity.
Defined.

(** ** Flattening document symbols *)




(** * The nested structure of ordinary keys *)

(** X18.  When no key assigned to the Map is the name of a property of
    [Object.prototype], [buildNestedMapStructure] returns a tree and does
    not throw; below every node no key occurs twice; every node lies on the
    chain of keys of some assignment; and the node at a path is the one made
    for the first assignment whose chain runs along the path: it carries the
    line and the notation of that assignment, and is marked as a leaf exactly
    when the path is the whole chain of that assignment. *)
Theorem nested_structure_of_ordinary_keys (p : MapParser.t) (mapName : string)
        (assignments : list KA.t) :
  MapParser.parseKeyAssignments p mapName = Some assignments ->
  forallb ordinary assignments = true ->
  exists root,
    MapParser.buildNestedMapStructure p mapName = Some (Normal root)
    /\ wellFormed root
    /\ justified assignments root
    /\ (forall l1 a l2 path,
          assignments = l1 ++ a :: l2 ->
          isPrefix path (chainOf a) -> path <> [] ->
          (forall b, In b l1 -> ~ isPrefix path (chainOf b)) ->
          exists n, lookupPath root path = Some n
                    /\ NK.line n = KA.line a /\ NK.notation n = KA.notation a
                    /\ NK.isLeaf n
                       = (List.length path =? List.length (chainOf a))%nat).
Proof.
  intros Ha Hord. unfold MapParser.buildNestedMapStructure. rewrite Ha.
  cbn [mbind option_bind].
  destruct (tree_of_ordinary_assignments assignments Hord) as (root & E & Hwf & Hj & Hfirst).
  exists root. rewrite E. split; [reflexivity|]. split; [exact Hwf|]. split; [exact Hj|].
  exact Hfirst.
Qed.

Lemma nested_structure_of_ordinary_keys_witness :
  exists root,
    MapParser.buildNestedMapStructure fourNotations "$mData" = Some (Normal root)
    /\ wellFormed root.
Proof.
  destruct (nested_structure_of_ordinary_keys fourNotations "$mData"
              [ {| KA.key := "a"; KA.line := 0; KA.notation := bracket;
                   KA.nested := ["a"; "b"]; KA.isDynamic := false |};
                {| KA.key := "$sKey"; KA.line := 1; KA.notation := bracket;
                   KA.nested := []; KA.isDynamic := true |};
                {| KA.key := "name"; KA.line := 2; KA.notation := dot;
                   KA.nested := []; KA.isDynamic := false |};
                {| KA.key := "id"; KA.line := 3; KA.notation := bracket;
                   KA.nested := []; KA.isDynamic := false |} ])
    as (root & E & Hwf & _).
  - vm_compute. reflexivity.
  - vm_compute. reflexivity.
  - exists root. split; assumption.
Defined.

(** * Merging the structures of included files *)

Lemma insertByIndex_perm {A : Type} (n : N) (e : A) (l : list (N * A)) :
  Permutation (Enumeration.insertByIndex n e l) ((n, e) :: l).
Proof.
  induction l as [|[m x] l IH]; cbn [Enumeration.insertByIndex]; [reflexivity|].
  destruct (n <? m)%N; [reflexivity|].
  rewrite IH. apply perm_swap.
Qed.

Lemma sortByIndex_perm {A : Type} (l : list (N * A)) :
  Permutation (Enumeration.sortByIndex l) l.
Proof.
  unfold Enumeration.sortByIndex.
  assert (H : forall acc, Permutation
                (fold_left (fun sorted e =>
                              Enumeration.insertByIndex (fst e) (snd e) sorted) l acc)
                (acc ++ l)).
  { induction l as [|[n e] l IH]; intros acc; cbn [fold_left].
    - rewrite List.app_nil_r. reflexivity.
    - rewrite IH. cbn [fst snd]. rewrite insertByIndex_perm.
      cbn [List.app]. apply Permutation_middle. }
  exact (H []).
Qed.

(** The enumeration of an object lists each of its properties once. *)
Lemma enumerate_perm {A : Type} (o : list (string * A)) :
  Permutation (Enumeration.enumerate o) o.
Proof.
  unfold Enumeration.enumerate. rewrite sortByIndex_perm.
  induction o as [|e o IH]; cbn [flat_map List.filter List.map]; [reflexivity|].
  destruct (Enumeration.arrayIndex (fst e)).
  - cbn [List.app List.map snd]. apply perm_skip. exact IH.
  - cbn [List.app]. rewrite <- Permutation_middle. apply perm_skip. exact IH.
Qed.

Lemma NestedKeyNode_induction (P : NK.t -> Prop) :
  (forall key line notation children isLeaf isDynamic,
     Forall (fun e => P (snd e)) children ->
     P (Node key line notation children isLeaf isDynamic)) ->
  forall n, P n.
Proof.
  intros H. fix IH 1. intros [key line notation children isLeaf isDynamic]. apply H.
  induction children as [|[k c] cs IHcs]; constructor; [apply IH|exact IHcs].
Qed.

Lemma lookupPath_cons (o : NK.object) (k : string) (rest : list string) :
  lookupPath o (k :: rest)
  = match Obj.own o k with
    | Some n => below n rest
    | None => None
    end.
Proof. cbn [lookupPath]. destruct (Obj.own o k); [|reflexivity]. destruct rest; reflexivity. Qed.

Lemma fold_mergeKey_Throw
      (l : list (string * (NK.t * (NK.object -> completion NK.object)))) (e : exn) :
  fold_left MapStructure.mergeKey l (Throw e) = Throw e.
Proof. induction l as [|x l IH]; [reflexivity|exact IH]. Qed.








Lemma mergeKey_retains (o o' : NK.object) (k : string) (sn : NK.t)
      (rec : NK.object -> completion NK.object) :
  (forall t r, rec t = Normal r -> retains t r) ->
  MapStructure.mergeKey (Normal o) (k, (sn, rec)) = Normal o' ->
  retains o o'.
Proof.
  intros Hrec. cbn [MapStructure.mergeKey].
  pose proof (get_cases o k) as Hget. destruct (Obj.get o k) as [t| |].
  - destruct (rec (NK.children t)) as [c|e] eqn:Ec; [|discriminate].
    intros E. inversion E; subst o'; clear E. pose proof (Hrec _ _ Ec) as Hret.
    intros path n. destruct path as [|k0 rest]; [discriminate|].
    rewrite !lookupPath_cons, own_update, Hget.
    destruct (String.eqb_spec k k0) as [<-|Hne].
    + rewrite Hget. destruct rest as [|k1 rest]; cbn [below].
      * intros E. inversion E; subst n. eexists. split; [reflexivity|].
        apply sameFields_withChildren.
      * rewrite children_withChildren. apply Hret.
    + intros H. exists n. split; [exact H|apply sameFields_refl].
  - destruct (NK.children sn) as [|c cs]; [|discriminate].
    intros E. inversion E. apply retains_refl.
  - destruct Hget as [Hnone _]. intros E. inversion E; subst o'; clear E.
    intros path n. destruct path as [|k0 rest]; [discriminate|].
    rewrite !lookupPath_cons, own_define. destruct (Obj.own o k0) as [m|]; [|discriminate].
    intros H. exists n. split; [exact H|apply sameFields_refl].
Qed.

Lemma fold_mergeKey_retains
      (l : list (string * (NK.t * (NK.object -> completion NK.object))))
      (o r : NK.object) :
  (forall k sn rec, In (k, (sn, rec)) l -> forall t r, rec t = Normal r -> retains t r) ->
  fold_left MapStructure.mergeKey l (Normal o) = Normal r ->
  retains o r.
Proof.
  revert o. induction l as [|[k [sn rec]] l IH]; intros o Hrec; cbn [fold_left].
  - intros E. inversion E. apply retains_refl.
  - destruct (MapStructure.mergeKey (Normal o) (k, (sn, rec))) as [o1|e] eqn:E1;
      [|rewrite fold_mergeKey_Throw; discriminate].
    intros E.
    apply (retains_trans _ o1).
    + exact (mergeKey_retains o o1 k sn rec (Hrec k sn rec (or_introl eq_refl)) E1).
    + apply IH; [|exact E]. intros k' sn' rec' H. apply (Hrec k' sn' rec'). right. exact H.
Qed.

Lemma mergeNode_retains (sn : NK.t) (t r : NK.object) :
  MapStructure.mergeNode sn t = Normal r -> retains t r.
Proof.
  revert t r.
  induction sn as [key line notation children isLeaf isDynamic IH]
    using NestedKeyNode_induction.
  intros t r E. cbn [MapStructure.mergeNode] in E.
  apply (fold_mergeKey_retains _ _ _) in E; [exact E|].
  intros k sn rec Hin. apply (Permutation_in _ (enumerate_perm _)) in Hin.
  apply in_map_iff in Hin as ([k0 n0] & Eq & Hin). cbn in Eq. inversion Eq; subst.
  rewrite List.Forall_forall in IH. exact (IH (k, sn) Hin).
Qed.

Lemma mergeMapStructures_retains (target source r : NK.object) :
  MapStructure._mergeMapStructures target source = Normal r -> retains target r.
Proof.
  unfold MapStructure._mergeMapStructures. intros E.
  apply (fold_mergeKey_retains _ _ _) in E; [exact E|].
  intros k sn rec Hin. apply (Permutation_in _ (enumerate_perm _)) in Hin.
  apply in_map_iff in Hin as ([k0 n0] & Eq & Hin). cbn in Eq. inversion Eq; subst.
  intros t r0. apply mergeNode_retains.
Qed.

Section StructureWithIncludes.
Variable includesOf : string -> list string.
Variable readFile : string -> readResult.

Lemma ensureParsed_configuration (this this' : MTS.t) (f : string) :
  MapStructure.ensureParsed readFile this f = inl this' ->
  MTS.configuration this' = MTS.configuration this.
Proof.
  unfold MapStructure.ensureParsed.
  destruct (MTS.fileParsers this !! f); [intros E; inversion E; reflexivity|].
  destruct (readFile f) as [source|message]; [|discriminate].
  intros E. inversion E. apply method_keeps_configuration.
Qed.

Lemma mergeIncluded_keeps (mapName : string) (this : MTS.t) (cur : NK.object)
      (files : list string) (st st' : MapStructure.merge) (r : NK.object) :
  (forall c, MapStructure.currentStructure st = Normal c -> retains cur c) ->
  MTS.configuration (MapStructure.service st) = MTS.configuration this ->
  fold_left (MapStructure.mergeIncluded readFile mapName) files (Some st) = Some st' ->
  MapStructure.currentStructure st' = Normal r ->
  retains cur r
  /\ MTS.configuration (MapStructure.service st') = MTS.configuration this.
Proof.
  revert st. induction files as [|f files IH]; intros st Hret Hcfg; cbn [fold_left].
  - intros E Hr. inversion E; subst st'. split; [exact (Hret r Hr)|exact Hcfg].
  - destruct (MapStructure.mergeIncluded readFile mapName (Some st) f) as [st1|] eqn:E1.
    + apply IH.
      * unfold MapStructure.mergeIncluded in E1. cbn [mbind option_bind] in E1.
        destruct (MapStructure.currentStructure st) as [current|e] eqn:Ec.
        -- destruct (MapStructure.ensureParsed readFile (MapStructure.service st) f)
             as [this1|w].
           ++ destruct (MTS.getMapStructure this1 f mapName) as [[included|e]|];
                cbn [mbind option_bind] in E1; inversion E1; subst st1;
                cbn [MapStructure.currentStructure]; [|discriminate].
              intros c Hc. apply (retains_trans _ current); [apply Hret; reflexivity|].
              exact (mergeMapStructures_retains _ _ _ Hc).
           ++ inversion E1; subst st1. cbn [MapStructure.currentStructure].
              intros c Hc. inversion Hc; subst c. apply Hret. reflexivity.
        -- inversion E1; subst st1. rewrite Ec. discriminate.
      * unfold MapStructure.mergeIncluded in E1. cbn [mbind option_bind] in E1.
        destruct (MapStructure.currentStructure st) as [current|e];
          [|inversion E1; subst st1; exact Hcfg].
        destruct (MapStructure.ensureParsed readFile (MapStructure.service st) f)
          as [this1|w] eqn:Ep.
        -- destruct (MTS.getMapStructure this1 f mapName) as [included|];
             cbn [mbind option_bind] in E1; inversion E1; subst st1;
             cbn [MapStructure.service].
           rewrite (ensureParsed_configuration _ _ _ Ep). exact Hcfg.
        -- inversion E1; subst st1. exact Hcfg.
    + assert (Hnone : forall l, fold_left (MapStructure.mergeIncluded readFile mapName) l None
                                = None)
        by (induction l as [|x l IHl]; [reflexivity|exact IHl]).
      rewrite Hnone. discriminate.
Qed.

(** X20.  The structure [getMapStructureWithIncludes] resolves to keeps
    every node of the structure of the file itself, at its path and with
    its line, notation and flags: what the included files hold is added
    around these nodes and never replaces them.  The call leaves the
    configuration of the service as it is. *)
Theorem structure_with_includes_keeps_own (this : MTS.t) (filePath mapName : string)
        (cur r : NK.object) (st : MapStructure.merge) :
  MTS.getMapStructure this filePath mapName = Some (Normal cur) ->
  MapStructure.getMapStructureWithIncludes includesOf readFile this filePath mapName
  = Some st ->
  MapStructure.currentStructure st = Normal r ->
  retains cur r
  /\ MTS.configuration (MapStructure.service st) = MTS.configuration this.
Proof.
  intros Hcur E Hr. unfold MapStructure.getMapStructureWithIncludes in E.
  rewrite Hcur in E. cbn [mbind option_bind] in E.
  apply (mergeIncluded_keeps mapName this cur _ _ st r) in E; try assumption.
  - cbn. intros c Hc. inversion Hc. apply retains_refl.
  - reflexivity.
Qed.

End StructureWithIncludes.

Lemma structure_with_includes_keeps_own_witness :
  let r := [("name", Node "name" 3 dot [] true false);
            ("id", Node "id" 1 dot [] true false)] in
  retains ownTree r
  /\ MTS.configuration (MapStructure.service mainMerged) = MTS.configuration mainTracked.
Proof.
  intros r.
  apply (structure_with_includes_keeps_own mainIncludes diskWithLib mainTracked
           "/workspace/main.au3" "$mUser" ownTree r mainMerged);
    vm_compute; reflexivity.
Defined.


(** ** Structures built by the parser merge without exception *)

Lemma ordinaryTree_nil : ordinaryTree [].
Proof. constructor. intros ? ? []. Qed.

Lemma ordinaryTree_inv (o : NK.object) (k : string) (n : NK.t) :
  ordinaryTree o -> In (k, n) o -> ordinaryKey k = true /\ ordinaryTree (NK.children n).
Proof. intros H. inversion H as [o0 Hall]; subst. apply Hall. Qed.

Lemma ordinaryTree_define (o : NK.object) (k : string) (n : NK.t) :
  ordinaryTree o -> ordinaryKey k = true -> ordinaryTree (NK.children n) ->
  ordinaryTree (Obj.define o k n).
Proof.
  intros Ho Hk Hn. constructor. unfold Obj.define. intros k' n' Hin.
  apply in_app_or in Hin as [Hin|[E|[]]]; [exact (ordinaryTree_inv _ _ _ Ho Hin)|].
  inversion E; subst. split; assumption.
Qed.

Lemma ordinaryTree_update (o : NK.object) (k : string) (t : NK.t) (c : NK.object) :
  ordinaryTree o -> Obj.own o k = Some t -> ordinaryTree c ->
  ordinaryTree (Obj.update o k (NK.withChildren t c)).
Proof.
  intros Ho Hown Hc. constructor. intros k' n' Hin.
  apply update_In in Hin as [Hin|[-> ->]]; [exact (ordinaryTree_inv _ _ _ Ho Hin)|].
  rewrite children_withChildren. split; [|exact Hc].
  apply own_In in Hown. exact (proj1 (ordinaryTree_inv _ _ _ Ho Hown)).
Qed.

Lemma addChain_ordinaryTree (a : KA.t) (keys : list string) (i : Z) (o o' : NK.object) :
  ordinaryTree o -> MapParser.addChain a keys i o = Normal o' -> ordinaryTree o'.
Proof.
  revert i o o'. induction keys as [|k keys IH]; intros i o o' Ho; cbn [MapParser.addChain].
  - intros E. inversion E; subst. exact Ho.
  - pose proof (get_cases o k) as Hget. destruct (Obj.get o k) as [m| |].
    + destruct (MapParser.addChain a keys (i + 1) (NK.children m)) as [sub|e] eqn:Esub;
        [|discriminate].
      intros E. inversion E; subst o'. apply ordinaryTree_update; [exact Ho|exact Hget|].
      apply (IH _ _ _ (proj2 (ordinaryTree_inv _ _ _ Ho (own_In _ _ _ Hget))) Esub).
    + destruct keys; [|discriminate]. intros E. inversion E; subst. exact Ho.
    + destruct Hget as [_ Hk].
      destruct (MapParser.addChain a keys (i + 1) []) as [sub|e] eqn:Esub; [|discriminate].
      intros E. inversion E; subst o'. apply ordinaryTree_define; [exact Ho|exact Hk|].
      cbn [NK.children NK.withChildren]. exact (IH _ _ _ ordinaryTree_nil Esub).
Qed.

Lemma addAssignment_ordinaryTree (a : KA.t) (o o' : NK.object) :
  ordinaryTree o -> MapParser.addAssignment (Normal o) a = Normal o' -> ordinaryTree o'.
Proof.
  intros Ho. unfold MapParser.addAssignment.
  destruct (0 <? Arr.length (KA.nested a)); [apply addChain_ordinaryTree, Ho|].
  pose proof (get_cases o (KA.key a)) as Hget.
  destruct (Obj.get o (KA.key a)); intros E; inversion E; subst; try exact Ho.
  apply ordinaryTree_define; [exact Ho|exact (proj2 Hget)|apply ordinaryTree_nil].
Qed.

Lemma buildNestedMapStructure_ordinaryTree (p : MapParser.t) (mapName : string)
      (root : NK.object) :
  MapParser.buildNestedMapStructure p mapName = Some (Normal root) -> ordinaryTree root.
Proof.
  unfold MapParser.buildNestedMapStructure.
  destruct (MapParser.parseKeyAssignments p mapName) as [assignments|]; [|discriminate].
  cbn [mbind option_bind]. intros E. inversion E as [E']; clear E.
  assert (H : forall o, ordinaryTree o ->
            fold_left MapParser.addAssignment assignments (Normal o) = Normal root ->
            ordinaryTree root).
  { clear E'. induction assignments as [|a l IH]; intros o Ho; cbn [fold_left].
    - intros E. inversion E; subst. exact Ho.
    - destruct (MapParser.addAssignment (Normal o) a) as [o1|e] eqn:E1;
        [|rewrite fold_addAssignment_Throw; discriminate].
      apply IH. exact (addAssignment_ordinaryTree a o o1 Ho E1). }
  exact (H [] ordinaryTree_nil E').
Qed.

Lemma fold_mergeKey_returns
      (l : list (string * (NK.t * (NK.object -> completion NK.object))))
      (o : NK.object) :
  (forall k sn rec, In (k, (sn, rec)) l ->
     ordinaryKey k = true /\ forall t, exists r, rec t = Normal r) ->
  exists r, fold_left MapStructure.mergeKey l (Normal o) = Normal r.
Proof.
  revert o. induction l as [|[k [sn rec]] l IH]; intros o Hl; cbn [fold_left].
  - exists o. reflexivity.
  - destruct (Hl k sn rec (or_introl eq_refl)) as [Hk Hrec].
    assert (Hstep : exists o1, MapStructure.mergeKey (Normal o) (k, (sn, rec)) = Normal o1).
    { cbn [MapStructure.mergeKey]. pose proof (get_cases o k) as Hget.
      destruct (Obj.get o k) as [t| |].
      - destruct (Hrec (NK.children t)) as [c ->]. eauto.
      - destruct Hget as [_ Hno]. congruence.
      - eauto. }
    destruct Hstep as [o1 ->]. apply IH.
    intros k' sn' rec' H. apply (Hl k' sn' rec'). right. exact H.
Qed.

Lemma mergeNode_returns (sn : NK.t) :
  ordinaryTree (NK.children sn) -> forall t, exists r, MapStructure.mergeNode sn t = Normal r.
Proof.
  induction sn as [key line notation children isLeaf isDynamic IH]
    using NestedKeyNode_induction.
  cbn [NK.children]. intros Ho t. cbn [MapStructure.mergeNode].
  apply fold_mergeKey_returns. intros k sn rec Hin.
  apply (Permutation_in _ (enumerate_perm _)) in Hin.
  apply in_map_iff in Hin as ([k0 n0] & Eq & Hin). cbn in Eq. inversion Eq; subst.
  destruct (ordinaryTree_inv _ _ _ Ho Hin) as [Hk Hsub]. split; [exact Hk|].
  rewrite List.Forall_forall in IH. exact (IH (k, sn) Hin Hsub).
Qed.

(** X21.  A structure built by [buildNestedMapStructure] holds ordinary
    keys only (a key that names a property of [Object.prototype] is never
    stored), so merging it into any structure does not throw, and the
    result keeps every node of the target. *)
Theorem built_structures_merge (p : MapParser.t) (mapName : string)
        (source target : NK.object) :
  MapParser.buildNestedMapStructure p mapName = Some (Normal source) ->
  ordinaryTree source
  /\ exists r, MapStructure._mergeMapStructures target source = Normal r
               /\ retains target r.
Proof.
  intros E. pose proof (buildNestedMapStructure_ordinaryTree p mapName source E) as Ho.
  split; [exact Ho|].
  destruct (fold_mergeKey_returns
              (Enumeration.enumerate
                 (List.map (fun e => (fst e, (snd e, MapStructure.mergeNode (snd e)))) source))
              target) as [r Hr].
  - intros k sn rec Hin. apply (Permutation_in _ (enumerate_perm _)) in Hin.
    apply in_map_iff in Hin as ([k0 n0] & Eq & Hin). cbn in Eq. inversion Eq; subst.
    destruct (ordinaryTree_inv _ _ _ Ho Hin) as [Hk Hsub]. split; [exact Hk|].
    apply mergeNode_returns, Hsub.
  - exists r. split; [exact Hr|]. exact (mergeMapStructures_retains target source r Hr).
Qed.

Lemma built_structures_merge_witness :
  ordinaryTree [("name", Node "name" 0 dot [] true false)]
  /\ exists r, MapStructure._mergeMapStructures ownTree
                 [("name", Node "name" 0 dot [] true false)] = Normal r
               /\ retains ownTree r.
Proof.
  apply (built_structures_merge (MapParser.constructor "$mUser.name = 1") "$mUser").
  vm_compute. reflexivity.
Defined.
(** * Debounced updates *)

Lemma parseFile_idle (this : MTS.t) (f s : string) :
  MTS.ongoingParses this = ∅ ->
  MTS.fileParsers (MTS._parseFile this f s)
  = <[f := MapParser.constructor s]> (MTS.fileParsers this)
  /\ MTS.pendingParses (MTS._parseFile this f s) = delete f (MTS.pendingParses this)
  /\ MTS.ongoingParses (MTS._parseFile this f s) = ∅
  /\ MTS.parseDebounceMs (MTS._parseFile this f s) = MTS.parseDebounceMs this
  /\ MTS.debouncedParseByFile (MTS._parseFile this f s) = MTS.debouncedParseByFile this.
Proof.
  intros H. unfold MTS._parseFile.
  destruct (decide (f ∈ MTS.ongoingParses this)) as [Hin|_].
  - rewrite H in Hin. exfalso. exact (proj1 (elem_of_empty f) Hin).
  - cbn. rewrite H. repeat split. apply empty_difference_L.
Qed.

Lemma fire_idle (id : nat) (w : Debounce.world) :
  Debounce.timers w !! id = None -> Debounce.fire id w = w.
Proof. intros H. unfold Debounce.fire. rewrite H. reflexivity. Qed.

(** What running a pending timer does in an orderly world. *)
Lemma fire_pending (id : nat) (w : Debounce.world) (due : Z) (cb : Debounce.later) :
  orderly w ->
  Debounce.timers w !! id = Some (due, cb) ->
  Debounce.timers (Debounce.fire id w) = delete id (Debounce.timers w)
  /\ Debounce.debouncedOf (Debounce.fire id w) = Debounce.debouncedOf w
  /\ Debounce.now (Debounce.fire id w) = Debounce.now w
  /\ Debounce.nextTimer (Debounce.fire id w) = Debounce.nextTimer w
  /\ Debounce.service (Debounce.fire id w)
     = MTS._parseFile (Debounce.service w) (Debounce.owner cb) (Debounce.src cb).
Proof.
  intros (_ & _ & _ & _ & _ & H6 & _) Ht.
  destruct (H6 id due cb Ht) as (Hp & (d & Hd & Hto) & _).
  unfold Debounce.fire. rewrite Ht. unfold Debounce.runLater, Debounce.cancel.
  cbn [Debounce.withTimers Debounce.debouncedOf]. rewrite Hd.
  unfold Debounce.clearTimeout. rewrite Hto.
  cbn [Debounce.withTimers Debounce.withService Debounce.timers Debounce.debouncedOf
       Debounce.now Debounce.nextTimer Debounce.service].
  rewrite Hp. repeat split. apply delete_delete_eq.
Qed.

Lemma orderly_wired (w : Debounce.world) : orderly w -> wired w.
Proof.
  intros (_ & _ & _ & _ & H5 & H6 & _). split; [exact H5|].
  intros id due cb Ht. exact (proj1 (proj2 (H6 id due cb Ht))).
Qed.

(** Clearing the handle a debounced function holds removes the timers of
    its file, and no other. *)
Lemma clear_own (w : Debounce.world) (f : string) (d : Debounce.debounced) :
  wired w ->
  Debounce.debouncedOf w !! f = Some d ->
  forall id due cb,
    Debounce.timers (Debounce.clearTimeout (Debounce.timeout d) w) !! id = Some (due, cb)
    <-> Debounce.timers w !! id = Some (due, cb) /\ Debounce.owner cb <> f.
Proof.
  intros [H5 H6] Hd id due cb. unfold Debounce.clearTimeout.
  destruct (Debounce.timeout d) as [i|] eqn:Hto; cbn [Debounce.withTimers Debounce.timers].
  - rewrite lookup_delete_Some. split.
    + intros [Hne Ht]. split; [exact Ht|]. intros Ho.
      destruct (H6 id due cb Ht) as (d' & Hd' & Hto'). rewrite Ho, Hd in Hd'.
      inversion Hd'; subst d'. congruence.
    + intros [Ht Ho]. split; [|exact Ht]. intros ->.
      destruct (H6 id due cb Ht) as (d' & Hd' & Hto').
      apply Ho. symmetry. exact (H5 f _ d d' id Hd Hd' Hto Hto').
  - split.
    + intros Ht. split; [exact Ht|]. intros Ho.
      destruct (H6 id due cb Ht) as (d' & Hd' & Hto'). rewrite Ho, Hd in Hd'.
      inversion Hd'; subst d'. congruence.
    + intros [Ht _]. exact Ht.
Qed.

Lemma cancel_timers (w : Debounce.world) (f : string) :
  wired w ->
  (forall id due cb,
     Debounce.timers (Debounce.cancel f w) !! id = Some (due, cb)
     <-> Debounce.timers w !! id = Some (due, cb) /\ Debounce.owner cb <> f)
  /\ Debounce.debouncedOf (Debounce.cancel f w) = Debounce.debouncedOf w
  /\ Debounce.now (Debounce.cancel f w) = Debounce.now w
  /\ Debounce.nextTimer (Debounce.cancel f w) = Debounce.nextTimer w
  /\ Debounce.service (Debounce.cancel f w) = Debounce.service w.
Proof.
  intros Hw. unfold Debounce.cancel.
  destruct (Debounce.debouncedOf w !! f) as [d|] eqn:Hd.
  - split; [exact (clear_own w f d Hw Hd)|].
    unfold Debounce.clearTimeout. destruct (Debounce.timeout d); repeat split.
  - split; [|repeat split]. intros id due cb. split.
    + intros Ht. split; [exact Ht|]. intros Ho.
      destruct (proj2 Hw id due cb Ht) as (d' & Hd' & _). congruence.
    + intros [Ht _]. exact Ht.
Qed.

(** A call of the debounced function of [f]. *)
Lemma callDebounced_spec (w : Debounce.world) (f p s : string) (d : Debounce.debounced) :
  wired w ->
  Debounce.debouncedOf w !! f = Some d ->
  (forall id due cb, Debounce.timers w !! id = Some (due, cb) ->
                     id <> Debounce.nextTimer w) ->
  (forall id due cb,
     Debounce.timers (Debounce.callDebounced f p s w) !! id = Some (due, cb)
     <-> (id = Debounce.nextTimer w /\ due = Debounce.now w + Debounce.wait d
          /\ cb = {| Debounce.owner := f; Debounce.path := p; Debounce.src := s |})
         \/ (Debounce.timers w !! id = Some (due, cb) /\ Debounce.owner cb <> f))
  /\ Debounce.debouncedOf (Debounce.callDebounced f p s w)
     = <[f := {| Debounce.timeout := Some (Debounce.nextTimer w);
                 Debounce.wait := Debounce.wait d |}]> (Debounce.debouncedOf w)
  /\ Debounce.now (Debounce.callDebounced f p s w) = Debounce.now w
  /\ Debounce.nextTimer (Debounce.callDebounced f p s w) = S (Debounce.nextTimer w)
  /\ Debounce.service (Debounce.callDebounced f p s w) = Debounce.service w.
Proof.
  intros Hw Hd Hfresh. pose proof (clear_own w f d Hw Hd) as Hc.
  unfold Debounce.callDebounced. rewrite Hd.
  assert (Hrest : Debounce.debouncedOf (Debounce.clearTimeout (Debounce.timeout d) w)
                  = Debounce.debouncedOf w
                  /\ Debounce.now (Debounce.clearTimeout (Debounce.timeout d) w)
                     = Debounce.now w
                  /\ Debounce.nextTimer (Debounce.clearTimeout (Debounce.timeout d) w)
                     = Debounce.nextTimer w
                  /\ Debounce.service (Debounce.clearTimeout (Debounce.timeout d) w)
                     = Debounce.service w).
  { unfold Debounce.clearTimeout. destruct (Debounce.timeout d); repeat split. }
  destruct Hrest as (E1 & E2 & E3 & E4).
  set (w1 := Debounce.clearTimeout (Debounce.timeout d) w) in *.
  unfold Debounce.setTimeout.
  cbn [Debounce.timers Debounce.debouncedOf Debounce.now Debounce.nextTimer
       Debounce.service].
  rewrite E1, E2, E3, E4. split; [|repeat split].
  intros id due cb. rewrite lookup_insert_Some, Hc. split.
  - intros [(Hid & Heq)|(Hne & Ht)].
    + left. inversion Heq. subst. auto.
    + right. exact Ht.
  - intros [(Hid & Hdue & Hcb)|[Ht Hne]].
    + left. subst. auto.
    + right. split; [|split; assumption].
      intros Heq. exact (Hfresh id due cb Ht (eq_sym Heq)).
Qed.

(** [updateFileDebounced] in an orderly world. *)
Lemma updateFileDebounced_spec (w : Debounce.world) (f s : string) :
  orderly w ->
  (forall id due cb,
     Debounce.timers (Debounce.updateFileDebounced f s w) !! id = Some (due, cb)
     <-> (id = Debounce.nextTimer w /\ due = Debounce.now w + 500
          /\ cb = {| Debounce.owner := f; Debounce.path := f; Debounce.src := s |})
         \/ (Debounce.timers w !! id = Some (due, cb) /\ Debounce.owner cb <> f))
  /\ Debounce.debouncedOf (Debounce.updateFileDebounced f s w)
     = <[f := {| Debounce.timeout := Some (Debounce.nextTimer w); Debounce.wait := 500 |}]>
         (Debounce.debouncedOf w)
  /\ Debounce.now (Debounce.updateFileDebounced f s w) = Debounce.now w
  /\ Debounce.nextTimer (Debounce.updateFileDebounced f s w) = S (Debounce.nextTimer w)
  /\ MTS.fileParsers (Debounce.service (Debounce.updateFileDebounced f s w))
     = MTS.fileParsers (Debounce.service w)
  /\ MTS.pendingParses (Debounce.service (Debounce.updateFileDebounced f s w))
     = <[f := s]> (MTS.pendingParses (Debounce.service w))
  /\ MTS.ongoingParses (Debounce.service (Debounce.updateFileDebounced f s w))
     = MTS.ongoingParses (Debounce.service w)
  /\ MTS.parseDebounceMs (Debounce.service (Debounce.updateFileDebounced f s w))
     = MTS.parseDebounceMs (Debounce.service w)
  /\ (forall g, g ∈ MTS.debouncedParseByFile
                      (Debounce.service (Debounce.updateFileDebounced f s w))
                <-> g = f \/ g ∈ MTS.debouncedParseByFile (Debounce.service w)).
Proof.
  intros Ho. pose proof (orderly_wired w Ho) as Hw.
  destruct Ho as (H1 & H2 & H3 & H4 & H5 & H6 & H7).
  assert (Hfresh : forall id due cb, Debounce.timers w !! id = Some (due, cb) ->
                                     id <> Debounce.nextTimer w).
  { intros id due cb Ht. destruct (H6 id due cb Ht) as (_ & (d & Hd & Hto) & _).
    pose proof (proj2 (H4 _ d Hd) id Hto). lia. }
  unfold Debounce.updateFileDebounced.
  destruct (decide (f ∈ MTS.debouncedParseByFile (Debounce.service w))) as [Hin|Hnin].
  - destruct (proj1 (H3 f) Hin) as [d Hd]. destruct (H4 f d Hd) as [Hwait _].
    match goal with
    | |- context [Debounce.callDebounced f f s ?w2] =>
        destruct (callDebounced_spec w2 f f s d Hw Hd Hfresh) as (T & E1 & E2 & E3 & E4)
    end.
    rewrite Hwait in T, E1. rewrite E1, E2, E3, E4.
    cbn [Debounce.withService Debounce.timers Debounce.debouncedOf
         Debounce.now Debounce.nextTimer Debounce.service MTS.fileParsers
         MTS.pendingParses MTS.ongoingParses MTS.parseDebounceMs
         MTS.debouncedParseByFile] in *.
    split; [exact T|]. repeat split; try tauto.
    intros [->|Hg]; assumption.
  - assert (Hd : Debounce.debouncedOf w !! f = None).
    { destruct (Debounce.debouncedOf w !! f) eqn:E; [|reflexivity].
      exfalso. apply Hnin, H3. eauto. }
    match goal with
    | |- context [Debounce.callDebounced f f s ?x] => set (w2 := x)
    end.
    assert (Hw2 : wired w2).
    { subst w2. split; cbn [Debounce.withService Debounce.timers Debounce.debouncedOf].
      - intros f1 g1 d1 e1 id Hf1 Hg1 Ht1 Ht2.
        apply lookup_insert_Some in Hf1 as [[<- <-]|[Hn1 Hf1]]; [discriminate|].
        apply lookup_insert_Some in Hg1 as [[<- <-]|[Hn2 Hg1]]; [discriminate|].
        exact (H5 f1 g1 d1 e1 id Hf1 Hg1 Ht1 Ht2).
      - intros id due cb Ht. destruct (proj2 Hw id due cb Ht) as (d & Hd' & Hto).
        exists d. split; [|exact Hto]. rewrite lookup_insert_ne; [exact Hd'|].
        intros Heq. rewrite <- Heq in Hd'. congruence. }
    assert (Hd2 : Debounce.debouncedOf w2 !! f
                  = Some {| Debounce.timeout := None;
                            Debounce.wait := MTS.parseDebounceMs (Debounce.service w) |}).
    { subst w2. cbn [Debounce.withService Debounce.debouncedOf].
      apply lookup_insert_eq. }
    destruct (callDebounced_spec w2 f f s _ Hw2 Hd2 Hfresh) as (T & E1 & E2 & E3 & E4).
    cbn [Debounce.wait] in T, E1. rewrite H2 in T, E1. rewrite E1, E2, E3, E4.
    subst w2.
    cbn [Debounce.withService Debounce.timers Debounce.debouncedOf
         Debounce.now Debounce.nextTimer Debounce.service MTS.fileParsers
         MTS.pendingParses MTS.ongoingParses MTS.parseDebounceMs
         MTS.debouncedParseByFile] in *.
    rewrite insert_insert_eq.
    split; [|repeat split].
    + intros id due cb. rewrite T. split.
      * intros [Hl|[Ht Hne]]; [left; exact Hl|right; split; assumption].
      * intros [Hl|[Ht Hne]]; [left; exact Hl|right; split; assumption].
    + intros Hg. apply elem_of_union in Hg as [Hg|Hg]; [left|right; exact Hg].
      apply elem_of_singleton in Hg. exact Hg.
    + intros [->|Hg]; apply elem_of_union; [left; apply elem_of_singleton; reflexivity|].
      right. exact Hg.
Qed.

(** A world in which the file [f] has been parsed and its timers are gone
    is orderly again. *)
Lemma parsed_orderly (w w' : Debounce.world) (f s : string) :
  orderly w ->
  (forall id due cb,
     Debounce.timers w' !! id = Some (due, cb)
     <-> Debounce.timers w !! id = Some (due, cb) /\ Debounce.owner cb <> f) ->
  Debounce.debouncedOf w' = Debounce.debouncedOf w ->
  Debounce.nextTimer w' = Debounce.nextTimer w ->
  Debounce.service w' = MTS._parseFile (Debounce.service w) f s ->
  orderly w'.
Proof.
  intros (H1 & H2 & H3 & H4 & H5 & H6 & H7) T Ed En Es.
  destruct (parseFile_idle (Debounce.service w) f s H1) as (P1 & P2 & P3 & P4 & P5).
  unfold orderly. rewrite Ed, En, Es, P2, P3, P4, P5.
  split; [reflexivity|]. split; [exact H2|]. split; [exact H3|].
  split; [exact H4|]. split; [exact H5|]. split.
  - intros id due cb Ht. apply T in Ht as [Ht Hne].
    destruct (H6 id due cb Ht) as (Hp & Hd & Hpp).
    split; [exact Hp|]. split; [exact Hd|].
    rewrite lookup_delete_ne by congruence. exact Hpp.
  - intros g s' Hg. apply lookup_delete_Some in Hg as [Hne Hg].
    destruct (H7 g s' Hg) as (id & due & Ht). exists id, due.
    unfold pendingFor in *. apply T. split; [exact Ht|]. cbn. congruence.
Qed.

(** A call that changes the parsers or the configuration only. *)
Lemma service_orderly (w : Debounce.world) (s : MTS.t) :
  orderly w ->
  MTS.pendingParses s = MTS.pendingParses (Debounce.service w) ->
  MTS.ongoingParses s = MTS.ongoingParses (Debounce.service w) ->
  MTS.parseDebounceMs s = MTS.parseDebounceMs (Debounce.service w) ->
  MTS.debouncedParseByFile s = MTS.debouncedParseByFile (Debounce.service w) ->
  orderly (Debounce.withService w s).
Proof.
  intros Ho E1 E2 E3 E4. unfold orderly, pendingFor in *.
  cbn [Debounce.withService Debounce.service Debounce.debouncedOf Debounce.timers
       Debounce.nextTimer]. rewrite E1, E2, E3, E4. exact Ho.
Qed.

Lemma updateFileImmediate_spec (w : Debounce.world) (f s : string) :
  orderly w ->
  (forall id due cb,
     Debounce.timers (Debounce.updateFileImmediate f s w) !! id = Some (due, cb)
     <-> Debounce.timers w !! id = Some (due, cb) /\ Debounce.owner cb <> f)
  /\ Debounce.debouncedOf (Debounce.updateFileImmediate f s w) = Debounce.debouncedOf w
  /\ Debounce.now (Debounce.updateFileImmediate f s w) = Debounce.now w
  /\ Debounce.nextTimer (Debounce.updateFileImmediate f s w) = Debounce.nextTimer w
  /\ Debounce.service (Debounce.updateFileImmediate f s w)
     = MTS._parseFile (Debounce.service w) f s.
Proof.
  intros Ho. pose proof (orderly_wired w Ho) as Hw.
  destruct (cancel_timers w f Hw) as (T & E1 & E2 & E3 & E4).
  assert (Heq : (if decide (f ∈ MTS.debouncedParseByFile (Debounce.service w))
                 then Debounce.cancel f w else w) = Debounce.cancel f w).
  { destruct (decide (f ∈ MTS.debouncedParseByFile (Debounce.service w))) as [_|Hnin];
      [reflexivity|].
    unfold Debounce.cancel.
    destruct (Debounce.debouncedOf w !! f) eqn:E; [|reflexivity].
    exfalso. apply Hnin. apply (proj1 (proj2 (proj2 Ho))). eauto. }
  unfold Debounce.updateFileImmediate. rewrite Heq.
  cbn [Debounce.withService Debounce.timers Debounce.debouncedOf Debounce.now
       Debounce.nextTimer Debounce.service].
  rewrite E4. split; [exact T|]. repeat split; assumption.
Qed.

Lemma updateFileDebounced_orderly (w : Debounce.world) (f s : string) :
  orderly w -> orderly (Debounce.updateFileDebounced f s w).
Proof.
  intros Ho.
  destruct (updateFileDebounced_spec w f s Ho)
    as (T & Ed & Enow & En & Ef & Ep & Eo & Em & Eb).
  destruct Ho as (H1 & H2 & H3 & H4 & H5 & H6 & H7).
  unfold orderly. rewrite Ed, En, Ep, Eo, Em.
  split; [exact H1|]. split; [exact H2|]. split; [|split; [|split; [|split]]].
  - intros g. rewrite Eb. destruct (decide (g = f)) as [->|Hne].
    + rewrite lookup_insert_eq. split; [eauto|]. intros _. left. reflexivity.
    + rewrite lookup_insert_ne by congruence. rewrite <- H3. split; [|tauto].
      intros [Hg|Hg]; [contradiction|exact Hg].
  - intros g d Hg. apply lookup_insert_Some in Hg as [[<- <-]|[Hne Hg]].
    + cbn. split; [reflexivity|]. intros id Hid. inversion Hid. lia.
    + destruct (H4 g d Hg) as [Hwt Hlt]. split; [exact Hwt|].
      intros id Hid. pose proof (Hlt id Hid). lia.
  - intros f1 g1 d1 e1 id Hf1 Hg1 Ht1 Ht2.
    apply lookup_insert_Some in Hf1 as [[<- <-]|[Hn1 Hf1]];
      apply lookup_insert_Some in Hg1 as [[<- <-]|[Hn2 Hg1]].
    + reflexivity.
    + cbn in Ht1. inversion Ht1; subst id.
      pose proof (proj2 (H4 g1 e1 Hg1) _ Ht2). lia.
    + cbn in Ht2. inversion Ht2; subst id.
      pose proof (proj2 (H4 f1 d1 Hf1) _ Ht1). lia.
    + exact (H5 f1 g1 d1 e1 id Hf1 Hg1 Ht1 Ht2).
  - intros id due cb Ht. apply T in Ht as [(-> & -> & ->)|[Ht Hne]].
    + cbn [Debounce.path Debounce.owner Debounce.src]. rewrite !lookup_insert_eq.
      split; [reflexivity|]. split; [|reflexivity]. eauto.
    + destruct (H6 id due cb Ht) as (Hp & Hd & Hpp).
      rewrite !lookup_insert_ne by congruence. repeat split; assumption.
  - intros g s' Hg. unfold pendingFor.
    apply lookup_insert_Some in Hg as [[<- <-]|[Hne Hg]].
    + exists (Debounce.nextTimer w), (Debounce.now w + 500). apply T. left. auto.
    + destruct (H7 g s' Hg) as (id & due & Ht). exists id, due. apply T. right.
      split; [exact Ht|]. cbn. congruence.
Qed.

Lemma fire_orderly (id : nat) (w : Debounce.world) :
  orderly w -> orderly (Debounce.fire id w).
Proof.
  intros Ho. destruct (Debounce.timers w !! id) as [[due cb]|] eqn:Ht.
  - destruct (fire_pending id w due cb Ho Ht) as (Et & Ed & _ & En & Es).
    apply (parsed_orderly w _ (Debounce.owner cb) (Debounce.src cb) Ho);
      try assumption.
    intros id' due' cb'. rewrite Et, lookup_delete_Some.
    destruct Ho as (_ & _ & _ & _ & H5 & H6 & _). split.
    + intros [Hne Ht']. split; [exact Ht'|]. intros Hown.
      destruct (H6 id due cb Ht) as (_ & (d & Hd & Hto) & _).
      destruct (H6 id' due' cb' Ht') as (_ & (d' & Hd' & Hto') & _).
      rewrite Hown, Hd in Hd'. inversion Hd'; subst d'. congruence.
    + intros [Ht' Hne]. split; [|exact Ht']. intros ->. congruence.
  - rewrite (fire_idle id w Ht). exact Ho.
Qed.

(** Running timers one after the other: the world stays orderly, the clock
    and the handles stay, and the timers left are timers of before that
    were not run. *)
Lemma fires_orderly (l : list nat) (w : Debounce.world) :
  orderly w ->
  orderly (fold_left (fun w id => Debounce.fire id w) l w)
  /\ Debounce.now (fold_left (fun w id => Debounce.fire id w) l w) = Debounce.now w
  /\ forall id due cb,
       Debounce.timers (fold_left (fun w id => Debounce.fire id w) l w) !! id
       = Some (due, cb) ->
       Debounce.timers w !! id = Some (due, cb) /\ ~ In id l.
Proof.
  revert w. induction l as [|a l IH]; intros w Ho; cbn [fold_left].
  - split; [exact Ho|]. split; [reflexivity|]. intros id due cb Ht. split; [exact Ht|].
    intros [].
  - destruct (IH (Debounce.fire a w) (fire_orderly a w Ho)) as (Ho' & Enow & Hsub).
    split; [exact Ho'|].
    assert (Hfire : Debounce.now (Debounce.fire a w) = Debounce.now w
                    /\ forall id due cb,
                         Debounce.timers (Debounce.fire a w) !! id = Some (due, cb) ->
                         Debounce.timers w !! id = Some (due, cb) /\ id <> a).
    { destruct (Debounce.timers w !! a) as [[due cb]|] eqn:Ht.
      - destruct (fire_pending a w due cb Ho Ht) as (Et & _ & En & _).
        split; [exact En|]. intros id due' cb'. rewrite Et, lookup_delete_Some.
        intros [Hne Ht']. split; [exact Ht'|congruence].
      - rewrite (fire_idle a w Ht). split; [reflexivity|].
        intros id due cb Ht'. split; [exact Ht'|congruence]. }
    destruct Hfire as [En Hf]. split; [congruence|].
    intros id due cb Ht. destruct (Hsub id due cb Ht) as [Ht1 Hnin].
    destruct (Hf id due cb Ht1) as [Ht2 Hne]. split; [exact Ht2|].
    intros [Heq|Hin]; [congruence|contradiction].
Qed.

Lemma insertDue_In (a x : nat * Z) (l : list (nat * Z)) :
  In x (Debounce.insertDue a l) <-> x = a \/ In x l.
Proof.
  induction l as [|b l IH]; cbn [Debounce.insertDue].
  - cbn. intuition.
  - destruct (Debounce.comesBefore a b); cbn [In]; [intuition|].
    rewrite IH. cbn [In]. intuition.
Qed.

(** The timers the host runs are the pending timers that are due. *)
Lemma dueTimers_In (w : Debounce.world) (id : nat) :
  In id (Debounce.dueTimers w)
  <-> exists due cb, Debounce.timers w !! id = Some (due, cb) /\ due <= Debounce.now w.
Proof.
  unfold Debounce.dueTimers. rewrite in_map_iff.
  assert (Hsort : forall l x, In x (fold_right Debounce.insertDue [] l) <-> In x l).
  { induction l as [|a l IH]; intros x; cbn [fold_right]; [reflexivity|].
    rewrite insertDue_In, IH. cbn [In]. intuition. }
  split.
  - intros ([i due] & <- & Hin). apply (proj1 (Hsort _ _)) in Hin.
    apply List.filter_In in Hin as [Hin Hdue]. apply in_map_iff in Hin as ([i' [due' cb]] & Heq & Hin).
    cbn in Heq. inversion Heq; subst i' due'. cbn [fst snd] in *.
    exists due, cb. split; [|lia].
    apply list_elem_of_In, elem_of_map_to_list in Hin. exact Hin.
  - intros (due & cb & Ht & Hdue). exists (id, due). split; [reflexivity|].
    apply (proj2 (Hsort _ _)). apply List.filter_In. split; [|cbn; lia].
    apply in_map_iff. exists (id, (due, cb)). split; [reflexivity|].
    apply list_elem_of_In, elem_of_map_to_list. exact Ht.
Qed.

(** Setting the clock changes nothing else. *)
Lemma clock_orderly (w : Debounce.world) (t : Z) :
  orderly w ->
  orderly {| Debounce.service := Debounce.service w;
             Debounce.debouncedOf := Debounce.debouncedOf w;
             Debounce.now := t;
             Debounce.nextTimer := Debounce.nextTimer w;
             Debounce.timers := Debounce.timers w |}.
Proof. intros Ho. exact Ho. Qed.

Lemma elapse_spec (w : Debounce.world) (t : Z) :
  orderly w -> punctual w ->
  orderly (Debounce.elapse t w) /\ punctual (Debounce.elapse t w)
  /\ Debounce.now (Debounce.elapse t w) = Z.max (Debounce.now w) t.
Proof.
  intros Ho Hp. unfold Debounce.elapse.
  match goal with
  | |- context [fold_left _ (Debounce.dueTimers ?x) _] => set (w0 := x)
  end.
  destruct (fires_orderly (Debounce.dueTimers w0) w0 (clock_orderly w _ Ho))
    as (Ho' & Enow & Hsub).
  split; [exact Ho'|]. split; [|exact Enow].
  intros id due cb Ht. rewrite Enow. destruct (Hsub id due cb Ht) as [Ht0 Hnin].
  subst w0. cbn [Debounce.now Debounce.timers] in *.
  pose proof (Hp id due cb Ht0) as Hb. split; [|lia].
  destruct (Z_lt_le_dec (Z.max (Debounce.now w) t) due) as [Hlt|Hle]; [exact Hlt|].
  exfalso. apply Hnin. apply dueTimers_In. exists due, cb. split; [exact Ht0|exact Hle].
Qed.

(** Every event keeps the world orderly and punctual. *)
Lemma step_orderly (w : Debounce.world) (e : Debounce.event) :
  orderly w -> punctual w ->
  orderly (Debounce.step w e) /\ punctual (Debounce.step w e)
  /\ Debounce.now w <= Debounce.now (Debounce.step w e).
Proof.
  intros Ho Hp. destruct e as [f s|f s|f s|f| |r ps d|t]; cbn [Debounce.step].
  - split; [exact (updateFileDebounced_orderly w f s Ho)|].
    destruct (updateFileDebounced_spec w f s Ho) as (T & _ & Enow & _).
    rewrite Enow. split; [|lia]. intros id due cb Ht. rewrite Enow.
    apply T in Ht as [(-> & -> & ->)|[Ht _]]; [lia|exact (Hp id due cb Ht)].
  - destruct (updateFileImmediate_spec w f s Ho) as (T & Ed & Enow & En & Es).
    split; [exact (parsed_orderly w _ f s Ho T Ed En Es)|]. rewrite Enow.
    split; [|lia]. intros id due cb Ht. rewrite Enow.
    apply T in Ht as [Ht _]. exact (Hp id due cb Ht).
  - split; [apply service_orderly; try assumption; reflexivity|].
    split; [exact Hp|]. cbn. lia.
  - split; [apply service_orderly; try assumption; reflexivity|].
    split; [exact Hp|]. cbn. lia.
  - split; [apply service_orderly; try assumption; reflexivity|].
    split; [exact Hp|]. cbn. lia.
  - split; [apply service_orderly; try assumption; reflexivity|].
    split; [exact Hp|]. cbn. lia.
  - destruct (elapse_spec w t Ho Hp) as (Ho' & Hp' & Enow).
    split; [exact Ho'|]. split; [exact Hp'|]. lia.
Qed.

Lemma start_orderly (r : string) (ps : list string) (d : Z) :
  orderly (Debounce.start r ps d) /\ punctual (Debounce.start r ps d).
Proof.
  unfold orderly, punctual, pendingFor, Debounce.start, MTS.create.
  cbn [Debounce.service Debounce.debouncedOf Debounce.timers Debounce.nextTimer
       Debounce.now MTS.ongoingParses MTS.parseDebounceMs MTS.debouncedParseByFile
       MTS.pendingParses].
  split; [|intros id due cb Ht; rewrite lookup_empty in Ht; discriminate].
  split; [reflexivity|]. split; [reflexivity|]. split; [|split; [|split; [|split]]].
  - intros f. rewrite lookup_empty. split.
    + intros Hin. exfalso. exact (proj1 (elem_of_empty f) Hin).
    + intros [x Hx]. discriminate.
  - intros f d0 Hd. rewrite lookup_empty in Hd. discriminate.
  - intros f g d0 e id Hd. rewrite lookup_empty in Hd. discriminate.
  - intros id due cb Ht. rewrite lookup_empty in Ht. discriminate.
  - intros f s Hs. rewrite lookup_empty in Hs. discriminate.
Qed.

Lemma steps_orderly (es : list Debounce.event) (w : Debounce.world) :
  orderly w -> punctual w ->
  orderly (fold_left Debounce.step es w) /\ punctual (fold_left Debounce.step es w).
Proof.
  revert w. induction es as [|e es IH]; intros w Ho Hp; cbn [fold_left].
  - split; assumption.
  - destruct (step_orderly w e Ho Hp) as (Ho' & Hp' & _). exact (IH _ Ho' Hp').
Qed.

Lemma worldAfter_orderly (r : string) (ps : list string) (d : Z)
      (es : list Debounce.event) :
  orderly (worldAfter r ps d es) /\ punctual (worldAfter r ps d es).
Proof.
  destruct (start_orderly r ps d) as [Ho Hp]. exact (steps_orderly es _ Ho Hp).
Qed.

(** Running a timer of another file leaves what belongs to [f]. *)
Lemma fire_frame (a : nat) (w : Debounce.world) (f : string) :
  orderly w ->
  (forall due cb, Debounce.timers w !! a = Some (due, cb) -> Debounce.owner cb <> f) ->
  MTS.fileParsers (Debounce.service (Debounce.fire a w)) !! f
  = MTS.fileParsers (Debounce.service w) !! f
  /\ MTS.pendingParses (Debounce.service (Debounce.fire a w)) !! f
     = MTS.pendingParses (Debounce.service w) !! f
  /\ forall id due cb,
       Debounce.owner cb = f ->
       (Debounce.timers (Debounce.fire a w) !! id = Some (due, cb)
        <-> Debounce.timers w !! id = Some (due, cb)).
Proof.
  intros Ho Hother. destruct (Debounce.timers w !! a) as [[due cb]|] eqn:Ht.
  - destruct (fire_pending a w due cb Ho Ht) as (Et & _ & _ & _ & Es).
    destruct (parseFile_idle (Debounce.service w) (Debounce.owner cb) (Debounce.src cb)
                (proj1 Ho)) as (P1 & P2 & _).
    pose proof (Hother due cb eq_refl) as Hne.
    rewrite Es, P1, P2, Et, lookup_insert_ne, lookup_delete_ne by exact Hne.
    split; [reflexivity|]. split; [reflexivity|].
    intros id due' cb' Hown. rewrite lookup_delete_Some. split; [tauto|].
    intros Ht'. split; [|exact Ht']. intros ->. congruence.
  - rewrite (fire_idle a w Ht). repeat split; tauto.
Qed.

Lemma fires_frame (l : list nat) (w : Debounce.world) (f : string) :
  orderly w ->
  (forall id due cb, In id l -> Debounce.timers w !! id = Some (due, cb) ->
                     Debounce.owner cb <> f) ->
  MTS.fileParsers (Debounce.service (fold_left (fun w id => Debounce.fire id w) l w)) !! f
  = MTS.fileParsers (Debounce.service w) !! f
  /\ MTS.pendingParses
       (Debounce.service (fold_left (fun w id => Debounce.fire id w) l w)) !! f
     = MTS.pendingParses (Debounce.service w) !! f
  /\ forall id due cb,
       Debounce.owner cb = f ->
       (Debounce.timers (fold_left (fun w id => Debounce.fire id w) l w) !! id
        = Some (due, cb)
        <-> Debounce.timers w !! id = Some (due, cb)).
Proof.
  revert w. induction l as [|a l IH]; intros w Ho Hother; cbn [fold_left].
  - repeat split; tauto.
  - destruct (fire_frame a w f Ho) as (F1 & F2 & F3).
    { intros due cb. apply Hother. left. reflexivity. }
    destruct (IH (Debounce.fire a w) (fire_orderly a w Ho)) as (G1 & G2 & G3).
    { intros id due cb Hin Ht.
      destruct (fires_orderly [a] w Ho) as (_ & _ & Hsub).
      destruct (Hsub id due cb Ht) as [Ht0 _].
      apply (Hother id due cb); [right; exact Hin|exact Ht0]. }
    rewrite G1, G2, F1, F2. split; [reflexivity|]. split; [reflexivity|].
    intros id due cb Hown. rewrite (G3 id due cb Hown). exact (F3 id due cb Hown).
Qed.

(** Running the timer of a file parses the source the timer carries. *)
Lemma fire_runs (id : nat) (w : Debounce.world) (due : Z) (cb : Debounce.later) :
  orderly w ->
  Debounce.timers w !! id = Some (due, cb) ->
  MTS.fileParsers (Debounce.service (Debounce.fire id w)) !! Debounce.owner cb
  = Some (MapParser.constructor (Debounce.src cb))
  /\ MTS.pendingParses (Debounce.service (Debounce.fire id w)) !! Debounce.owner cb = None
  /\ noTimerFor (Debounce.fire id w) (Debounce.owner cb).
Proof.
  intros Ho Ht. destruct (fire_pending id w due cb Ho Ht) as (Et & _ & _ & _ & Es).
  destruct (parseFile_idle (Debounce.service w) (Debounce.owner cb) (Debounce.src cb)
              (proj1 Ho)) as (P1 & P2 & _).
  rewrite Es, P1, P2, lookup_insert_eq, lookup_delete_eq.
  split; [reflexivity|]. split; [reflexivity|].
  intros id' due' cb' Ht' Hown. rewrite Et in Ht'.
  apply lookup_delete_Some in Ht' as [Hne Ht'].
  destruct Ho as (_ & _ & _ & _ & _ & H6 & _).
  destruct (H6 id due cb Ht) as (_ & (d & Hd & Hto) & _).
  destruct (H6 id' due' cb' Ht') as (_ & (d' & Hd' & Hto') & _).
  rewrite Hown, Hd in Hd'. inversion Hd'; subst d'. congruence.
Qed.

Lemma fires_runs (l : list nat) (w : Debounce.world) (id : nat) (due : Z)
      (cb : Debounce.later) :
  orderly w ->
  Debounce.timers w !! id = Some (due, cb) ->
  In id l ->
  MTS.fileParsers
    (Debounce.service (fold_left (fun w id => Debounce.fire id w) l w))
    !! Debounce.owner cb
  = Some (MapParser.constructor (Debounce.src cb))
  /\ MTS.pendingParses
       (Debounce.service (fold_left (fun w id => Debounce.fire id w) l w))
       !! Debounce.owner cb = None
  /\ noTimerFor (fold_left (fun w id => Debounce.fire id w) l w) (Debounce.owner cb).
Proof.
  revert w. induction l as [|a l IH]; intros w Ho Ht Hin; [destruct Hin|].
  cbn [fold_left]. destruct (decide (a = id)) as [->|Hne].
  - destruct (fire_runs id w due cb Ho Ht) as (R1 & R2 & R3).
    destruct (fires_frame l (Debounce.fire id w) (Debounce.owner cb)
                (fire_orderly id w Ho)) as (F1 & F2 & F3).
    { intros id' due' cb' _ Ht'. exact (R3 id' due' cb' Ht'). }
    rewrite F1, F2. split; [exact R1|]. split; [exact R2|].
    intros id' due' cb' Ht' Hown. apply (F3 id' due' cb' Hown) in Ht'.
    exact (R3 id' due' cb' Ht' Hown).
  - destruct Hin as [Heq|Hin]; [congruence|].
    apply (IH (Debounce.fire a w) (fire_orderly a w Ho)); [|exact Hin].
    destruct (Debounce.timers w !! a) as [[due' cb']|] eqn:Hta.
    + destruct (fire_pending a w due' cb' Ho Hta) as (Et & _).
      rewrite Et, lookup_delete_ne by exact Hne. exact Ht.
    + rewrite (fire_idle a w Hta). exact Ht.
Qed.

(** Time that stays before the deadline of the pending parse of [f] leaves
    what belongs to [f]. *)
Lemma elapse_early (w : Debounce.world) (f s : string) (id0 : nat) (deadline t : Z) :
  orderly w -> punctual w ->
  pendingFor w f id0 deadline s ->
  t < deadline ->
  MTS.fileParsers (Debounce.service (Debounce.elapse t w)) !! f
  = MTS.fileParsers (Debounce.service w) !! f
  /\ MTS.pendingParses (Debounce.service (Debounce.elapse t w)) !! f
     = MTS.pendingParses (Debounce.service w) !! f
  /\ pendingFor (Debounce.elapse t w) f id0 deadline s.
Proof.
  intros Ho Hp Hpf Hlt. unfold Debounce.elapse.
  match goal with
  | |- context [fold_left _ (Debounce.dueTimers ?x) _] => set (w0 := x)
  end.
  destruct (fires_frame (Debounce.dueTimers w0) w0 f (clock_orderly w _ Ho))
    as (F1 & F2 & F3).
  { intros id due cb Hin Ht Hown. apply dueTimers_In in Hin as (due' & cb' & Ht' & Hdue).
    subst w0. cbn [Debounce.timers Debounce.now] in *.
    rewrite Ht in Ht'. inversion Ht'; subst due' cb'.
    destruct Ho as (_ & _ & _ & _ & _ & H6 & _).
    destruct (H6 id due cb Ht) as (_ & (d & Hd & Hto) & _).
    destruct (H6 id0 deadline _ Hpf) as (_ & (d' & Hd' & Hto') & _).
    cbn [Debounce.owner] in Hd'. rewrite Hown, Hd' in Hd. inversion Hd; subst d'.
    assert (id = id0) by congruence. subst id.
    unfold pendingFor in Hpf. rewrite Hpf in Ht. inversion Ht; subst due.
    pose proof (Hp id0 deadline _ Hpf). lia. }
  split; [exact F1|]. split; [exact F2|].
  unfold pendingFor. apply F3; [reflexivity|exact Hpf].
Qed.

(** Time that reaches the deadline runs the pending parse of [f]. *)
Lemma elapse_late (w : Debounce.world) (f s : string) (id0 : nat) (deadline t : Z) :
  orderly w ->
  pendingFor w f id0 deadline s ->
  deadline <= t ->
  MTS.fileParsers (Debounce.service (Debounce.elapse t w)) !! f
  = Some (MapParser.constructor s)
  /\ MTS.pendingParses (Debounce.service (Debounce.elapse t w)) !! f = None
  /\ noTimerFor (Debounce.elapse t w) f.
Proof.
  intros Ho Hpf Hle. unfold Debounce.elapse.
  match goal with
  | |- context [fold_left _ (Debounce.dueTimers ?x) _] => set (w0 := x)
  end.
  apply (fires_runs (Debounce.dueTimers w0) w0 id0 deadline
           {| Debounce.owner := f; Debounce.path := f; Debounce.src := s |}
           (clock_orderly w _ Ho) Hpf).
  apply dueTimers_In. exists deadline, {| Debounce.owner := f; Debounce.path := f; Debounce.src := s |}.
  split; [exact Hpf|]. subst w0. cbn [Debounce.now]. lia.
Qed.

(** Quiet events keep the pending parse of [f]. *)
Lemma quiet_keeps (es : list Debounce.event) (w : Debounce.world) (f s : string)
      (id0 : nat) (deadline : Z) :
  orderly w -> punctual w ->
  pendingFor w f id0 deadline s ->
  Forall (quiet f deadline) es ->
  orderly (fold_left Debounce.step es w)
  /\ punctual (fold_left Debounce.step es w)
  /\ pendingFor (fold_left Debounce.step es w) f id0 deadline s.
Proof.
  revert w. induction es as [|e es IH]; intros w Ho Hp Hpf Hq; cbn [fold_left].
  - split; [exact Ho|]. split; [exact Hp|exact Hpf].
  - inversion Hq as [|e' es' Hqe Hqes]; subst.
    destruct (step_orderly w e Ho Hp) as (Ho' & Hp' & _).
    apply (IH _ Ho' Hp'); [|exact Hqes].
    destruct e as [g s'|g s'|g s'|g| |r ps d|t]; cbn [Debounce.step quiet] in *.
    + destruct (updateFileDebounced_spec w g s' Ho) as (T & _).
      apply T. right. split; [exact Hpf|]. cbn. congruence.
    + destruct (updateFileImmediate_spec w g s' Ho) as (T & _).
      apply T. split; [exact Hpf|]. cbn. congruence.
    + exact Hpf.
    + exact Hpf.
    + exact Hpf.
    + exact Hpf.
    + exact (proj2 (proj2 (elapse_early w f s id0 deadline t Ho Hp Hpf Hqe))).
Qed.

(** X22.  After [updateFileDebounced(f, s)] the source [s] is pending.  As
    long as the file gets no further debounced or immediate update, time
    that stays within 500 ms of the call leaves the parser of the file to
    the other calls; the first time the host runs its timers 500 ms or more
    after the call, [s] is parsed: the file has the parser of [s], nothing
    is pending and no timer is left for it.  Calls of [updateFile],
    [removeFile], [clear] and [updateConfiguration] in between, and
    updates of other files, do not change this. *)
Theorem debounced_parse_after_quiet_period
        (r : string) (ps : list string) (d : Z) (es : list Debounce.event)
        (f s : string) (es' : list Debounce.event) :
  Forall (quiet f (Debounce.now (worldAfter r ps d es) + 500)) es' ->
  MTS.pendingParses
    (Debounce.service
       (fold_left Debounce.step es'
                  (Debounce.updateFileDebounced f s (worldAfter r ps d es)))) !! f
  = Some s
  /\ (forall t,
        t < Debounce.now (worldAfter r ps d es) + 500 ->
        MTS.fileParsers
          (Debounce.service
             (Debounce.elapse t
                (fold_left Debounce.step es'
                   (Debounce.updateFileDebounced f s (worldAfter r ps d es))))) !! f
        = MTS.fileParsers
            (Debounce.service
               (fold_left Debounce.step es'
                  (Debounce.updateFileDebounced f s (worldAfter r ps d es)))) !! f)
  /\ (forall t,
        Debounce.now (worldAfter r ps d es) + 500 <= t ->
        MTS.fileParsers
          (Debounce.service
             (Debounce.elapse t
                (fold_left Debounce.step es'
                   (Debounce.updateFileDebounced f s (worldAfter r ps d es))))) !! f
        = Some (MapParser.constructor s)
        /\ MTS.pendingParses
             (Debounce.service
                (Debounce.elapse t
                   (fold_left Debounce.step es'
                      (Debounce.updateFileDebounced f s (worldAfter r ps d es))))) !! f
           = None
        /\ noTimerFor
             (Debounce.elapse t
                (fold_left Debounce.step es'
                   (Debounce.updateFileDebounced f s (worldAfter r ps d es)))) f).
Proof.
  intros Hq. destruct (worldAfter_orderly r ps d es) as [Ho Hp].
  set (w := worldAfter r ps d es) in *.
  destruct (step_orderly w (Debounce.UpdateFileDebounced f s) Ho Hp) as (Ho1 & Hp1 & _).
  cbn [Debounce.step] in Ho1, Hp1.
  assert (Hpf : pendingFor (Debounce.updateFileDebounced f s w) f (Debounce.nextTimer w)
                           (Debounce.now w + 500) s).
  { destruct (updateFileDebounced_spec w f s Ho) as (T & _). apply T. left. auto. }
  destruct (quiet_keeps es' _ f s _ _ Ho1 Hp1 Hpf Hq) as (Ho2 & Hp2 & Hpf2).
  split; [|split].
  - destruct Ho2 as (_ & _ & _ & _ & _ & H6 & _).
    exact (proj2 (proj2 (H6 _ _ _ Hpf2))).
  - intros t Ht. exact (proj1 (elapse_early _ f s _ _ t Ho2 Hp2 Hpf2 Ht)).
  - intros t Ht. exact (elapse_late _ f s _ _ t Ho2 Hpf2 Ht).
Qed.

Lemma debounced_parse_after_quiet_period_witness :
  MTS.fileParsers
    (Debounce.service
       (Debounce.elapse 500
          (fold_left Debounce.step
             [Debounce.Elapse 100; Debounce.RemoveFile "a.au3";
              Debounce.UpdateFileDebounced "b.au3" "$mUser.age = 2"]
             (Debounce.updateFileDebounced "a.au3" "$mUser.name = 1"
                (worldAfter "" [] 3 []))))) !! "a.au3"
  = Some (MapParser.constructor "$mUser.name = 1").
Proof.
  refine (proj1 (proj2 (proj2 (debounced_parse_after_quiet_period
                                 "" [] 3 [] "a.au3" "$mUser.name = 1"
                                 [Debounce.Elapse 100; Debounce.RemoveFile "a.au3";
                                  Debounce.UpdateFileDebounced "b.au3" "$mUser.age = 2"]
                                 _)) 500 _)).
  - repeat constructor; cbn; try lia; discriminate.
  - cbn. lia.
Defined.

(** X23.  In every world a service reaches, a file has at most one pending
    timer; [pendingParses] has an entry for a file exactly while a timer
    is pending for it, and the entry is the source that timer will parse,
    under the path of the file; every pending timer is due later than now
    and no later than 500 ms from now. *)
Theorem one_pending_parse_per_file
        (r : string) (ps : list string) (d : Z) (es : list Debounce.event) :
  (forall id1 id2 due1 due2 cb1 cb2,
     Debounce.timers (worldAfter r ps d es) !! id1 = Some (due1, cb1) ->
     Debounce.timers (worldAfter r ps d es) !! id2 = Some (due2, cb2) ->
     Debounce.owner cb1 = Debounce.owner cb2 -> id1 = id2)
  /\ (forall f s,
        MTS.pendingParses (Debounce.service (worldAfter r ps d es)) !! f = Some s
        <-> exists id due, pendingFor (worldAfter r ps d es) f id due s)
  /\ (forall id due cb,
        Debounce.timers (worldAfter r ps d es) !! id = Some (due, cb) ->
        Debounce.path cb = Debounce.owner cb
        /\ Debounce.now (worldAfter r ps d es) < due
           <= Debounce.now (worldAfter r ps d es) + 500).
Proof.
  destruct (worldAfter_orderly r ps d es) as [Ho Hp].
  set (w := worldAfter r ps d es) in *.
  destruct Ho as (_ & _ & _ & _ & _ & H6 & H7). split; [|split].
  - intros id1 id2 due1 due2 cb1 cb2 Ht1 Ht2 Hown.
    destruct (H6 id1 due1 cb1 Ht1) as (_ & (d1 & Hd1 & Hto1) & _).
    destruct (H6 id2 due2 cb2 Ht2) as (_ & (d2 & Hd2 & Hto2) & _).
    rewrite Hown, Hd2 in Hd1. inversion Hd1; subst d2. congruence.
  - intros f s. split; [exact (H7 f s)|].
    intros (id & due & Hpf). exact (proj2 (proj2 (H6 _ _ _ Hpf))).
  - intros id due cb Ht. split; [exact (proj1 (H6 id due cb Ht))|exact (Hp id due cb Ht)].
Qed.

(** X24.  [updateFileImmediate(f, s)] cancels the pending debounced parse
    of the file: no timer and no pending source is left for it, and however
    much time passes afterwards the file keeps the parser of [s], so a
    source given to [updateFileDebounced] before never replaces it. *)
Theorem immediate_update_cancels_pending
        (r : string) (ps : list string) (d : Z) (es : list Debounce.event)
        (f s : string) :
  noTimerFor (Debounce.updateFileImmediate f s (worldAfter r ps d es)) f
  /\ MTS.pendingParses
       (Debounce.service (Debounce.updateFileImmediate f s (worldAfter r ps d es))) !! f
     = None
  /\ forall t,
       MTS.fileParsers
         (Debounce.service
            (Debounce.elapse t
               (Debounce.updateFileImmediate f s (worldAfter r ps d es)))) !! f
       = Some (MapParser.constructor s).
Proof.
  destruct (worldAfter_orderly r ps d es) as [Ho Hp].
  set (w := worldAfter r ps d es) in *.
  destruct (updateFileImmediate_spec w f s Ho) as (T & Ed & Enow & En & Es).
  destruct (parseFile_idle (Debounce.service w) f s (proj1 Ho)) as (P1 & P2 & _).
  assert (Hno : noTimerFor (Debounce.updateFileImmediate f s w) f).
  { intros id due cb Ht. apply T in Ht as [_ Hne]. exact Hne. }
  split; [exact Hno|]. split.
  - rewrite Es, P2. apply lookup_delete_eq.
  - intros t. unfold Debounce.elapse.
    match goal with
    | |- context [fold_left _ (Debounce.dueTimers ?x) _] => set (w0 := x)
    end.
    destruct (fires_frame (Debounce.dueTimers w0) w0 f) as (F1 & _).
    + apply clock_orderly. exact (parsed_orderly w _ f s Ho T Ed En Es).
    + intros id due cb _ Ht. exact (Hno id due cb Ht).
    + rewrite F1. subst w0. cbn [Debounce.service]. rewrite Es, P1.
      apply lookup_insert_eq.
Qed.

(** X25.  [removeFile], [clear] and [updateConfiguration] do not cancel a
    pending debounced parse: when a source is pending for a file, the file
    is given the parser of that source again once its timer is due, after
    any of these calls. *)
Theorem pending_parse_survives_removal
        (r : string) (ps : list string) (d : Z) (es : list Debounce.event)
        (f s : string) (e : Debounce.event) :
  MTS.pendingParses (Debounce.service (worldAfter r ps d es)) !! f = Some s ->
  e = Debounce.RemoveFile f \/ e = Debounce.Clear
  \/ (exists r' ps' d', e = Debounce.UpdateConfiguration r' ps' d') ->
  MTS.fileParsers (Debounce.service (Debounce.step (worldAfter r ps d es) e)) !! f = None
  /\ exists due,
       Debounce.now (worldAfter r ps d es) < due
       <= Debounce.now (worldAfter r ps d es) + 500
       /\ forall t,
            due <= t ->
            MTS.fileParsers
              (Debounce.service
                 (Debounce.elapse t (Debounce.step (worldAfter r ps d es) e))) !! f
            = Some (MapParser.constructor s).
Proof.
  intros Hpend He. destruct (worldAfter_orderly r ps d es) as [Ho Hp].
  set (w := worldAfter r ps d es) in *.
  destruct (proj2 (proj2 (proj2 (proj2 (proj2 (proj2 Ho))))) f s Hpend)
    as (id & due & Hpf).
  destruct (step_orderly w e Ho Hp) as (Ho' & _).
  assert (Hpf' : pendingFor (Debounce.step w e) f id due s).
  { destruct He as [->|[->|(r' & ps' & d' & ->)]]; exact Hpf. }
  split.
  - destruct He as [->|[->|(r' & ps' & d' & ->)]]; cbn.
    + apply lookup_delete_eq.
    + apply lookup_empty.
    + apply lookup_empty.
  - exists due. split; [exact (Hp id due _ Hpf)|].
    intros t Ht. exact (proj1 (elapse_late _ f s id due t Ho' Hpf' Ht)).
Qed.

Lemma pending_parse_survives_removal_witness :
  MTS.fileParsers
    (Debounce.service
       (Debounce.step
          (worldAfter "" [] 3 [Debounce.UpdateFileDebounced "a.au3" "$mUser.name = 1"])
          (Debounce.RemoveFile "a.au3"))) !! "a.au3" = None
  /\ exists due,
       Debounce.now
         (worldAfter "" [] 3 [Debounce.UpdateFileDebounced "a.au3" "$mUser.name = 1"])
       < due
       <= Debounce.now
            (worldAfter "" [] 3 [Debounce.UpdateFileDebounced "a.au3" "$mUser.name = 1"])
          + 500
       /\ forall t,
            due <= t ->
            MTS.fileParsers
              (Debounce.service
                 (Debounce.elapse t
                    (Debounce.step
                       (worldAfter "" [] 3
                          [Debounce.UpdateFileDebounced "a.au3" "$mUser.name = 1"])
                       (Debounce.RemoveFile "a.au3")))) !! "a.au3"
            = Some (MapParser.constructor "$mUser.name = 1").
Proof.
  apply (pending_parse_survives_removal
           "" [] 3 [Debounce.UpdateFileDebounced "a.au3" "$mUser.name = 1"]
           "a.au3" "$mUser.name = 1" (Debounce.RemoveFile "a.au3")).
  - vm_compute. reflexivity.
  - left. reflexivity.
Defined.
(** * The cache of include completions *)

Lemma indexOfFrom_found (x : string) (l : list string) (i : Z) :
  0 <= i -> (0 <= Arr.indexOfFrom i x l <-> In x l).
Proof.
  revert i. induction l as [|y l IH]; intros i Hi; cbn [Arr.indexOfFrom In].
  - split; [lia|tauto].
  - destruct (String.eqb y x) eqn:E.
    + apply String.eqb_eq in E. split; [auto|lia].
    + apply String.eqb_neq in E. rewrite IH by lia. split; [auto|].
      intros [Heq|Hin]; [contradiction|exact Hin].
Qed.

Lemma arraysMatch_incl (a b : list string) :
  Completions.arraysMatch a b = true
  <-> List.length a = List.length b /\ (forall v, In v a -> In v b).
Proof.
  unfold Completions.arraysMatch, Arr.length.
  destruct (Z.of_nat (List.length a) =? Z.of_nat (List.length b)) eqn:E; cbn [negb].
  - apply Z.eqb_eq in E. rewrite forallb_forall. split.
    + intros H. split; [lia|]. intros v Hv. apply (indexOfFrom_found v b 0); [lia|].
      apply Z.leb_le. exact (H v Hv).
    + intros [_ H] v Hv. apply Z.leb_le. apply (indexOfFrom_found v b 0); [lia|].
      exact (H v Hv).
  - apply Z.eqb_neq in E. split; [discriminate|]. intros [H _]. lia.
Qed.

(** X26.  [arraysMatch(arr1, arr2)] holds exactly when the arrays have the
    same length and every element of the first occurs in the second.  For
    a first array without repeated elements this is the same as the two
    arrays holding the same elements in some order; with repeated elements
    it is not, and the test is not symmetric: [x, x] matches [x, y], while
    [x, y] does not match [x, x]. *)
Theorem arraysMatch_same_elements (arr1 arr2 : list string) :
  (Completions.arraysMatch arr1 arr2 = true
   <-> List.length arr1 = List.length arr2 /\ (forall v, In v arr1 -> In v arr2))
  /\ (List.NoDup arr1 ->
      (Completions.arraysMatch arr1 arr2 = true <-> Permutation arr1 arr2))
  /\ (forall x y : string,
        x <> y ->
        Completions.arraysMatch [x; x] [x; y] = true
        /\ Completions.arraysMatch [x; y] [x; x] = false).
Proof.
  split; [exact (arraysMatch_incl arr1 arr2)|]. split.
  - intros Hnd. rewrite arraysMatch_incl. split.
    + intros [Hlen Hin]. apply NoDup_Permutation_bis; [exact Hnd|lia|exact Hin].
    + intros Hp. split; [exact (Permutation_length Hp)|].
      intros v. exact (Permutation_in v Hp).
  - intros x y Hne. split.
    + apply arraysMatch_incl. split; [reflexivity|].
      intros v [<-|[<-|[]]]; left; reflexivity.
    + destruct (Completions.arraysMatch [x; y] [x; x]) eqn:E; [|reflexivity].
      apply arraysMatch_incl in E as [_ Hin]. exfalso.
      destruct (Hin y (or_intror (or_introl eq_refl))) as [Heq|[Heq|[]]]; congruence.
Qed.

Section Cache.

Context {V : Type}.

Implicit Types (m : JSMap.t V) (k : string) (v : V).

Lemma get_None m k : JSMap.get k m = None <-> ~ In k (JSMap.keys m).
Proof.
  induction m as [|[k' v'] m IH]; cbn [JSMap.get JSMap.keys List.map In fst].
  - tauto.
  - destruct (String.eqb k' k) eqn:E.
    + apply String.eqb_eq in E. split; [discriminate|]. intros H. exfalso. auto.
    + apply String.eqb_neq in E. unfold JSMap.keys in IH. rewrite IH. tauto.
Qed.

Lemma keys_set m k v :
  JSMap.keys (JSMap.set k v m)
  = match JSMap.get k m with
    | Some _ => JSMap.keys m
    | None => JSMap.keys m ++ [k]
    end.
Proof.
  induction m as [|[k' v'] m IH]; cbn [JSMap.get JSMap.set JSMap.keys List.map fst];
    [reflexivity|].
  destruct (String.eqb k' k) eqn:E; [reflexivity|].
  cbn [JSMap.keys List.map fst]. unfold JSMap.keys in IH. rewrite IH.
  destruct (JSMap.get k m); reflexivity.
Qed.

Lemma get_set m k k' v :
  JSMap.get k' (JSMap.set k v m) = if String.eqb k k' then Some v else JSMap.get k' m.
Proof.
  induction m as [|[k0 v0] m IH]; cbn [JSMap.get JSMap.set].
  - destruct (String.eqb k k'); reflexivity.
  - destruct (String.eqb k0 k) eqn:E; cbn [JSMap.get].
    + apply String.eqb_eq in E. subst k0. destruct (String.eqb k k'); reflexivity.
    + rewrite IH. destruct (String.eqb k0 k') eqn:E'; [|reflexivity].
      apply String.eqb_eq in E'. subst k0. rewrite (String.eqb_sym k k'), E. reflexivity.
Qed.

Lemma delete_absent m k :
  JSMap.get k m = None -> JSMap.delete k m = m.
Proof.
  induction m as [|[k0 v0] m IH]; cbn [JSMap.get JSMap.delete]; [reflexivity|].
  destruct (String.eqb k0 k); [discriminate|]. intros H. rewrite (IH H). reflexivity.
Qed.

Lemma delete_sub m k k' :
  In k' (JSMap.keys (JSMap.delete k m)) -> In k' (JSMap.keys m).
Proof.
  induction m as [|[k0 v0] m IH]; cbn [JSMap.delete JSMap.keys List.map fst In];
    [tauto|].
  destruct (String.eqb k0 k); cbn [JSMap.keys List.map fst In]; [tauto|].
  intros [H|H]; [left; exact H|right; exact (IH H)].
Qed.

Lemma delete_NoDup m k :
  List.NoDup (JSMap.keys m) ->
  List.NoDup (JSMap.keys (JSMap.delete k m)) /\ JSMap.get k (JSMap.delete k m) = None.
Proof.
  induction m as [|[k0 v0] m IH]; cbn [JSMap.delete JSMap.keys List.map fst JSMap.get].
  - intros _. split; [constructor|reflexivity].
  - intros Hnd. inversion Hnd as [|x l Hnin Hnd']; subst.
    destruct (String.eqb k0 k) eqn:E.
    + apply String.eqb_eq in E. subst k0. split; [exact Hnd'|].
      apply get_None. exact Hnin.
    + destruct (IH Hnd') as [IH1 IH2]. cbn [JSMap.keys List.map fst JSMap.get].
      rewrite E. split; [|exact IH2]. constructor; [|exact IH1].
      intros Hin. apply Hnin. exact (delete_sub m k k0 Hin).
Qed.

Lemma get_delete_ne m k k' :
  k <> k' -> JSMap.get k' (JSMap.delete k m) = JSMap.get k' m.
Proof.
  intros Hne. induction m as [|[k0 v0] m IH]; cbn [JSMap.delete JSMap.get];
    [reflexivity|].
  destruct (String.eqb k0 k) eqn:E; cbn [JSMap.get].
  - apply String.eqb_eq in E. subst k0.
    destruct (String.eqb k k') eqn:E'; [|reflexivity].
    apply String.eqb_eq in E'. contradiction.
  - rewrite IH. reflexivity.
Qed.

Lemma set_NoDup m k v :
  List.NoDup (JSMap.keys m) -> List.NoDup (JSMap.keys (JSMap.set k v m)).
Proof.
  intros Hnd. rewrite keys_set. destruct (JSMap.get k m) eqn:E; [exact Hnd|].
  apply get_None in E. apply List.NoDup_app; [exact Hnd| |].
  - repeat constructor. intros [].
  - intros x Hx [<-|[]]. contradiction.
Qed.

Lemma size_keys m : JSMap.size m = Z.of_nat (List.length (JSMap.keys m)).
Proof. unfold JSMap.size, Arr.length, JSMap.keys. rewrite List.length_map. reflexivity. Qed.

Lemma size_delete m k : JSMap.size (JSMap.delete k m) <= JSMap.size m.
Proof.
  unfold JSMap.size, Arr.length.
  induction m as [|[k0 v0] m IH]; cbn [JSMap.delete List.length]; [lia|].
  destruct (String.eqb k0 k); cbn [List.length]; lia.
Qed.

Lemma size_delete_present m k v :
  JSMap.get k m = Some v -> JSMap.size (JSMap.delete k m) = JSMap.size m - 1.
Proof.
  unfold JSMap.size, Arr.length.
  induction m as [|[k0 v0] m IH]; cbn [JSMap.get JSMap.delete List.length];
    [discriminate|].
  destruct (String.eqb k0 k); cbn [List.length]; [lia|].
  intros H. specialize (IH H). lia.
Qed.

Lemma size_set m k v :
  JSMap.size (JSMap.set k v m)
  = match JSMap.get k m with
    | Some _ => JSMap.size m
    | None => JSMap.size m + 1
    end.
Proof.
  rewrite !size_keys, keys_set. destruct (JSMap.get k m); [reflexivity|].
  rewrite List.length_app. cbn [List.length]. lia.
Qed.

End Cache.

(** [enforceCacheLimit] on a cache one entry over the limit at most. *)
Lemma enforceCacheLimit_spec (c : JSMap.t Completions.cached) :
  List.NoDup (JSMap.keys c) ->
  JSMap.size c <= 51 ->
  List.NoDup (JSMap.keys (Completions.enforceCacheLimit c))
  /\ JSMap.size (Completions.enforceCacheLimit c) <= 50
  /\ (JSMap.size c <= 50 -> Completions.enforceCacheLimit c = c)
  /\ (JSMap.size c = 51 ->
      JSMap.keys (Completions.enforceCacheLimit c) = tl (JSMap.keys c)
      /\ forall k, Some k <> JSMap.firstKey c ->
                   JSMap.get k (Completions.enforceCacheLimit c) = JSMap.get k c).
Proof.
  intros Hnd Hsz. unfold Completions.enforceCacheLimit, Completions.MAX_CACHE_SIZE.
  destruct (50 <? JSMap.size c) eqn:E.
  - apply Z.ltb_lt in E. destruct c as [|[k v] c].
    + unfold JSMap.size, Arr.length in E. cbn [List.length] in E. lia.
    + cbn [JSMap.firstKey JSMap.delete]. rewrite String.eqb_refl.
      cbn [JSMap.keys List.map fst tl] in *. inversion Hnd; subst.
      unfold JSMap.size, Arr.length in *. cbn [List.length] in *.
      split; [assumption|]. split; [lia|]. split; [lia|]. intros _.
      split; [reflexivity|]. intros k' Hk'. cbn [JSMap.get].
      destruct (String.eqb k k') eqn:E'; [|reflexivity].
      apply String.eqb_eq in E'. congruence.
  - apply Z.ltb_ge in E. split; [exact Hnd|]. split; [exact E|].
    split; [reflexivity|]. lia.
Qed.

(** The cache keeps one entry per document and stays within the limit. *)
Lemma step_within (c : JSMap.t Completions.cached) (e : Completions.event) :
  List.NoDup (JSMap.keys c) /\ JSMap.size c <= 50 ->
  List.NoDup (JSMap.keys (Completions.step c e))
  /\ JSMap.size (Completions.step c e) <= 50.
Proof.
  intros [Hnd Hsz]. destruct e as [p host doc incl|lang doc]; cbn [Completions.step].
  - unfold Completions.getIncludeCompletions.
    assert (Hbuild : forall entry,
               List.NoDup (JSMap.keys (Completions.enforceCacheLimit
                                         (JSMap.set doc entry c)))
               /\ JSMap.size (Completions.enforceCacheLimit (JSMap.set doc entry c))
                  <= 50).
    { intros entry.
      destruct (enforceCacheLimit_spec (JSMap.set doc entry c)) as (H1 & H2 & _).
      - apply set_NoDup. exact Hnd.
      - rewrite size_set. destruct (JSMap.get doc c); lia.
      - split; assumption. }
    destruct (JSMap.get doc c) as [entry|] eqn:Eg; [|apply Hbuild].
    destruct (Completions.arraysMatch incl (Completions.files entry));
      [|apply Hbuild].
    cbn [snd]. destruct (delete_NoDup c doc Hnd) as [Hnd' Hget].
    split; [apply set_NoDup; exact Hnd'|].
    rewrite size_set, Hget, (size_delete_present c doc entry Eg). lia.
  - unfold Completions.onDidCloseTextDocument.
    destruct (String.eqb lang "autoit"); [|split; assumption].
    split; [exact (proj1 (delete_NoDup c doc Hnd))|].
    pose proof (size_delete c doc). lia.
Qed.

Lemma cacheAfter_within (es : list Completions.event) :
  List.NoDup (JSMap.keys (cacheAfter es)) /\ JSMap.size (cacheAfter es) <= 50.
Proof.
  unfold cacheAfter.
  assert (H : forall c, List.NoDup (JSMap.keys c) /\ JSMap.size c <= 50 ->
                        List.NoDup (JSMap.keys (fold_left Completions.step es c))
                        /\ JSMap.size (fold_left Completions.step es c) <= 50).
  { induction es as [|e es IH]; intros c Hc; cbn [fold_left]; [exact Hc|].
    apply IH. apply step_within. exact Hc. }
  apply H. split; [constructor|]. unfold JSMap.size, Arr.length. cbn [List.length]. lia.
Qed.

(** X27.  The cache of include completions never holds more than
    [MAX_CACHE_SIZE] (50) documents, whatever calls of
    [getIncludeCompletions] and closings of documents it has gone
    through. *)
Theorem include_cache_within_limit (es : list Completions.event) :
  JSMap.size (cacheAfter es) <= Completions.MAX_CACHE_SIZE.
Proof. exact (proj2 (cacheAfter_within es)). Qed.

Lemma arraysMatch_refl (a : list string) : Completions.arraysMatch a a = true.
Proof. apply arraysMatch_incl. split; [reflexivity|auto]. Qed.

Lemma arraysMatch_trans (a b c : list string) :
  Completions.arraysMatch a b = true -> Completions.arraysMatch b c = true ->
  Completions.arraysMatch a c = true.
Proof.
  rewrite !arraysMatch_incl. intros [L1 I1] [L2 I2]. split; [congruence|auto].
Qed.

(** After a call for [doc] the cache holds, for [doc], the items the call
    returned, with files that the includes of the call match. *)
Lemma getIncludeCompletions_cached (c : JSMap.t Completions.cached) (p : bool)
      (host : string -> option (list string)) (doc : string) (incl : list string) :
  List.NoDup (JSMap.keys c) -> JSMap.size c <= 50 ->
  exists entry,
    JSMap.get doc (snd (Completions.getIncludeCompletions p host c doc incl))
    = Some entry
    /\ Completions.completions entry
       = fst (Completions.getIncludeCompletions p host c doc incl)
    /\ Completions.arraysMatch incl (Completions.files entry) = true.
Proof.
  intros Hnd Hsz. unfold Completions.getIncludeCompletions.
  assert (Hbuild : forall entry,
             Completions.files entry = incl ->
             JSMap.get doc (Completions.enforceCacheLimit (JSMap.set doc entry c))
             = Some entry).
  { intros entry _.
    destruct (enforceCacheLimit_spec (JSMap.set doc entry c)) as (_ & _ & H3 & H4).
    - apply set_NoDup. exact Hnd.
    - rewrite size_set. destruct (JSMap.get doc c); lia.
    - pose proof (size_set c doc entry) as Hs.
      destruct (JSMap.get doc c) as [old|] eqn:Eg.
      + rewrite H3 by lia. rewrite get_set, String.eqb_refl. reflexivity.
      + destruct (Z.eq_dec (JSMap.size c) 50) as [H50|Hlt].
        * destruct (H4 ltac:(lia)) as [_ Hget]. rewrite Hget.
          -- rewrite get_set, String.eqb_refl. reflexivity.
          -- destruct c as [|[k v] c']; [unfold JSMap.size, Arr.length in H50; cbn [List.length] in H50; lia|].
             cbn [JSMap.set JSMap.get] in *.
             destruct (String.eqb k doc) eqn:E; [discriminate|].
             cbn [JSMap.firstKey]. apply String.eqb_neq in E. congruence.
        * rewrite H3 by lia. rewrite get_set, String.eqb_refl. reflexivity. }
  destruct (JSMap.get doc c) as [entry|] eqn:Eg.
  - destruct (Completions.arraysMatch incl (Completions.files entry)) eqn:Em.
    + exists entry. cbn [fst snd]. rewrite get_set, String.eqb_refl.
      split; [reflexivity|]. split; [reflexivity|exact Em].
    + eexists. cbn [fst snd]. split; [apply Hbuild; reflexivity|].
      split; [reflexivity|apply arraysMatch_refl].
  - eexists. cbn [fst snd]. split; [apply Hbuild; reflexivity|].
    split; [reflexivity|apply arraysMatch_refl].
Qed.

(** X28.  A request that follows a request for the same document, with
    includes that match those of the first ([arraysMatch]), is answered
    from the cache: it returns the items the first request returned,
    whatever the include files hold by then and whatever [parenTriggerOn]
    is by then. *)
Theorem include_cache_answers_again
        (es : list Completions.event) (p p' : bool)
        (host host' : string -> option (list string)) (doc : string)
        (incl incl' : list string) :
  Completions.arraysMatch incl' incl = true ->
  fst (Completions.getIncludeCompletions p' host'
         (snd (Completions.getIncludeCompletions p host (cacheAfter es) doc incl))
         doc incl')
  = fst (Completions.getIncludeCompletions p host (cacheAfter es) doc incl).
Proof.
  intros Hm. destruct (cacheAfter_within es) as [Hnd Hsz].
  destruct (getIncludeCompletions_cached (cacheAfter es) p host doc incl Hnd Hsz)
    as (entry & Hget & Hitems & Hfiles).
  rewrite <- Hitems.
  set (c' := snd (Completions.getIncludeCompletions p host (cacheAfter es) doc incl))
    in *.
  unfold Completions.getIncludeCompletions at 1. rewrite Hget.
  rewrite (arraysMatch_trans incl' incl _ Hm Hfiles). reflexivity.
Qed.

Lemma include_cache_answers_again_witness :
  fst (Completions.getIncludeCompletions true (fun _ => Some ["_New"])
         (snd (Completions.getIncludeCompletions false
                 (fun _ => Some ["_Old"]) (cacheAfter []) "file:///a.au3"
                 ["lib.au3"; "util.au3"]))
         "file:///a.au3" ["util.au3"; "lib.au3"])
  = fst (Completions.getIncludeCompletions false
           (fun _ => Some ["_Old"]) (cacheAfter []) "file:///a.au3"
           ["lib.au3"; "util.au3"]).
Proof.
  apply (include_cache_answers_again [] false true (fun _ => Some ["_Old"])
           (fun _ => Some ["_New"]) "file:///a.au3" ["lib.au3"; "util.au3"]
           ["util.au3"; "lib.au3"]).
  vm_compute. reflexivity.
Defined.

(** X29.  The order in which documents leave the cache.  A request
    answered from the cache moves its document to the end; a request for a
    document that is not cached puts it at the end, and when the cache
    holds 50 documents the first one leaves; a request that rebuilds the
    entry of a cached document, because its includes have changed, leaves
    the document at its old place. *)
Theorem include_cache_order
        (es : list Completions.event) (p : bool)
        (host : string -> option (list string)) (doc : string) (incl : list string) :
  (forall entry,
     JSMap.get doc (cacheAfter es) = Some entry ->
     Completions.arraysMatch incl (Completions.files entry) = true ->
     JSMap.keys (snd (Completions.getIncludeCompletions p host (cacheAfter es) doc incl))
     = JSMap.keys (JSMap.delete doc (cacheAfter es)) ++ [doc])
  /\ (forall entry,
        JSMap.get doc (cacheAfter es) = Some entry ->
        Completions.arraysMatch incl (Completions.files entry) = false ->
        JSMap.keys (snd (Completions.getIncludeCompletions p host (cacheAfter es)
                           doc incl))
        = JSMap.keys (cacheAfter es))
  /\ (JSMap.get doc (cacheAfter es) = None ->
      JSMap.size (cacheAfter es) < 50 ->
      JSMap.keys (snd (Completions.getIncludeCompletions p host (cacheAfter es) doc incl))
      = JSMap.keys (cacheAfter es) ++ [doc])
  /\ (JSMap.get doc (cacheAfter es) = None ->
      JSMap.size (cacheAfter es) = 50 ->
      JSMap.keys (snd (Completions.getIncludeCompletions p host (cacheAfter es) doc incl))
      = tl (JSMap.keys (cacheAfter es)) ++ [doc]).
Proof.
  destruct (cacheAfter_within es) as [Hnd Hsz]. set (c := cacheAfter es) in *.
  unfold Completions.getIncludeCompletions.
  split; [|split; [|split]].
  - intros entry Hget Hm. rewrite Hget, Hm. cbn [snd].
    rewrite keys_set, (proj2 (delete_NoDup c doc Hnd)). reflexivity.
  - intros entry Hget Hm. rewrite Hget, Hm. cbn [snd].
    match goal with
    | |- context [Completions.enforceCacheLimit ?x] =>
        destruct (enforceCacheLimit_spec x) as (_ & _ & H3 & _)
    end.
    + apply set_NoDup. exact Hnd.
    + rewrite size_set, Hget. lia.
    + rewrite H3 by (rewrite size_set, Hget; lia). rewrite keys_set, Hget. reflexivity.
  - intros Hget Hlt. rewrite Hget. cbn [snd].
    match goal with
    | |- context [Completions.enforceCacheLimit ?x] =>
        destruct (enforceCacheLimit_spec x) as (_ & _ & H3 & _)
    end.
    + apply set_NoDup. exact Hnd.
    + rewrite size_set, Hget. lia.
    + rewrite H3 by (rewrite size_set, Hget; lia). rewrite keys_set, Hget. reflexivity.
  - intros Hget H50. rewrite Hget. cbn [snd].
    match goal with
    | |- context [Completions.enforceCacheLimit ?x] =>
        destruct (enforceCacheLimit_spec x) as (_ & _ & _ & H4)
    end.
    + apply set_NoDup. exact Hnd.
    + rewrite size_set, Hget. lia.
    + destruct H4 as [H4 _]; [rewrite size_set, Hget; lia|].
      rewrite H4, keys_set, Hget.
      destruct c as [|[k v] c']; [unfold JSMap.size, Arr.length in H50; cbn [List.length] in H50; lia|]. reflexivity.
Qed.

(** * Completions of Map keys *)

(** The loop over [functionKeys]: the keys that are not empty and not seen
    yet are added, each once, in the order of their first occurrence. *)
Lemma fold_addFunctionKey (mapName : string) (fks : list FunctionKey.t)
      (seen : JSSet.t) (items : list Completions.CompletionItem) :
  fold_left (Completions.addFunctionKey mapName) fks (seen, items)
  = (seen ++ List.filter (fun y => negb (JSSet.has y seen))
                (firstOccurrences (List.filter nonEmpty (List.map FunctionKey.key fks))),
     items ++ List.map (fieldItem mapName)
                (List.filter (fun y => negb (JSSet.has y seen))
                   (firstOccurrences
                      (List.filter nonEmpty (List.map FunctionKey.key fks))))).
Proof.
  revert seen items. induction fks as [|[k a] fks IH]; intros seen items;
    cbn [fold_left List.map List.filter firstOccurrences FunctionKey.key].
  - rewrite !List.app_nil_r. reflexivity.
  - unfold Completions.addFunctionKey at 2. cbn [FunctionKey.key].
    fold (nonEmpty k). destruct (nonEmpty k) eqn:Hk; cbn [andb].
    + cbn [firstOccurrences List.filter].
      destruct (JSSet.has k seen) eqn:Hs; cbn [negb].
      * rewrite IH, filter_twice.
        assert (Heq : forall l,
                   List.filter (fun y => negb (String.eqb y k) && negb (JSSet.has y seen)) l
                   = List.filter (fun y => negb (JSSet.has y seen)) l).
        { intros l. apply List.filter_ext. intros y.
          destruct (String.eqb_spec y k) as [->|Hne]; cbn; [rewrite Hs|]; reflexivity. }
        rewrite Heq. reflexivity.
      * unfold JSSet.add. rewrite Hs, IH, filter_twice.
        assert (Heq : forall l,
                   List.filter (fun y => negb (JSSet.has y (seen ++ [k]))) l
                   = List.filter
                       (fun y => negb (String.eqb y k) && negb (JSSet.has y seen)) l).
        { intros l. apply List.filter_ext. intros y. rewrite has_app.
          unfold JSSet.has at 2. cbn [existsb]. rewrite orb_false_r.
          destruct (String.eqb_spec y k) as [->|Hne]; cbn.
          - rewrite orb_true_r. reflexivity.
          - rewrite orb_false_r. reflexivity. }
        rewrite Heq, <- !List.app_assoc. reflexivity.
    + rewrite IH. reflexivity.
Qed.

Lemma add_NoDup (x : string) (s : JSSet.t) :
  List.NoDup s -> List.NoDup (JSSet.add x s).
Proof.
  intros Hnd. unfold JSSet.add. destruct (JSSet.has x s) eqn:E; [exact Hnd|].
  apply List.NoDup_app; [exact Hnd|repeat constructor; intros []|].
  intros y Hy [<-|[]]. apply has_In in Hy. congruence.
Qed.

Lemma add_all_NoDup (l : list string) (s : JSSet.t) :
  List.NoDup s -> List.NoDup (fold_left (fun s x => JSSet.add x s) l s).
Proof.
  revert s. induction l as [|x l IH]; intros s Hnd; cbn [fold_left]; [exact Hnd|].
  apply IH, add_NoDup, Hnd.
Qed.

Lemma mergeIncluded_distinct (readFile : string -> readResult) (mapName : string)
      (l : list string) (st st' : MTS.merge) :
  List.NoDup (MTS.allDirectKeys st) ->
  fold_left (MTS.mergeIncluded readFile mapName) l (Some st) = Some st' ->
  List.NoDup (MTS.allDirectKeys st').
Proof.
  revert st. induction l as [|f l IH]; intros st Hnd E; cbn [fold_left] in E.
  - inversion E; subst. exact Hnd.
  - assert (Hnone : forall l0, fold_left (MTS.mergeIncluded readFile mapName) l0 None
                               = None)
      by (induction l0 as [|x l0 IHl]; [reflexivity|exact IHl]).
    cbn [MTS.mergeIncluded mbind option_bind] in E.
    destruct (MTS.ensureParsed readFile (MTS.service st) f) as [svc|w].
    + destruct (MTS.getKeysForMap svc f mapName Infinity) as [ks|];
        cbn [mbind option_bind] in E.
      * refine (IH _ _ E). cbn [MTS.allDirectKeys]. apply add_all_NoDup, Hnd.
      * rewrite Hnone in E. discriminate.
    + refine (IH _ _ E). exact Hnd.
Qed.

(** The direct keys [getKeysForMapWithIncludes] returns are distinct. *)
Lemma withIncludes_distinct (includesOf : string -> list string)
      (readFile : string -> readResult) (this this' : MTS.t)
      (filePath mapName : string) (line : num) (keys : Keys.t)
      (warnings : list (string * string)) :
  MTS.getKeysForMapWithIncludes includesOf readFile this filePath mapName line
  = Some (keys, this', warnings) ->
  List.NoDup (Keys.directKeys keys).
Proof.
  unfold MTS.getKeysForMapWithIncludes. intros Hr.
  destruct (MTS.getKeysForMap this filePath mapName line) as [cur|]; [|discriminate].
  cbn [mbind option_bind] in Hr.
  match type of Hr with
  | context [fold_left ?f ?l ?st0] => destruct (fold_left f l st0) as [st'|] eqn:E
  end; cbn [mbind option_bind] in Hr; [|discriminate].
  inversion Hr; subst. cbn [Keys.directKeys]. unfold JSSet.toList.
  refine (mergeIncluded_distinct readFile mapName _ _ st' _ E).
  cbn [MTS.allDirectKeys]. unfold JSSet.ofList. apply add_all_NoDup. constructor.
Qed.

(** X30.  With the settings on, the items [getMapKeyCompletions] returns
    for the keys [getKeysForMapWithIncludes] resolved to are: one Property
    item for each direct key, in order, none twice; then, when function
    keys are shown, one Field item for each function key that is not the
    empty string, in the order of first occurrence, none twice.  A key that
    is both a direct key and a function key is suggested twice, once in
    each kind.  With [enableIntelligence] off, or when the keys could not
    be resolved, no item is returned. *)
Theorem map_key_completions
        (includesOf : string -> list string) (readFile : string -> readResult)
        (this this' : MTS.t) (filePath mapName : string) (line : num)
        (keys : Keys.t) (warnings : list (string * string)) (showFunctionKeys : bool) :
  MTS.getKeysForMapWithIncludes includesOf readFile this filePath mapName line
  = Some (keys, this', warnings) ->
  Completions.getMapKeyCompletions true showFunctionKeys mapName (Normal keys)
  = List.map (propertyItem mapName) (Keys.directKeys keys)
    ++ (if showFunctionKeys
        then List.map (fieldItem mapName)
               (firstOccurrences
                  (List.filter nonEmpty (List.map FunctionKey.key (Keys.functionKeys keys))))
        else [])
  /\ List.NoDup (Keys.directKeys keys)
  /\ List.NoDup
       (firstOccurrences
          (List.filter nonEmpty (List.map FunctionKey.key (Keys.functionKeys keys))))
  /\ (forall key,
        showFunctionKeys = true -> key <> EmptyString ->
        In key (Keys.directKeys keys) ->
        In key (List.map FunctionKey.key (Keys.functionKeys keys)) ->
        In (propertyItem mapName key)
           (Completions.getMapKeyCompletions true showFunctionKeys mapName (Normal keys))
        /\ In (fieldItem mapName key)
             (Completions.getMapKeyCompletions true showFunctionKeys mapName
                (Normal keys)))
  /\ Completions.getMapKeyCompletions false showFunctionKeys mapName (Normal keys) = []
  /\ (forall e enableIntelligence,
        Completions.getMapKeyCompletions enableIntelligence showFunctionKeys mapName
          (Throw e) = []).
Proof.
  intros E.
  assert (Hitems :
            Completions.getMapKeyCompletions true showFunctionKeys mapName (Normal keys)
            = List.map (propertyItem mapName) (Keys.directKeys keys)
              ++ (if showFunctionKeys
                  then List.map (fieldItem mapName)
                         (firstOccurrences
                            (List.filter nonEmpty
                               (List.map FunctionKey.key (Keys.functionKeys keys))))
                  else [])).
  { unfold Completions.getMapKeyCompletions. cbn [negb].
    destruct showFunctionKeys.
    - rewrite fold_addFunctionKey. cbn [snd JSSet.empty].
      f_equal. f_equal. apply filter_true.
    - rewrite List.app_nil_r. reflexivity. }
  split; [exact Hitems|]. split; [|split; [|split; [|split]]].
  - exact (withIncludes_distinct _ _ _ _ _ _ _ _ _ E).
  - apply NoDup_ListNoDup, firstOccurrences_NoDup.
  - intros key -> Hne Hd Hf. rewrite Hitems. split; apply in_or_app; [left|right].
    + apply in_map. exact Hd.
    + apply in_map. apply firstOccurrences_In. apply List.filter_In.
      split; [exact Hf|]. unfold nonEmpty. apply negb_true_iff.
      apply String.eqb_neq. exact Hne.
  - reflexivity.
  - intros e [|]; reflexivity.
Qed.

Lemma map_key_completions_witness :
  Completions.getMapKeyCompletions true true "$mUser"
    (Normal {| Keys.directKeys := ["name"];
               Keys.functionKeys :=
                 [ {| FunctionKey.key := "name"; FunctionKey.addedInFunction := true |};
                   {| FunctionKey.key := "id"; FunctionKey.addedInFunction := true |} ] |})
  = [propertyItem "$mUser" "name"; fieldItem "$mUser" "name"; fieldItem "$mUser" "id"].
Proof.
  refine (proj1 (map_key_completions (fun _ => []) (fun _ => ReadError "ENOENT")
                   filledTwice filledTwice "/workspace/fill.au3" "$mUser" (Fin 7)
                   _ [] true _)).
  vm_compute. reflexivity.
Defined.
